(** * Revision engine of couchbase-lite-core: rev trees, version vectors,
      vector documents and the upgrade from one scheme to the other.

    Shallow embedding of
    - [VersionVector.cc] (CBForest): [compareGen], [compareTo], [findPeerIter],
      [genOfAuthor], [incrementGen], [append], [versionMap], [mergedWith];
    - [RevTree.cc]: [get], [confirmLeaf], [_insert], [insert], [keepBody],
      [removeBodiesOnBranch], [prune], [purge], [compact], [sort],
      [checkForResolvedConflict], [markBranchAsNotConflict];
    - [VectorDocument.cc]: [_findRemote], [putExistingRevision],
      [resolveConflict];
    - [Database+Upgrade.cc]: [commonAncestor], the vector built by
      [upgradeDocumentVersioning], [upgradeRemoteRevs];
    - [c4Document.cc]: [generateDocRevID];
    - [Version.cc]: [writeASCII].

    Pointers to [Rev] objects are indices into the tree's storage arena;
    exceptions and failed assertions are values of an error type. *)

From Stdlib Require Import ZArith NArith Ascii String.
From stdpp Require Import base tactics option list strings gmap.

Open Scope N_scope.

(** ** Exceptions thrown by the engine ([error::_throw], [Assert]). *)

Inductive error :=
| BadVersionVector
| BadRevisionID
| NotFound
| InvalidParameter
| Conflict
| AssertionFailed
| Unimplemented
| DeltaBaseUnknown
| InvalidMemory   (* a [Rev*] outside the arena was dereferenced *)
| OutOfFuel       (* the model's bound on a pointer walk was exhausted *)
| Terminated.     (* an exception left a [noexcept] function *)

#[global] Instance error_eq_dec : EqDecision error.
Proof. solve_decision. Defined.

(** A computation that either returns or throws. *)
Inductive result (A : Type) :=
| Ok (a : A)
| Throw (e : error).
Arguments Ok {A} a.
Arguments Throw {A} e.

#[global] Instance result_ret : MRet result := fun _ a => Ok a.

#[global] Instance result_bind : MBind result := fun _ _ k m =>
  match m with
  | Ok a => k a
  | Throw e => Throw e
  end.

(** ** Version vectors (CBForest [VersionVector.cc]) *)

Module VV.

(** [typedef slice peerID], [typedef uint64_t generation]. *)
Definition peerID := string.
Definition generation := N.

Definition gen_modulus : N := 2 ^ 64.

(** [v.gen++] on a [uint64_t]. *)
Definition gen_succ (g : generation) : generation := (g + 1) mod gen_modulus.

Record version := mkVersion { gen : generation; author : peerID }.

#[global] Instance version_eq_dec : EqDecision version.
Proof. solve_decision. Defined.

(** [enum versionOrder] is declared in [VersionVector.hh]. The values are
    those by which [kOrderName] of [VectorDocument.cc] indexes the names,
    and [compareTo] combines them as bits:
    [kConflicting = kOlder | kNewer]. *)
Definition kSame : N := 0.
Definition kOlder : N := 1.
Definition kNewer : N := 2.
Definition kConflicting : N := 3.

Definition kMePeerID : peerID := "*"%string.
Definition kCASServerPeerID : peerID := "$"%string.

Definition isMerge (v : version) : bool := (gen v =? 0).

(** [slice::findByte]. *)
Definition findByte (s : string) (c : ascii) : bool :=
  bool_decide (c ∈ list_ascii_of_string s).

Definition isalpha (c : ascii) : bool :=
  let n := N_of_ascii c in
  ((65 <=? n) && (n <=? 90)) || ((97 <=? n) && (n <=? 122)).

Definition isnumber (c : ascii) : bool :=
  let n := N_of_ascii c in (48 <=? n) && (n <=? 57).

Definition base64_char (c : ascii) : bool :=
  isalpha c || isnumber c
  || bool_decide (c = "+"%char) || bool_decide (c = "/"%char)
  || bool_decide (c = "="%char).

Section Validation.

(** [kMaxAuthorSize] is declared in [VersionVector.hh]. *)
Variable kMaxAuthorSize : nat.

(** [version::validate]: [true] when nothing is thrown. *)
Definition validate (v : version) : bool :=
  let size := String.length (author v) in
  if bool_decide (size < 1)%nat || bool_decide (kMaxAuthorSize < size)%nat
  then false
  else if isMerge v
       then forallb base64_char (list_ascii_of_string (author v))
       else negb (findByte (author v) ","%char
                  || findByte (author v) "000"%char).

Record VersionVector := mkVV {
  _vers : list version;
  _changed : bool
}.

Definition emptyVV : VersionVector := mkVV [] false.

Definition count (vv : VersionVector) : nat := length (_vers vv).

(** [findPeerIter]: the iterator is an index, [None] is [_vers.end()]. *)
Fixpoint findPeerIter (vers : list version) (a : peerID) : option nat :=
  match vers with
  | [] => None
  | v :: rest =>
      if decide (author v = a) then Some 0%nat
      else S <$> findPeerIter rest a
  end.

(** [genOfAuthor], which is also [operator[] (peerID)]. *)
Definition genOfAuthor (vv : VersionVector) (a : peerID) : generation :=
  match findPeerIter (_vers vv) a with
  | Some i => from_option gen 0 (_vers vv !! i)
  | None => 0
  end.

(** [version::compareGen]. *)
Definition compareGen (a b : generation) : N :=
  if b <? a then kNewer else if a <? b then kOlder else kSame.

(** The body of the [for (auto &v : _vers)] loop of [compareTo];
    the first component is the new [o], the second is [true] when the
    loop is left by [break]. *)
Definition compareStep (other : VersionVector) (v : version) (o : N)
  : N * bool :=
  let othergen := genOfAuthor other (author v) in
  let '(o, brk) :=
    if gen v <? othergen then (N.lor o kOlder, false)
    else if othergen <? gen v then (N.lor o kNewer, false)
    else if o =? kSame then (o, true)
    else (o, false) in
  if brk then (o, true)
  else if o =? kConflicting then (o, true)
  else (o, false).

Fixpoint compareLoop (vers : list version) (other : VersionVector) (o : N)
  : N :=
  match vers with
  | [] => o
  | v :: rest =>
      let '(o, brk) := compareStep other v o in
      if brk then o else compareLoop rest other o
  end.

(** [VersionVector::compareTo(const VersionVector&)]. *)
Definition compareTo (this other : VersionVector) : N :=
  let countDiff := (Z.of_nat (count this) - Z.of_nat (count other))%Z in
  let o := if (countDiff <? 0)%Z then kOlder
           else if (0 <? countDiff)%Z then kNewer
           else kSame in
  compareLoop (_vers this) other o.

(** [VersionVector::compareTo(const version&)]. *)
Definition compareToVersion (this : VersionVector) (v : version) : N :=
  match findPeerIter (_vers this) (author v) with
  | None => kOlder
  | Some i =>
      let mine := from_option gen 0 (_vers this !! i) in
      if mine <? gen v then kOlder
      else if (mine =? gen v) && bool_decide (i = 0%nat) then kSame
      else kNewer
  end.

(** [incrementGen]. The iterator [versP] that [findPeerIter] returns is
  inside [_vers], so the [None] branch of the lookup is never taken. *)
Definition incrementGen (vv : VersionVector) (a : peerID)
  : result VersionVector :=
  match findPeerIter (_vers vv) a with
  | Some versP =>
      match _vers vv !! versP with
      | Some v =>
          if isMerge v then Throw BadVersionVector
          else
            let v := mkVersion (gen_succ (gen v)) (author v) in
            Ok (mkVV (v :: delete versP (_vers vv)) true)
      | None => Throw AssertionFailed
      end
  | None =>
      let v := mkVersion 1 a in
      if validate v then Ok (mkVV (v :: _vers vv) true)
      else Throw BadVersionVector
  end.

(** [append]. *)
Definition append (vv : VersionVector) (vers : version)
  : result VersionVector :=
  if validate vers then Ok (mkVV (_vers vv ++ [vers]) true)
  else Throw BadVersionVector.

(** [class versionMap]: the hash table built by [add]ing every version
    in order, so a later entry of a peer overwrites an earlier one. *)
Definition versionMap_add (m : gmap string generation) (v : version)
  : gmap string generation := <[author v := gen v]> m.

Definition versionMap (vec : VersionVector) : gmap string generation :=
  foldl versionMap_add ∅ (_vers vec).

Definition versionMap_get (m : gmap string generation) (a : peerID)
  : generation := default 0 (m !! a).

(** One iteration of the loop of [mergedWith], at index [i]. *)
Definition mergeStep (this other : VersionVector)
    (myMap otherMap : gmap string generation) (i : nat)
    (result0 : VersionVector) : result VersionVector :=
  r1 ← match _vers this !! i with
        | Some vers =>
            let othergen := versionMap_get otherMap (author vers) in
            if othergen <=? gen vers then append result0 vers
            else Ok result0
        | None => Ok result0
        end ;
  match _vers other !! i with
  | Some vers =>
      let mygen := versionMap_get myMap (author vers) in
      if mygen <? gen vers then append r1 vers else Ok r1
  | None => Ok r1
  end.

Fixpoint mergeLoop (this other : VersionVector)
    (myMap otherMap : gmap string generation) (idx : list nat)
    (result0 : VersionVector) : result VersionVector :=
  match idx with
  | [] => Ok result0
  | i :: idx =>
      r ← mergeStep this other myMap otherMap i result0 ;
      mergeLoop this other myMap otherMap idx r
  end.

(** [mergedWith]. *)
Definition mergedWith (this other : VersionVector)
  : result VersionVector :=
  let myMap := versionMap this in
  let otherMap := versionMap other in
  mergeLoop this other myMap otherMap
    (seq 0 (Nat.max (count this) (count other))) emptyVV.

End Validation.

(** *** Vocabulary of the properties of version vectors *)

(** The peers of a vector, in order. *)
Definition authors (l : list version) : list peerID := author <$> l.

(** Does some version of [vers] have a smaller (greater) generation than
    [other] records for its peer? These are the [kOlder] and [kNewer]
    bits that the loop of [compareTo] accumulates. *)
Definition olderIn (vers : list version) (other : VersionVector) : bool :=
  existsb (fun v => gen v <? genOfAuthor other (author v)) vers.
Definition newerIn (vers : list version) (other : VersionVector) : bool :=
  existsb (fun v => genOfAuthor other (author v) <? gen v) vers.

Definition ord (older newer : bool) : N :=
  N.lor (if older then kOlder else kSame) (if newer then kNewer else kSame).

(** The peers of one vector are among the peers of the other. *)
Definition nested (a b : VersionVector) : Prop :=
  authors (_vers a) ⊆ authors (_vers b)
  ∨ authors (_vers b) ⊆ authors (_vers a).

(** Both vectors are empty, or their first versions name the same peer. *)
Definition same_head (a b : VersionVector) : Prop :=
  author <$> head (_vers a) = author <$> head (_vers b).

(** The entry of peer [p], when the vector has one, and whether it is a
    merge marker. *)
Definition peerEntry (vv : VersionVector) (p : peerID) : option version :=
  i ← findPeerIter (_vers vv) p; _vers vv !! i.

Definition mergeEntry (vv : VersionVector) (p : peerID) : Prop :=
  ∃ w, peerEntry vv p = Some w ∧ gen w = 0.

(** The versions [mergedWith] takes from [this] and from [other]. *)
Definition fromThis (other : VersionVector) (v : version) : bool :=
  genOfAuthor other (author v) <=? gen v.
Definition fromOther (this : VersionVector) (v : version) : bool :=
  genOfAuthor this (author v) <? gen v.

Definition mergedList (a b : VersionVector) : list version :=
  filter (fun v => fromThis b v = true) (_vers a)
  ++ filter (fun v => fromOther a v = true) (_vers b).

(** The invariant of the data model: no two elements share a peer, every
    author is valid, and no generation is 0. *)
Definition valid_vector (kMax : nat) (vv : VersionVector) : Prop :=
  Forall (fun v => validate kMax v = true) (_vers vv).

Definition wf_vector (kMax : nat) (vv : VersionVector) : Prop :=
  NoDup (authors (_vers vv))
  ∧ Forall (fun v => validate kMax v = true ∧ gen v ≠ 0) (_vers vv).

(** The vectors of scenarios S4 and S5, and two single-version vectors
    of different peers. *)
Definition vv_of (l : list (N * string)) : VersionVector :=
  mkVV (map (fun p => mkVersion (fst p) (snd p)) l) false.

Definition S4_a : VersionVector := vv_of [(2, "X"); (1, "Y")]%string.
Definition S4_b : VersionVector := vv_of [(1, "X"); (1, "Y")]%string.
Definition S5_b : VersionVector := vv_of [(1, "X"); (3, "Y")]%string.
Definition only_X : VersionVector := vv_of [(1, "X")]%string.
Definition only_Y : VersionVector := vv_of [(1, "Y")]%string.

(** *** The other operations of [VersionVector.cc] *)

(** [version::compareTo(const VersionVector&)]: the answer of the
    vector, with [kOlder] and [kNewer] exchanged. *)
Definition versionCompareTo (v : version) (vv : VersionVector) : N :=
  let o := compareToVersion vv v in
  if o =? kOlder then kNewer
  else if o =? kNewer then kOlder
  else o.

(** [compactMyPeerID] and [expandMyPeerID]; [copyAuthor] copies the
    bytes of the peer ID. *)
Definition setAuthor (a : peerID) (v : version) : version :=
  mkVersion (gen v) a.

Definition compactMyPeerID (vv : VersionVector) (myID : peerID)
  : VersionVector :=
  match findPeerIter (_vers vv) myID with
  | Some versP => mkVV (alter (setAuthor kMePeerID) versP (_vers vv)) true
  | None => vv
  end.

Definition expandMyPeerID (vv : VersionVector) (myID : peerID)
  : VersionVector :=
  match findPeerIter (_vers vv) kMePeerID with
  | Some versP => mkVV (alter (setAuthor myID) versP (_vers vv)) true
  | None => vv
  end.

(** [VersionVector::operator=]: [reset], then [append] every version of
    the other vector. *)
Fixpoint appendAll (kMaxAuthorSize : nat) (vv : VersionVector)
    (l : list version) : result VersionVector :=
  match l with
  | [] => Ok vv
  | v :: rest =>
      vv ← append kMaxAuthorSize vv v; appendAll kMaxAuthorSize vv rest
  end.

(** [VersionVector::reset]. *)
Definition reset (vv : VersionVector) : VersionVector := mkVV [] false.

(** The argument of [operator=] is a reference: [v] is [None] when it
    is the vector itself, whose versions [reset] has cleared before the
    loop reads them. *)
Definition assign (kMaxAuthorSize : nat) (this : VersionVector)
    (v : option VersionVector) : result VersionVector :=
  let this := reset this in
  appendAll kMaxAuthorSize this (_vers (default this v)).

(** Both functions rename the first entry of one peer. *)
Definition renamePeer (from to : peerID) (vv : VersionVector)
  : VersionVector :=
  match findPeerIter (_vers vv) from with
  | Some versP => mkVV (alter (setAuthor to) versP (_vers vv)) true
  | None => vv
  end.

Definition renamed (from to : peerID) (v : version) : version :=
  if decide (author v = from) then setAuthor to v else v.

End VV.

(** ** Revision trees ([RevTree.cc]) *)

Module RT.

(** Modelled from the spec: [RevID.hh] is not among the sources; a revID is
    the pair (generation, digest) of the data model, and two revIDs are
    equal iff both components are. [generation()] returns an [unsigned]. *)
Record revid := mkRevid { generation : N; digest : string }.

#[global] Instance revid_eq_dec : EqDecision revid.
Proof. solve_decision. Defined.

(** [const Rev*]: an index into [_revsStorage]; [None] is [nullptr]. *)
Definition ptr := nat.

(** [Rev::Flags], a [uint8_t] bit set; the bit values are those of the
    public revision flags. The declaration is in [RevTree.hh]. *)
Definition kNoFlags : N := 0.
Definition kDeleted : N := 1.
Definition kLeaf : N := 2.
Definition kNew : N := 4.
Definition kHasAttachments : N := 8.
Definition kKeepBody : N := 16.
Definition kIsConflict : N := 32.
Definition kClosed : N := 64.
Definition kPurge : N := 128.

Record Rev := mkRev {
  revID : revid;
  sequence : N;
  parent : option ptr;
  _body : option string;
  flags : N
}.

#[global] Instance Rev_eq_dec : EqDecision Rev.
Proof. solve_decision. Defined.

Definition hasFlag (r : Rev) (f : N) : bool := negb (N.land (flags r) f =? 0).
Definition isLeaf (r : Rev) : bool := hasFlag r kLeaf.
Definition isDeleted (r : Rev) : bool := hasFlag r kDeleted.
Definition isConflict (r : Rev) : bool := hasFlag r kIsConflict.
Definition isClosed (r : Rev) : bool := hasFlag r kClosed.
Definition keepBodyFlag (r : Rev) : bool := hasFlag r kKeepBody.
Definition isNew (r : Rev) : bool := hasFlag r kNew.
Definition isMarkedForPurge (r : Rev) : bool := hasFlag r kPurge.

Definition addFlag (f : N) (r : Rev) : Rev :=
  mkRev (revID r) (sequence r) (parent r) (_body r) (N.lor (flags r) f).
Definition clearFlag (f : N) (r : Rev) : Rev :=
  mkRev (revID r) (sequence r) (parent r) (_body r) (N.ldiff (flags r) f).
Definition setParent (p : option ptr) (r : Rev) : Rev :=
  mkRev (revID r) (sequence r) p (_body r) (flags r).
Definition setSequence (s : N) (r : Rev) : Rev :=
  mkRev (revID r) s (parent r) (_body r) (flags r).

(** Modelled from the spec: [Rev::removeBody] is declared in [RevTree.hh];
    it strips the body. Whether it also clears [kKeepBody] or
    [kHasAttachments] is not settled by the sources: the model keeps
    them, and the relations [kept] and [stripped], in which the
    properties of the operations that remove bodies are stated, leave
    the two flags open. *)
Definition Rev_removeBody (r : Rev) : Rev :=
  mkRev (revID r) (sequence r) (parent r) None (flags r).

Record RevTree := mkTree {
  _revsStorage : list Rev;
  _revs : list ptr;
  _remoteRevs : gmap N ptr;
  _sorted : bool;
  _changed : bool;
  _unknown : bool;
  _pruneDepth : nat
}.

Definition setStorage (st : list Rev) (t : RevTree) : RevTree :=
  mkTree st (_revs t) (_remoteRevs t) (_sorted t) (_changed t) (_unknown t)
         (_pruneDepth t).
Definition setRevs (revs : list ptr) (t : RevTree) : RevTree :=
  mkTree (_revsStorage t) revs (_remoteRevs t) (_sorted t) (_changed t)
         (_unknown t) (_pruneDepth t).
Definition setRemoteRevs (m : gmap N ptr) (t : RevTree) : RevTree :=
  mkTree (_revsStorage t) (_revs t) m (_sorted t) (_changed t) (_unknown t)
         (_pruneDepth t).
Definition setSorted (b : bool) (t : RevTree) : RevTree :=
  mkTree (_revsStorage t) (_revs t) (_remoteRevs t) b (_changed t)
         (_unknown t) (_pruneDepth t).
Definition setChanged (b : bool) (t : RevTree) : RevTree :=
  mkTree (_revsStorage t) (_revs t) (_remoteRevs t) (_sorted t) b
         (_unknown t) (_pruneDepth t).

(** [*p] for a [Rev* p]. A pointer outside the arena has no defined
    behaviour in the source; the model stops with [InvalidMemory]. *)
Definition deref (t : RevTree) (p : ptr) : result Rev :=
  match _revsStorage t !! p with
  | Some r => Ok r
  | None => Throw InvalidMemory
  end.

(** [p->f()] for a mutator [f] of [Rev]. *)
Definition update (p : ptr) (f : Rev -> Rev) (t : RevTree) : RevTree :=
  setStorage (alter f p (_revsStorage t)) t.

(** [RevTree::get(revid)]. *)
Fixpoint get_loop (t : RevTree) (revs : list ptr) (id : revid)
  : result (option ptr) :=
  match revs with
  | [] => Ok None
  | p :: rest =>
      rev ← deref t p;
      if decide (revID rev = id) then Ok (Some p) else get_loop t rest id
  end.

Definition get (t : RevTree) (id : revid) : result (option ptr) :=
  found ← get_loop t (_revs t) id;
  match found with
  | Some p => Ok (Some p)
  | None => if _unknown t then Throw AssertionFailed else Ok None
  end.

(** [RevTree::isLatestRemoteRevision]. *)
Definition isLatestRemoteRevision (t : RevTree) (p : ptr) : bool :=
  bool_decide (map_Exists (fun _ q => q = p) (_remoteRevs t)).

(** [Rev::isActive]. *)
Definition isActive (t : RevTree) (p : ptr) (r : Rev) : bool :=
  isLeaf r && (negb (isDeleted r) || isLatestRemoteRevision t p).

(** [RevTree::confirmLeaf]. *)
Fixpoint confirmLeaf_loop (t : RevTree) (revs : list ptr) (testRev : ptr)
  : result bool :=
  match revs with
  | [] => Ok true
  | p :: rest =>
      rev ← deref t p;
      if decide (parent rev = Some testRev) then Ok false
      else confirmLeaf_loop t rest testRev
  end.

Definition confirmLeaf (t : RevTree) (testRev : ptr)
  : result (RevTree * bool) :=
  noChild ← confirmLeaf_loop t (_revs t) testRev;
  if noChild : bool then
    _ ← deref t testRev; Ok (update testRev (addFlag kLeaf) t, true)
  else Ok (t, false).

(** [RevTree::keepBody]: the loop over the ancestors. *)
Fixpoint keepBody_loop (fuel : nat) (conflict : bool)
    (ancestor : option ptr) (t : RevTree) : result RevTree :=
  match ancestor with
  | None => Ok t
  | Some a =>
      match fuel with
      | O => Throw OutOfFuel
      | S fuel =>
          anc ← deref t a;
          if conflict && negb (isConflict anc) then Ok t
          else keepBody_loop fuel conflict (parent anc)
                             (update a (clearFlag kKeepBody) t)
      end
  end.

Definition keepBody (fuel : nat) (t : RevTree) (rev_in : ptr)
  : result RevTree :=
  _ ← deref t rev_in;
  let t := update rev_in (addFlag kKeepBody) t in
  rev ← deref t rev_in;
  let conflict := isConflict rev in
  t ← keepBody_loop fuel conflict (parent rev) t;
  Ok (setChanged true t).

(** [RevTree::removeBody]. *)
Definition removeBody (t : RevTree) (p : ptr) : result RevTree :=
  rev ← deref t p;
  if bool_decide (is_Some (_body rev))
  then Ok (setChanged true (update p Rev_removeBody t))
  else Ok t.

(** [RevTree::removeBodiesOnBranch]: a do-while over the ancestors. *)
Fixpoint removeBodiesOnBranch (fuel : nat) (t : RevTree) (p : ptr)
  : result RevTree :=
  match fuel with
  | O => Throw OutOfFuel
  | S fuel =>
      t ← removeBody t p;
      rev ← deref t p;
      match parent rev with
      | Some q => removeBodiesOnBranch fuel t q
      | None => Ok t
      end
  end.

Definition insertFlagMask : N :=
  N.lor (N.lor kDeleted kClosed) (N.lor kHasAttachments kKeepBody).

(** [RevTree::_insert]: the lowest-level insert. *)
Definition _insert (fuel : nat) (t : RevTree) (unownedRevID : revid)
    (body : option string) (parentRev : option ptr) (revFlags : N)
    (markConflict : bool) : result (RevTree * ptr) :=
  let revFlags := N.land revFlags insertFlagMask in
  if negb (N.land revFlags kClosed =? 0) && (N.land revFlags kDeleted =? 0)
  then Throw AssertionFailed
  else if _unknown t then Throw AssertionFailed
  else
    let newRev : ptr := length (_revsStorage t) in
    let rev := mkRev unownedRevID 0 parentRev body
                     (N.lor (N.lor kLeaf kNew) revFlags) in
    let t1 := setStorage (_revsStorage t ++ [rev]) t in
    t2 ← match parentRev with
          | Some pp =>
              prev ← deref t1 pp;
              let t2 :=
                if markConflict && (negb (isLeaf prev) || isConflict prev)
                then update newRev (addFlag kIsConflict) t1 else t1 in
              let t2 := update pp (clearFlag kLeaf) t2 in
              if negb (N.land revFlags kKeepBody =? 0)
              then keepBody fuel t2 newRev
              else if negb (N.land revFlags kClosed =? 0)
              then removeBodiesOnBranch fuel t2 pp
              else Ok t2
          | None =>
              Ok (if markConflict && negb (bool_decide (_revs t1 = []))
                  then update newRev (addFlag kIsConflict) t1 else t1)
          end;
    let t3 := setChanged true t2 in
    let t4 := if negb (bool_decide (_revs t3 = []))
              then setSorted false t3 else t3 in
    Ok (setRevs (_revs t4 ++ [newRev]) t4, newRev).

Definition uint32_modulus : N := 2 ^ 32.

(** [RevTree::insert] with a parent [Rev*]; the result is the tree, the
    returned [Rev*] and [httpStatus]. *)
Definition insert (fuel : nat) (t : RevTree) (revID0 : revid)
    (body : option string) (revFlags : N) (parent0 : option ptr)
    (allowConflict markConflict : bool)
  : result (RevTree * option ptr * Z) :=
  let newGen := generation revID0 in
  if newGen =? 0 then Ok (t, None, 400%Z)
  else
    existing ← get t revID0;
    if bool_decide (is_Some existing) then Ok (t, None, 200%Z)
    else
      gate ← match parent0 with
              | Some pp =>
                  prev ← deref t pp;
                  if negb allowConflict && negb (isLeaf prev)
                  then Ok None
                  else Ok (Some (generation (revID prev)))
              | None =>
                  if negb allowConflict
                     && bool_decide (0 < length (_revs t))%nat
                  then Ok None
                  else Ok (Some 0)
              end;
      match gate with
      | None => Ok (t, None, 409%Z)
      | Some parentGen =>
          if negb (newGen =? (parentGen + 1) mod uint32_modulus)
          then Ok (t, None, 400%Z)
          else
            let httpStatus :=
              if negb (N.land revFlags kDeleted =? 0) then 200%Z
              else 201%Z in
            '(t', newRev) ← _insert fuel t revID0 body parent0 revFlags
                                     markConflict;
            Ok (t', Some newRev, httpStatus)
      end.

(** [RevTree::compact]: slide the surviving revs down, then erase the
    remote pointers to purged revs. *)
Fixpoint compact_revs (t : RevTree) (revs : list ptr) : result (list ptr) :=
  match revs with
  | [] => Ok []
  | p :: rest =>
      rev ← deref t p;
      kept ← compact_revs t rest;
      Ok (if isMarkedForPurge rev then kept else p :: kept)
  end.

Fixpoint compact_remotes (t : RevTree) (tempRemoteRevs : list (N * ptr))
    (m : gmap N ptr) : result (gmap N ptr) :=
  match tempRemoteRevs with
  | [] => Ok m
  | (remote, p) :: rest =>
      rev ← deref t p;
      compact_remotes t rest
        (if isMarkedForPurge rev then delete remote m else m)
  end.

Definition compact (t : RevTree) : result RevTree :=
  revs ← compact_revs t (_revs t);
  remotes ← compact_remotes t (map_to_list (_remoteRevs t)) (_remoteRevs t);
  Ok (setChanged true (setRemoteRevs remotes (setRevs revs t))).

(** [RevTree::prune]: the walk from one leaf down to its root. *)
Fixpoint prune_walk (fuel : nat) (maxDepth : nat) (anc : option ptr)
    (depth : nat) (t : RevTree) (numPruned : Z) : result (RevTree * Z) :=
  match anc with
  | None => Ok (t, numPruned)
  | Some a =>
      match fuel with
      | O => Throw OutOfFuel
      | S fuel =>
          rev ← deref t a;
          let depth := S depth in
          if bool_decide (maxDepth < depth)%nat && negb (keepBodyFlag rev)
          then prune_walk fuel maxDepth (parent rev) depth
                          (update a (addFlag kPurge) t) (numPruned + 1)%Z
          else prune_walk fuel maxDepth (parent rev) depth t numPruned
      end
  end.

(** The loop over [_revs] that finds the leaves. *)
Fixpoint prune_mark (fuel : nat) (maxDepth : nat) (revs : list ptr)
    (t : RevTree) (numPruned : Z) : result (RevTree * Z) :=
  match revs with
  | [] => Ok (t, numPruned)
  | p :: rest =>
      rev ← deref t p;
      if isLeaf rev then
        '(t, numPruned) ← prune_walk fuel maxDepth (Some p) 0 t numPruned;
        prune_mark fuel maxDepth rest t numPruned
      else if _sorted t then Ok (t, numPruned)
      else prune_mark fuel maxDepth rest t numPruned
  end.

(** "Don't prune current remote revisions". *)
Fixpoint prune_remotes (remotes : list (N * ptr)) (t : RevTree)
    (numPruned : Z) : result (RevTree * Z) :=
  match remotes with
  | [] => Ok (t, numPruned)
  | (_, p) :: rest =>
      rev ← deref t p;
      if isMarkedForPurge rev
      then prune_remotes rest (update p (clearFlag kPurge) t)
                         (numPruned - 1)%Z
      else prune_remotes rest t numPruned
  end.

(** "Clear parent links that point to revisions being pruned": the
    [while] loop for one rev. *)
Fixpoint prune_relink (fuel : nat) (t : RevTree) (p : ptr)
  : result RevTree :=
  rev ← deref t p;
  match parent rev with
  | None => Ok t
  | Some q =>
      prev ← deref t q;
      if isMarkedForPurge prev then
        match fuel with
        | O => Throw OutOfFuel
        | S fuel => prune_relink fuel (update p (setParent (parent prev)) t) p
        end
      else Ok t
  end.

Fixpoint prune_relink_all (fuel : nat) (revs : list ptr) (t : RevTree)
  : result RevTree :=
  match revs with
  | [] => Ok t
  | p :: rest =>
      rev ← deref t p;
      t ← (if isMarkedForPurge rev then Ok t else prune_relink fuel t p);
      prune_relink_all fuel rest t
  end.

Definition prune (fuel : nat) (t : RevTree) (maxDepth : nat)
  : result (RevTree * Z) :=
  if bool_decide (maxDepth = 0)%nat then Throw AssertionFailed
  else if bool_decide (length (_revs t) ≤ maxDepth)%nat then Ok (t, 0%Z)
  else
    '(t, numPruned) ← prune_mark fuel maxDepth (_revs t) t 0%Z;
    if (numPruned =? 0)%Z then Ok (t, 0%Z)
    else
      '(t, numPruned) ←
         prune_remotes (map_to_list (_remoteRevs t)) t numPruned;
      if (numPruned =? 0)%Z then Ok (t, 0%Z)
      else
        t ← prune_relink_all fuel (_revs t) t;
        t ← compact t;
        Ok (t, numPruned).

(** [RevTree::markBranchAsNotConflict]. *)
Fixpoint markBranchAsNotConflict (fuel : nat) (rev : option ptr)
    (winningBranch keepBodies : bool) (t : RevTree) : result RevTree :=
  match rev with
  | None => Ok t
  | Some p =>
      match fuel with
      | O => Throw OutOfFuel
      | S fuel =>
          r ← deref t p;
          let '(t, stop) :=
            if isConflict r
            then (setChanged true (update p (clearFlag kIsConflict) t),
                  negb winningBranch)
            else (t, false) in
          if stop : bool then Ok t
          else
            let '(t, keepBodies) :=
              if keepBodyFlag r then
                if keepBodies then (t, false)
                else (setChanged true (update p (clearFlag kKeepBody) t),
                      keepBodies)
              else (t, keepBodies) in
            markBranchAsNotConflict fuel (parent r) winningBranch
                                    keepBodies t
      end
  end.

(** [RevTree::checkForResolvedConflict]. *)
Definition checkForResolvedConflict (fuel : nat) (t : RevTree)
  : result RevTree :=
  if _sorted t then
    match _revs t with
    | [] => Ok t
    | p :: _ =>
        r ← deref t p;
        if isConflict r
        then markBranchAsNotConflict fuel (Some p) true true t
        else Ok t
    end
  else Ok t.

(** [RevTree::purge]: the do-while loop. *)
Fixpoint purge_loop (fuel : nat) (t : RevTree) (rev : ptr) (nPurged : Z)
  : result (RevTree * Z) :=
  match fuel with
  | O => Throw OutOfFuel
  | S fuel =>
      r ← deref t rev;
      let nPurged := (nPurged + 1)%Z in
      let t := update rev (addFlag kPurge) t in
      let parent0 := parent r in
      let t := update rev (setParent None) t in
      match parent0 with
      | None => Ok (t, nPurged)
      | Some q =>
          '(t, leaf) ← confirmLeaf t q;
          if leaf : bool then purge_loop fuel t q nPurged
          else Ok (t, nPurged)
      end
  end.

Definition purge (fuel : nat) (t : RevTree) (leafID : revid)
  : result (RevTree * Z) :=
  found ← get t leafID;
  match found with
  | None => Ok (t, 0%Z)
  | Some rev =>
      r ← deref t rev;
      if negb (isLeaf r) then Ok (t, 0%Z)
      else
        '(t, nPurged) ← purge_loop fuel t rev 0%Z;
        t ← compact t;
        t ← checkForResolvedConflict fuel t;
        Ok (t, nPurged)
  end.

(** [RevTree::latestRevisionOnRemote], [setLatestRevisionOnRemote];
    [kNoRemoteID] is 0. *)
Definition kNoRemoteID : N := 0.

Definition latestRevisionOnRemote (t : RevTree) (remote : N)
  : result (option ptr) :=
  if remote =? kNoRemoteID then Throw AssertionFailed
  else Ok (_remoteRevs t !! remote).

Definition setLatestRevisionOnRemote (t : RevTree) (remote : N)
    (rev : option ptr) : result RevTree :=
  if remote =? kNoRemoteID then Throw AssertionFailed
  else
    Ok (setChanged true
          (setRemoteRevs (match rev with
                          | Some p => <[remote := p]> (_remoteRevs t)
                          | None => delete remote (_remoteRevs t)
                          end) t)).

(** [Rev::isAncestorOf]: [this] is [anc], the walk starts at [rev]. *)
Fixpoint isAncestorOf (fuel : nat) (t : RevTree) (anc : ptr) (rev : ptr)
  : result bool :=
  match fuel with
  | O => Throw OutOfFuel
  | S fuel =>
      if decide (rev = anc) then Ok true
      else
        r ← deref t rev;
        match parent r with
        | Some q => isAncestorOf fuel t anc q
        | None => Ok false
        end
  end.

Section Sorting.

(** [revid::operator<] is defined in [RevID.cc]. *)
Variable revid_ltb : revid -> revid -> bool.

(** [compareRevs]: [true] when [rev1] has the higher priority. *)
Definition compareRevs (rev1 rev2 : Rev) : bool :=
  let int (b : bool) : Z := if b then 1%Z else 0%Z in
  let delta := (int (isLeaf rev2) - int (isLeaf rev1))%Z in
  if negb (delta =? 0)%Z then (delta <? 0)%Z
  else
    let delta := (int (isConflict rev1) - int (isConflict rev2))%Z in
    if negb (delta =? 0)%Z then (delta <? 0)%Z
    else
      let delta := (int (isDeleted rev1) - int (isDeleted rev2))%Z in
      if negb (delta =? 0)%Z then (delta <? 0)%Z
      else
        let delta := (int (isClosed rev1) - int (isClosed rev2))%Z in
        if negb (delta =? 0)%Z then (delta <? 0)%Z
        else revid_ltb (revID rev2) (revID rev1).

(** [std::sort(_revs.begin(), _revs.end(), &compareRevs)], as an
    insertion sort on the pointers paired with their revs. *)
Fixpoint sort_insert (x : ptr * Rev) (l : list (ptr * Rev))
  : list (ptr * Rev) :=
  match l with
  | [] => [x]
  | y :: l' =>
      if compareRevs (snd y) (snd x) then y :: sort_insert x l'
      else x :: l
  end.

Definition std_sort (l : list (ptr * Rev)) : list (ptr * Rev) :=
  foldr sort_insert [] l.

(** [RevTree::sort]. *)
Definition sort (fuel : nat) (t : RevTree) : result RevTree :=
  if _sorted t then Ok t
  else
    revs ← mapM (fun p => r ← deref t p; Ok (p, r)) (_revs t);
    let t := setRevs (fst <$> std_sort revs) t in
    checkForResolvedConflict fuel (setSorted true t).

(** [RevTree::currentRevision]. *)
Definition currentRevision (fuel : nat) (t : RevTree)
  : result (RevTree * option ptr) :=
  if _unknown t then Throw AssertionFailed
  else t ← sort fuel t; Ok (t, head (_revs t)).

End Sorting.

(** *** Vocabulary of the properties of rev trees *)

Definition valid_ptr (t : RevTree) (p : ptr) : Prop :=
  is_Some (_revsStorage t !! p).

(** [chain t x n]: the parent links from [x] reach a root in [n] steps. *)
Inductive chain (t : RevTree) : option ptr -> nat -> Prop :=
| chain_root : chain t None 0
| chain_step p r n :
    _revsStorage t !! p = Some r -> chain t (parent r) n ->
    chain t (Some p) (S n).

(** [t'] has the revs of [t] at the same addresses, with the same revIDs
    and parent links; flags, bodies and sequences may differ. *)
Definition same_links (t t' : RevTree) : Prop :=
  length (_revsStorage t') = length (_revsStorage t)
  ∧ ∀ p r, _revsStorage t !! p = Some r ->
      ∃ r', _revsStorage t' !! p = Some r'
            ∧ revID r' = revID r ∧ parent r' = parent r.

Definition same_index (t t' : RevTree) : Prop :=
  _revs t' = _revs t ∧ _remoteRevs t' = _remoteRevs t
  ∧ _unknown t' = _unknown t ∧ _pruneDepth t' = _pruneDepth t.

Definition keeps_links (f : Rev -> Rev) : Prop :=
  ∀ r, revID (f r) = revID r ∧ parent (f r) = parent r.

(** Does some rev of the tree carry the revID [id]? *)
Definition hasRevID (t : RevTree) (id : revid) : bool :=
  existsb (fun p => match _revsStorage t !! p with
                    | Some r => bool_decide (revID r = id)
                    | None => false
                    end) (_revs t).

(** The gate of steps 3 and 4 of the insertion: a conflict would be
    created and [allowConflict] is off. *)
Definition conflictGate (t : RevTree) (parent0 : option ptr)
    (allowConflict : bool) : bool :=
  negb allowConflict
  && match parent0 with
     | Some pp => from_option (fun r => negb (isLeaf r)) false
                              (_revsStorage t !! pp)
     | None => bool_decide (_revs t ≠ [])
     end.

Definition parentGen (t : RevTree) (parent0 : option ptr) : N :=
  match parent0 with
  | Some pp => from_option (fun r => generation (revID r)) 0
                           (_revsStorage t !! pp)
  | None => 0
  end.

(** What [insert] requires of its caller: the tree is loaded, its rev
    pointers and the parent pointer are valid, the parent's ancestry
    reaches a root within [fuel] steps, generations are [unsigned], and
    [kClosed] comes with [kDeleted] (the assertion of [_insert]). *)
Record insert_pre (fuel : nat) (t : RevTree) (revID0 : revid)
    (revFlags : N) (parent0 : option ptr) : Prop := {
  pre_known : _unknown t = false;
  pre_revs : ∀ p, p ∈ _revs t -> valid_ptr t p;
  pre_parent : ∀ pp, parent0 = Some pp ->
               ∃ n, chain t (Some pp) n ∧ (n ≤ fuel)%nat;
  pre_gen : generation revID0 < uint32_modulus;
  pre_parentGen : parentGen t parent0 < uint32_modulus;
  pre_closed : N.land revFlags kClosed ≠ 0 -> N.land revFlags kDeleted ≠ 0
}.

(** What "a new Rev was inserted" means: it is appended to the arena and
    to [_revs], carries the revID and the parent link that were given,
    and the revs that were there keep their addresses, revIDs and parent
    links. *)
Definition inserted (t t' : RevTree) (newRev : ptr) (revID0 : revid)
    (parent0 : option ptr) : Prop :=
  newRev = length (_revsStorage t)
  ∧ _revs t' = _revs t ++ [newRev]
  ∧ length (_revsStorage t') = S (length (_revsStorage t))
  ∧ (∃ r, _revsStorage t' !! newRev = Some r
          ∧ revID r = revID0 ∧ parent r = parent0)
  ∧ (∀ p r, _revsStorage t !! p = Some r ->
       ∃ r', _revsStorage t' !! p = Some r'
             ∧ revID r' = revID r ∧ parent r' = parent r)
  ∧ _remoteRevs t' = _remoteRevs t
  ∧ _changed t' = true.

(** A tree between two operations: its pointers are valid, every parent
    chain reaches a root within [fuel] steps, no Rev is marked for
    purging, and a Rev that is the parent of another is not a leaf. *)
Record prune_pre (fuel : nat) (t : RevTree) : Prop := {
  pp_revs : ∀ p, p ∈ _revs t -> valid_ptr t p;
  pp_remotes : ∀ k p, _remoteRevs t !! k = Some p -> valid_ptr t p;
  pp_chain : ∀ p, valid_ptr t p ->
             ∃ n, chain t (Some p) n ∧ (n ≤ fuel)%nat;
  pp_unmarked : ∀ p r, _revsStorage t !! p = Some r ->
                isMarkedForPurge r = false;
  pp_leaves : ∀ p r q rq,
      _revsStorage t !! p = Some r -> parent r = Some q ->
      _revsStorage t !! q = Some rq -> isLeaf rq = false
}.

(** The flags of [r] are those of [r0], or those of [r0] with [kPurge]
    added, which happens only to a Rev that is neither a leaf nor has
    [kKeepBody]. *)
Definition flags_rel (r0 r : Rev) : Prop :=
  flags r = flags r0
  ∨ (flags r = N.lor (flags r0) kPurge
     ∧ keepBodyFlag r0 = false ∧ isLeaf r0 = false).

(** The tree [t] during the marking phases of [prune] on [t0]. *)
Definition marked_only (t0 t : RevTree) : Prop :=
  _revs t = _revs t0 ∧ _remoteRevs t = _remoteRevs t0
  ∧ _sorted t = _sorted t0
  ∧ length (_revsStorage t) = length (_revsStorage t0)
  ∧ ∀ p r0, _revsStorage t0 !! p = Some r0 ->
      ∃ r, _revsStorage t !! p = Some r
           ∧ parent r = parent r0 ∧ flags_rel r0 r.

(** The tree [t] while [prune] on [t0] re-links the surviving revs:
    a marked Rev keeps its parent, and the parent of every Rev starts a
    parent chain of [t0]. *)
Definition relinked (fuel : nat) (t0 t : RevTree) : Prop :=
  _revs t = _revs t0 ∧ _remoteRevs t = _remoteRevs t0
  ∧ length (_revsStorage t) = length (_revsStorage t0)
  ∧ ∀ p r0, _revsStorage t0 !! p = Some r0 ->
      ∃ r, _revsStorage t !! p = Some r
           ∧ flags_rel r0 r
           ∧ (isMarkedForPurge r = true -> parent r = parent r0)
           ∧ ∃ m, chain t0 (parent r) m ∧ (m ≤ fuel)%nat.

(** [p] is retained by [prune]: it is a leaf, or has [kKeepBody], or is
    the revision of some remote. *)
Definition pinned (t : RevTree) (p : ptr) (r : Rev) : Prop :=
  isLeaf r = true ∨ keepBodyFlag r = true
  ∨ ∃ k, _remoteRevs t !! k = Some p.

(** Scenario S1: the empty tree, ["1-a"], and its child ["2-b"]. *)
Definition emptyTree : RevTree := mkTree [] [] ∅ true false false 20.

Definition S1_root : RevTree :=
  mkTree [ mkRev (mkRevid 1 "a") 0 None (Some "{}"%string)
                 (N.lor kLeaf kNew) ]
         [0%nat] ∅ true true false 20.

Definition S1_tree : RevTree :=
  mkTree [ mkRev (mkRevid 1 "a") 0 None (Some "{}"%string) kNew;
           mkRev (mkRevid 2 "b") 0 (Some 0%nat) (Some "{x:1}"%string)
                 (N.lor kLeaf kNew) ]
         [0%nat; 1%nat] ∅ false true false 20.

(** A conflict below generation 2: ["1-a"], its child ["2-b"], and the
    two children ["3-a"] and ["3-b"] of ["2-b"]. *)
Definition fork_tree : RevTree :=
  mkTree [ mkRev (mkRevid 1 "a") 1 None None kNoFlags;
           mkRev (mkRevid 2 "b") 2 (Some 0%nat) None kNoFlags;
           mkRev (mkRevid 3 "a") 3 (Some 1%nat) (Some "{}"%string) kLeaf;
           mkRev (mkRevid 3 "b") 4 (Some 1%nat) (Some "{}"%string)
                 (N.lor kLeaf kIsConflict) ]
         [2%nat; 3%nat; 1%nat; 0%nat] ∅ true false false 20.

(** *** The other operations of [RevTree.cc] *)

(** [RevTree::get(unsigned index)]. *)
Definition getAt (t : RevTree) (index : nat) : result ptr :=
  if _unknown t then Throw AssertionFailed
  else from_option Ok (Throw AssertionFailed) (_revs t !! index).

(** [RevTree::hasConflict]: the loop that counts the active revs when
    the tree is not sorted. *)
Fixpoint hasConflict_loop (t : RevTree) (revs : list ptr) (nActive : nat)
  : result bool :=
  match revs with
  | [] => Ok false
  | p :: rest =>
      rev ← deref t p;
      if isActive t p rev then
        if bool_decide (1 < S nActive)%nat then Ok true
        else hasConflict_loop t rest (S nActive)
      else hasConflict_loop t rest nActive
  end.

Definition hasConflict (t : RevTree) : result bool :=
  if bool_decide (length (_revs t) < 2)%nat then
    if _unknown t then Throw AssertionFailed else Ok false
  else if _sorted t then
    match _revs t !! 1%nat with
    | Some p => rev ← deref t p; Ok (isActive t p rev)
    | None => Throw InvalidMemory
    end
  else hasConflict_loop t (_revs t) 0.

(** [Rev::index]: the position of the Rev in [_revs] of its owner. *)
Fixpoint index_loop (revs : list ptr) (p : ptr) : option nat :=
  match revs with
  | [] => None
  | q :: rest => if decide (q = p) then Some 0%nat
                 else S <$> index_loop rest p
  end.

Definition index (t : RevTree) (p : ptr) : result nat :=
  from_option Ok (Throw AssertionFailed) (index_loop (_revs t) p).

(** [Rev::next]. *)
Definition next (t : RevTree) (p : ptr) : result (option ptr) :=
  i ← index t p;
  if bool_decide (S i < length (_revs t))%nat
  then q ← getAt t (S i); Ok (Some q)
  else Ok None.

(** [Rev::history]: the Rev and its ancestors, the Rev first. *)
Fixpoint history (fuel : nat) (t : RevTree) (rev : option ptr)
  : result (list ptr) :=
  match rev with
  | None => Ok []
  | Some p =>
      match fuel with
      | O => Throw OutOfFuel
      | S fuel =>
          r ← deref t p;
          h ← history fuel t (parent r);
          Ok (p :: h)
      end
  end.

(** [_pruneDepth - 1] on an [unsigned]. *)
Definition pruneDepth_pred (t : RevTree) : N :=
  (N.of_nat (_pruneDepth t) + uint32_modulus - 1) mod uint32_modulus.

(** [RevTree::findCommonAncestor]: the [for] loop over the history.
    [None] is the early [return {nullptr, -400}]; otherwise the result
    is [parent] and [i] when the loop is left. *)
Fixpoint findCommonAncestor_loop (t : RevTree) (history0 : list revid)
    (i : nat) (lastGen : N) : result (option (option ptr * nat)) :=
  match history0 with
  | [] => Ok (Some (None, i))
  | h :: rest =>
      let gen := generation h in
      if (0 <? lastGen) && negb (gen =? lastGen - 1)
         && negb ((gen <? lastGen) && (pruneDepth_pred t <=? N.of_nat i))
      then Ok None
      else
        parent0 ← get t h;
        match parent0 with
        | Some p => Ok (Some (Some p, i))
        | None => findCommonAncestor_loop t rest (S i) gen
        end
  end.

Definition findCommonAncestor (t : RevTree) (history0 : list revid)
    (allowConflict : bool) : result (option ptr * Z) :=
  if bool_decide (history0 = []) then Throw AssertionFailed
  else
    found ← findCommonAncestor_loop t history0 0 0;
    match found with
    | None => Ok (None, (-400)%Z)
    | Some (parent0, i) =>
        conflict ←
          (if allowConflict then Ok false
           else match parent0 with
                | Some p => r ← deref t p; Ok (negb (isLeaf r))
                | None => Ok (negb (bool_decide (_revs t = [])))
                end);
        if conflict : bool then Ok (None, (-409)%Z)
        else Ok (parent0, Z.of_nat i)
    end.

(** [RevTree::insertHistory]: the loop
    [for (int i = commonAncestorIndex - 1; i > 0; --i)]. *)
Fixpoint insertHistory_loop (fuel : nat) (history0 : list revid) (i : nat)
    (parent0 : option ptr) (markConflict : bool) (t : RevTree)
  : result (RevTree * option ptr) :=
  match i with
  | O => Ok (t, parent0)
  | S i' =>
      h ← from_option Ok (Throw InvalidMemory) (history0 !! i);
      '(t, p) ← _insert fuel t h None parent0 kNoFlags markConflict;
      insertHistory_loop fuel history0 i' (Some p) markConflict t
  end.

Definition insertHistory (fuel : nat) (t : RevTree)
    (history0 : list revid) (body : option string) (revFlags : N)
    (allowConflict markConflict : bool) : result (RevTree * Z) :=
  '(parent0, commonAncestorIndex) ←
    findCommonAncestor t history0 allowConflict;
  if (0 <? commonAncestorIndex)%Z && bool_decide (is_Some body) then
    '(t, parent0) ←
      insertHistory_loop fuel history0
        (Z.to_nat commonAncestorIndex - 1) parent0 markConflict t;
    h ← from_option Ok (Throw InvalidMemory) (history0 !! 0%nat);
    '(t, _) ← _insert fuel t h body parent0 revFlags markConflict;
    Ok (t, commonAncestorIndex)
  else Ok (t, commonAncestorIndex).

(** [RevTree::removeNonLeafBodies]. *)
Definition body_size (r : Rev) : nat :=
  from_option String.length 0%nat (_body r).

Definition keepsItsBody (r : Rev) : bool :=
  negb (N.land (flags r) (N.lor (N.lor kLeaf kNew) kKeepBody) =? 0).

Fixpoint removeNonLeafBodies_loop (revs : list ptr) (t : RevTree)
  : result RevTree :=
  match revs with
  | [] => Ok t
  | p :: rest =>
      rev ← deref t p;
      if bool_decide (0 < body_size rev)%nat && negb (keepsItsBody rev)
      then removeNonLeafBodies_loop rest
             (setChanged true (update p Rev_removeBody t))
      else removeNonLeafBodies_loop rest t
  end.

Definition removeNonLeafBodies (t : RevTree) : result RevTree :=
  removeNonLeafBodies_loop (_revs t) t.

(** [RevTree::hasNewRevisions]. *)
Fixpoint hasNewRevisions_loop (t : RevTree) (revs : list ptr)
  : result bool :=
  match revs with
  | [] => Ok false
  | p :: rest =>
      rev ← deref t p;
      if isNew rev || (sequence rev =? 0) then Ok true
      else hasNewRevisions_loop t rest
  end.

Definition hasNewRevisions (t : RevTree) : result bool :=
  hasNewRevisions_loop t (_revs t).

(** [RevTree::saved]. *)
Definition markSaved (newSequence : N) (r : Rev) : Rev :=
  let r := clearFlag kNew r in
  if sequence r =? 0 then setSequence newSequence r else r.

Fixpoint saved_loop (revs : list ptr) (newSequence : N) (t : RevTree)
  : result RevTree :=
  match revs with
  | [] => Ok t
  | p :: rest =>
      _ ← deref t p;
      saved_loop rest newSequence (update p (markSaved newSequence) t)
  end.

Definition saved (t : RevTree) (newSequence : N) : result RevTree :=
  saved_loop (_revs t) newSequence t.

(** *** Vocabulary of the properties of the other operations *)

(** Is the Rev at [p] there and not marked for purging? *)
Definition unmarked (t : RevTree) (p : ptr) : bool :=
  from_option (fun r => negb (isMarkedForPurge r)) false
              (_revsStorage t !! p).

(** The number of active revs among [revs]. *)
Definition activeCount (t : RevTree) (revs : list ptr) : nat :=
  length (filter (fun p => from_option (isActive t p) false
                                       (_revsStorage t !! p) = true) revs).

(** What [removeNonLeafBodies] does to one Rev. *)
Definition dropBody (r : Rev) : Rev :=
  if bool_decide (0 < body_size r)%nat && negb (keepsItsBody r)
  then Rev_removeBody r else r.

(** [r'] is [r] after operations that touch nothing but [kKeepBody],
    the body, which they may only remove, and [kHasAttachments], which
    the removal of a body may clear. *)
Definition kept (r r' : Rev) : Prop :=
  revID r' = revID r ∧ parent r' = parent r ∧ sequence r' = sequence r
  ∧ (∀ i, i ≠ 3 -> i ≠ 4 ->
       N.testbit (flags r') i = N.testbit (flags r) i)
  ∧ (_body r' = _body r ∨ _body r' = None).

Definition kept_tree (t t' : RevTree) : Prop :=
  length (_revsStorage t') = length (_revsStorage t)
  ∧ (∀ p r, _revsStorage t !! p = Some r ->
       ∃ r', _revsStorage t' !! p = Some r' ∧ kept r r')
  ∧ _revs t' = _revs t ∧ _remoteRevs t' = _remoteRevs t
  ∧ _unknown t' = _unknown t ∧ _pruneDepth t' = _pruneDepth t
  ∧ _sorted t' = _sorted t.

(** A well-formed tree: it is loaded; [_revs] lists valid Rev pointers,
    each once; the revisions of the remotes and the parents of the revs
    are in [_revs]; every ancestry reaches a root within [fuel] steps; no
    Rev of the tree is marked for purging; a parent is not a leaf; and no
    two revs have the same revID. *)
Record tree_ok (fuel : nat) (t : RevTree) : Prop := {
  ok_known : _unknown t = false;
  ok_nodup : NoDup (_revs t);
  ok_revs : ∀ p, p ∈ _revs t -> valid_ptr t p;
  ok_remotes : ∀ k p, _remoteRevs t !! k = Some p -> p ∈ _revs t;
  ok_parents : ∀ p r q, p ∈ _revs t -> _revsStorage t !! p = Some r ->
               parent r = Some q -> q ∈ _revs t;
  ok_chain : ∀ p, p ∈ _revs t ->
             ∃ n, chain t (Some p) n ∧ (n ≤ fuel)%nat;
  ok_unmarked : ∀ p r, p ∈ _revs t -> _revsStorage t !! p = Some r ->
                isMarkedForPurge r = false;
  ok_leaves : ∀ p r q rq, p ∈ _revs t ->
              _revsStorage t !! p = Some r -> parent r = Some q ->
              _revsStorage t !! q = Some rq -> isLeaf rq = false;
  ok_ids : ∀ p q rp rq, p ∈ _revs t -> q ∈ _revs t ->
           _revsStorage t !! p = Some rp -> _revsStorage t !! q = Some rq ->
           revID rp = revID rq -> p = q
}.

(** A history, newest first, whose oldest revision is the root of
    [S1_root]. *)
Definition S1_history : list revid :=
  [mkRevid 3 "c"; mkRevid 2 "b"; mkRevid 1 "a"].

(** [r'] is [r] after operations that touch nothing but the flags
    [kKeepBody] and [kIsConflict], which they may only clear. *)
Definition settled (r r' : Rev) : Prop :=
  revID r' = revID r ∧ parent r' = parent r ∧ _body r' = _body r
  ∧ sequence r' = sequence r
  ∧ (∀ i, N.testbit (flags r') i = true -> N.testbit (flags r) i = true)
  ∧ (∀ i, i ≠ 4 -> i ≠ 5 ->
       N.testbit (flags r') i = N.testbit (flags r) i).

Definition settled_tree (t t' : RevTree) : Prop :=
  length (_revsStorage t') = length (_revsStorage t)
  ∧ (∀ p r, _revsStorage t !! p = Some r ->
       ∃ r', _revsStorage t' !! p = Some r' ∧ settled r r')
  ∧ _revs t' = _revs t ∧ _remoteRevs t' = _remoteRevs t
  ∧ _unknown t' = _unknown t ∧ _pruneDepth t' = _pruneDepth t
  ∧ _sorted t' = _sorted t.

(** The rank of a Rev in the order of [compareRevs], the revID apart:
    leaves before the others, then the revs that are no conflict, the
    live ones, the ones that are not closed. The smaller comes first. *)
Definition priority (r : Rev) : nat :=
  (if isLeaf r then 0 else 8) + (if isConflict r then 4 else 0)
  + (if isDeleted r then 2 else 0) + (if isClosed r then 1 else 0).

(** The first element of a list of revs has the smallest rank. *)
Definition first_ranked (l : list (ptr * Rev)) : Prop :=
  match l with
  | [] => True
  | y :: _ => ∀ x, x ∈ l -> (priority y.2 ≤ priority x.2)%nat
  end.

(** The number of revs of the tree that are marked for purging. *)
Definition markedCount (t : RevTree) : nat :=
  length (filter (fun p => unmarked t p = false) (_revs t)).

Definition same_shape (t0 t : RevTree) : Prop :=
  _revs t = _revs t0 ∧ _remoteRevs t = _remoteRevs t0
  ∧ _unknown t = _unknown t0 ∧ _sorted t = _sorted t0
  ∧ _pruneDepth t = _pruneDepth t0
  ∧ length (_revsStorage t) = length (_revsStorage t0).

(** The tree [t] when the loop of [purge] on [t0] is about to purge
    [rev], after [k] rounds: [rev] is [m] steps above a root and may have
    got [kLeaf]; the revs purged so far are marked, cut from their
    parents, on the branch [B] and below [rev]; the others are as they
    were, none of them is a child of [rev], and none has a marked
    parent. *)
Record purging (B : ptr -> Prop) (t0 t : RevTree) (rev : ptr)
    (k m : nat) : Prop := {
  pg_shape : same_shape t0 t;
  pg_revs : ∀ p r0, _revsStorage t0 !! p = Some r0 ->
      ∃ r, _revsStorage t !! p = Some r
           ∧ (r = r0 ∨ (p = rev ∧ r = addFlag kLeaf r0)
              ∨ (isMarkedForPurge r = true ∧ parent r = None
                 ∧ revID r = revID r0));
  pg_count : markedCount t = k;
  pg_rev : rev ∈ _revs t0;
  pg_branch : B rev;
  pg_chain : chain t0 (Some rev) m;
  pg_deeper : ∀ d n, d ∈ _revs t0 -> unmarked t d = false ->
              chain t0 (Some d) n -> (m < n)%nat;
  pg_marked : ∀ d, d ∈ _revs t0 -> unmarked t d = false -> B d;
  pg_childless : ∀ p r, p ∈ _revs t0 -> _revsStorage t !! p = Some r ->
                 parent r ≠ Some rev;
  pg_closed : ∀ p r q, p ∈ _revs t0 -> _revsStorage t !! p = Some r ->
              isMarkedForPurge r = false -> parent r = Some q ->
              unmarked t q = true
}.

(** The tree [t] when the loop of [purge] on [t0] is left: [n] revs are
    marked, all on the branch [B]; a Rev is as it was, or is marked and
    cut from its parent; no Rev that is left has a marked parent. *)
Record purged (B : ptr -> Prop) (t0 t : RevTree) (n : nat) : Prop := {
  pd_shape : same_shape t0 t;
  pd_revs : ∀ p r0, _revsStorage t0 !! p = Some r0 ->
      ∃ r, _revsStorage t !! p = Some r
           ∧ (r = r0 ∨ (isMarkedForPurge r = true ∧ parent r = None
                        ∧ revID r = revID r0));
  pd_count : markedCount t = n;
  pd_marked : ∀ d, d ∈ _revs t0 -> unmarked t d = false -> B d;
  pd_closed : ∀ p r q, p ∈ _revs t0 -> _revsStorage t !! p = Some r ->
              isMarkedForPurge r = false -> parent r = Some q ->
              unmarked t q = true
}.

(** [r'] is [r] with nothing changed but the flag [kKeepBody]. *)
Definition only_keepBody (r r' : Rev) : Prop :=
  revID r' = revID r ∧ parent r' = parent r ∧ sequence r' = sequence r
  ∧ _body r' = _body r
  ∧ N.ldiff (flags r') kKeepBody = N.ldiff (flags r) kKeepBody.

(** [r'] is [r] after [RevTree::removeBody]: it has no body, its revID
    and parent are those of [r], and it is [r] itself when [r] had no
    body. *)
Definition stripped (r r' : Rev) : Prop :=
  _body r' = None ∧ revID r' = revID r ∧ parent r' = parent r
  ∧ (_body r = None -> r' = r).

End RT.

(** ** Versions of LiteCore ([Version.cc]) *)

Module LC.

(** [struct peerID {uint64_t id;}], [typedef uint64_t generation]. *)
Record peerID := mkPeer { id : N }.

#[global] Instance peerID_eq_dec : EqDecision peerID.
Proof. solve_decision. Defined.

(** Modelled from the spec: [kMePeerID] is declared in [Version.hh]; it is
    the peer that is written [*], which [Version(slice, peerID)] refuses
    as an explicit hex ID. *)
Definition kMePeerID : peerID := mkPeer 0.

Record Version := mkVersion { _gen : N; _author : peerID }.

#[global] Instance Version_eq_dec : EqDecision Version.
Proof. solve_decision. Defined.

(** A version vector of LiteCore is its sequence of versions. *)
Definition VersionVector := list Version.

(** [Version::validate]. *)
Definition validate (v : Version) : result unit :=
  if _gen v =? 0 then Throw BadRevisionID else Ok tt.

(** [Version(generation, peerID)], which validates. *)
Definition newVersion (g : N) (p : peerID) : result Version :=
  let v := mkVersion g p in _ ← validate v; Ok v.

(** [versionOrder], as in [VersionVector.cc]. *)
Definition kSame : N := 0.
Definition kOlder : N := 1.
Definition kNewer : N := 2.
Definition kConflicting : N := 3.

(** [Version::compareGen]. *)
Definition compareGen (a b : N) : N :=
  if b <? a then kNewer else if a <? b then kOlder else kSame.

(** Modelled from the spec: [slice::writeHex] writes the number in
    lower-case hexadecimal without leading zeros. *)
Definition hexDigit (d : N) : ascii :=
  ascii_of_N (if d <? 10 then 48 + d else 87 + d).

Fixpoint hex_pos (fuel : nat) (n : N) (acc : string) : string :=
  match fuel with
  | O => acc
  | S fuel =>
      let acc := String (hexDigit (n mod 16)) acc in
      if n / 16 =? 0 then acc else hex_pos fuel (n / 16) acc
  end.

Definition writeHex (n : N) : string := hex_pos (S (N.to_nat (N.log2 n))) n "".

(** [Version::writeASCII] / [asASCII]. *)
Definition asASCII (v : Version) (myID : peerID) : string :=
  let author := if decide (_author v ≠ kMePeerID) then _author v else myID in
  (writeHex (_gen v) +:+ "@"
   +:+ (if decide (author ≠ kMePeerID) then writeHex (id author) else "*"))
  %string.

(** Modelled from the spec: [VersionVector::asASCII] writes the versions
    in order, separated by commas. *)
Fixpoint vectorASCII (vv : VersionVector) (myID : peerID) : string :=
  match vv with
  | [] => ""
  | [v] => asASCII v myID
  | v :: rest => (asASCII v myID +:+ "," +:+ vectorASCII rest myID)%string
  end.

(** Modelled from the spec: the operations of section 4.3 on the vectors
    of LiteCore, whose [VersionVector.cc] is not among the sources. They
    instantiate the collaborators of the vector document in examples. *)
Definition genOf (vv : VersionVector) (p : peerID) : N :=
  from_option _gen 0 (head (filter (fun v => _author v = p) vv)).

Fixpoint compareLoop_spec (vers other : VersionVector) (o : N) : N :=
  match vers with
  | [] => o
  | v :: rest =>
      let othergen := genOf other (_author v) in
      if _gen v <? othergen then
        let o := N.lor o kOlder in
        if o =? kConflicting then o else compareLoop_spec rest other o
      else if othergen <? _gen v then
        let o := N.lor o kNewer in
        if o =? kConflicting then o else compareLoop_spec rest other o
      else if o =? kSame then o
      else compareLoop_spec rest other o
  end.

Definition compareTo_spec (this other : VersionVector) : N :=
  let o := if (length this <? length other)%nat then kOlder
           else if (length other <? length this)%nat then kNewer
           else kSame in
  compareLoop_spec this other o.

Definition incrementGen_spec (vv : VersionVector) (p : peerID)
  : result VersionVector :=
  match filter (fun v => _author v = p) vv with
  | v :: _ =>
      if _gen v =? 0 then Throw BadVersionVector
      else Ok (mkVersion (_gen v + 1) p
               :: filter (fun v => _author v ≠ p) vv)
  | [] => Ok (mkVersion 1 p :: vv)
  end.

Definition mergedWith_spec (this other : VersionVector) : VersionVector :=
  filter (fun v => genOf other (_author v) <= _gen v) this
  ++ filter (fun v => genOf this (_author v) < _gen v) other.

End LC.

(** ** Upgrade of a rev-tree document to a version vector
       ([Database+Upgrade.cc]) *)

Module Upgrade.
Import RT.

(** "The fake peer/source ID used for versions migrated from revIDs". *)
Definition kLegacyPeerID : LC.peerID := LC.mkPeer 0x7777777.

(** [int(x)] for an [unsigned x], and [generation(n)] for an [int n]. *)
Definition int_of_unsigned (x : N) : Z :=
  let z := Z.of_N (x mod uint32_modulus) in
  if (z <? 2 ^ 31)%Z then z else (z - 2 ^ 32)%Z.

Definition generation_of_int (n : Z) : N := Z.to_N (n mod 2 ^ 64).

(** [commonAncestor(a, b)]: the loop over the ancestors of [b]. *)
Fixpoint commonAncestor_loop (fuel walk : nat) (t : RevTree) (a : ptr)
    (rev : option ptr) : result (option ptr) :=
  match rev with
  | None => Ok None
  | Some p =>
      match fuel with
      | O => Throw OutOfFuel
      | S fuel =>
          anc ← isAncestorOf walk t p a;
          if anc : bool then Ok (Some p)
          else r ← deref t p; commonAncestor_loop fuel walk t a (parent r)
      end
  end.

Definition commonAncestor (fuel : nat) (t : RevTree) (a b : option ptr)
  : result (option ptr) :=
  match a, b with
  | Some a, Some b => commonAncestor_loop fuel fuel t a (Some b)
  | _, _ => Ok None
  end.

Section Upgrade.

(** [revid::operator<] ([RevID.cc]), [RevTree::kDefaultRemoteID]
    ([RevTree.hh]) and [VersionVector::add] ([VersionVector.cc] of
    LiteCore) are not among the sources. *)
Variable revid_ltb : revid -> revid -> bool.
Variable kDefaultRemoteID : N.
Variable add : LC.Version -> LC.VersionVector -> LC.VersionVector.

(** "Create a version vector": the lines that fill [vv] from the
    current rev and the base rev. *)
Definition buildVersionVector (currentRev : Rev) (baseRev : option Rev)
  : result LC.VersionVector :=
  let vv : LC.VersionVector := [] in
  let localChanges := int_of_unsigned (generation (revID currentRev)) in
  '(vv, localChanges) ←
    match baseRev with
    | Some base =>
        v ← LC.newVersion (generation (revID base)) kLegacyPeerID;
        Ok (add v vv,
            (localChanges
             - int_of_unsigned (generation (revID base)))%Z)
    | None => Ok (vv, localChanges)
    end;
  if (0 <? localChanges)%Z then
    v ← LC.newVersion (generation_of_int localChanges) LC.kMePeerID;
    Ok (add v vv)
  else Ok vv.

(** The vector [vv] that [upgradeDocumentVersioning] computes for the
    document whose rev tree is [t]. *)
Definition upgradeVersionVector (fuel : nat) (t : RevTree)
  : result (RevTree * LC.VersionVector) :=
  '(t, currentRev) ← currentRevision revid_ltb fuel t;
  remoteRev ← latestRevisionOnRemote t kDefaultRemoteID;
  baseRev ← commonAncestor fuel t currentRev remoteRev;
  match currentRev with
  | None => Throw InvalidMemory
  | Some c =>
      cur ← deref t c;
      base ← match baseRev with
              | Some b => r ← deref t b; Ok (Some r)
              | None => Ok None
              end;
      vv ← buildVersionVector cur base;
      Ok (t, vv)
  end.

(** [upgradeRemoteRevs]: the revID given to the revision of one remote;
    [currentVersion] is the vector of the current revision. *)
Definition upgradeRemoteRevID (t : RevTree) (currentRev : option ptr)
    (currentVersion : LC.VersionVector) (rev : ptr)
  : result LC.VersionVector :=
  if decide (Some rev = currentRev) then Ok currentVersion
  else
    r ← deref t rev;
    v ← LC.newVersion (generation (revID r)) kLegacyPeerID;
    Ok (add v []).

Fixpoint upgradeRemoteRevs_loop (t : RevTree) (currentRev : option ptr)
    (currentVersion : LC.VersionVector) (remotes : list (N * ptr))
  : result (list (N * LC.VersionVector)) :=
  match remotes with
  | [] => Ok []
  | (remoteID, rev) :: rest =>
      vv ← upgradeRemoteRevID t currentRev currentVersion rev;
      others ← upgradeRemoteRevs_loop t currentRev currentVersion rest;
      Ok ((remoteID, vv) :: others)
  end.

Definition upgradeRemoteRevs (fuel : nat) (t : RevTree)
    (currentVersion : LC.VersionVector)
  : result (list (N * LC.VersionVector)) :=
  '(t, currentRev) ← currentRevision revid_ltb fuel t;
  upgradeRemoteRevs_loop t currentRev currentVersion
                         (map_to_list (_remoteRevs t)).

End Upgrade.

(** Modelled from the spec: [VersionVector::add], which the upgrade uses
    to "append" a version to the vector it builds. *)
Definition add_spec (v : LC.Version) (vv : LC.VersionVector)
  : LC.VersionVector := vv ++ [v].

(** *** Vocabulary of the properties of the upgrade *)

(** [localChanges] in the words of the specification: the generation of
    the current revision minus that of the base, or minus 0. *)
Definition localChangesOf (cur : Rev) (base : option Rev) : Z :=
  (Z.of_N (generation (revID cur))
   - from_option (fun b => Z.of_N (generation (revID b))) 0 base)%Z.

Definition gen_in_range (r : Rev) : Prop :=
  1 ≤ generation (revID r) < 2 ^ 31.

(** A rev tree as it is decoded from a stored record: loaded, sorted,
    with a current revision, the parent chains that the upgrade walks
    ending at a root within [fuel] steps, and generations that fit an
    [int]. *)
Record stored_tree (kDefaultRemoteID : N) (fuel : nat) (t : RevTree)
    (c : ptr) (cur : Rev) : Prop := {
  st_known : _unknown t = false;
  st_sorted : _sorted t = true;
  st_current : head (_revs t) = Some c;
  st_cur : _revsStorage t !! c = Some cur;
  st_chain : ∃ n, chain t (Some c) n ∧ (n ≤ fuel)%nat;
  st_remote : ∀ b, _remoteRevs t !! kDefaultRemoteID = Some b ->
              ∃ m, chain t (Some b) m ∧ (m ≤ fuel)%nat;
  st_gens : ∀ p r, _revsStorage t !! p = Some r -> gen_in_range r
}.

(** Scenario S6: current ["3-abc"], the default remote at ["2-def"],
    their common ancestor the root of generation 1. The order of revIDs
    is by generation, then by digest. *)
Definition S6_ltb (a b : revid) : bool :=
  (generation a <? generation b)
  || ((generation a =? generation b) && String.ltb (digest a) (digest b)).

Definition S6_current : Rev :=
  mkRev (mkRevid 3 "abc") 3 (Some 1%nat) (Some "{}"%string) kLeaf.

Definition S6_tree : RevTree :=
  mkTree [ mkRev (mkRevid 1 "aaa") 1 None None kNoFlags;
           mkRev (mkRevid 2 "bbb") 2 (Some 0%nat) None kNoFlags;
           S6_current;
           mkRev (mkRevid 2 "def") 4 (Some 0%nat) (Some "{}"%string)
                 (N.lor kLeaf kIsConflict) ]
         [2%nat; 3%nat; 1%nat; 0%nat] {[ 1 := 3%nat ]}
         true false false 20.

Definition S6_vector : LC.VersionVector :=
  [LC.mkVersion 1 kLegacyPeerID; LC.mkVersion 2 LC.kMePeerID].

End Upgrade.

(** ** Vector documents ([VectorDocument.cc]) *)

Module VD.
Import LC.

(** [DocumentFlags] ([Record.hh]) and [C4RevisionFlags] ([c4Document.h]). *)
Definition kDeleted : N := 1.
Definition kConflicted : N := 2.
Definition kHasAttachments : N := 4.

Definition kRevDeleted : N := 1.
Definition kRevLeaf : N := 2.
Definition kRevHasAttachments : N := 8.
Definition kRevIsConflict : N := 32.

(** [enum class RemoteID], with [RemoteID::Local]. *)
Definition Local : N := 0.

(** [struct Revision]: [revID] is the binary version vector, [None] when
    the revid is null; [properties] is the Fleece data of the body. *)
Record Revision := mkRevision {
  properties : string;
  revID : option VersionVector;
  flags : N
}.

#[global] Instance Revision_eq_dec : EqDecision Revision.
Proof. solve_decision. Defined.

Definition isDeleted (r : Revision) : bool :=
  negb (N.land (flags r) kDeleted =? 0).
Definition isConflicted (r : Revision) : bool :=
  negb (N.land (flags r) kConflicted =? 0).
Definition hasAttachments (r : Revision) : bool :=
  negb (N.land (flags r) kHasAttachments =? 0).

(** [Revision::version] and [Revision::versionVector]. *)
Definition version (r : Revision) : option Version := revID r ≫= head.
Definition versionVector (r : Revision) : VersionVector :=
  default [] (revID r).

(** Modelled from the spec: [NuDocument] ([NuDocument.cc] is not among
    the sources) is the vector-mode record: whether it exists, its
    current (Local) revision, the revision stored for each remote, and
    how much of its content is loaded. *)
Record NuDocument := mkNuDoc {
  _exists : bool;
  _current : Revision;
  _remotes : gmap N Revision;
  _contentAvailable : N;
  _currentRevisionData : option string
}.

Definition kCurrentRevOnly : N := 1.

Definition remoteRevision (d : NuDocument) (remote : N) : option Revision :=
  if remote =? Local then Some (_current d) else _remotes d !! remote.

Definition nextRemoteID (d : NuDocument) (remote : N) : N :=
  let later := filter (fun k => remote < k) (fst <$> map_to_list (_remotes d)) in
  match later with
  | [] => remote + 1
  | k :: ks => foldr N.min k ks
  end.

Definition setCurrentRevision (d : NuDocument) (rev : Revision)
  : NuDocument :=
  mkNuDoc (_exists d) rev (_remotes d) (_contentAvailable d)
          (_currentRevisionData d).

Definition setRemoteRevision (d : NuDocument) (remote : N) (rev : Revision)
  : NuDocument :=
  mkNuDoc (_exists d) (_current d) (<[remote := rev]> (_remotes d))
          (_contentAvailable d) (_currentRevisionData d).

(** The outcome of [NuDocument::save]; the sequence it assigns is not
    part of the model, so the record itself is unchanged by it. *)
Inductive SaveResult := kConflict | kNoSave | kNoNewSequence | kNewSequence.

(** [class VectorDocument]: the wrapped record, the selected remote and
    the fields of [selectedRev] that depend on it. *)
Record VectorDocument := mkDoc {
  _doc : NuDocument;
  _remoteID : option N;
  selectedRev_revID : option string;
  selectedRev_flags : N
}.

(** A revID argument: a slice that contains a comma is parsed as a version
    vector, any other as a single version. [VersionVector::fromASCII] and
    [revidBuffer] are not among the sources, so the argument is given as
    what they return. *)
Inductive revIDArg :=
| AsVector (vv : VersionVector)
| AsVersion (v : Version).

(** [_expandRevID], with [myID = kMePeerID]. *)
Definition _expandRevID (rev : option VersionVector) : option string :=
  vv ← rev; v ← head vv; Some (asASCII v kMePeerID).

(** [_selectRemote(RemoteID, Revision&)]. *)
Definition _selectRemoteRev (doc : VectorDocument) (remote : N)
    (rev : Revision) : VectorDocument :=
  let f := 0 in
  let f := if remote =? Local then N.lor f kRevLeaf else f in
  let f := if isDeleted rev then N.lor f kRevDeleted else f in
  let f := if hasAttachments rev then N.lor f kRevHasAttachments else f in
  let f := if isConflicted rev
           then N.lor f (N.lor kRevIsConflict kRevLeaf) else f in
  mkDoc (_doc doc) (Some remote) (_expandRevID (revID rev)) f.

(** [_selectRemote(RemoteID)]. *)
Definition _selectRemote (doc : VectorDocument) (remote : N)
  : VectorDocument * bool :=
  match remoteRevision (_doc doc) remote with
  | Some rev =>
      if bool_decide (is_Some (revID rev))
      then (_selectRemoteRev doc remote rev, true)
      else (mkDoc (_doc doc) None None 0, false)
  | None => (mkDoc (_doc doc) None None 0, false)
  end.

(** [_findRemote]: the [while] loop over the remotes; it runs at most
    once per stored revision. *)
Fixpoint _findRemote_loop (fuel : nat) (d : NuDocument) (arg : revIDArg)
    (remote : N) : option (N * Revision) :=
  match fuel with
  | O => None
  | S fuel =>
      match remoteRevision d remote with
      | None => None
      | Some rev =>
          let found :=
            match arg with
            | AsVector binary => bool_decide (revID rev = Some binary)
            | AsVersion vers =>
                bool_decide (is_Some (revID rev))
                && bool_decide (version rev = Some vers)
            end in
          if found then Some (remote, rev)
          else _findRemote_loop fuel d arg (nextRemoteID d remote)
      end
  end.

Definition _findRemote (doc : VectorDocument) (arg : revIDArg)
  : option (N * Revision) :=
  _findRemote_loop (2 + size (_remotes (_doc doc))) (_doc doc) arg Local.

(** [selectRevision]. *)
Definition selectRevision (doc : VectorDocument) (arg : revIDArg)
  : VectorDocument * bool :=
  match _findRemote doc arg with
  | Some (remote, rev) => (_selectRemoteRev doc remote rev, true)
  | None => (mkDoc (_doc doc) None None 0, false)
  end.

(** [getSelectedRevBody]. The function is [noexcept]: the
    [error::Unimplemented] that it throws for a selected remote cannot
    leave it, and the process ends. *)
Definition getSelectedRevBody (doc : VectorDocument)
  : result (option string) :=
  match _remoteID doc with
  | None => Ok None
  | Some remote =>
      if negb (remote =? Local) then Throw Terminated
      else if _contentAvailable (_doc doc) <? kCurrentRevOnly then Ok None
      else Ok (_currentRevisionData (_doc doc))
  end.

(** [_currentVersionVector]. *)
Definition _currentVersionVector (doc : VectorDocument) : VersionVector :=
  default [] (revID (_current (_doc doc))).

(** [convertNewRevisionFlags]. *)
Definition convertNewRevisionFlags (revFlags : N) : N :=
  let docFlags := 0 in
  let docFlags := if negb (N.land revFlags kRevDeleted =? 0)
                  then N.lor docFlags kDeleted else docFlags in
  if negb (N.land revFlags kRevHasAttachments =? 0)
  then N.lor docFlags kHasAttachments else docFlags.

(** [C4DocPutRequest]: the fields the vector document reads. [history] is
    the vector that [readHistory] parses from the history array. *)
Record PutRequest := mkRq {
  rq_body : string;
  rq_revFlags : N;
  rq_deltaCB : option (string -> string -> string);
  rq_deltaSourceRevID : option revIDArg;
  rq_history : VersionVector;
  rq_remoteDBID : N;
  rq_save : bool
}.

Section Collaborators.

(** Collaborators that are not among the sources: the body validator of
    the database, [VersionVector::compareTo], [mergedWith] and
    [incrementGen] of LiteCore, and [NuDocument::save]. *)
Variable validateRevisionBody : string -> result unit.
Variable compareTo : VersionVector -> VersionVector -> N.
Variable mergedWith : VersionVector -> VersionVector -> VersionVector.
Variable incrementGen : VersionVector -> peerID -> result VersionVector.
Variable NuDocument_save : NuDocument -> SaveResult.

(** The Fleece data of the empty dictionary. *)
Variable emptyDict : string.

(** [_newProperties(alloc_slice body)]. *)
Definition _newPropertiesOfBody (body : string) : result string :=
  if bool_decide (0 < String.length body)%nat
  then _ ← validateRevisionBody body; Ok body
  else Ok emptyDict.

(** [_newProperties(rq, outError)]: the document (its selection may
    move) and the new properties, or the recorded error. *)
Definition _newProperties (doc : VectorDocument) (rq : PutRequest)
  : VectorDocument * result string :=
  match rq_deltaCB rq with
  | None => (doc, _newPropertiesOfBody (rq_body rq))
  | Some deltaCB =>
      let delta := rq_body rq in
      match rq_deltaSourceRevID rq with
      | None => (doc, Throw DeltaBaseUnknown)
      | Some src =>
          let '(doc, selected) := selectRevision doc src in
          if negb selected then (doc, Throw DeltaBaseUnknown)
          else
            match getSelectedRevBody doc with
            | Throw e => (doc, Throw e)
            | Ok None => (doc, Throw DeltaBaseUnknown)
            | Ok (Some base) =>
                (doc, _newPropertiesOfBody (deltaCB base delta))
            end
      end
  end.

(** [save]: [false] on a conflict. *)
Definition save (doc : VectorDocument) : VectorDocument * bool :=
  match NuDocument_save (_doc doc) with
  | kNoSave => (doc, true)
  | kNoNewSequence => (doc, true)
  | kConflict => (doc, false)
  | kNewSequence => (fst (_selectRemote doc Local), true)
  end.

(** [_saveNewRev]. *)
Definition _saveNewRev (doc : VectorDocument) (rq : PutRequest)
  : VectorDocument * result unit :=
  if rq_save rq then
    let '(doc, ok) := save doc in
    if ok : bool then (doc, Ok tt) else (doc, Throw Conflict)
  else (doc, Ok tt).

(** [putExistingRevision]: the document afterwards, and either the
    returned common ancestor or the error with which it fails. *)
Definition putExistingRevision (doc : VectorDocument) (rq : PutRequest)
  : VectorDocument * result Z :=
  let newRev_flags := convertNewRevisionFlags (rq_revFlags rq) in
  let '(doc, fldoc) := _newProperties doc rq in
  match fldoc with
  | Throw e => (doc, Throw e)
  | Ok newRev_properties =>
      let newVers := rq_history rq in
      let newRev := mkRevision newRev_properties (Some newVers)
                               newRev_flags in
      let remote := rq_remoteDBID rq in
      let commonAncestor := 1%Z in
      let order := kNewer in
      let order := if _exists (_doc doc)
                   then compareTo newVers (_currentVersionVector doc)
                   else order in
      let switched : result (VectorDocument * Revision * Z) :=
        if (order =? kSame) || (order =? kOlder)
        then Ok (doc, newRev, 0%Z)
        else if order =? kNewer
        then Ok (mkDoc (setCurrentRevision (_doc doc) newRev)
                       (_remoteID doc) (selectedRev_revID doc)
                       (selectedRev_flags doc),
                 newRev, commonAncestor)
        else if order =? kConflicting
        then if remote =? Local then Throw Conflict
             else Ok (doc,
                      mkRevision (properties newRev) (revID newRev)
                                 (N.lor (flags newRev) kConflicted),
                      commonAncestor)
        else Ok (doc, newRev, commonAncestor) in
      match switched with
      | Throw e => (doc, Throw e)
      | Ok (doc, newRev, commonAncestor) =>
          let doc :=
            if negb (remote =? Local)
            then mkDoc (setRemoteRevision (_doc doc) remote newRev)
                       (_remoteID doc) (selectedRev_revID doc)
                       (selectedRev_flags doc)
            else doc in
          let doc := fst (_selectRemote doc remote) in
          let '(doc, saved) := _saveNewRev doc rq in
          match saved with
          | Throw e => (doc, Throw e)
          | Ok _ => (doc, Ok commonAncestor)
          end
      end
  end.

(** [resolveConflict]. *)
Definition resolveConflict (doc : VectorDocument)
    (winningRevID losingRevID : revIDArg) (mergedBody : option string)
    (mergedFlags : N) : result VectorDocument :=
  let won := _findRemote doc winningRevID in
  let lost := _findRemote doc losingRevID in
  match won, lost with
  | Some won, Some lost =>
      if fst won =? fst lost then Throw InvalidParameter
      else
        let localWon := (fst won =? Local) in
        let localRev := if localWon then snd won else snd lost in
        let '(remote, remoteRev) := if localWon then lost else won in
        if N.land (flags remoteRev) kConflicted =? 0 then Throw Conflict
        else
          let localVersion := versionVector localRev in
          let remoteVersion := versionVector remoteRev in
          let mergedVersion := mergedWith localVersion remoteVersion in
          mergedVersion ← incrementGen mergedVersion kMePeerID;
          props ← match mergedBody with
                   | Some body => _newPropertiesOfBody body
                   | None => Ok (properties (snd won))
                   end;
          let localRev := mkRevision props (Some mergedVersion)
                            (convertNewRevisionFlags mergedFlags) in
          let d := setCurrentRevision (_doc doc) localRev in
          let remoteRev := mkRevision (properties remoteRev)
                             (revID remoteRev)
                             (N.ldiff (flags remoteRev) kConflicted) in
          let d := setRemoteRevision d remote remoteRev in
          let doc := mkDoc d (_remoteID doc) (selectedRev_revID doc)
                           (selectedRev_flags doc) in
          Ok (fst (_selectRemote doc Local))
  | _, _ => Throw NotFound
  end.

End Collaborators.

(** *** Vocabulary of the properties of vector documents *)

(** The revision that [putExistingRevision] builds from a request whose
    body gave the properties [props], and the same revision marked as
    conflicting. *)
Definition newRevision (rq : PutRequest) (props : string) : Revision :=
  mkRevision props (Some (rq_history rq))
             (convertNewRevisionFlags (rq_revFlags rq)).

Definition conflictedRevision (rq : PutRequest) (props : string)
  : Revision :=
  mkRevision props (Some (rq_history rq))
             (N.lor (convertNewRevisionFlags (rq_revFlags rq)) kConflicted).

Definition peerA : peerID := mkPeer 0xa.
Definition peerB : peerID := mkPeer 0xb.

Definition revA : Revision :=
  mkRevision "{a}" (Some [mkVersion 1 peerA]) kConflicted.
Definition revB : Revision :=
  mkRevision "{b}" (Some [mkVersion 1 peerB]) 0.

(** A document whose Local revision is [2@*], whose remote 1 holds the
    conflicting revision [1@a] and whose remote 2 holds [1@b]. *)
Definition threeWayDoc : VectorDocument :=
  mkDoc (mkNuDoc true
           (mkRevision "{local}" (Some [mkVersion 2 kMePeerID]) 0)
           (<[1 := revA]> (<[2 := revB]> ∅))
           1 (Some "{local}"%string))
        (Some Local) (Some "2@*"%string) kRevLeaf.

(** Collaborators for the examples: a validator that accepts every
    body, and a store whose save never conflicts. *)
Definition acceptBody (body : string) : result unit := Ok tt.
Definition saveQuietly (d : NuDocument) : SaveResult := kNoSave.

(** A revision [3@*,1@a] pushed by remote 1. *)
Definition pushRequest : PutRequest :=
  mkRq "{pushed}" 0 None None [mkVersion 3 kMePeerID; mkVersion 1 peerA]
       1 true.

(** A document that is not stored yet, and two revisions that remote 1
    pushes without saving: [2@a], and then the older [1@a]. *)
Definition unsavedDoc : VectorDocument :=
  mkDoc (mkNuDoc false (mkRevision "" None 0) ∅ 0 None) None None 0.

Definition firstPut : PutRequest :=
  mkRq "{first}" 0 None None [mkVersion 2 peerA] 1 false.

Definition olderPut : PutRequest :=
  mkRq "{older}" 0 None None [mkVersion 1 peerA] 1 false.

End VD.

(** ** Generated revision IDs ([c4Document.cc]) *)

Module C4Doc.

(** A byte string ([C4Slice]); [None] is a slice whose [buf] is null. *)
Definition bytes := list Byte.byte.

(** [(uint8_t)n]. *)
Definition uint8 (n : N) : Byte.byte :=
  default Byte.x00 (Byte.of_N (n mod 256)).


Definition size (s : option bytes) : N :=
  N.of_nat (length (default [] s)).
Definition buf (s : option bytes) : bytes := default [] s.


Section Digests.

(** [SecureDigest.hh]: the digest of everything added to a context. *)
Variable sha1 : bytes -> bytes.
Variable md5 : bytes -> bytes.

(** [revidBuffer(slice)] followed by [generation()]: the generation of
    a parsed revID, or the exception of a revID that does not parse. *)
Variable parentGeneration : bytes -> result N.

(** The bytes added to the MD5 context when [sGenerateOldStyleRevIDs]
    is set. *)
Definition oldStyleInput (body : bytes) (parentRevID : option bytes)
    (deleted : bool) : bytes :=
  let revLen := uint8 (N.min (size parentRevID) 255) in
  let ctx : bytes := [] in
  let ctx := if 0 <? N.min (size parentRevID) 255
             then ctx ++ [revLen] else ctx in
  let ctx := ctx ++ take (N.to_nat (N.min (size parentRevID) 255))
                         (buf parentRevID) in
  let delByte := uint8 (if deleted then 1 else 0) in
  let ctx := ctx ++ [delByte] in
  ctx ++ body.

(** The bytes added to the SHA-1 context otherwise. *)
Definition sha1Input (body : bytes) (parentRevID : option bytes)
    (deleted : bool) : bytes :=
  let revLen := uint8 (N.min (size parentRevID) 255) in
  let ctx : bytes := [] in
  let ctx := ctx ++ [revLen] in
  let ctx := ctx ++ take (N.to_nat (N.min (size parentRevID) 255))
                         (buf parentRevID) in
  let delByte := uint8 (if deleted then 1 else 0) in
  let ctx := ctx ++ [delByte] in
  ctx ++ body.


End Digests.

(** *** Vocabulary of the properties of generated revIDs *)



(** The revID ["2-ab"] and the body ["{}"]. *)
Definition example_parent : bytes :=
  [Byte.x32; Byte.x2d; Byte.x61; Byte.x62].
Definition example_body : bytes := [Byte.x7b; Byte.x7d].



End C4Doc.

(** ** Checked counters ([Increment.hh]) *)

Module Increment.

Section Width.

(** The template parameter [T] is an unsigned integer type of [w]
    bits, [int] has 32 bits. *)
Variable w : N.

Definition modulus : N := 2 ^ w.

(** [value + by] in the assertion ([by0] is [by]): operands narrower than [int] are
    promoted to [int], where the sum does not wrap; otherwise the sum
    is computed in [T]. *)
Definition sum (value by0 : N) : N :=
  if w <? 32 then value + by0 else (value + by0) mod modulus.

(** [_increment]: the new value, which is also stored in [value]. *)
Definition _increment (value by0 : N) : result N :=
  if sum value by0 <? value then Throw AssertionFailed
  else Ok ((value + by0) mod modulus).

(** [_decrement]. *)
Definition _decrement (value by0 : N) : result N :=
  if value <? by0 then Throw AssertionFailed
  else Ok ((value - by0) mod modulus).

End Width.

End Increment.

(** * Properties of version vectors *)

Module VVFacts.
Import VV.


Lemma findPeerIter_Some l p i :
  findPeerIter l p = Some i →
  ∃ v, l !! i = Some v ∧ author v = p.
Proof.
  revert i. induction l as [|w l IH]; intros i; simpl; [done|].
  destruct (decide (author w = p)) as [Hw|Hw].
  - intros [= <-]. by exists w.
  - destruct (findPeerIter l p) as [j|] eqn:Hj; simpl; [|done].
    intros [= <-]. destruct (IH j eq_refl) as (v & Hv & Ha). by exists v.
Qed.

Lemma findPeerIter_None l p :
  findPeerIter l p = None ↔ p ∉ authors l.
Proof.
  induction l as [|w l IH]; simpl.
  - split; [intros _; apply not_elem_of_nil|done].
  - destruct (decide (author w = p)) as [Hw|Hw].
    + split; [done|]. intros []. rewrite <- Hw. apply list_elem_of_here.
    + destruct (findPeerIter l p) eqn:Hj; simpl.
      * split; [done|]. intros Hn. exfalso.
        assert (p ∉ authors l) as Hp.
        { intros Hp. apply Hn. by apply list_elem_of_further. }
        apply IH in Hp. done.
      * split; [|done]. intros _ Hin.
        apply elem_of_cons in Hin as [->|Hin]; [done|].
        by apply IH in Hin.
Qed.

(** Without a repeated peer, the generation looked up for the peer of a
    version of the vector is that version's generation. *)
Lemma genOfAuthor_NoDup l c v :
  NoDup (authors l) → v ∈ l → genOfAuthor (mkVV l c) (author v) = gen v.
Proof.
  unfold genOfAuthor; simpl.
  induction l as [|w l IH]; intros Hnd Hin; [by apply elem_of_nil in Hin|].
  simpl. apply NoDup_cons in Hnd as [Hw Hnd].
  destruct (decide (author w = author v)) as [Heq|Hne]; simpl.
  - apply elem_of_cons in Hin as [->|Hin]; [done|].
    exfalso. apply Hw. rewrite Heq. unfold authors.
    apply list_elem_of_fmap. by exists v.
  - apply elem_of_cons in Hin as [->|Hin]; [done|].
    specialize (IH Hnd Hin).
    destruct (findPeerIter l (author v)); simpl in *; done.
Qed.

Lemma genOfAuthor_pos l c p :
  genOfAuthor (mkVV l c) p ≠ 0 →
  ∃ v, v ∈ l ∧ author v = p ∧ gen v = genOfAuthor (mkVV l c) p.
Proof.
  unfold genOfAuthor; simpl.
  destruct (findPeerIter l p) as [i|] eqn:Hi; [|done].
  destruct (findPeerIter_Some _ _ _ Hi) as (v & Hv & Ha).
  rewrite Hv; simpl. intros _. exists v. split_and!; [|done..].
  by eapply list_elem_of_lookup_2.
Qed.


Lemma compareLoop_started vers other older newer :
  older || newer = true →
  compareLoop vers other (ord older newer)
  = ord (older || olderIn vers other) (newer || newerIn vers other).
Proof.
  revert older newer. induction vers as [|v vers IH]; intros older newer Hon.
  - simpl. by rewrite !orb_false_r.
  - simpl. unfold compareStep.
    destruct (gen v <? genOfAuthor other (author v)) eqn:Hlt.
    + assert ((genOfAuthor other (author v) <? gen v) = false) as ->
        by (apply N.ltb_lt in Hlt; apply N.ltb_ge; lia).
      replace (N.lor (ord older newer) kOlder) with (ord true newer)
        by (by destruct older, newer).
      destruct newer; simpl.
      * by destruct older.
      * rewrite IH by done. simpl. by rewrite orb_true_r.
    + destruct (genOfAuthor other (author v) <? gen v) eqn:Hgt.
      * replace (N.lor (ord older newer) kNewer) with (ord older true)
          by (by destruct older, newer).
        destruct older; simpl.
        -- by destruct newer.
        -- rewrite IH by done. simpl. by rewrite orb_true_r.
      * destruct older, newer; simpl in *; try done.
        -- rewrite (IH true false) by done. done.
        -- rewrite (IH false true) by done. done.
Qed.

Lemma compareLoop_fresh v vers other :
  compareLoop (v :: vers) other kSame
  = if gen v =? genOfAuthor other (author v) then kSame
    else ord (olderIn (v :: vers) other) (newerIn (v :: vers) other).
Proof.
  simpl. unfold compareStep.
  destruct (gen v <? genOfAuthor other (author v)) eqn:Hlt.
  - assert ((genOfAuthor other (author v) <? gen v) = false) as ->
      by (apply N.ltb_lt in Hlt; apply N.ltb_ge; lia).
    assert ((gen v =? genOfAuthor other (author v)) = false) as ->
      by (apply N.ltb_lt in Hlt; apply N.eqb_neq; lia).
    simpl. change (N.lor kSame kOlder) with (ord true false).
    rewrite compareLoop_started by done. done.
  - destruct (genOfAuthor other (author v) <? gen v) eqn:Hgt.
    + assert ((gen v =? genOfAuthor other (author v)) = false) as ->
        by (apply N.ltb_lt in Hgt; apply N.eqb_neq; lia).
      simpl. change (N.lor kSame kNewer) with (ord false true).
      rewrite compareLoop_started by done. done.
    + assert ((gen v =? genOfAuthor other (author v)) = true) as ->
        by (apply N.ltb_ge in Hlt, Hgt; apply N.eqb_eq; lia).
      done.
Qed.

Lemma olderIn_newerIn l1 c1 l2 c2 :
  NoDup (authors l1) → NoDup (authors l2) →
  olderIn l1 (mkVV l2 c2) = true → newerIn l2 (mkVV l1 c1) = true.
Proof.
  intros Hnd1 Hnd2 Ho. unfold olderIn, newerIn in *.
  apply existsb_exists in Ho as (v & Hv & Hlt). apply N.ltb_lt in Hlt.
  apply list_elem_of_In in Hv.
  destruct (genOfAuthor_pos l2 c2 (author v)) as (w & Hw & Ha & Hg); [lia|].
  apply existsb_exists. exists w. split; [by apply list_elem_of_In|].
  apply N.ltb_lt. rewrite Ha, Hg, (genOfAuthor_NoDup l1 c1 v) by done. done.
Qed.

Lemma newerIn_olderIn l1 c1 l2 c2 :
  NoDup (authors l1) → NoDup (authors l2) →
  authors l1 ⊆ authors l2 →
  newerIn l1 (mkVV l2 c2) = true → olderIn l2 (mkVV l1 c1) = true.
Proof.
  intros Hnd1 Hnd2 Hsub Hn. unfold olderIn, newerIn in *.
  apply existsb_exists in Hn as (v & Hv & Hlt). apply N.ltb_lt in Hlt.
  apply list_elem_of_In in Hv.
  assert (author v ∈ authors l2) as Hin.
  { apply Hsub. apply list_elem_of_fmap. by exists v. }
  apply list_elem_of_fmap in Hin as (w & Ha & Hw).
  apply existsb_exists. exists w. split; [by apply list_elem_of_In|].
  apply N.ltb_lt. rewrite <- Ha, (genOfAuthor_NoDup l1 c1 v) by done.
  rewrite Ha, (genOfAuthor_NoDup l2 c2 w) in Hlt by done. done.
Qed.


Lemma compareTo_cases a b :
  compareTo a b =
  if decide (count a < count b)%nat then ord true (newerIn (_vers a) b)
  else if decide (count b < count a)%nat then ord (olderIn (_vers a) b) true
  else match _vers a with
       | [] => kSame
       | v :: _ =>
           if gen v =? genOfAuthor b (author v) then kSame
           else ord (olderIn (_vers a) b) (newerIn (_vers a) b)
       end.
Proof.
  unfold compareTo.
  destruct (decide (count a < count b)%nat) as [Hlt|Hge].
  - assert ((Z.of_nat (count a) - Z.of_nat (count b) <? 0)%Z = true) as ->
      by (apply Z.ltb_lt; lia).
    change kOlder with (ord true false).
    by rewrite compareLoop_started.
  - assert ((Z.of_nat (count a) - Z.of_nat (count b) <? 0)%Z = false) as ->
      by (apply Z.ltb_ge; lia).
    destruct (decide (count b < count a)%nat) as [Hgt|Hle].
    + assert ((0 <? Z.of_nat (count a) - Z.of_nat (count b))%Z = true) as ->
        by (apply Z.ltb_lt; lia).
      change kNewer with (ord false true).
      by rewrite compareLoop_started.
    + assert ((0 <? Z.of_nat (count a) - Z.of_nat (count b))%Z = false) as ->
        by (apply Z.ltb_ge; lia).
      destruct (_vers a) as [|v l] eqn:Ha; [done|].
      by rewrite compareLoop_fresh.
Qed.

Lemma ord_swap x y :
  (ord x y = kSame ↔ ord y x = kSame)
  ∧ (ord x y = kOlder ↔ ord y x = kNewer)
  ∧ (ord x y = kConflicting ↔ ord y x = kConflicting).
Proof. by destruct x, y. Qed.

Lemma bits_swap a b :
  NoDup (authors (_vers a)) → NoDup (authors (_vers b)) →
  authors (_vers a) ⊆ authors (_vers b) →
  newerIn (_vers a) b = olderIn (_vers b) a
  ∧ (olderIn (_vers a) b = true → newerIn (_vers b) a = true).
Proof.
  destruct a as [la ca], b as [lb cb]; simpl. intros Ha Hb Hsub. split.
  - apply eq_true_iff_eq. split.
    + by apply newerIn_olderIn.
    + by apply olderIn_newerIn.
  - by apply olderIn_newerIn.
Qed.

Lemma length_authors l : length (authors l) = length l.
Proof. apply length_fmap. Qed.

Lemma subseteq_length_le (l1 l2 : list peerID) :
  NoDup l1 → l1 ⊆ l2 → (length l1 ≤ length l2)%nat.
Proof.
  intros Hnd Hsub. apply NoDup_incl_length.
  - by apply NoDup_ListNoDup.
  - intros x Hx. apply list_elem_of_In, Hsub. by apply list_elem_of_In.
Qed.

Lemma subseteq_same_length (l1 l2 : list peerID) :
  NoDup l1 → l1 ⊆ l2 → (length l2 ≤ length l1)%nat → l2 ⊆ l1.
Proof.
  intros Hnd Hsub Hlen x Hx. apply list_elem_of_In.
  apply (NoDup_length_incl (l:=l1) (l':=l2)); try done.
  - by apply NoDup_ListNoDup.
  - intros y Hy. apply list_elem_of_In, Hsub. by apply list_elem_of_In.
  - by apply list_elem_of_In.
Qed.

(** Claim C1, amended. For version vectors [a] and [b] in which no peer
    occurs twice, such that every peer of one of them is a peer of the
    other and, when they have the same number of versions, their first
    versions name the same peer: [a.compareTo(b)] is [kSame] iff
    [b.compareTo(a)] is [kSame], it is [kOlder] iff [b.compareTo(a)] is
    [kNewer], and it is [kConflicting] iff [b.compareTo(a)] is
    [kConflicting]. *)
Theorem compareTo_swap a b :
  NoDup (authors (_vers a)) → NoDup (authors (_vers b)) →
  nested a b →
  (count a = count b → same_head a b) →
  (compareTo a b = kSame ↔ compareTo b a = kSame)
  ∧ (compareTo a b = kOlder ↔ compareTo b a = kNewer)
  ∧ (compareTo a b = kConflicting ↔ compareTo b a = kConflicting).
Proof.
  intros Ha Hb Hnest Hhead.
  rewrite (compareTo_cases a b), (compareTo_cases b a).
  destruct (decide (count a < count b)%nat) as [Hlt|Hge].
  - destruct (decide (count b < count a)%nat); [lia|].
    assert (authors (_vers a) ⊆ authors (_vers b)) as Hsub.
    { destruct Hnest as [?|Hsub]; [done|].
      apply subseteq_length_le in Hsub; [|done].
      rewrite !length_authors in Hsub. unfold count in *. lia. }
    destruct (bits_swap a b Ha Hb Hsub) as [-> _].
    apply ord_swap.
  - destruct (decide (count b < count a)%nat) as [Hgt|Hle].
    + assert (authors (_vers b) ⊆ authors (_vers a)) as Hsub.
      { destruct Hnest as [Hsub|?]; [|done].
        apply subseteq_length_le in Hsub; [|done].
        rewrite !length_authors in Hsub. unfold count in *. lia. }
      destruct (bits_swap b a Hb Ha Hsub) as [-> _].
      apply ord_swap.
    + assert (count a = count b) as Hcnt by lia.
      specialize (Hhead Hcnt). unfold same_head in Hhead.
      assert (authors (_vers a) ⊆ authors (_vers b)
              ∧ authors (_vers b) ⊆ authors (_vers a)) as [Hab Hba].
      { unfold count in Hcnt.
        destruct Hnest as [Hsub|Hsub]; split; try done;
          apply subseteq_same_length; try done;
          rewrite !length_authors; lia. }
      destruct (bits_swap a b Ha Hb Hab) as [Hn1 _].
      destruct (bits_swap b a Hb Ha Hba) as [Hn2 _].
      destruct (_vers a) as [|v la] eqn:Hla, (_vers b) as [|w lb] eqn:Hlb;
        simpl in Hhead; try done.
      injection Hhead as Hvw.
      assert (genOfAuthor b (author v) = gen w) as ->.
      { rewrite Hvw. destruct b as [lb' cb]; simpl in *; subst lb'.
        apply genOfAuthor_NoDup; [done|]. apply list_elem_of_here. }
      assert (genOfAuthor a (author w) = gen v) as ->.
      { rewrite <- Hvw. destruct a as [la' ca]; simpl in *; subst la'.
        apply genOfAuthor_NoDup; [done|]. apply list_elem_of_here. }
      rewrite (N.eqb_sym (gen w) (gen v)).
      destruct (gen v =? gen w); [by repeat split|].
      rewrite Hn1, Hn2. apply ord_swap.
Qed.


Lemma olderIn_sub l' l c :
  NoDup (authors l) → l' ⊆ l → olderIn l' (mkVV l c) = false.
Proof.
  intros Hnd Hsub. unfold olderIn.
  apply not_true_is_false. intros (w & Hw & Hlt)%existsb_exists.
  apply list_elem_of_In, Hsub in Hw.
  rewrite genOfAuthor_NoDup in Hlt by done.
  apply N.ltb_lt in Hlt. lia.
Qed.

Lemma genOfAuthor_head v l c :
  genOfAuthor (mkVV (v :: l) c) (author v) = gen v.
Proof. unfold genOfAuthor; simpl. by rewrite decide_True. Qed.

(** Claim C3. For a version vector [vv] without a repeated peer, a valid
    peer [p] and a generation of [p] below the largest [uint64_t]: if
    the entry of [p] is a merge marker, [incrementGen(p)] fails with
    [BadVersionVector]; otherwise it succeeds, the new head of the vector
    is [p] with generation [old.gen(p) + 1] (which is 1 when [p] was
    absent), the new vector compares [kNewer] to the old one, and its
    generation for [p] is [old.gen(p) + 1]. *)
Theorem incrementGen_spec kMax vv p :
  NoDup (authors (_vers vv)) →
  validate kMax (mkVersion 1 p) = true →
  genOfAuthor vv p + 1 < gen_modulus →
  (mergeEntry vv p → incrementGen kMax vv p = Throw BadVersionVector)
  ∧ (¬ mergeEntry vv p →
     ∃ vv', incrementGen kMax vv p = Ok vv'
       ∧ head (_vers vv') = Some (mkVersion (genOfAuthor vv p + 1) p)
       ∧ compareTo vv' vv = kNewer
       ∧ genOfAuthor vv' p = genOfAuthor vv p + 1).
Proof.
  intros Hnd Hvalid Hmax. destruct vv as [l c]; simpl in *.
  unfold mergeEntry, peerEntry, incrementGen; simpl.
  destruct (findPeerIter l p) as [i|] eqn:Hi; simpl.
  - destruct (findPeerIter_Some _ _ _ Hi) as (w & Hw & Ha).
    assert (genOfAuthor (mkVV l c) p = gen w) as Hg.
    { unfold genOfAuthor; simpl. by rewrite Hi, Hw. }
    rewrite Hg in *. rewrite Hw; simpl. unfold isMerge. split.
    + intros (w' & [= <-] & ->). done.
    + intros Hnm. destruct (gen w =? 0) eqn:Hz.
      { exfalso. apply Hnm. exists w. split; [done|]. by apply N.eqb_eq. }
      eexists. split; [done|]. simpl.
      assert (gen_succ (gen w) = gen w + 1) as ->
        by (unfold gen_succ; apply N.mod_small; done).
      rewrite Ha. split; [done|]. split.
      * rewrite compareTo_cases; simpl. unfold count; simpl.
        assert (i < length l)%nat by (by eapply lookup_lt_Some).
        rewrite length_delete by done.
        rewrite decide_False by lia. rewrite decide_False by lia.
        rewrite Hg. assert ((gen w + 1 =? gen w) = false) as ->
          by (apply N.eqb_neq; lia).
        unfold olderIn, newerIn; simpl.
        assert ((gen w + 1 <? gen w) = false) as -> by (apply N.ltb_ge; lia).
        assert ((gen w <? gen w + 1) = true) as -> by (apply N.ltb_lt; lia).
        simpl. fold (olderIn (delete i l) (mkVV l c)).
        rewrite olderIn_sub; [done|done|apply list_subseteq_delete].
      * unfold genOfAuthor; simpl. by rewrite decide_True.
  - assert (genOfAuthor (mkVV l c) p = 0) as Hg.
    { unfold genOfAuthor; simpl. by rewrite Hi. }
    rewrite Hg in *.
    split; [by intros (w & ? & _)|]. intros _.
    rewrite Hvalid. eexists; split; [done|]. simpl. split; [done|].
    split.
    + rewrite compareTo_cases; simpl. unfold count; simpl.
      rewrite decide_False by lia. rewrite decide_True by lia.
      unfold olderIn; simpl. rewrite Hg. simpl.
      fold (olderIn l (mkVV l c)). by rewrite olderIn_sub.
    + unfold genOfAuthor; simpl. by rewrite decide_True.
Qed.


Lemma versionMap_lookup l (m : gmap string generation) p :
  NoDup (authors l) →
  foldl versionMap_add m l !! p
  = match findPeerIter l p with
    | Some i => gen <$> l !! i
    | None => m !! p
    end.
Proof.
  revert m. induction l as [|w l IH]; intros m Hnd; [done|].
  apply NoDup_cons in Hnd as [Hw Hnd]. simpl. rewrite IH by done.
  unfold versionMap_add.
  destruct (decide (author w = p)) as [<-|Hne].
  - apply findPeerIter_None in Hw. rewrite Hw. simpl.
    by rewrite lookup_insert_eq.
  - destruct (findPeerIter l p); simpl; [done|].
    by rewrite lookup_insert_ne.
Qed.

Lemma versionMap_get_gen vv p :
  NoDup (authors (_vers vv)) →
  versionMap_get (versionMap vv) p = genOfAuthor vv p.
Proof.
  intros Hnd. unfold versionMap_get, versionMap, genOfAuthor.
  rewrite versionMap_lookup by done.
  destruct (findPeerIter (_vers vv) p); [|done].
  by destruct (_vers vv !! n).
Qed.

Lemma mergeLoop_perm kMax a b n k r :
  NoDup (authors (_vers a)) → NoDup (authors (_vers b)) →
  Forall (λ v, validate kMax v = true) (_vers a) →
  Forall (λ v, validate kMax v = true) (_vers b) →
  ∃ r', mergeLoop kMax a b (versionMap a) (versionMap b) (seq k n) r = Ok r'
    ∧ _vers r' ≡ₚ _vers r
         ++ filter (λ v, fromThis b v = true) (take n (drop k (_vers a)))
         ++ filter (λ v, fromOther a v = true) (take n (drop k (_vers b))).
Proof.
  intros Hna Hnb Hva Hvb. revert k r.
  induction n as [|n IH]; intros k r; simpl.
  - exists r. split; [done|]. by rewrite app_nil_r.
  - unfold mergeStep at 1.
    assert (∃ r1, (match _vers a !! k with
             | Some vers => if versionMap_get (versionMap b) (author vers)
                               <=? gen vers
                            then append kMax r vers else Ok r
             | None => Ok r end) = Ok r1
             ∧ _vers r1 = _vers r ++ filter (λ v, fromThis b v = true)
                                      (take 1 (drop k (_vers a))))
      as (r1 & -> & Hr1).
    { destruct (_vers a !! k) as [v|] eqn:Hk.
      - rewrite (drop_S _ v) by done. simpl.
        rewrite filter_cons, versionMap_get_gen by done.
        destruct (fromThis b v) eqn:Hc; unfold fromThis in Hc; rewrite Hc.
        + rewrite decide_True by done. unfold append.
          rewrite Forall_forall in Hva.
          rewrite Hva by (by eapply list_elem_of_lookup_2).
          eexists; split; [done|]. simpl. by rewrite take_0.
        + rewrite decide_False by done.
          exists r; split; [done|]. by rewrite take_0, app_nil_r.
      - exists r; split; [done|].
        rewrite drop_ge by (by apply lookup_ge_None). simpl.
        by rewrite app_nil_r. }
    simpl.
    assert (∃ r2, (match _vers b !! k with
             | Some vers => if versionMap_get (versionMap a) (author vers)
                               <? gen vers
                            then append kMax r1 vers else Ok r1
             | None => Ok r1 end) = Ok r2
             ∧ _vers r2 = _vers r1 ++ filter (λ v, fromOther a v = true)
                                      (take 1 (drop k (_vers b))))
      as (r2 & -> & Hr2).
    { destruct (_vers b !! k) as [v|] eqn:Hk.
      - rewrite (drop_S _ v) by done. simpl.
        rewrite filter_cons, versionMap_get_gen by done.
        destruct (fromOther a v) eqn:Hc; unfold fromOther in Hc; rewrite Hc.
        + rewrite decide_True by done. unfold append.
          rewrite Forall_forall in Hvb.
          rewrite Hvb by (by eapply list_elem_of_lookup_2).
          eexists; split; [done|]. simpl. by rewrite take_0.
        + rewrite decide_False by done.
          exists r1; split; [done|]. by rewrite take_0, app_nil_r.
      - exists r1; split; [done|].
        rewrite drop_ge by (by apply lookup_ge_None). simpl.
        by rewrite app_nil_r. }
    simpl. destruct (IH (S k) r2) as (r' & -> & Hr').
    exists r'. split; [done|]. rewrite Hr', Hr2, Hr1.
    assert (∀ (l : list version), take (S n) (drop k l)
              = take 1 (drop k l) ++ take n (drop (S k) l)) as Hsplit.
    { intros l. destruct (l !! k) as [x|] eqn:Hx.
      - by rewrite (drop_S _ x) by done.
      - apply lookup_ge_None in Hx. rewrite !drop_ge by lia.
        by rewrite !take_nil. }
    rewrite (Hsplit (_vers a)), (Hsplit (_vers b)), !filter_app.
    rewrite <- !(assoc_L (++)).
    apply Permutation_app_head, Permutation_app_head.
    rewrite !(assoc_L (++)). apply Permutation_app_tail, Permutation_app_comm.
Qed.


Lemma mergedWith_perm kMax a b :
  NoDup (authors (_vers a)) → NoDup (authors (_vers b)) →
  valid_vector kMax a → valid_vector kMax b →
  ∃ m, mergedWith kMax a b = Ok m ∧ _vers m ≡ₚ mergedList a b.
Proof.
  intros Hna Hnb Hva Hvb. unfold mergedWith.
  destruct (mergeLoop_perm kMax a b (Nat.max (count a) (count b)) 0 emptyVV)
    as (m & Hm & Hp); try done.
  exists m. split; [done|]. rewrite Hp. simpl.
  unfold count. rewrite !drop_0, !take_ge by lia. done.
Qed.

Lemma mergedList_elem a b v :
  v ∈ mergedList a b
  ↔ (v ∈ _vers a ∧ genOfAuthor b (author v) ≤ gen v)
    ∨ (v ∈ _vers b ∧ genOfAuthor a (author v) < gen v).
Proof.
  unfold mergedList. rewrite elem_of_app, !list_elem_of_filter.
  unfold fromThis, fromOther. rewrite N.leb_le, N.ltb_lt. tauto.
Qed.

Lemma mergedList_NoDup a b :
  NoDup (authors (_vers a)) → NoDup (authors (_vers b)) →
  NoDup (authors (mergedList a b)).
Proof.
  intros Hna Hnb. unfold mergedList, authors. rewrite fmap_app.
  apply NoDup_app. split_and!.
  - eapply sublist_NoDup; [exact Hna|]. apply fmap_sublist, sublist_filter.
  - intros p (v & -> & Hv)%list_elem_of_fmap (w & Hvw & Hw)%list_elem_of_fmap.
    apply list_elem_of_filter in Hv as [Hv1 Hv2].
    apply list_elem_of_filter in Hw as [Hw1 Hw2].
    unfold fromThis in Hv1. unfold fromOther in Hw1.
    apply N.leb_le in Hv1. apply N.ltb_lt in Hw1.
    destruct a as [la ca], b as [lb cb]; simpl in *.
    rewrite Hvw, (genOfAuthor_NoDup lb cb w) in Hv1 by done.
    rewrite <- Hvw, (genOfAuthor_NoDup la ca v) in Hw1 by done. lia.
  - eapply sublist_NoDup; [exact Hnb|]. apply fmap_sublist, sublist_filter.
Qed.

Lemma genOfAuthor_entry vv v :
  NoDup (authors (_vers vv)) → v ∈ _vers vv →
  genOfAuthor vv (author v) = gen v.
Proof. destruct vv. apply genOfAuthor_NoDup. Qed.

Lemma genOfAuthor_found vv p :
  genOfAuthor vv p ≠ 0 →
  ∃ v, v ∈ _vers vv ∧ author v = p ∧ gen v = genOfAuthor vv p.
Proof. destruct vv. apply genOfAuthor_pos. Qed.

Section Merged.
Context (a b m : VersionVector).
Hypothesis Hna : NoDup (authors (_vers a)).
Hypothesis Hnb : NoDup (authors (_vers b)).
Hypothesis Hm : _vers m ≡ₚ mergedList a b.

Lemma merged_elem v :
  v ∈ _vers m
  ↔ (v ∈ _vers a ∧ genOfAuthor b (author v) ≤ gen v)
    ∨ (v ∈ _vers b ∧ genOfAuthor a (author v) < gen v).
Proof. rewrite Hm. apply mergedList_elem. Qed.

Lemma merged_NoDup : NoDup (authors (_vers m)).
Proof. unfold authors. rewrite Hm. by apply mergedList_NoDup. Qed.

Lemma merged_gen p :
  genOfAuthor m p = N.max (genOfAuthor a p) (genOfAuthor b p).
Proof.
  pose proof merged_NoDup as Hnm.
  destruct (decide (genOfAuthor m p = 0)) as [Hz|Hnz].
  - rewrite Hz. symmetry.
    destruct (decide (genOfAuthor b p ≤ genOfAuthor a p)) as [Hle|Hgt].
    + rewrite N.max_l by done.
      destruct (decide (genOfAuthor a p = 0)) as [|Hne]; [done|].
      destruct (genOfAuthor_found a p Hne) as (v & Hv & Hp & Hg).
      rewrite <- Hz, <- Hg, <- Hp. symmetry.
      apply genOfAuthor_entry; [done|]. apply merged_elem. left.
      split; [done|]. by rewrite Hp, Hg.
    + rewrite N.max_r by lia.
      assert (genOfAuthor b p ≠ 0) as Hne by lia.
      destruct (genOfAuthor_found b p Hne) as (w & Hw & Hp & Hg).
      rewrite <- Hz, <- Hg, <- Hp. symmetry.
      apply genOfAuthor_entry; [done|]. apply merged_elem. right.
      split; [done|]. rewrite Hp, Hg. lia.
  - destruct (genOfAuthor_found m p Hnz) as (u & Hu & Hp & Hg).
    rewrite <- Hg, <- Hp.
    apply merged_elem in Hu as [[Hu Hle]|[Hu Hlt]].
    + rewrite (genOfAuthor_entry a u) by done. lia.
    + rewrite (genOfAuthor_entry b u) by done. lia.
Qed.

Lemma merged_authors_l : authors (_vers a) ⊆ authors (_vers m).
Proof.
  intros p (v & -> & Hv)%list_elem_of_fmap.
  destruct (decide (genOfAuthor b (author v) ≤ gen v)) as [Hle|Hgt].
  - apply list_elem_of_fmap. exists v. split; [done|].
    apply merged_elem. by left.
  - assert (genOfAuthor b (author v) ≠ 0) as Hne by lia.
    destruct (genOfAuthor_found b _ Hne) as (w & Hw & Hp & Hg).
    apply list_elem_of_fmap. exists w. split; [done|].
    apply merged_elem. right. split; [done|].
    rewrite Hp, (genOfAuthor_entry a v), Hg by done. lia.
Qed.

Lemma merged_not_older : olderIn (_vers m) a = false.
Proof.
  apply not_true_is_false. intros (u & Hu & Hlt)%existsb_exists.
  apply N.ltb_lt in Hlt. apply list_elem_of_In in Hu.
  apply merged_elem in Hu as [[Hu _]|[Hu Hgt]]; [|lia].
  rewrite (genOfAuthor_entry a u) in Hlt by done. lia.
Qed.

Lemma merged_dominates :
  compareTo m a = kSame ∨ compareTo m a = kNewer.
Proof.
  rewrite compareTo_cases.
  destruct (decide (count m < count a)%nat) as [Hlt|_].
  - exfalso. pose proof merged_authors_l as Hsub.
    apply subseteq_length_le in Hsub; [|done].
    rewrite !length_authors in Hsub. unfold count in Hlt. lia.
  - rewrite merged_not_older.
    destruct (decide (count a < count m)%nat); [by right|].
    destruct (_vers m) as [|u l]; [by left|].
    destruct (gen u =? genOfAuthor a (author u)); [by left|].
    destruct (newerIn (u :: l) a); [by right|by left].
Qed.
End Merged.

Lemma mergedList_swap a b :
  NoDup (authors (_vers a)) → NoDup (authors (_vers b)) →
  Forall (λ v, gen v ≠ 0) (_vers a) → Forall (λ v, gen v ≠ 0) (_vers b) →
  ∀ v, v ∈ mergedList a b → v ∈ mergedList b a.
Proof.
  intros Hna Hnb Hpa Hpb v. rewrite !mergedList_elem.
  rewrite Forall_forall in Hpa. rewrite Forall_forall in Hpb.
  intros [[Hv Hle]|[Hv Hlt]].
  - destruct (decide (genOfAuthor b (author v) = gen v)) as [Heq|Hne].
    + left. specialize (Hpa v Hv).
      destruct (genOfAuthor_found b (author v)) as (w & Hw & Hp & Hg);
        [lia|].
      assert (w = v) as ->.
      { destruct w, v; simpl in *. f_equal; [lia|done]. }
      split; [done|]. rewrite (genOfAuthor_entry a v) by done. lia.
    + right. split; [done|]. lia.
  - left. split; [done|]. lia.
Qed.


Lemma mergeLoop_self kMax a n k r :
  NoDup (authors (_vers a)) → valid_vector kMax a →
  ∃ r', mergeLoop kMax a a (versionMap a) (versionMap a) (seq k n) r = Ok r'
    ∧ _vers r' = _vers r ++ take n (drop k (_vers a)).
Proof.
  intros Hna Hva. revert k r. induction n as [|n IH]; intros k r; simpl.
  - exists r. by rewrite app_nil_r.
  - unfold mergeStep at 1.
    destruct (_vers a !! k) as [v|] eqn:Hk; simpl.
    + assert (v ∈ _vers a) as Hv by (by eapply list_elem_of_lookup_2).
      rewrite versionMap_get_gen, (genOfAuthor_entry a v) by done.
      rewrite N.leb_refl, N.ltb_irrefl. unfold append.
      unfold valid_vector in Hva. rewrite Forall_forall in Hva.
      rewrite (Hva v Hv). simpl.
      destruct (IH (S k) (mkVV (_vers r ++ [v]) true)) as (r' & -> & Hr').
      exists r'. split; [done|]. rewrite Hr'. simpl.
      rewrite (drop_S _ v k) by done. simpl.
      by rewrite <- (assoc_L (++)).
    + destruct (IH (S k) r) as (r' & -> & Hr').
      exists r'. split; [done|]. rewrite Hr'.
      apply lookup_ge_None in Hk. rewrite !drop_ge by lia.
      by rewrite !take_nil.
Qed.

(** Claim C4. For well-formed version vectors [a] and [b] (no repeated
    peer, valid authors, no generation 0): [a.mergedWith(a)] has the
    versions of [a]; [a.mergedWith(b).compareTo(b.mergedWith(a))] is
    [kSame]; [a.mergedWith(b).compareTo(a)] is [kSame] or [kNewer]; and
    the merged vector carries, for each peer, the larger of the two
    generations. *)
Theorem mergedWith_spec kMax a b :
  wf_vector kMax a → wf_vector kMax b →
  (∃ m, mergedWith kMax a a = Ok m ∧ _vers m = _vers a)
  ∧ ∃ mab mba,
      mergedWith kMax a b = Ok mab ∧ mergedWith kMax b a = Ok mba
      ∧ compareTo mab mba = kSame
      ∧ (compareTo mab a = kSame ∨ compareTo mab a = kNewer)
      ∧ ∀ p, genOfAuthor mab p = N.max (genOfAuthor a p) (genOfAuthor b p).
Proof.
  intros [Hna Hwa] [Hnb Hwb].
  assert (valid_vector kMax a) as Hva
    by (eapply Forall_impl; [exact Hwa|]; by intros ? []).
  assert (valid_vector kMax b) as Hvb
    by (eapply Forall_impl; [exact Hwb|]; by intros ? []).
  assert (Forall (λ v, gen v ≠ 0) (_vers a)) as Hpa
    by (eapply Forall_impl; [exact Hwa|]; by intros ? []).
  assert (Forall (λ v, gen v ≠ 0) (_vers b)) as Hpb
    by (eapply Forall_impl; [exact Hwb|]; by intros ? []).
  split.
  - unfold mergedWith.
    destruct (mergeLoop_self kMax a (Nat.max (count a) (count a)) 0 emptyVV)
      as (m & Hm & Hl); try done.
    exists m. split; [done|]. rewrite Hl. simpl.
    unfold count. by rewrite drop_0, take_ge by lia.
  - destruct (mergedWith_perm kMax a b) as (mab & Hab & Pab); try done.
    destruct (mergedWith_perm kMax b a) as (mba & Hba & Pba); try done.
    exists mab, mba. split_and!; try done.
    + pose proof (merged_NoDup a b mab Hna Hnb Pab) as Nab.
      pose proof (merged_NoDup b a mba Hnb Hna Pba) as Nba.
      assert (_vers mab ≡ₚ _vers mba) as Hperm.
      { apply NoDup_Permutation.
        - by eapply NoDup_fmap_1.
        - by eapply NoDup_fmap_1.
        - intros v. rewrite Pab, Pba. split; by apply mergedList_swap. }
      pose proof (Permutation_length Hperm) as Hlen.
      rewrite compareTo_cases. unfold count.
      rewrite decide_False by lia. rewrite decide_False by lia.
      destruct (_vers mab) as [|u l] eqn:Hl; [done|].
      rewrite (genOfAuthor_entry mba u); [by rewrite N.eqb_refl|done|].
      rewrite <- Hperm. apply list_elem_of_here.
    + by eapply merged_dominates.
    + by eapply merged_gen.
Qed.

(** *** Examples: scenarios S4 and S5, and the inputs at which the
    comparison is not symmetric *)

Example S4_newer : compareTo S4_a S4_b = kNewer.
Proof. reflexivity. Qed.

Example S4_conflicting :
  compareTo S4_a (vv_of [(1, "X"); (2, "Y")]%string) = kConflicting.
Proof. reflexivity. Qed.

Example S4_same : compareTo S4_a S4_a = kSame.
Proof. reflexivity. Qed.

Lemma NoDup_S4_a : NoDup (authors (_vers S4_a)).
Proof. apply NoDup_ListNoDup. repeat constructor; simpl; intuition discriminate. Qed.

Lemma NoDup_S4_b : NoDup (authors (_vers S4_b)).
Proof. apply NoDup_ListNoDup. repeat constructor; simpl; intuition discriminate. Qed.

Lemma NoDup_S5_b : NoDup (authors (_vers S5_b)).
Proof. apply NoDup_ListNoDup. repeat constructor; simpl; intuition discriminate. Qed.

(** Claim C1 fails as stated: two vectors of one version each, by
    different peers, are each [kNewer] than the other, so [kNewer] on
    one side does not give [kOlder] on the other. *)
Lemma compareTo_not_symmetric :
  compareTo only_Y only_X = kNewer
  ∧ compareTo only_X only_Y = kNewer
  ∧ ¬ (compareTo only_X only_Y = kOlder ↔ compareTo only_Y only_X = kNewer).
Proof.
  split; [reflexivity|]. split; [reflexivity|].
  intros [_ H]. specialize (H eq_refl). discriminate H.
Qed.

Lemma compareTo_swap_witness :
  (compareTo S4_a S4_b = kSame ↔ compareTo S4_b S4_a = kSame)
  ∧ (compareTo S4_a S4_b = kOlder ↔ compareTo S4_b S4_a = kNewer)
  ∧ (compareTo S4_a S4_b = kConflicting
     ↔ compareTo S4_b S4_a = kConflicting).
Proof.
  apply (compareTo_swap S4_a S4_b).
  - apply NoDup_S4_a.
  - apply NoDup_S4_b.
  - left. simpl. reflexivity.
  - intros _. reflexivity.
Defined.

Lemma incrementGen_spec_witness :
  (mergeEntry S4_a "Y" →
     incrementGen 64 S4_a "Y" = Throw BadVersionVector)
  ∧ (¬ mergeEntry S4_a "Y" →
     ∃ vv', incrementGen 64 S4_a "Y" = Ok vv'
       ∧ head (_vers vv')
         = Some (mkVersion (genOfAuthor S4_a "Y" + 1) "Y")
       ∧ compareTo vv' S4_a = kNewer
       ∧ genOfAuthor vv' "Y" = genOfAuthor S4_a "Y" + 1).
Proof.
  apply (incrementGen_spec 64 S4_a "Y"%string).
  - apply NoDup_S4_a.
  - reflexivity.
  - vm_compute. reflexivity.
Defined.

Lemma wf_S4_a : wf_vector 64 S4_a.
Proof.
  split; [apply NoDup_S4_a|].
  repeat constructor; simpl; discriminate.
Qed.

Lemma wf_S5_b : wf_vector 64 S5_b.
Proof.
  split; [apply NoDup_S5_b|].
  repeat constructor; simpl; discriminate.
Qed.

Lemma mergedWith_spec_witness :
  (∃ m, mergedWith 64 S4_a S4_a = Ok m ∧ _vers m = _vers S4_a)
  ∧ ∃ mab mba,
      mergedWith 64 S4_a S5_b = Ok mab ∧ mergedWith 64 S5_b S4_a = Ok mba
      ∧ compareTo mab mba = kSame
      ∧ (compareTo mab S4_a = kSame ∨ compareTo mab S4_a = kNewer)
      ∧ ∀ p, genOfAuthor mab p
             = N.max (genOfAuthor S4_a p) (genOfAuthor S5_b p).
Proof.
  apply (mergedWith_spec 64 S4_a S5_b); [apply wf_S4_a | apply wf_S5_b].
Defined.

(** Scenario S5: the merge has [gen(X) = 2] and [gen(Y) = 3], and
    incrementing [*] on it gives a vector newer than both inputs. *)
Example S5_merge :
  ∃ m m', mergedWith 64 S4_a S5_b = Ok m
    ∧ genOfAuthor m "X" = 2 ∧ genOfAuthor m "Y" = 3
    ∧ incrementGen 64 m kMePeerID = Ok m'
    ∧ compareTo m' S4_a = kNewer ∧ compareTo m' S5_b = kNewer.
Proof. do 2 eexists. split_and!; reflexivity. Qed.

End VVFacts.

(** * Properties of rev trees *)

Module RTFacts.
Import RT.

Lemma same_links_storage t t' :
  _revsStorage t' = _revsStorage t → same_links t t'.
Proof. intros E. split; rewrite E; [done|]. intros p r Hr. by exists r. Qed.

Lemma same_links_refl t : same_links t t.
Proof. by apply same_links_storage. Qed.

Lemma same_links_trans t1 t2 t3 :
  same_links t1 t2 → same_links t2 t3 → same_links t1 t3.
Proof.
  intros [Hl1 H1] [Hl2 H2]. split; [congruence|].
  intros p r Hr. destruct (H1 p r Hr) as (r' & Hr' & Hi & Hp).
  destruct (H2 p r' Hr') as (r'' & Hr'' & Hi' & Hp').
  exists r''. split_and!; congruence.
Qed.

Lemma same_links_update t p f :
  keeps_links f → same_links t (update p f t).
Proof.
  intros Hf. split; simpl.
  - apply length_alter.
  - intros q r Hr. destruct (decide (p = q)) as [->|Hne].
    + exists (f r). rewrite list_lookup_alter_eq, Hr. split; [done|]. apply Hf.
    + exists r. by rewrite list_lookup_alter_ne.
Qed.

Lemma same_links_setChanged t b : same_links t (setChanged b t).
Proof. by apply same_links_storage. Qed.

Lemma keeps_links_addFlag f : keeps_links (addFlag f).
Proof. by intros r. Qed.
Lemma keeps_links_clearFlag f : keeps_links (clearFlag f).
Proof. by intros r. Qed.
Lemma keeps_links_removeBody : keeps_links Rev_removeBody.
Proof. by intros r. Qed.

Lemma chain_same_links t t' x n :
  same_links t t' → chain t x n → chain t' x n.
Proof.
  intros [_ Hs] Hc. induction Hc as [|p r n Hr _ IH]; [constructor|].
  destruct (Hs p r Hr) as (r' & Hr' & _ & Hp).
  econstructor; [done|]. by rewrite Hp.
Qed.

Lemma same_index_refl t : same_index t t.
Proof. done. Qed.

Lemma same_index_trans t1 t2 t3 :
  same_index t1 t2 → same_index t2 t3 → same_index t1 t3.
Proof. unfold same_index. intros (?&?&?&?) (?&?&?&?). split_and!; congruence. Qed.

Lemma deref_Some t p r : _revsStorage t !! p = Some r → deref t p = Ok r.
Proof. unfold deref. by intros ->. Qed.

Lemma keepBody_loop_ok fuel conflict t anc n :
  chain t anc n → (n ≤ fuel)%nat →
  ∃ t', keepBody_loop fuel conflict anc t = Ok t'
        ∧ same_links t t' ∧ same_index t t'.
Proof.
  revert t anc n. induction fuel as [|fuel IH]; intros t anc n Hc Hn.
  - inversion Hc; subst; [|lia]. exists t. simpl.
    split_and!; [done|apply same_links_refl|done].
  - inversion Hc as [|p r m Hr Hc']; subst.
    + exists t. split_and!; [done|apply same_links_refl|done].
    + simpl. rewrite (deref_Some _ _ _ Hr). simpl.
      destruct (conflict && negb (isConflict r)).
      * exists t. split_and!; [done|apply same_links_refl|done].
      * pose proof (same_links_update t p (clearFlag kKeepBody)
                      (keeps_links_clearFlag _)) as Hs.
        destruct (IH (update p (clearFlag kKeepBody) t) (parent r) m)
          as (t' & Ht' & Hs' & Hi'); [by eapply chain_same_links|lia|].
        exists t'. split_and!; [done|by eapply same_links_trans|done].
Qed.

Lemma keepBody_ok fuel t p r n :
  _revsStorage t !! p = Some r → chain t (parent r) n → (n ≤ fuel)%nat →
  ∃ t', keepBody fuel t p = Ok t' ∧ same_links t t' ∧ same_index t t'.
Proof.
  intros Hr Hc Hn. unfold keepBody. rewrite (deref_Some _ _ _ Hr). simpl.
  pose proof (same_links_update t p (addFlag kKeepBody)
                (keeps_links_addFlag _)) as Hs.
  destruct Hs as [Hl Hs0]. destruct (Hs0 p r Hr) as (r' & Hr' & _ & Hp).
  rewrite (deref_Some _ _ _ Hr'). simpl.
  destruct (keepBody_loop_ok fuel (isConflict r')
              (update p (addFlag kKeepBody) t) (parent r') n)
    as (t' & -> & Hs' & Hi'); [|done|].
  { rewrite Hp. eapply chain_same_links; [|done]. by split. }
  simpl. eexists. split; [done|]. split.
  - eapply same_links_trans; [by split|]. done.
  - done.
Qed.

Lemma removeBody_ok t p r :
  _revsStorage t !! p = Some r →
  ∃ t', removeBody t p = Ok t' ∧ same_links t t' ∧ same_index t t'.
Proof.
  intros Hr. unfold removeBody. rewrite (deref_Some _ _ _ Hr). simpl.
  destruct (bool_decide (is_Some (_body r))).
  - eexists. split; [done|]. split; [|done].
    apply (same_links_update t p _ keeps_links_removeBody).
  - exists t. split_and!; [done|apply same_links_refl|done].
Qed.

Lemma removeBodiesOnBranch_ok fuel t p n :
  chain t (Some p) n → (n ≤ fuel)%nat →
  ∃ t', removeBodiesOnBranch fuel t p = Ok t'
        ∧ same_links t t' ∧ same_index t t'.
Proof.
  revert t p n. induction fuel as [|fuel IH]; intros t p n Hc Hn.
  - inversion Hc; subst. lia.
  - inversion Hc as [|p' r m Hr Hc']; subst. simpl.
    destruct (removeBody_ok t p r Hr) as (t1 & -> & Hs1 & Hi1). simpl.
    destruct Hs1 as [Hl1 Hs1].
    destruct (Hs1 p r Hr) as (r1 & Hr1 & _ & Hp1).
    rewrite (deref_Some _ _ _ Hr1). simpl. rewrite Hp1.
    destruct (parent r) as [q|] eqn:Hq.
    + destruct (IH t1 q m) as (t' & -> & Hs' & Hi'); [|lia|].
      { eapply chain_same_links; [|done]. by split. }
      exists t'. split; [done|]. split.
      * eapply same_links_trans; [by split|done].
      * by eapply same_index_trans.
    + exists t1. split_and!; [done|by split|done].
Qed.


Lemma get_loop_found t revs id :
  (∀ p, p ∈ revs → valid_ptr t p) →
  ∃ o, get_loop t revs id = Ok o
       ∧ bool_decide (is_Some o)
         = existsb (λ p, match _revsStorage t !! p with
                         | Some r => bool_decide (revID r = id)
                         | None => false
                         end) revs.
Proof.
  induction revs as [|p revs IH]; intros Hv; simpl.
  - by exists None.
  - destruct (Hv p) as [r Hr]; [apply list_elem_of_here|].
    rewrite (deref_Some _ _ _ Hr), Hr. simpl.
    destruct (decide (revID r = id)) as [He|Hne].
    + exists (Some p). rewrite (bool_decide_eq_true_2 _ He).
      split; [done|]. by apply bool_decide_eq_true_2.
    + rewrite (bool_decide_eq_false_2 _ Hne). simpl.
      apply IH. intros q Hq. apply Hv. by apply list_elem_of_further.
Qed.

Lemma get_found t id :
  _unknown t = false → (∀ p, p ∈ _revs t → valid_ptr t p) →
  ∃ o, get t id = Ok o ∧ bool_decide (is_Some o) = hasRevID t id.
Proof.
  intros Hk Hv. unfold get.
  destruct (get_loop_found t (_revs t) id Hv) as (o & -> & Ho). simpl.
  exists o. split; [|done]. destruct o; [done|]. by rewrite Hk.
Qed.

Lemma same_links_app t rev :
  let t1 := setStorage (_revsStorage t ++ [rev]) t in
  (∀ p r, _revsStorage t !! p = Some r → _revsStorage t1 !! p = Some r)
  ∧ _revsStorage t1 !! length (_revsStorage t) = Some rev.
Proof.
  simpl. split.
  - intros p r Hr. by apply lookup_app_l_Some.
  - by rewrite lookup_app_r, Nat.sub_diag.
Qed.

Lemma chain_app t rev x n :
  chain t x n → chain (setStorage (_revsStorage t ++ [rev]) t) x n.
Proof.
  intros Hc. induction Hc as [|p r n Hr _ IH]; [constructor|].
  econstructor; [|done]. simpl. by apply lookup_app_l_Some.
Qed.

Lemma inserted_finish t rev t2 :
  let t1 := setStorage (_revsStorage t ++ [rev]) t in
  let t3 := setChanged true t2 in
  let t4 := if negb (bool_decide (_revs t3 = []))
            then setSorted false t3 else t3 in
  same_links t1 t2 → same_index t1 t2 →
  inserted t (setRevs (_revs t4 ++ [length (_revsStorage t)]) t4)
           (length (_revsStorage t)) (revID rev) (parent rev).
Proof.
  intros t1 t3 t4 [Hl2 Hs2] (Hr2 & Hm2 & _).
  destruct (same_links_app t rev) as [Hold Hnew]. fold t1 in Hold, Hnew.
  assert (_revsStorage t4 = _revsStorage t2) as Hst
    by (unfold t4; by destruct (negb _)).
  assert (_revs t4 = _revs t) as Hrv
    by (unfold t4; by destruct (negb _)).
  assert (_remoteRevs t4 = _remoteRevs t) as Hrm
    by (unfold t4; by destruct (negb _)).
  assert (_changed t4 = true) as Hch
    by (unfold t4; by destruct (negb _)).
  unfold inserted. simpl. rewrite Hst, Hrv, Hrm, Hch, Hl2. split_and!; try done.
  - simpl. rewrite length_app. simpl. lia.
  - destruct (Hs2 _ rev Hnew) as (r' & Hr' & Hid & Hp). by exists r'.
  - intros p r Hr. destruct (Hs2 p r (Hold p r Hr)) as (r' & Hr' & Hid & Hp).
    by exists r'.
Qed.

Lemma _insert_ok fuel t revID0 body parent0 revFlags markConflict :
  _unknown t = false →
  (∀ pp, parent0 = Some pp → ∃ n, chain t (Some pp) n ∧ (n ≤ fuel)%nat) →
  (N.land revFlags kClosed ≠ 0 → N.land revFlags kDeleted ≠ 0) →
  ∃ t', _insert fuel t revID0 body parent0 revFlags markConflict
        = Ok (t', length (_revsStorage t))
        ∧ inserted t t' (length (_revsStorage t)) revID0 parent0.
Proof.
  intros Hk Hpar Hcl. unfold _insert.
  assert ((negb (N.land (N.land revFlags insertFlagMask) kClosed =? 0)
           && (N.land (N.land revFlags insertFlagMask) kDeleted =? 0))
          = false) as ->.
  { apply andb_false_iff.
    destruct (N.land revFlags kClosed =? 0) eqn:Hc.
    - left. apply N.eqb_eq in Hc. apply negb_false_iff, N.eqb_eq.
      rewrite <- N.land_assoc, (N.land_comm insertFlagMask),
        N.land_assoc, Hc. done.
    - right. apply N.eqb_neq in Hc. apply Hcl in Hc. apply N.eqb_neq.
      intros Hz. apply Hc.
      rewrite <- N.land_assoc in Hz.
      change (N.land insertFlagMask kDeleted) with kDeleted in Hz. done. }
  rewrite Hk. cbv zeta.
  set (rev := mkRev revID0 0 parent0 body _).
  set (t1 := setStorage (_revsStorage t ++ [rev]) t).
  destruct (same_links_app t rev) as [Hold Hnew]. fold t1 in Hold, Hnew.
  destruct parent0 as [pp|].
  - destruct (Hpar pp eq_refl) as (n & Hc & Hn).
    inversion Hc as [|? prev m Hprev Hc']; subst.
    rewrite (deref_Some t1 pp prev) by (by apply Hold). simpl.
    set (ta := if markConflict && _ then _ else t1).
    assert (same_links t1 ta ∧ same_index t1 ta) as [Hsa Hia].
    { unfold ta. destruct (markConflict && _);
        [|by split; [apply same_links_refl|]].
      split; [|done]. apply same_links_update, keeps_links_addFlag. }
    set (tb := update pp (clearFlag kLeaf) ta).
    assert (same_links t1 tb ∧ same_index t1 tb) as [Hsb Hib].
    { split; [|done]. eapply same_links_trans; [done|].
      apply same_links_update, keeps_links_clearFlag. }
    assert (chain tb (Some pp) (S m)) as Hcb.
    { eapply chain_same_links; [done|]. apply chain_app.
      by econstructor. }
    destruct (negb (N.land _ kKeepBody =? 0)).
    + pose proof Hsb as [Hlb Hsb'].
      destruct (Hsb' _ rev Hnew) as (rev' & Hrev' & _ & Hp').
      destruct (keepBody_ok fuel tb _ rev' (S m) Hrev')
        as (t2 & -> & Hs2 & Hi2); [by rewrite Hp'|done|].
      simpl. eexists. split; [done|].
      apply (inserted_finish t rev t2).
      * by eapply same_links_trans.
      * by eapply same_index_trans.
    + destruct (negb (N.land _ kClosed =? 0)).
      * destruct (removeBodiesOnBranch_ok fuel tb pp (S m) Hcb Hn)
          as (t2 & -> & Hs2 & Hi2).
        simpl. eexists. split; [done|].
        apply (inserted_finish t rev t2).
        -- by eapply same_links_trans.
        -- by eapply same_index_trans.
      * simpl. eexists. split; [done|].
        by apply (inserted_finish t rev tb).
  - simpl. eexists. split; [done|].
    apply (inserted_finish t rev).
    + destruct (markConflict && _); [|apply same_links_refl].
      apply same_links_update, keeps_links_addFlag.
    + by destruct (markConflict && _).
Qed.


(** Claim C2, amended. For every call of [insert] on a loaded tree with
    valid pointers: a revID of generation 0 is refused first, with
    (null, 400); otherwise, if a Rev with the revID exists the call
    returns (null, 200); otherwise, if [allowConflict] is false and the
    given parent is not a leaf (or no parent is given and the tree is
    non-empty) it returns (null, 409); otherwise, if the generation is
    not [parentGen + 1] (1 without a parent) it returns (null, 400); in
    these cases the tree is unchanged. Otherwise a new Rev is inserted
    and [httpStatus] is 200 when [kDeleted] is set, else 201. *)
Theorem insert_spec fuel t revID0 body revFlags parent0
    allowConflict markConflict :
  insert_pre fuel t revID0 revFlags parent0 →
  let call := insert fuel t revID0 body revFlags parent0
                     allowConflict markConflict in
  if generation revID0 =? 0 then call = Ok (t, None, 400%Z)
  else if hasRevID t revID0 then call = Ok (t, None, 200%Z)
  else if conflictGate t parent0 allowConflict
  then call = Ok (t, None, 409%Z)
  else if negb (generation revID0 =? parentGen t parent0 + 1)
  then call = Ok (t, None, 400%Z)
  else ∃ t' newRev,
      call = Ok (t', Some newRev,
                 if negb (N.land revFlags kDeleted =? 0)
                 then 200%Z else 201%Z)
      ∧ inserted t t' newRev revID0 parent0.
Proof.
  intros [Hk Hv Hpar Hg Hpg Hcl]. unfold insert. simpl.
  destruct (generation revID0 =? 0) eqn:Hz; [done|].
  apply N.eqb_neq in Hz.
  destruct (get_found t revID0 Hk Hv) as (o & -> & Ho). simpl.
  rewrite Ho. destruct (hasRevID t revID0); [done|].
  assert (∃ gate, (match parent0 with
            | Some pp =>
                prev ← deref t pp;
                if negb allowConflict && negb (isLeaf prev)
                then Ok None else Ok (Some (generation (revID prev)))
            | None =>
                if negb allowConflict
                   && bool_decide (0 < length (_revs t))%nat
                then Ok None else Ok (Some 0)
            end) = Ok gate
          ∧ gate = (if conflictGate t parent0 allowConflict then None
                    else Some (parentGen t parent0)))
    as (gate & -> & ->).
  { unfold conflictGate, parentGen. destruct parent0 as [pp|].
    - destruct (Hpar pp eq_refl) as (n & Hc & _).
      inversion Hc as [|? prev m Hprev _]; subst.
      rewrite (deref_Some _ _ _ Hprev), Hprev. simpl.
      destruct (negb allowConflict && negb (isLeaf prev)); by eexists.
    - assert (bool_decide (0 < length (_revs t))%nat
              = bool_decide (_revs t ≠ [])) as ->.
      { apply bool_decide_ext. destruct (_revs t); simpl; [|split; [done|lia]].
        split; [lia|done]. }
      destruct (negb allowConflict && bool_decide (_revs t ≠ []));
        by eexists. }
  simpl. destruct (conflictGate t parent0 allowConflict); [done|].
  assert ((generation revID0
           =? (parentGen t parent0 + 1) mod uint32_modulus)
          = (generation revID0 =? parentGen t parent0 + 1)) as ->.
  { destruct (decide (parentGen t parent0 + 1 < uint32_modulus)) as [Hlt|Hge].
    - by rewrite N.mod_small.
    - assert (parentGen t parent0 + 1 = uint32_modulus) as -> by lia.
      rewrite N.Div0.mod_same.
      transitivity false; [|symmetry]; apply N.eqb_neq; lia. }
  destruct (negb (generation revID0 =? parentGen t parent0 + 1)); [done|].
  destruct (_insert_ok fuel t revID0 body parent0 revFlags markConflict)
    as (t' & -> & Hins); try done.
  simpl. by exists t', (length (_revsStorage t)).
Qed.

Lemma get_loop_Some t revs id p :
  get_loop t revs id = Ok (Some p) →
  p ∈ revs ∧ ∃ r, _revsStorage t !! p = Some r ∧ revID r = id.
Proof.
  induction revs as [|q revs IH]; simpl; [done|].
  unfold deref. destruct (_revsStorage t !! q) as [r|] eqn:Hr; simpl; [|done].
  destruct (decide (revID r = id)) as [He|Hne].
  - intros [= <-]. split; [apply list_elem_of_here|]. by exists r.
  - intros H. destruct (IH H) as [Hin Hr']. split; [|done].
    by apply list_elem_of_further.
Qed.

(** Claim C10. On a loaded tree with valid pointers, if no Rev carries
    the revID, or the Rev that carries it is not a leaf, [purge] returns
    0 and the tree it leaves is the tree it was given: no rev removed,
    no flag changed, [remoteRevs] untouched. *)
Theorem purge_noop fuel t leafID :
  _unknown t = false →
  (∀ p, p ∈ _revs t → valid_ptr t p) →
  (∀ p r, p ∈ _revs t → _revsStorage t !! p = Some r →
          revID r = leafID → isLeaf r = false) →
  purge fuel t leafID = Ok (t, 0%Z).
Proof.
  intros Hk Hv Hnl. unfold purge, get.
  destruct (get_loop_found t (_revs t) leafID Hv) as (o & Ho & _).
  rewrite Ho. simpl. destruct o as [p|]; simpl.
  - destruct (get_loop_Some _ _ _ _ Ho) as (Hin & r & Hr & Hid).
    rewrite (deref_Some _ _ _ Hr). simpl.
    by rewrite (Hnl p r Hin Hr Hid).
  - by rewrite Hk.
Qed.

(** *** Examples: scenarios S1 to S3 *)

Example S1_first :
  insert 8 emptyTree (mkRevid 1 "a") (Some "{}"%string) kNoFlags None
         false false
  = Ok (S1_root, Some 0%nat, 201%Z).
Proof. vm_compute. reflexivity. Qed.

Example S1_second :
  insert 8 S1_root (mkRevid 2 "b") (Some "{x:1}"%string) kNoFlags
         (Some 0%nat) false false
  = Ok (S1_tree, Some 1%nat, 201%Z).
Proof. vm_compute. reflexivity. Qed.

Example S2_again :
  insert 8 S1_tree (mkRevid 2 "b") (Some "{x:1}"%string) kNoFlags
         (Some 0%nat) false false
  = Ok (S1_tree, None, 200%Z).
Proof. vm_compute. reflexivity. Qed.

Example S3_gate :
  insert 8 S1_tree (mkRevid 2 "c") (Some "{}"%string) kNoFlags
         (Some 0%nat) false false
  = Ok (S1_tree, None, 409%Z).
Proof. vm_compute. reflexivity. Qed.

(** Claim C2 fails as stated: for a revID of generation 0 that is not in
    the tree, with [allowConflict] off and a parent that is not a leaf,
    the claim gives 409 and the code returns 400. *)
Lemma insert_generation0_counterexample :
  hasRevID S1_tree (mkRevid 0 "c") = false
  ∧ conflictGate S1_tree (Some 0%nat) false = true
  ∧ insert 8 S1_tree (mkRevid 0 "c") (Some "{}"%string) kNoFlags
           (Some 0%nat) false false
    = Ok (S1_tree, None, 400%Z)
  ∧ insert 8 S1_tree (mkRevid 0 "c") (Some "{}"%string) kNoFlags
           (Some 0%nat) false false
    ≠ Ok (S1_tree, None, 409%Z).
Proof. split_and!; try (vm_compute; reflexivity). vm_compute. discriminate. Qed.

Lemma S1_root_pre :
  insert_pre 8 S1_root (mkRevid 2 "b") kNoFlags (Some 0%nat).
Proof.
  split; try done.
  - intros p Hp. apply list_elem_of_singleton in Hp as ->. by eexists.
  - intros pp [= <-]. exists 1%nat. split; [|lia].
    econstructor; [reflexivity|]. constructor.
Qed.

Lemma insert_spec_witness :
  ∃ t' newRev,
    insert 8 S1_root (mkRevid 2 "b") (Some "{x:1}"%string) kNoFlags
           (Some 0%nat) false false
    = Ok (t', Some newRev, 201%Z)
    ∧ inserted S1_root t' newRev (mkRevid 2 "b") (Some 0%nat).
Proof.
  apply (insert_spec 8 S1_root (mkRevid 2 "b") (Some "{x:1}"%string)
           kNoFlags (Some 0%nat) false false S1_root_pre).
Defined.

Lemma purge_noop_witness :
  purge 8 S1_tree (mkRevid 1 "a") = Ok (S1_tree, 0%Z).
Proof.
  apply (purge_noop 8 S1_tree (mkRevid 1 "a")).
  - reflexivity.
  - intros p Hp. simpl in Hp.
    apply elem_of_cons in Hp as [->|Hp]; [by eexists|].
    apply list_elem_of_singleton in Hp as ->. by eexists.
  - intros p r Hp Hr Hid. simpl in Hp.
    apply elem_of_cons in Hp as [->|Hp].
    + simpl in Hr. injection Hr as <-. reflexivity.
    + apply list_elem_of_singleton in Hp as ->.
      simpl in Hr. injection Hr as <-. discriminate Hid.
Defined.

(** *** [prune]: what it keeps *)

(** Flag bits. *)
Lemma land_lor_purge x f :
  N.land kPurge f = 0 → N.land (N.lor x kPurge) f = N.land x f.
Proof. intros H. by rewrite N.land_lor_distr_l, H, N.lor_0_r. Qed.

Lemma isLeaf_addPurge r : isLeaf (addFlag kPurge r) = isLeaf r.
Proof. unfold isLeaf, hasFlag. simpl. by rewrite land_lor_purge. Qed.

Lemma keepBody_addPurge r :
  keepBodyFlag (addFlag kPurge r) = keepBodyFlag r.
Proof. unfold keepBodyFlag, hasFlag. simpl. by rewrite land_lor_purge. Qed.

Lemma marked_addPurge r : isMarkedForPurge (addFlag kPurge r) = true.
Proof.
  unfold isMarkedForPurge, hasFlag. simpl.
  rewrite N.land_lor_distr_l. apply negb_true_iff, N.eqb_neq.
  intros [_ H]%N.lor_eq_0_iff. discriminate H.
Qed.

Lemma addPurge_idem r : addFlag kPurge (addFlag kPurge r) = addFlag kPurge r.
Proof.
  unfold addFlag. simpl. f_equal.
  by rewrite <- N.lor_assoc, N.lor_diag.
Qed.

Lemma clearPurge_addPurge r :
  isMarkedForPurge r = false → clearFlag kPurge (addFlag kPurge r) = r.
Proof.
  unfold isMarkedForPurge, hasFlag, clearFlag, addFlag. destruct r as [i s p b f].
  simpl. intros H%negb_false_iff%N.eqb_eq. f_equal.
  apply N.bits_inj. intros n.
  rewrite N.ldiff_spec, N.lor_spec.
  destruct (N.testbit kPurge n) eqn:Hn.
  - assert (N.testbit f n = false) as ->; [|done].
    assert (N.testbit (N.land f kPurge) n = false) as Hz
      by (rewrite H; apply N.bits_0).
    rewrite N.land_spec, Hn in Hz. by destruct (N.testbit f n).
  - by rewrite orb_false_r, andb_true_r.
Qed.

Lemma lookup_update_eq t (p : ptr) f r :
  _revsStorage t !! p = Some r →
  _revsStorage (update p f t) !! p = Some (f r).
Proof.
  intros H. simpl. rewrite list_lookup_alter_eq.
  exact (f_equal (fmap f) H).
Qed.

Lemma lookup_update_ne t (p x : ptr) f :
  x ≠ p → _revsStorage (update p f t) !! x = _revsStorage t !! x.
Proof. intros H. simpl. apply list_lookup_alter_ne. congruence. Qed.

Lemma flags_rel_refl r : flags_rel r r.
Proof. by left. Qed.

Lemma flags_rel_leaf r0 r : flags_rel r0 r → isLeaf r = isLeaf r0.
Proof.
  unfold isLeaf, hasFlag. intros [-> | (-> & _ & _)]; [done|].
  by rewrite land_lor_purge.
Qed.

Lemma flags_rel_keep r0 r :
  flags_rel r0 r → keepBodyFlag r = keepBodyFlag r0.
Proof.
  unfold keepBodyFlag, hasFlag. intros [-> | (-> & _ & _)]; [done|].
  by rewrite land_lor_purge.
Qed.

Lemma flags_rel_marked r0 r :
  isMarkedForPurge r0 = false → flags_rel r0 r →
  isMarkedForPurge r = true →
  flags r = N.lor (flags r0) kPurge
  ∧ keepBodyFlag r0 = false ∧ isLeaf r0 = false.
Proof.
  intros H0 [Hf | ?] Hm; [|done].
  unfold isMarkedForPurge, hasFlag in *. rewrite Hf in Hm. congruence.
Qed.

Lemma flags_rel_mark r0 r :
  flags_rel r0 r → keepBodyFlag r0 = false → isLeaf r0 = false →
  flags_rel r0 (addFlag kPurge r).
Proof.
  intros [Hf | (Hf & _ & _)] Hk Hl; right; simpl; rewrite Hf.
  - done.
  - split; [|done]. by rewrite <- N.lor_assoc, N.lor_diag.
Qed.

Lemma flags_rel_unmark r0 r :
  isMarkedForPurge r0 = false → flags_rel r0 r →
  isMarkedForPurge r = true →
  flags (clearFlag kPurge r) = flags r0.
Proof.
  intros H0 Hrel Hm.
  destruct (flags_rel_marked r0 r H0 Hrel Hm) as (Hf & _ & _).
  simpl. rewrite Hf.
  pose proof (clearPurge_addPurge r0 H0) as Hc.
  by apply (f_equal flags) in Hc.
Qed.

Lemma marked_only_refl t : marked_only t t.
Proof.
  split_and!; try done. intros p r Hr. exists r.
  split_and!; [done|done|apply flags_rel_refl].
Qed.

(** Replacing the flags of one Rev. *)
Lemma marked_only_update t0 t a f :
  marked_only t0 t →
  (∀ r, parent (f r) = parent r) →
  (∀ r0 r, _revsStorage t0 !! a = Some r0 →
           _revsStorage t !! a = Some r → flags_rel r0 r →
           flags_rel r0 (f r)) →
  marked_only t0 (update a f t).
Proof.
  intros (Hr & Hm & Hs & Hl & Hrevs) Hp Hf.
  split_and!; try done.
  - simpl. by rewrite length_alter.
  - intros p r0 Hr0. destruct (Hrevs p r0 Hr0) as (r & Hrp & Hpar & Hrel).
    simpl. destruct (decide (a = p)) as [->|Hne].
    + exists (f r). rewrite list_lookup_alter_eq, Hrp. simpl.
      split_and!; [done|by rewrite Hp|by eapply Hf].
    + exists r. by rewrite list_lookup_alter_ne.
Qed.

Section Prune.
Variables (fuel0 : nat) (t0 : RevTree) (maxDepth : nat).
Hypothesis Hpre : prune_pre fuel0 t0.
Hypothesis HmaxDepth : (1 ≤ maxDepth)%nat.

Lemma prune_walk_ok fuel t anc depth n k :
  marked_only t0 t →
  chain t0 anc k → (k ≤ fuel)%nat →
  ((1 ≤ depth)%nat → ∀ a r0, anc = Some a →
     _revsStorage t0 !! a = Some r0 → isLeaf r0 = false) →
  ∃ t' n', prune_walk fuel maxDepth anc depth t n = Ok (t', n')
           ∧ marked_only t0 t'.
Proof.
  revert t anc depth n k.
  induction fuel as [|fuel IH]; intros t anc depth n k Hm Hc Hk Hleaf.
  - inversion Hc; subst; [|lia]. by exists t, n.
  - inversion Hc as [|a r0 k' Hr0 Hc']; subst; [by exists t, n|].
    simpl.
    destruct Hm as (Hr & Hrm & Hs & Hl & Hrevs).
    destruct (Hrevs a r0 Hr0) as (r & Hra & Hpar & Hrel).
    rewrite (deref_Some _ _ _ Hra). simpl. rewrite Hpar.
    assert (∀ a' r', parent r0 = Some a' →
              _revsStorage t0 !! a' = Some r' → isLeaf r' = false)
      as Hnext.
    { intros a' r' Ha' Hr'. exact (pp_leaves _ _ Hpre a r0 a' r' Hr0 Ha' Hr'). }
    destruct (bool_decide (maxDepth < S depth)%nat
              && negb (keepBodyFlag r)) eqn:Hcond.
    + apply andb_true_iff in Hcond as [Hd Hkeep].
      apply bool_decide_eq_true in Hd. apply negb_true_iff in Hkeep.
      rewrite (flags_rel_keep r0 r Hrel) in Hkeep.
      eapply (IH _ _ _ _ k'); [|done|lia|by intros _].
      apply marked_only_update; [by split_and!|done|].
      intros r0' r' Hr0' Hr' Hrel'.
      assert (r0' = r0) as -> by congruence.
      apply flags_rel_mark; [done|done|].
      eapply Hleaf; [lia|done|done].
    + eapply (IH _ _ _ _ k'); [by split_and!|done|lia|by intros _].
Qed.

Lemma prune_mark_ok revs t n :
  marked_only t0 t →
  (∀ p, p ∈ revs → valid_ptr t0 p) →
  (∀ p, valid_ptr t0 p → ∃ k, chain t0 (Some p) k ∧ (k ≤ fuel0)%nat) →
  ∃ t' n', prune_mark fuel0 maxDepth revs t n = Ok (t', n')
           ∧ marked_only t0 t'.
Proof.
  revert t n. induction revs as [|p revs IH]; intros t n Hm Hv Hch.
  - by exists t, n.
  - simpl.
    destruct (Hv p) as [r0 Hr0]; [apply list_elem_of_here|].
    pose proof Hm as (_ & _ & _ & _ & Hrevs).
    destruct (Hrevs p r0 Hr0) as (r & Hrp & _ & _).
    rewrite (deref_Some _ _ _ Hrp). simpl.
    assert (∀ q, q ∈ revs → valid_ptr t0 q) as Hv'
      by (intros q Hq; apply Hv; by apply list_elem_of_further).
    destruct (isLeaf r).
    + destruct (Hch p) as (k & Hk & Hkf); [by exists r0|].
      destruct (prune_walk_ok fuel0 t (Some p) 0 n k Hm Hk Hkf)
        as (t1 & n1 & -> & Hm1); [lia|].
      simpl. by apply IH.
    + destruct (_sorted t); [by exists t, n|]. by apply IH.
Qed.

End Prune.

Section Surviving.
Variables (fuel0 : nat) (t0 : RevTree).
Hypothesis Hpre : prune_pre fuel0 t0.

Lemma prune_remotes_ok remotes t n :
  marked_only t0 t →
  (∀ k p, (k, p) ∈ remotes → valid_ptr t0 p) →
  ∃ t' n', prune_remotes remotes t n = Ok (t', n')
    ∧ marked_only t0 t'
    ∧ (∀ x r r', _revsStorage t !! x = Some r →
         _revsStorage t' !! x = Some r' →
         isMarkedForPurge r = false → isMarkedForPurge r' = false)
    ∧ (∀ k p r', (k, p) ∈ remotes → _revsStorage t' !! p = Some r' →
         isMarkedForPurge r' = false).
Proof.
  revert t n. induction remotes as [|[k p] remotes IH]; intros t n Hm Hv.
  - exists t, n. split_and!; try done.
    + intros x r r' Hr Hr'. congruence.
    + intros k p r' Hin. by apply elem_of_nil in Hin.
  - simpl.
    destruct (Hv k p) as [r0 Hr0]; [apply list_elem_of_here|].
    pose proof Hm as (_ & _ & _ & _ & Hrevs).
    destruct (Hrevs p r0 Hr0) as (r & Hrp & Hpar & Hrel).
    rewrite (deref_Some _ _ _ Hrp). simpl.
    assert (∀ k' q, (k', q) ∈ remotes → valid_ptr t0 q) as Hv'
      by (intros k' q Hq; eapply Hv; by apply list_elem_of_further).
    pose proof (pp_unmarked _ _ Hpre p r0 Hr0) as Hun0.
    destruct (isMarkedForPurge r) eqn:Hmk.
    + set (t1 := update p (clearFlag kPurge) t).
      assert (marked_only t0 t1) as Hm1.
      { apply marked_only_update; [done|done|].
        intros r0' r' Hr0' Hr' Hrel'.
        assert (r0' = r0) as -> by congruence.
        pose proof (eq_trans (eq_sym Hr') Hrp) as [= ->].
        left. by apply flags_rel_unmark. }
      assert (_revsStorage t1 !! p = Some (clearFlag kPurge r)) as Hp1.
      { by apply lookup_update_eq. }
      assert (isMarkedForPurge (clearFlag kPurge r) = false) as Hcl.
      { unfold isMarkedForPurge, hasFlag. simpl.
        by rewrite N.land_ldiff. }
      destruct (IH t1 (n - 1)%Z Hm1 Hv')
        as (t' & n' & -> & Hm' & Hkeep & Hdone).
      exists t', n'. split_and!; try done.
      * intros x rx rx' Hx Hx' Hu.
        destruct (decide (x = p)) as [->|Hne].
        -- eapply Hkeep; [exact Hp1|done|done].
        -- eapply Hkeep; [|done|done].
           unfold t1. by rewrite lookup_update_ne.
      * intros k' q r' Hin Hq.
        apply elem_of_cons in Hin as [[= -> ->]|Hin]; [|by eapply Hdone].
        eapply Hkeep; [exact Hp1|done|done].
    + destruct (IH t n Hm Hv') as (t' & n' & -> & Hm' & Hkeep & Hdone).
      exists t', n'. split_and!; try done.
      intros k' q r' Hin Hq.
      apply elem_of_cons in Hin as [[= -> ->]|Hin]; [|by eapply Hdone].
      eapply Hkeep; [exact Hrp|done|done].
Qed.

Lemma marked_only_relinked t :
  marked_only t0 t → relinked fuel0 t0 t.
Proof.
  intros (Hr & Hm & _ & Hl & Hrevs). split_and!; try done.
  intros p r0 Hr0. destruct (Hrevs p r0 Hr0) as (r & Hrp & Hpar & Hrel).
  exists r. split_and!; try done. rewrite Hpar.
  destruct (pp_chain _ _ Hpre p) as (n & Hc & Hn); [by exists r0|].
  inversion Hc as [|? r1 n' Hr1 Hc']; subst.
  pose proof (eq_trans (eq_sym Hr1) Hr0) as [= ->].
  exists n'. split; [done|lia].
Qed.

End Surviving.

Section Relink.
Variables (fuel0 : nat) (t0 : RevTree).

(** One rev steps over its purged ancestors; only [p]'s parent link
    changes. *)
Lemma prune_relink_ok fuel t p r m :
  relinked fuel0 t0 t →
  _revsStorage t !! p = Some r → isMarkedForPurge r = false →
  chain t0 (parent r) m → (m ≤ fuel)%nat → (m ≤ fuel0)%nat →
  ∃ t', prune_relink fuel t p = Ok t'
    ∧ relinked fuel0 t0 t'
    ∧ ∀ x rx, _revsStorage t !! x = Some rx →
        ∃ rx', _revsStorage t' !! x = Some rx' ∧ flags rx' = flags rx.
Proof.
  revert t r m.
  induction fuel as [|fuel IH]; intros t r m Hrl Hr Hun Hc Hm Hm0.
  - assert (m = 0%nat) as -> by lia. inversion Hc as [Hnone|]; subst.
    exists t. simpl. rewrite (deref_Some _ _ _ Hr). simpl.
    rewrite <- Hnone. split_and!; [done|done|]. intros x rx Hx. by exists rx.
  - simpl. rewrite (deref_Some _ _ _ Hr). simpl.
    inversion Hc as [Hnone|q rq0 m' Hq0 Hc' Hsome]; subst.
    { exists t. split_and!; [done|done|]. intros x rx Hx. by exists rx. }
    pose proof Hrl as (Hrevs & Hrem & Hlen & Hall).
    destruct (Hall q rq0 Hq0) as (rq & Hq & Hrelq & Hparq & _).
    rewrite (deref_Some _ _ _ Hq). simpl.
    destruct (isMarkedForPurge rq) eqn:Hmq.
    2:{ exists t. split_and!; [done|done|]. intros x rx Hx. by exists rx. }
    set (t1 := update p (setParent (parent rq)) t).
    assert (_revsStorage t1 !! p = Some (setParent (parent rq) r)) as Hp1.
    { by apply lookup_update_eq. }
    assert (relinked fuel0 t0 t1) as Hrl1.
    { split_and!; try done.
      - unfold t1. simpl. by rewrite length_alter.
      - intros x rx0 Hx0.
        destruct (Hall x rx0 Hx0) as (rx & Hx & Hrelx & Hparx & Hchx).
        destruct (decide (x = p)) as [->|Hne].
        + exists (setParent (parent rq) r).
          pose proof (eq_trans (eq_sym Hx) Hr) as [= ->].
          split_and!; [done|done| |].
          * intros Hcontra. unfold isMarkedForPurge, hasFlag in *.
            simpl in Hcontra. congruence.
          * simpl. rewrite (Hparq eq_refl). exists m'. split; [done|lia].
        + exists rx. unfold t1. by rewrite lookup_update_ne. }
    destruct (IH t1 (setParent (parent rq) r) m' Hrl1 Hp1)
      as (t' & Ht' & Hrl' & Hfl'); [done| |lia|lia|].
    { simpl. by rewrite (Hparq eq_refl). }
    exists t'. split_and!; [done|done|].
    intros x rx Hx.
    destruct (decide (x = p)) as [->|Hne].
    + pose proof (eq_trans (eq_sym Hx) Hr) as [= ->].
      destruct (Hfl' p _ Hp1) as (rx' & Hx' & Hf'). by exists rx'.
    + apply Hfl'. unfold t1. by rewrite lookup_update_ne.
Qed.

Lemma prune_relink_all_ok revs t :
  relinked fuel0 t0 t →
  (∀ p, p ∈ revs → valid_ptr t0 p) →
  ∃ t', prune_relink_all fuel0 revs t = Ok t'
    ∧ relinked fuel0 t0 t'
    ∧ ∀ x rx, _revsStorage t !! x = Some rx →
        ∃ rx', _revsStorage t' !! x = Some rx' ∧ flags rx' = flags rx.
Proof.
  revert t. induction revs as [|p revs IH]; intros t Hrl Hv.
  - exists t. split_and!; [done|done|]. intros x rx Hx. by exists rx.
  - simpl.
    destruct (Hv p) as [r0 Hr0]; [apply list_elem_of_here|].
    pose proof Hrl as (_ & _ & _ & Hall).
    destruct (Hall p r0 Hr0) as (r & Hr & _ & _ & m & Hc & Hm).
    rewrite (deref_Some _ _ _ Hr). simpl.
    assert (∀ q, q ∈ revs → valid_ptr t0 q) as Hv'
      by (intros q Hq; apply Hv; by apply list_elem_of_further).
    destruct (isMarkedForPurge r) eqn:Hmk.
    + simpl. by apply IH.
    + destruct (prune_relink_ok fuel0 t p r m Hrl Hr Hmk Hc Hm Hm)
        as (t1 & -> & Hrl1 & Hfl1).
      simpl. destruct (IH t1 Hrl1 Hv') as (t' & Ht' & Hrl' & Hfl').
      exists t'. split_and!; [done|done|].
      intros x rx Hx. destruct (Hfl1 x rx Hx) as (rx1 & Hx1 & Hf1).
      destruct (Hfl' x rx1 Hx1) as (rx' & Hx' & Hf').
      exists rx'. split; [done|congruence].
Qed.
End Relink.

(** [compact] keeps, in order, the revs that are not marked. *)
Lemma compact_revs_ok t revs :
  (∀ p, p ∈ revs → valid_ptr t p) →
  ∃ kept, compact_revs t revs = Ok kept
    ∧ ∀ p r, p ∈ revs → _revsStorage t !! p = Some r →
        isMarkedForPurge r = false → p ∈ kept.
Proof.
  induction revs as [|p revs IH]; intros Hv.
  - exists []. split; [done|]. intros p r Hin. by apply elem_of_nil in Hin.
  - simpl. destruct (Hv p) as [r Hr]; [apply list_elem_of_here|].
    rewrite (deref_Some _ _ _ Hr). simpl.
    destruct IH as (kept & -> & Hkept).
    { intros q Hq. apply Hv. by apply list_elem_of_further. }
    simpl. eexists. split; [done|].
    intros q rq Hin Hq Hun.
    apply elem_of_cons in Hin as [->|Hin].
    + pose proof (eq_trans (eq_sym Hq) Hr) as [= ->]. rewrite Hun.
      apply list_elem_of_here.
    + destruct (isMarkedForPurge r); [|apply list_elem_of_further];
        by eapply Hkept.
Qed.

Lemma compact_remotes_ok t remotes m :
  (∀ k p, (k, p) ∈ remotes → valid_ptr t p) →
  ∃ m', compact_remotes t remotes m = Ok m'.
Proof.
  revert m. induction remotes as [|[k p] remotes IH]; intros m Hv.
  - by exists m.
  - simpl. destruct (Hv k p) as [r Hr]; [apply list_elem_of_here|].
    rewrite (deref_Some _ _ _ Hr). simpl. apply IH.
    intros k' q Hq. eapply Hv. by apply list_elem_of_further.
Qed.

Lemma compact_ok t :
  (∀ p, p ∈ _revs t → valid_ptr t p) →
  (∀ k p, _remoteRevs t !! k = Some p → valid_ptr t p) →
  ∃ t', compact t = Ok t'
    ∧ ∀ p r, p ∈ _revs t → _revsStorage t !! p = Some r →
        isMarkedForPurge r = false → p ∈ _revs t'.
Proof.
  intros Hv Hrem. unfold compact.
  destruct (compact_revs_ok t (_revs t) Hv) as (kept & -> & Hkept).
  destruct (compact_remotes_ok t (map_to_list (_remoteRevs t))
              (_remoteRevs t)) as (m' & ->).
  { intros k p Hin. apply (Hrem k). by apply elem_of_map_to_list. }
  simpl. eexists. split; [done|]. simpl. done.
Qed.

(** [prune] returns, and keeps every Rev of [_revs] that is a leaf, has
    [kKeepBody], or is the revision of a remote. *)
Theorem prune_retains fuel t maxDepth :
  prune_pre fuel t → (1 ≤ maxDepth)%nat →
  ∃ t' n, prune fuel t maxDepth = Ok (t', n)
    ∧ ∀ p r, p ∈ _revs t → _revsStorage t !! p = Some r →
        pinned t p r → p ∈ _revs t'.
Proof.
  intros Hpre Hd. unfold prune.
  rewrite bool_decide_eq_false_2 by lia.
  case_bool_decide as Hsize; [by exists t, 0%Z|].
  destruct (prune_mark_ok fuel t maxDepth Hpre Hd (_revs t) t 0%Z)
    as (t1 & n1 & -> & Hm1);
    [apply marked_only_refl|apply (pp_revs _ _ Hpre)
    |apply (pp_chain _ _ Hpre)|].
  simpl. pose proof Hm1 as (Hrevs1 & Hrem1 & _ & _ & Hall1).
  destruct (n1 =? 0)%Z.
  { exists t1, 0%Z. split; [done|]. intros p r Hin _ _. by rewrite Hrevs1. }
  destruct (prune_remotes_ok fuel t Hpre
              (map_to_list (_remoteRevs t1)) t1 n1 Hm1)
    as (t2 & n2 & -> & Hm2 & Hkeep2 & Hdone2).
  { intros k p Hin. apply elem_of_map_to_list in Hin.
    rewrite Hrem1 in Hin. by apply (pp_remotes _ _ Hpre k). }
  simpl. pose proof Hm2 as (Hrevs2 & Hrem2 & _ & _ & Hall2).
  destruct (n2 =? 0)%Z.
  { exists t2, 0%Z. split; [done|]. intros p r Hin _ _. by rewrite Hrevs2. }
  destruct (prune_relink_all_ok fuel t (_revs t2) t2)
    as (t3 & -> & Hrl3 & Hfl3).
  { by apply marked_only_relinked. }
  { rewrite Hrevs2. apply (pp_revs _ _ Hpre). }
  simpl. pose proof Hrl3 as (Hrevs3 & Hrem3 & _ & Hall3).
  destruct (compact_ok t3) as (t4 & -> & Hkept).
  { intros p Hin. rewrite Hrevs3 in Hin.
    destruct (pp_revs _ _ Hpre p Hin) as [r0 Hr0].
    destruct (Hall3 p r0 Hr0) as (r & Hr & _). by exists r. }
  { intros k p Hk. rewrite Hrem3 in Hk.
    destruct (pp_remotes _ _ Hpre k p Hk) as [r0 Hr0].
    destruct (Hall3 p r0 Hr0) as (r & Hr & _). by exists r. }
  simpl. exists t4, n2. split; [done|].
  intros p r0 Hin Hr0 Hpin.
  destruct (Hall2 p r0 Hr0) as (r2 & Hr2 & _ & Hrel2).
  destruct (Hfl3 p r2 Hr2) as (r3 & Hr3 & Hf3).
  apply (Hkept p r3); [by rewrite Hrevs3|done|].
  assert (isMarkedForPurge r2 = false) as Hun2.
  { destruct Hpin as [Hleaf | [Hkb | [k Hk]]].
    - destruct (isMarkedForPurge r2) eqn:Hmk; [|done].
      destruct (flags_rel_marked r0 r2 (pp_unmarked _ _ Hpre p r0 Hr0)
                  Hrel2 Hmk) as (_ & _ & Hl). congruence.
    - destruct (isMarkedForPurge r2) eqn:Hmk; [|done].
      destruct (flags_rel_marked r0 r2 (pp_unmarked _ _ Hpre p r0 Hr0)
                  Hrel2 Hmk) as (_ & Hk & _). congruence.
    - apply (Hdone2 k p r2); [|done].
      apply elem_of_map_to_list. by rewrite Hrem1. }
  unfold isMarkedForPurge, hasFlag in *. by rewrite Hf3.
Qed.

(** The hypothesis of [prune_retains] holds of [fork_tree]. *)
Lemma fork_tree_pre : prune_pre 8 fork_tree.
Proof.
  assert (∀ p, valid_ptr fork_tree p → (p < 4)%nat) as Hlt.
  { intros p [r Hr]. by apply lookup_lt_Some in Hr. }
  split.
  - intros p Hin. simpl in Hin.
    repeat (apply elem_of_cons in Hin as [->|Hin]; [by eexists|]).
    by apply elem_of_nil in Hin.
  - intros k p Hk. simpl in Hk. by rewrite lookup_empty in Hk.
  - intros p Hp%Hlt.
    destruct p as [|[|[|[|p]]]]; [| | | |lia].
    + exists 1%nat. split; [|lia]. repeat econstructor.
    + exists 2%nat. split; [|lia]. repeat econstructor.
    + exists 3%nat. split; [|lia]. repeat econstructor.
    + exists 3%nat. split; [|lia]. repeat econstructor.
  - intros p r Hr.
    destruct p as [|[|[|[|p]]]]; simpl in Hr; by simplify_eq.
  - intros p r q rq Hr Hq Hrq.
    destruct p as [|[|[|[|p]]]]; simpl in Hr; simplify_eq;
      simpl in Hq; simplify_eq; simpl in Hrq; by simplify_eq.
Qed.

(** Both leaves of [fork_tree] survive [prune(2)]. *)
Lemma fork_tree_leaves_retained :
  ∃ t' n, prune 8 fork_tree 2 = Ok (t', n)
    ∧ 2%nat ∈ _revs t' ∧ 3%nat ∈ _revs t'.
Proof.
  destruct (prune_retains 8 fork_tree 2 fork_tree_pre) as (t' & n & H & Hk);
    [lia|].
  exists t', n. split_and!; [done| |].
  - eapply (Hk 2%nat); [|reflexivity|by left].
    simpl. set_solver.
  - eapply (Hk 3%nat); [|reflexivity|by left].
    simpl. set_solver.
Qed.

(** Claim C8: the code departs from it in the returned count; what it
    keeps is as claimed ([prune_retains]). In [fork_tree] the root is
    three steps from each of the two leaves; [prune(2)] marks it from
    both, counts it twice, removes that one Rev and returns 2. *)
Theorem prune_counts_twice :
  ∃ t', prune 8 fork_tree 2 = Ok (t', 2%Z)
    ∧ _revs t' = [2%nat; 3%nat; 1%nat]
    ∧ (length (_revs fork_tree) - length (_revs t') = 1)%nat.
Proof. eexists. split_and!; vm_compute; reflexivity. Qed.

End RTFacts.

(** * Properties of the upgrade *)

Module UpgradeFacts.
Import RT Upgrade RTFacts.

Lemma isAncestorOf_ok fuel t anc a n :
  chain t (Some a) n → (n ≤ fuel)%nat →
  ∃ b, isAncestorOf fuel t anc a = Ok b.
Proof.
  revert a n. induction fuel as [|fuel IH]; intros a n Hc Hn.
  - inversion Hc; subst. lia.
  - inversion Hc as [|? r m Hr Hc']; subst. simpl.
    destruct (decide (a = anc)); [by eexists|].
    rewrite (deref_Some _ _ _ Hr). simpl.
    destruct (parent r) as [q|] eqn:Hq; [|by eexists].
    eapply IH; [done|lia].
Qed.

Lemma commonAncestor_loop_ok fuel walk t a rev n m :
  chain t (Some a) n → (n ≤ walk)%nat →
  chain t rev m → (m ≤ fuel)%nat →
  ∃ o, commonAncestor_loop fuel walk t a rev = Ok o
       ∧ ∀ b, o = Some b → valid_ptr t b.
Proof.
  intros Ha Hn. revert rev m.
  induction fuel as [|fuel IH]; intros rev m Hc Hm.
  - inversion Hc; subst; [|lia]. by exists None.
  - inversion Hc as [|p r k Hr Hc']; subst; [by exists None|]. simpl.
    destruct (isAncestorOf_ok walk t p a n Ha Hn) as (b & ->). simpl.
    destruct b.
    + exists (Some p). split; [done|]. intros ? [= <-]. by exists r.
    + rewrite (deref_Some _ _ _ Hr). simpl. eapply IH; [done|lia].
Qed.

Lemma int_of_unsigned_small g : g < 2 ^ 31 → int_of_unsigned g = Z.of_N g.
Proof.
  intros Hg. unfold int_of_unsigned, uint32_modulus.
  rewrite N.mod_small by lia.
  assert ((Z.of_N g <? 2 ^ 31)%Z = true) as -> by (apply Z.ltb_lt; lia).
  done.
Qed.

Section BuildVector.
Variable add : LC.Version → LC.VersionVector → LC.VersionVector.
Hypothesis add_elem : ∀ v vv x, x ∈ add v vv ↔ x = v ∨ x ∈ vv.

Lemma buildVersionVector_spec cur base :
  gen_in_range cur → from_option gen_in_range True base →
  ∃ vv, buildVersionVector add cur base = Ok vv
    ∧ ∀ x, x ∈ vv ↔
        (∃ b, base = Some b
              ∧ x = LC.mkVersion (generation (revID b)) kLegacyPeerID)
        ∨ ((0 < localChangesOf cur base)%Z
           ∧ x = LC.mkVersion (Z.to_N (localChangesOf cur base))
                              LC.kMePeerID).
Proof.
  intros [Hc1 Hc2] Hb. unfold buildVersionVector, localChangesOf.
  rewrite int_of_unsigned_small by done.
  destruct base as [b|]; simpl in *.
  - destruct Hb as [Hb1 Hb2].
    rewrite int_of_unsigned_small by done.
    unfold LC.newVersion, LC.validate. simpl.
    assert ((generation (revID b) =? 0) = false) as ->
      by (apply N.eqb_neq; lia).
    simpl.
    destruct (0 <? Z.of_N (generation (revID cur))
                   - Z.of_N (generation (revID b)))%Z eqn:Hlc.
    + apply Z.ltb_lt in Hlc.
      assert (generation_of_int (Z.of_N (generation (revID cur))
                                 - Z.of_N (generation (revID b)))
              = Z.to_N (Z.of_N (generation (revID cur))
                        - Z.of_N (generation (revID b)))) as Hg.
      { unfold generation_of_int. rewrite Z.mod_small; [done|]. lia. }
      rewrite Hg.
      assert ((Z.to_N (Z.of_N (generation (revID cur))
                       - Z.of_N (generation (revID b))) =? 0) = false)
        as -> by (apply N.eqb_neq; lia).
      simpl. eexists. split; [done|]. intros x.
      rewrite !add_elem, elem_of_nil. split.
      * intros [->|[->|[]]]; [right|left]; eauto.
      * intros [(b' & [= <-] & ->)|[_ ->]]; eauto.
    + apply Z.ltb_ge in Hlc. eexists. split; [done|]. intros x.
      rewrite !add_elem, elem_of_nil. split.
      * intros [->|[]]. left. eauto.
      * intros [(b' & [= <-] & ->)|[? _]]; [eauto|lia].
  - assert ((0 <? Z.of_N (generation (revID cur)))%Z = true) as Hlc
      by (apply Z.ltb_lt; lia).
    rewrite Z.sub_0_r, Hlc.
    assert (generation_of_int (Z.of_N (generation (revID cur)))
            = generation (revID cur)) as Hg.
    { unfold generation_of_int. rewrite Z.mod_small by lia. lia. }
    rewrite Hg. unfold LC.newVersion, LC.validate. simpl.
    assert ((generation (revID cur) =? 0) = false) as ->
      by (apply N.eqb_neq; lia).
    simpl. eexists. split; [done|]. intros x.
    rewrite add_elem, elem_of_nil, N2Z.id. split.
    + intros [->|[]]. right. split; [lia|done].
    + intros [(b' & [=] & _)|[_ ->]]. by left.
Qed.
End BuildVector.


(** Claim C7, amended. When a stored rev-tree document is upgraded, the
    vector is built exactly as: with [base] the common ancestor of the
    current revision and the revision of the default remote, the vector
    holds [(base.gen, kLegacy)] if [base] exists, and [(localChanges,
    kMe)] if [localChanges = current.gen - (base's gen, or 0)] is
    positive, and nothing else; the revision of a remote that is not the
    current revision gets the vector of the single version
    [(rev.gen, kLegacy)]. [add] is any operation that adds the version
    to the vector's elements. (For scenario S6 this gives [1@7777777]
    and [2@*], with [2@7777777] in the remote slot: see
    [upgrade_S6_example].) *)
Theorem upgradeVersionVector_spec revid_ltb kDefaultRemoteID add fuel
    t c cur :
  (∀ v vv x, x ∈ add v vv ↔ x = v ∨ x ∈ vv) →
  kDefaultRemoteID ≠ kNoRemoteID →
  stored_tree kDefaultRemoteID fuel t c cur →
  ∃ baseRev base vv,
    commonAncestor fuel t (Some c) (_remoteRevs t !! kDefaultRemoteID)
    = Ok baseRev
    ∧ base = (baseRev ≫= λ b, _revsStorage t !! b)
    ∧ (is_Some baseRev → is_Some base)
    ∧ upgradeVersionVector revid_ltb kDefaultRemoteID add fuel t
      = Ok (t, vv)
    ∧ (∀ x, x ∈ vv ↔
         (∃ b, base = Some b
               ∧ x = LC.mkVersion (generation (revID b)) kLegacyPeerID)
         ∨ ((0 < localChangesOf cur base)%Z
            ∧ x = LC.mkVersion (Z.to_N (localChangesOf cur base))
                               LC.kMePeerID))
    ∧ (∀ rev r currentVersion,
         rev ≠ c → _revsStorage t !! rev = Some r →
         upgradeRemoteRevID add t (Some c) currentVersion rev
         = Ok (add (LC.mkVersion (generation (revID r)) kLegacyPeerID) [])).
Proof.
  intros Hadd Hdef [Hk Hs Hc Hcur (n & Hn & Hnf) Hrem Hg].
  assert (∃ baseRev,
            commonAncestor fuel t (Some c)
              (_remoteRevs t !! kDefaultRemoteID) = Ok baseRev
            ∧ ∀ b, baseRev = Some b → valid_ptr t b)
    as (baseRev & Hca & Hvalid).
  { unfold commonAncestor.
    destruct (_remoteRevs t !! kDefaultRemoteID) as [b|] eqn:Hb;
      [|by exists None].
    destruct (Hrem b eq_refl) as (m & Hm & Hmf).
    by eapply commonAncestor_loop_ok. }
  exists baseRev, (baseRev ≫= λ b, _revsStorage t !! b).
  destruct (buildVersionVector_spec add Hadd cur
              (baseRev ≫= λ b, _revsStorage t !! b)) as (vv & Hvv & Helem).
  { by eapply Hg. }
  { destruct baseRev as [b|]; simpl; [|done].
    destruct (_revsStorage t !! b) as [r|] eqn:Hr; simpl; [|done].
    by eapply Hg. }
  exists vv. split_and!; try done.
  - intros [b ->]. simpl. by apply Hvalid.
  - unfold upgradeVersionVector, currentRevision, sort.
    rewrite Hk, Hs. simpl. unfold latestRevisionOnRemote.
    assert ((kDefaultRemoteID =? kNoRemoteID) = false) as ->
      by (by apply N.eqb_neq).
    simpl. rewrite Hc, Hca. simpl.
    rewrite (deref_Some _ _ _ Hcur). simpl.
    destruct baseRev as [b|]; simpl in *.
    + destruct (Hvalid b eq_refl) as [r Hr].
      rewrite (deref_Some _ _ _ Hr). simpl. rewrite Hr in Hvv. simpl in Hvv.
      by rewrite Hvv.
    + by rewrite Hvv.
  - intros rev r cv Hne Hr. unfold upgradeRemoteRevID.
    rewrite decide_False by congruence.
    rewrite (deref_Some _ _ _ Hr). simpl.
    unfold LC.newVersion, LC.validate. simpl.
    destruct (Hg rev r Hr) as [Hg1 _].
    assert ((generation (revID r) =? 0) = false) as ->
      by (apply N.eqb_neq; lia).
    done.
Qed.

Lemma add_spec_elem v vv x : x ∈ add_spec v vv ↔ x = v ∨ x ∈ vv.
Proof. unfold add_spec. rewrite elem_of_app, list_elem_of_singleton. tauto. Qed.

Lemma S6_stored :
  stored_tree 1 8 S6_tree 2%nat
    S6_current.
Proof.
  split; try done.
  - exists 3%nat. split; [|lia].
    repeat (econstructor; [reflexivity|]). constructor.
  - intros b Hb. simpl in Hb. apply lookup_singleton_Some in Hb as [_ <-].
    exists 2%nat. split; [|lia].
    repeat (econstructor; [reflexivity|]). constructor.
  - intros p r Hr. unfold gen_in_range.
    destruct p as [|[|[|[|p]]]]; simpl in Hr; inversion Hr; subst;
      simpl; lia.
Qed.

Lemma upgrade_S6_witness :
  ∃ baseRev base vv,
    commonAncestor 8 S6_tree (Some 2%nat) (_remoteRevs S6_tree !! 1)
    = Ok baseRev
    ∧ base = (baseRev ≫= λ b, _revsStorage S6_tree !! b)
    ∧ (is_Some baseRev → is_Some base)
    ∧ upgradeVersionVector S6_ltb 1 add_spec 8 S6_tree = Ok (S6_tree, vv)
    ∧ (∀ x, x ∈ vv ↔
         (∃ b, base = Some b
               ∧ x = LC.mkVersion (generation (revID b)) kLegacyPeerID)
         ∨ ((0 < localChangesOf S6_current base)%Z
            ∧ x = LC.mkVersion (Z.to_N (localChangesOf S6_current base))
                               LC.kMePeerID))
    ∧ (∀ rev r currentVersion,
         rev ≠ 2%nat → _revsStorage S6_tree !! rev = Some r →
         upgradeRemoteRevID add_spec S6_tree (Some 2%nat) currentVersion rev
         = Ok (add_spec (LC.mkVersion (generation (revID r)) kLegacyPeerID)
                        [])).
Proof.
  apply upgradeVersionVector_spec;
    [apply add_spec_elem | done | apply S6_stored].
Defined.

(** Scenario S6 as the code runs it, when [add] puts the version last:
    the vector holds [1@7777777] and [2@*] and the remote slot carries
    [2@7777777]. The order of the two versions is that of [add], which
    is not among the sources. *)
Lemma upgrade_S6_example :
  upgradeVersionVector S6_ltb 1 add_spec 8 S6_tree = Ok (S6_tree, S6_vector)
  ∧ LC.asASCII (LC.mkVersion 1 kLegacyPeerID) LC.kMePeerID
    = "1@7777777"%string
  ∧ LC.asASCII (LC.mkVersion 2 LC.kMePeerID) LC.kMePeerID = "2@*"%string
  ∧ upgradeRemoteRevs S6_ltb add_spec 8 S6_tree S6_vector
    = Ok [(1, [LC.mkVersion 2 kLegacyPeerID])]
  ∧ LC.vectorASCII [LC.mkVersion 2 kLegacyPeerID] LC.kMePeerID
    = "2@7777777"%string.
Proof. split_and!; vm_compute; reflexivity. Qed.

(** Claim C7 fails as stated: for scenario S6 the legacy version of the
    produced vector has the generation of the base, which is 1, and not
    2. The vector that the claim names, ["2@*,2@7777777"], holds the
    version [2@7777777]; whatever the order is in which [add] places the
    versions, the produced vector holds [1@7777777] and [2@*] and no
    other version. *)
Lemma upgrade_S6_counterexample :
  LC.vectorASCII [LC.mkVersion 2 LC.kMePeerID; LC.mkVersion 2 kLegacyPeerID]
                 LC.kMePeerID = "2@*,2@7777777"%string
  ∧ LC.asASCII (LC.mkVersion 1 kLegacyPeerID) LC.kMePeerID
    = "1@7777777"%string
  ∧ LC.asASCII (LC.mkVersion 2 LC.kMePeerID) LC.kMePeerID = "2@*"%string
  ∧ ∀ add : LC.Version → LC.VersionVector → LC.VersionVector,
      (∀ v vv x, x ∈ add v vv ↔ x = v ∨ x ∈ vv) →
      ∃ vv, upgradeVersionVector S6_ltb 1 add 8 S6_tree = Ok (S6_tree, vv)
        ∧ (∀ x, x ∈ vv ↔ x = LC.mkVersion 1 kLegacyPeerID
                          ∨ x = LC.mkVersion 2 LC.kMePeerID)
        ∧ LC.mkVersion 2 kLegacyPeerID ∉ vv.
Proof.
  split_and!; [vm_compute; reflexivity..|].
  intros add Hadd.
  exists (add (LC.mkVersion 2 LC.kMePeerID)
              (add (LC.mkVersion 1 kLegacyPeerID) [])).
  assert (∀ x, x ∈ add (LC.mkVersion 2 LC.kMePeerID)
                       (add (LC.mkVersion 1 kLegacyPeerID) [])
               ↔ x = LC.mkVersion 1 kLegacyPeerID
                 ∨ x = LC.mkVersion 2 LC.kMePeerID) as Helem.
  { intros x. rewrite !Hadd, elem_of_nil. tauto. }
  split_and!.
  - vm_compute. reflexivity.
  - done.
  - intros [H | H]%Helem; discriminate H.
Qed.

End UpgradeFacts.

(** * Properties of vector documents *)

Module VDFacts.
Import LC VD.

Section PutExisting.
Variable validateRevisionBody : string → result unit.
Variable compareTo : VersionVector → VersionVector → N.
Variable NuDocument_save : NuDocument → SaveResult.
Variable emptyDict : string.

Lemma selectRevision_doc doc arg :
  _doc (fst (selectRevision doc arg)) = _doc doc.
Proof.
  unfold selectRevision. by destruct (_findRemote doc arg) as [[? ?]|].
Qed.

Lemma _newProperties_doc doc rq :
  _doc (fst (_newProperties validateRevisionBody emptyDict doc rq))
  = _doc doc.
Proof.
  unfold _newProperties. destruct (rq_deltaCB rq); [|done].
  destruct (rq_deltaSourceRevID rq) as [src|]; [|done].
  pose proof (selectRevision_doc doc src) as Hs.
  destruct (selectRevision doc src) as [d sel]. simpl in Hs.
  destruct (negb sel); [done|].
  by destruct (getSelectedRevBody d) as [[?|]|].
Qed.

Lemma _selectRemote_doc doc remote :
  _doc (fst (_selectRemote doc remote)) = _doc doc.
Proof.
  unfold _selectRemote.
  destruct (remoteRevision (_doc doc) remote) as [rev|]; [|done].
  by destruct (bool_decide _).
Qed.

Lemma _saveNewRev_ok doc rq :
  (rq_save rq = true → ∀ d, NuDocument_save d ≠ kConflict) →
  ∃ doc', _saveNewRev NuDocument_save doc rq = (doc', Ok tt)
          ∧ _doc doc' = _doc doc.
Proof.
  intros Hsave. unfold _saveNewRev, save.
  destruct (rq_save rq); [|by exists doc].
  specialize (Hsave eq_refl (_doc doc)).
  destruct (NuDocument_save (_doc doc)); try done; simpl;
    eexists; (split; [done|]); try done.
  apply _selectRemote_doc.
Qed.

(** The policy on a document that exists. *)
Lemma putExistingRevision_existing doc rq doc1 props :
  _exists (_doc doc) = true →
  _newProperties validateRevisionBody emptyDict doc rq = (doc1, Ok props) →
  (rq_save rq = true → ∀ d, NuDocument_save d ≠ kConflict) →
  let order := compareTo (rq_history rq) (_currentVersionVector doc) in
  let remote := rq_remoteDBID rq in
  let out := putExistingRevision validateRevisionBody compareTo
               NuDocument_save emptyDict doc rq in
  (order = kSame ∨ order = kOlder →
     snd out = Ok 0%Z
     ∧ _current (_doc (fst out)) = _current (_doc doc))
  ∧ (order = kNewer →
     snd out = Ok 1%Z
     ∧ _current (_doc (fst out)) = newRevision rq props)
  ∧ (order = kConflicting →
     if remote =? Local
     then out = (doc1, Throw Conflict)
     else _remotes (_doc (fst out)) !! remote
          = Some (conflictedRevision rq props)
          ∧ _current (_doc (fst out)) = _current (_doc doc))
  ∧ (remote ≠ Local → order ≠ kConflicting →
     _remotes (_doc (fst out)) !! remote = Some (newRevision rq props)).
Proof.
  intros Hex Hprops Hsave order remote out.
  pose proof (_newProperties_doc doc rq) as Hd1.
  rewrite Hprops in Hd1. simpl in Hd1.
  assert (_currentVersionVector doc1 = _currentVersionVector doc) as Hcv
    by (unfold _currentVersionVector; by rewrite Hd1).
  unfold out, putExistingRevision. rewrite Hprops. cbv zeta.
  rewrite Hd1, Hex, Hcv. fold order. fold remote.
  fold (newRevision rq props).
  split_and!.
  - intros Ho.
    assert ((order =? kSame) || (order =? kOlder) = true) as ->.
    { destruct Ho as [->| ->]; done. }
    match goal with
    | |- context [_saveNewRev _ ?d rq] =>
        destruct (_saveNewRev_ok d rq Hsave) as (doc' & -> & Hd')
    end.
    simpl. split; [done|]. rewrite Hd', _selectRemote_doc.
    destruct (negb (remote =? Local)); simpl; by rewrite ?Hd1.
  - intros ->. simpl.
    match goal with
    | |- context [_saveNewRev _ ?d rq] =>
        destruct (_saveNewRev_ok d rq Hsave) as (doc' & -> & Hd')
    end.
    simpl. split; [done|]. rewrite Hd', _selectRemote_doc.
    by destruct (negb (remote =? Local)).
  - intros ->. simpl. destruct (remote =? Local) eqn:Hr; [done|]. simpl.
    match goal with
    | |- context [_saveNewRev _ ?d rq] =>
        destruct (_saveNewRev_ok d rq Hsave) as (doc' & -> & Hd')
    end.
    simpl. rewrite Hd', _selectRemote_doc. simpl.
    rewrite lookup_insert_eq. by rewrite Hd1.
  - intros Hr Ho. apply N.eqb_neq in Hr.
    assert (∃ ca d, (if (order =? kSame) || (order =? kOlder)
             then Ok (doc1, newRevision rq props, 0%Z)
             else if order =? kNewer
             then Ok (mkDoc (setCurrentRevision (_doc doc)
                               (newRevision rq props))
                            (_remoteID doc1) (selectedRev_revID doc1)
                            (selectedRev_flags doc1),
                      newRevision rq props, 1%Z)
             else if order =? kConflicting
             then if remote =? Local then Throw Conflict
                  else Ok (doc1,
                           mkRevision (properties (newRevision rq props))
                             (revID (newRevision rq props))
                             (N.lor (flags (newRevision rq props))
                                    kConflicted), 1%Z)
             else Ok (doc1, newRevision rq props, 1%Z))
            = Ok (d, newRevision rq props, ca)) as (ca & d & ->).
    { destruct ((order =? kSame) || (order =? kOlder)); [by eexists _, _|].
      destruct (order =? kNewer); [by eexists _, _|].
      assert ((order =? kConflicting) = false) as ->
        by (by apply N.eqb_neq).
      by eexists _, _. }
    rewrite Hr. simpl.
    match goal with
    | |- context [_saveNewRev _ ?d rq] =>
        destruct (_saveNewRev_ok d rq Hsave) as (doc' & -> & Hd')
    end.
    simpl. rewrite Hd', _selectRemote_doc. simpl.
    by rewrite lookup_insert_eq.
Qed.
(** A document that does not exist yet: the vectors are not
    compared. *)
Lemma putExistingRevision_new doc rq doc1 props :
  _exists (_doc doc) = false →
  _newProperties validateRevisionBody emptyDict doc rq = (doc1, Ok props) →
  (rq_save rq = true → ∀ d, NuDocument_save d ≠ kConflict) →
  let remote := rq_remoteDBID rq in
  let out := putExistingRevision validateRevisionBody compareTo
               NuDocument_save emptyDict doc rq in
  snd out = Ok 1%Z
  ∧ _current (_doc (fst out)) = newRevision rq props
  ∧ (remote ≠ Local →
     _remotes (_doc (fst out)) !! remote = Some (newRevision rq props)).
Proof.
  intros Hex Hprops Hsave remote out.
  pose proof (_newProperties_doc doc rq) as Hd1.
  rewrite Hprops in Hd1. simpl in Hd1.
  unfold out, putExistingRevision. rewrite Hprops. cbv zeta.
  rewrite Hd1, Hex. fold remote. fold (newRevision rq props).
  change ((kNewer =? kSame) || (kNewer =? kOlder)) with false.
  change (kNewer =? kNewer) with true. cbv iota.
  match goal with
  | |- context [_saveNewRev _ ?d rq] =>
      destruct (_saveNewRev_ok d rq Hsave) as (doc' & -> & Hd')
  end.
  simpl. rewrite Hd', _selectRemote_doc. split_and!.
  - done.
  - by destruct (negb (remote =? Local)).
  - intros Hr. apply N.eqb_neq in Hr. rewrite Hr. simpl.
    by rewrite lookup_insert_eq.
Qed.

(** Claim C5, amended. For a [putExistingRevision] whose body is
    accepted and whose save, if requested, does not conflict. On a
    document that exists: when the incoming vector compares [kSame]
    or [kOlder] to the current vector, the Local revision is not
    updated and 0 is returned; when it compares [kNewer], the Local
    revision becomes the new revision and 1 is returned; when it
    compares [kConflicting], the call fails with [Conflict] if the
    remote is Local, and otherwise the new revision is stored for the
    remote with [kConflicted] set and the Local revision is not
    updated; and for a non-Local remote the revision is stored in
    [remoteRevs[remote]] under every other outcome too. On a document
    that does not exist the vectors are not compared: the Local
    revision becomes the new revision, 1 is returned, and for a
    non-Local remote the revision is stored in [remoteRevs[remote]]. *)
Theorem putExistingRevision_policy doc rq doc1 props :
  _newProperties validateRevisionBody emptyDict doc rq = (doc1, Ok props) →
  (rq_save rq = true → ∀ d, NuDocument_save d ≠ kConflict) →
  let order := compareTo (rq_history rq) (_currentVersionVector doc) in
  let remote := rq_remoteDBID rq in
  let out := putExistingRevision validateRevisionBody compareTo
               NuDocument_save emptyDict doc rq in
  (_exists (_doc doc) = true →
     (order = kSame ∨ order = kOlder →
        snd out = Ok 0%Z
        ∧ _current (_doc (fst out)) = _current (_doc doc))
     ∧ (order = kNewer →
        snd out = Ok 1%Z
        ∧ _current (_doc (fst out)) = newRevision rq props)
     ∧ (order = kConflicting →
        if remote =? Local
        then out = (doc1, Throw Conflict)
        else _remotes (_doc (fst out)) !! remote
             = Some (conflictedRevision rq props)
             ∧ _current (_doc (fst out)) = _current (_doc doc))
     ∧ (remote ≠ Local → order ≠ kConflicting →
        _remotes (_doc (fst out)) !! remote
        = Some (newRevision rq props)))
  ∧ (_exists (_doc doc) = false →
     snd out = Ok 1%Z
     ∧ _current (_doc (fst out)) = newRevision rq props
     ∧ (remote ≠ Local →
        _remotes (_doc (fst out)) !! remote
        = Some (newRevision rq props))).
Proof.
  intros Hprops Hsave order remote out. split; intros Hex.
  - exact (putExistingRevision_existing doc rq doc1 props Hex Hprops Hsave).
  - exact (putExistingRevision_new doc rq doc1 props Hex Hprops Hsave).
Qed.
End PutExisting.

Lemma putExistingRevision_policy_witness :
  let order := compareTo_spec (rq_history pushRequest)
                              (_currentVersionVector threeWayDoc) in
  let remote := rq_remoteDBID pushRequest in
  let out := putExistingRevision acceptBody compareTo_spec saveQuietly ""
                                 threeWayDoc pushRequest in
  (_exists (_doc threeWayDoc) = true →
     (order = kSame ∨ order = kOlder →
        snd out = Ok 0%Z
        ∧ _current (_doc (fst out)) = _current (_doc threeWayDoc))
     ∧ (order = kNewer →
        snd out = Ok 1%Z
        ∧ _current (_doc (fst out)) = newRevision pushRequest "{pushed}")
     ∧ (order = kConflicting →
        if remote =? Local
        then out = (threeWayDoc, Throw Conflict)
        else _remotes (_doc (fst out)) !! remote
             = Some (conflictedRevision pushRequest "{pushed}")
             ∧ _current (_doc (fst out)) = _current (_doc threeWayDoc))
     ∧ (remote ≠ Local → order ≠ kConflicting →
        _remotes (_doc (fst out)) !! remote
        = Some (newRevision pushRequest "{pushed}")))
  ∧ (_exists (_doc threeWayDoc) = false →
     snd out = Ok 1%Z
     ∧ _current (_doc (fst out)) = newRevision pushRequest "{pushed}"
     ∧ (remote ≠ Local →
        _remotes (_doc (fst out)) !! remote
        = Some (newRevision pushRequest "{pushed}"))).
Proof.
  apply (putExistingRevision_policy acceptBody compareTo_spec saveQuietly
           "" threeWayDoc pushRequest threeWayDoc "{pushed}").
  - reflexivity.
  - intros _ d. discriminate.
Defined.

(** Claim C5 fails as stated on a document that is not stored yet. Remote
    1 pushes [2@a] without saving: the document still does not exist and
    its Local revision is [2@a]. It then pushes [1@a], which compares
    [kOlder] to the Local vector: the claim has the Local revision kept
    and 0 returned, the code replaces it by [1@a] and returns 1. *)
Lemma putExistingRevision_unsaved_counterexample :
  ∃ doc1 doc2,
    putExistingRevision acceptBody compareTo_spec saveQuietly ""
                        unsavedDoc firstPut = (doc1, Ok 1%Z)
    ∧ _exists (_doc doc1) = false
    ∧ _currentVersionVector doc1 = [mkVersion 2 peerA]
    ∧ compareTo_spec (rq_history olderPut) (_currentVersionVector doc1)
      = kOlder
    ∧ putExistingRevision acceptBody compareTo_spec saveQuietly ""
                          doc1 olderPut = (doc2, Ok 1%Z)
    ∧ _currentVersionVector doc2 = [mkVersion 1 peerA]
    ∧ _current (_doc doc2) = newRevision olderPut "{older}".
Proof.
  eexists _, _. split_and!; vm_compute; reflexivity.
Qed.

(** The pushed revision [3@*,1@a] is newer than the Local [2@*]: it
    becomes the Local revision and the revision of remote 1. *)
Example push_newer :
  compareTo_spec (rq_history pushRequest)
                 (_currentVersionVector threeWayDoc) = kNewer
  ∧ ∃ doc', putExistingRevision acceptBody compareTo_spec saveQuietly ""
                                threeWayDoc pushRequest = (doc', Ok 1%Z)
      ∧ _current (_doc doc') = newRevision pushRequest "{pushed}"
      ∧ _remotes (_doc doc') !! 1 = Some (newRevision pushRequest "{pushed}").
Proof. split; [reflexivity|]. eexists. split_and!; vm_compute; reflexivity. Qed.

(** Claim C6: the code departs from it. Neither [1@a] (remote 1, marked
    as conflicting) nor [1@b] (remote 2) is the Local revision, yet
    [resolveConflict] does not fail with [Conflict]: it takes the
    revision of remote 2 for the local one, replaces the Local revision
    [2@*] by the merge of the two remote vectors and clears
    [kConflicted] on remote 1. *)
Theorem resolveConflict_without_local :
  _findRemote threeWayDoc (AsVersion (mkVersion 1 peerA)) = Some (1, revA)
  ∧ _findRemote threeWayDoc (AsVersion (mkVersion 1 peerB)) = Some (2, revB)
  ∧ ∃ doc',
      resolveConflict acceptBody mergedWith_spec incrementGen_spec ""
        threeWayDoc (AsVersion (mkVersion 1 peerA))
        (AsVersion (mkVersion 1 peerB)) None 0
      = Ok doc'
      ∧ _current (_doc doc')
        = mkRevision "{a}"
            (Some [mkVersion 1 kMePeerID; mkVersion 1 peerB;
                   mkVersion 1 peerA]) 0
      ∧ _remotes (_doc doc') !! 1
        = Some (mkRevision "{a}" (Some [mkVersion 1 peerA]) 0).
Proof.
  split; [vm_compute; reflexivity|]. split; [vm_compute; reflexivity|].
  eexists. split_and!; vm_compute; reflexivity.
Qed.

(** The checks that [resolveConflict] does make. *)
Lemma resolveConflict_checks validateRevisionBody mergedWith incrementGen
    emptyDict doc winningRevID losingRevID mergedBody mergedFlags :
  let call := resolveConflict validateRevisionBody mergedWith incrementGen
                emptyDict doc winningRevID losingRevID mergedBody
                mergedFlags in
  (_findRemote doc winningRevID = None ∨ _findRemote doc losingRevID = None
   → call = Throw NotFound)
  ∧ (∀ won lost,
       _findRemote doc winningRevID = Some won →
       _findRemote doc losingRevID = Some lost →
       (fst won = fst lost → call = Throw InvalidParameter)
       ∧ (fst won ≠ fst lost →
          isConflicted (if fst won =? Local then snd lost else snd won)
          = false →
          call = Throw Conflict)).
Proof.
  simpl. unfold resolveConflict. split.
  - intros [-> | ->]; [done|]. by destruct (_findRemote doc winningRevID).
  - intros won lost -> ->. split.
    + intros ->. by rewrite N.eqb_refl.
    + intros Hne Hc. apply N.eqb_neq in Hne. rewrite Hne.
      unfold isConflicted in Hc. apply negb_false_iff in Hc.
      destruct (fst won =? Local); destruct lost, won; simpl in *;
        by rewrite Hc.
Qed.

End VDFacts.

(** * Properties of generated revIDs *)

Module C4DocFacts.
Import C4Doc.

Section Generated.
Variable sha1 md5 : bytes → bytes.
Variable parentGeneration : bytes → result N.





End Generated.



End C4DocFacts.

(** * Properties of the checked counters *)

Module IncrementFacts.
Import Increment.

Lemma sum_wide w value by0 :
  32 ≤ w → sum w value by0 = (value + by0) mod modulus w.
Proof.
  intros Hw. unfold sum.
  destruct (w <? 32) eqn:E; [|done]. apply N.ltb_lt in E. lia.
Qed.

Lemma modulus_pos w : 0 < modulus w.
Proof. unfold modulus. apply N.neq_0_lt_0, N.pow_nonzero. lia. Qed.

Lemma increment_wide w value by0 :
  32 ≤ w → value < modulus w → by0 < modulus w →
  _increment w value by0
  = if value + by0 <? modulus w then Ok (value + by0)
    else Throw AssertionFailed.
Proof.
  intros Hw Hv Hb. unfold _increment. rewrite sum_wide by done.
  pose proof (modulus_pos w) as Hpos.
  destruct (value + by0 <? modulus w) eqn:Hfit.
  - apply N.ltb_lt in Hfit. rewrite N.mod_small by done.
    by rewrite (proj2 (N.ltb_ge _ _)) by lia.
  - apply N.ltb_ge in Hfit.
    assert ((value + by0) mod modulus w = value + by0 - modulus w) as ->.
    { symmetry. apply (N.mod_unique _ _ 1); lia. }
    by rewrite (proj2 (N.ltb_lt _ _)) by lia.
Qed.

(** For a counter type at least as wide as [int], [_increment] adds
    exactly when the sum fits the type, and fails the assertion when it
    does not: such a counter never wraps around. *)
Theorem increment_exact w value by0 :
  32 ≤ w → value < modulus w → by0 < modulus w →
  _increment w value by0
  = if value + by0 <? modulus w then Ok (value + by0)
    else Throw AssertionFailed.
Proof. apply increment_wide. Qed.

Lemma increment_exact_witness :
  _increment 32 4294967295 1
  = if 4294967295 + 1 <? modulus 32 then Ok (4294967295 + 1)
    else Throw AssertionFailed.
Proof. apply increment_exact; vm_compute; done. Defined.

(** [_decrement] takes back what [_increment] added, and fails the
    assertion instead of going below zero. *)
Theorem decrement_increment w value by0 r :
  32 ≤ w → value < modulus w → by0 < modulus w →
  _increment w value by0 = Ok r →
  _decrement w r by0 = Ok value
  ∧ (value < by0 → _decrement w value by0 = Throw AssertionFailed).
Proof.
  intros Hw Hv Hb Hinc. rewrite increment_wide in Hinc by done.
  destruct (value + by0 <? modulus w) eqn:Hfit; [|done].
  injection Hinc as <-. apply N.ltb_lt in Hfit. unfold _decrement. split.
  - rewrite (proj2 (N.ltb_ge _ _)) by lia.
    replace (value + by0 - by0) with value by lia.
    by rewrite N.mod_small.
  - intros Hlt. by rewrite (proj2 (N.ltb_lt _ _)).
Qed.

Lemma decrement_increment_witness :
  _decrement 64 (5 + 3) 3 = Ok 5
  ∧ (5 < 3 → _decrement 64 5 3 = Throw AssertionFailed).
Proof.
  apply (decrement_increment 64 5 3 (5 + 3)); vm_compute; done.
Defined.

(** For a counter type narrower than [int] the sum in the assertion is
    computed in [int], where it does not overflow, so the assertion
    cannot fail and the stored value wraps around. *)
Theorem increment_narrow_wraps w value by0 :
  w < 31 → value < modulus w → by0 < modulus w →
  _increment w value by0 = Ok ((value + by0) mod modulus w).
Proof.
  intros Hw _ _. unfold _increment, sum.
  rewrite (proj2 (N.ltb_lt w 32)) by lia.
  by rewrite (proj2 (N.ltb_ge _ _)) by lia.
Qed.

Lemma increment_narrow_wraps_witness : _increment 8 255 1 = Ok 0.
Proof. apply (increment_narrow_wraps 8 255 1); vm_compute; done. Defined.

End IncrementFacts.

(** * The digest input of a generated revID *)

Module DigestInputFacts.
Import C4Doc.

Lemma uint8_inj m n : m < 256 → n < 256 → uint8 m = uint8 n → m = n.
Proof.
  unfold uint8. intros Hm Hn H.
  rewrite !N.mod_small in H by done.
  destruct (Byte.of_N m) as [bm|] eqn:Em;
    [|by apply Byte.of_N_None_iff in Em; lia].
  destruct (Byte.of_N n) as [bn|] eqn:En;
    [|by apply Byte.of_N_None_iff in En; lia].
  simpl in H. subst bn.
  apply Byte.to_of_N in Em, En. congruence.
Qed.

Lemma deleted_byte_inj (d d' : bool) :
  uint8 (if d then 1 else 0) = uint8 (if d' then 1 else 0) → d = d'.
Proof. by destruct d, d'. Qed.

(** What SHA-1 digests determines the revision: two calls whose parent
    revIDs have at most 255 bytes add the same bytes to the SHA-1 context
    only if they have the same parent revID, deletion flag and body. *)
Theorem sha1Input_inj body body' parentRevID parentRevID' deleted deleted' :
  (length (buf parentRevID) ≤ 255)%nat →
  (length (buf parentRevID') ≤ 255)%nat →
  sha1Input body parentRevID deleted = sha1Input body' parentRevID' deleted' →
  buf parentRevID = buf parentRevID' ∧ deleted = deleted' ∧ body = body'.
Proof.
  intros Hp Hp' H. unfold sha1Input in H. simpl in H.
  injection H as Hlen Hrest.
  assert (size parentRevID = size parentRevID') as Hsize.
  { apply uint8_inj in Hlen; unfold size, buf in *; lia. }
  assert (length (buf parentRevID) = length (buf parentRevID')) as Hl.
  { unfold size, buf in *. lia. }
  rewrite !firstn_all2 in Hrest by (unfold size, buf in *; lia).
  rewrite <- !app_assoc in Hrest.
  apply app_inj_1 in Hrest as [Hparent Hrest]; [|done].
  simpl in Hrest. injection Hrest as Hdel Hbody.
  by apply deleted_byte_inj in Hdel.
Qed.

Lemma sha1Input_inj_witness :
  buf (Some example_parent) = buf (Some example_parent)
  ∧ true = true ∧ example_body = example_body.
Proof.
  apply (sha1Input_inj example_body example_body (Some example_parent)
           (Some example_parent) true true); [simpl; lia|simpl; lia|].
  reflexivity.
Defined.

Lemma oldStyleInput_eq body (parentRevID : option bytes) deleted :
  (length (buf parentRevID) ≤ 255)%nat →
  oldStyleInput body parentRevID deleted
  = (if bool_decide (buf parentRevID = []) then []
     else [uint8 (size parentRevID)])
    ++ buf parentRevID ++ [uint8 (if deleted then 1 else 0)] ++ body.
Proof.
  intros Hlen. unfold oldStyleInput.
  assert (N.min (size parentRevID) 255 = size parentRevID) as ->.
  { apply N.min_l. unfold size, buf in *. lia. }
  rewrite firstn_all2 by (unfold size, buf in *; lia).
  rewrite <- !app_assoc.
  destruct parentRevID as [[|x l]|]; simpl; try done.
Qed.

(** The old-style input determines the revision as well, one case
    apart: when no parent revID has exactly one byte (and none more than
    255), two calls add the same bytes to the MD5 context only if they
    have the same parent revID, deletion flag and body. *)
Theorem oldStyleInput_inj body body' parentRevID parentRevID' deleted
    deleted' :
  (length (buf parentRevID) ≤ 255)%nat →
  (length (buf parentRevID') ≤ 255)%nat →
  length (buf parentRevID) ≠ 1%nat → length (buf parentRevID') ≠ 1%nat →
  oldStyleInput body parentRevID deleted
  = oldStyleInput body' parentRevID' deleted' →
  buf parentRevID = buf parentRevID' ∧ deleted = deleted' ∧ body = body'.
Proof.
  intros Hp Hp' H1 H1' H. rewrite !oldStyleInput_eq in H by done.
  unfold size in H. fold (buf parentRevID) (buf parentRevID') in H.
  destruct (buf parentRevID) as [|x l] eqn:E,
           (buf parentRevID') as [|x' l'] eqn:E'.
  - simpl in H. injection H as Hdel Hbody.
    by apply deleted_byte_inj in Hdel.
  - exfalso. rewrite bool_decide_eq_true_2 in H by done.
    rewrite bool_decide_eq_false_2 in H by done.
    simpl in H, H1', Hp'. injection H as Hhead _.
    apply uint8_inj in Hhead; [|by destruct deleted|lia].
    destruct deleted; lia.
  - exfalso. rewrite bool_decide_eq_false_2 in H by done.
    rewrite bool_decide_eq_true_2 in H by done.
    simpl in H, H1, Hp. injection H as Hhead _.
    apply uint8_inj in Hhead; [|lia|by destruct deleted'].
    destruct deleted'; lia.
  - rewrite !bool_decide_eq_false_2 in H by done.
    simpl in Hp, Hp'.
    apply app_inj_1 in H as [Hlen Hrest]; [|done].
    injection Hlen as Hlen.
    apply uint8_inj in Hlen; [|cbn [length]; lia|cbn [length]; lia].
    apply app_inj_1 in Hrest as [Hparent Hrest];
      [|cbn [length] in *; lia].
    simpl in Hrest. injection Hrest as Hdel Hbody.
    by apply deleted_byte_inj in Hdel.
Qed.

Lemma oldStyleInput_inj_witness :
  buf (Some example_parent) = buf (Some example_parent)
  ∧ false = false ∧ example_body = example_body.
Proof.
  apply (oldStyleInput_inj example_body example_body (Some example_parent)
           (Some example_parent) false false);
    [simpl; lia|simpl; lia|simpl; lia|simpl; lia|reflexivity].
Defined.

End DigestInputFacts.

(** * More properties of version vectors *)

Module PeerFacts.
Import VV VVFacts.

Lemma findPeerIter_head l p :
  findPeerIter l p = Some 0%nat ↔ ∃ v, head l = Some v ∧ author v = p.
Proof.
  destruct l as [|v l]; simpl.
  - split; [done|]. by intros (v & ? & _).
  - destruct (decide (author v = p)) as [E|E].
    + split; [|done]. intros _. by exists v.
    + split.
      * destruct (findPeerIter l p); simpl; intros; simplify_eq.
      * intros (w & [= ->] & Hw). done.
Qed.

Lemma genOfAuthor_None vv p :
  findPeerIter (_vers vv) p = None → genOfAuthor vv p = 0.
Proof. unfold genOfAuthor. by intros ->. Qed.

Ltac settle Hhead :=
  repeat split; intros; try done; try lia; try discriminate;
  try (match goal with
       | H : head _ = Some _ |- _ => apply Hhead in H; destruct H; lia
       end);
  try (apply Hhead; split; (done || lia));
  try (match goal with
       | H : _ ∧ _ |- _ =>
           destruct H as [? Hne]; exfalso; apply Hne, Hhead;
           split; (done || lia)
       end);
  try (intros Hh; apply Hhead in Hh; destruct Hh; (lia || done)).

(** How a vector answers the comparison with one version of a positive
    generation: older when its generation for the peer is smaller, the
    same only when the version is its first one, newer otherwise. *)
Theorem compareToVersion_spec vv v :
  gen v ≠ 0 →
  (compareToVersion vv v = kOlder ↔ genOfAuthor vv (author v) < gen v)
  ∧ (compareToVersion vv v = kSame ↔ head (_vers vv) = Some v)
  ∧ (compareToVersion vv v = kNewer ↔
       gen v ≤ genOfAuthor vv (author v) ∧ head (_vers vv) ≠ Some v)
  ∧ (versionCompareTo v vv = kNewer ↔ compareToVersion vv v = kOlder).
Proof.
  intros Hgen. unfold versionCompareTo, compareToVersion, genOfAuthor.
  destruct (findPeerIter (_vers vv) (author v)) as [i|] eqn:Hi.
  - destruct (findPeerIter_Some _ _ _ Hi) as (w & Hw & Ha).
    rewrite Hw. simpl.
    assert (head (_vers vv) = Some v ↔ i = 0%nat ∧ gen w = gen v) as Hhead.
    { split.
      - intros Hh.
        assert (findPeerIter (_vers vv) (author v) = Some 0%nat) as H0
          by (apply findPeerIter_head; by exists v).
        rewrite Hi in H0. injection H0 as ->.
        rewrite <- head_lookup, Hh in Hw. by injection Hw as <-.
      - intros [-> Hg]. rewrite head_lookup, Hw. f_equal.
        destruct w, v; simpl in *; congruence. }
    destruct (gen w <? gen v) eqn:Hlt;
      [apply N.ltb_lt in Hlt|apply N.ltb_ge in Hlt];
      [|destruct (gen w =? gen v) eqn:Heq;
        [apply N.eqb_eq in Heq|apply N.eqb_neq in Heq]; simpl;
        [destruct (bool_decide (i = 0%nat)) eqn:Hz;
         [apply bool_decide_eq_true in Hz
         |apply bool_decide_eq_false in Hz]|]];
      simpl; settle Hhead.
  - split_and!; try done.
    + split; [lia|done].
    + split; [discriminate|]. intros Hh.
      assert (findPeerIter (_vers vv) (author v) = Some 0%nat) as H0
        by (apply findPeerIter_head; by exists v).
      congruence.
    + split; [discriminate|]. intros [? _]. lia.
Qed.

Lemma compareToVersion_spec_witness :
  (compareToVersion S4_a (mkVersion 2 "X") = kOlder
     ↔ genOfAuthor S4_a "X" < 2)
  ∧ (compareToVersion S4_a (mkVersion 2 "X") = kSame
     ↔ head (_vers S4_a) = Some (mkVersion 2 "X"))
  ∧ (compareToVersion S4_a (mkVersion 2 "X") = kNewer ↔
       2 ≤ genOfAuthor S4_a "X"
       ∧ head (_vers S4_a) ≠ Some (mkVersion 2 "X"))
  ∧ (versionCompareTo (mkVersion 2 "X") S4_a = kNewer
     ↔ compareToVersion S4_a (mkVersion 2 "X") = kOlder).
Proof. apply (compareToVersion_spec S4_a (mkVersion 2 "X")). done. Defined.

Lemma findPeerIter_renamed l from to i :
  findPeerIter l from = Some i → to ∉ authors l →
  findPeerIter (alter (setAuthor to) i l) to = Some i.
Proof.
  revert i. induction l as [|v l IH]; intros i Hi Hto; [done|].
  simpl in Hi. apply not_elem_of_cons in Hto as [Hv Hl].
  destruct (decide (author v = from)) as [E|E].
  - injection Hi as <-. simpl. by rewrite decide_True.
  - destruct (findPeerIter l from) as [j|] eqn:Hj; [|done].
    injection Hi as <-.
    change (alter (setAuthor to) (S j) (v :: l))
      with (v :: alter (setAuthor to) j l).
    simpl. rewrite decide_False by done. by rewrite (IH j).
Qed.

Lemma renamePeer_back from to vv :
  to ∉ authors (_vers vv) →
  _vers (renamePeer to from (renamePeer from to vv)) = _vers vv.
Proof.
  intros Hto. unfold renamePeer at 2.
  destruct (findPeerIter (_vers vv) from) as [i|] eqn:Hi.
  - unfold renamePeer. simpl.
    rewrite (findPeerIter_renamed _ _ _ _ Hi Hto). simpl.
    destruct (findPeerIter_Some _ _ _ Hi) as (w & Hw & Ha).
    apply list_eq. intros j. destruct (decide (j = i)) as [->|Hne].
    + rewrite !list_lookup_alter_eq, Hw. simpl. f_equal.
      destruct w; simpl in *; by subst.
    + by rewrite !list_lookup_alter_ne.
  - unfold renamePeer.
    by rewrite (proj2 (findPeerIter_None _ _) Hto).
Qed.

(** Abbreviating my peer ID to [*] and expanding it again gives the
    versions back, in either order, when the other name is not in use. *)
Theorem compact_expand_roundtrip vv myID :
  (kMePeerID ∉ authors (_vers vv) →
     _vers (expandMyPeerID (compactMyPeerID vv myID) myID) = _vers vv)
  ∧ (myID ∉ authors (_vers vv) →
     _vers (compactMyPeerID (expandMyPeerID vv myID) myID) = _vers vv).
Proof.
  split; intros H.
  - exact (renamePeer_back myID kMePeerID vv H).
  - exact (renamePeer_back kMePeerID myID vv H).
Qed.

Lemma renamePeer_map from to l c :
  NoDup (authors l) →
  _vers (renamePeer from to (mkVV l c)) = renamed from to <$> l.
Proof.
  intros Hnd. unfold renamePeer. simpl.
  assert (∀ i, findPeerIter l from = Some i →
            alter (setAuthor to) i l = renamed from to <$> l) as Hsome.
  { clear c. induction l as [|v l IH]; intros i Hi; [done|].
    apply NoDup_cons in Hnd as [Hv Hnd]. simpl in Hi.
    destruct (decide (author v = from)) as [E|E].
    - injection Hi as <-. simpl. unfold renamed at 1.
      rewrite decide_True by done. f_equal.
      rewrite <- (list_fmap_id l) at 1. apply list_fmap_ext.
      intros k w Hw. unfold renamed. rewrite decide_False; [done|].
      intros Ew. apply Hv. rewrite E, <- Ew.
      apply list_elem_of_fmap. exists w. split; [done|].
      by eapply list_elem_of_lookup_2.
    - destruct (findPeerIter l from) as [j|] eqn:Hj; [|done].
      injection Hi as <-. simpl. unfold renamed at 1.
      rewrite decide_False by done. f_equal. by apply IH. }
  destruct (findPeerIter l from) as [i|] eqn:Hi; simpl.
  - by apply Hsome.
  - apply findPeerIter_None in Hi.
    rewrite <- (list_fmap_id l) at 1. apply list_fmap_ext.
    intros k w Hw. unfold renamed. rewrite decide_False; [done|].
    intros Ew. apply Hi. rewrite <- Ew.
    apply list_elem_of_fmap. exists w. split; [done|].
    by eapply list_elem_of_lookup_2.
Qed.

Lemma author_renamed from to v :
  author (renamed from to v) = (if decide (author v = from) then to
                                else author v).
Proof. unfold renamed. by destruct (decide (author v = from)). Qed.

Lemma gen_renamed from to v : gen (renamed from to v) = gen v.
Proof. unfold renamed. by destruct (decide (author v = from)). Qed.

Lemma findPeerIter_fmap_renamed from to l x :
  to ∉ authors l → x ≠ to →
  findPeerIter (renamed from to <$> l)
               (if decide (x = from) then to else x)
  = findPeerIter l x.
Proof.
  intros Hto Hx. induction l as [|v l IH]; [done|].
  apply not_elem_of_cons in Hto as [Hv Hl].
  rewrite fmap_cons. cbn [findPeerIter].
  rewrite author_renamed, (IH Hl).
  destruct (decide (author v = x)) as [E|E].
  - rewrite decide_True; [done|]. by subst x.
  - rewrite decide_False; [done|].
    destruct (decide (author v = from)), (decide (x = from)); congruence.
Qed.

Lemma genOfAuthor_renamed from to l c c' x :
  to ∉ authors l → x ≠ to →
  genOfAuthor (mkVV (renamed from to <$> l) c')
              (if decide (x = from) then to else x)
  = genOfAuthor (mkVV l c) x.
Proof.
  intros Hto Hx. unfold genOfAuthor. simpl.
  rewrite findPeerIter_fmap_renamed by done.
  destruct (findPeerIter l x) as [i|]; [|done].
  rewrite list_lookup_fmap. destruct (l !! i) as [w|]; [|done].
  simpl. apply gen_renamed.
Qed.

Lemma compareLoop_renamed from to vers l c c' o :
  to ∉ authors vers → to ∉ authors l →
  compareLoop (renamed from to <$> vers)
              (mkVV (renamed from to <$> l) c') o
  = compareLoop vers (mkVV l c) o.
Proof.
  intros Hv Hl. revert o. induction vers as [|v vers IH]; intros o; [done|].
  apply not_elem_of_cons in Hv as [Hv Hvers].
  rewrite fmap_cons. cbn [compareLoop].
  assert (compareStep (mkVV (renamed from to <$> l) c')
                      (renamed from to v) o
          = compareStep (mkVV l c) v o) as ->.
  { unfold compareStep. rewrite author_renamed, gen_renamed.
    by rewrite (genOfAuthor_renamed from to l c c') by done. }
  destruct (compareStep (mkVV l c) v o) as [o' [|]]; [done|].
  by apply IH.
Qed.

(** Comparing two vectors gives the same answer before and after my
    peer ID is abbreviated to [*] in both. *)
Theorem compareTo_compactMyPeerID a b myID :
  NoDup (authors (_vers a)) → NoDup (authors (_vers b)) →
  kMePeerID ∉ authors (_vers a) → kMePeerID ∉ authors (_vers b) →
  compareTo (compactMyPeerID a myID) (compactMyPeerID b myID)
  = compareTo a b.
Proof.
  intros Ha Hb Hma Hmb. destruct a as [la ca], b as [lb cb].
  simpl in *. unfold compareTo, count.
  change (compactMyPeerID ?v myID) with (renamePeer myID kMePeerID v).
  rewrite !renamePeer_map by done. rewrite !length_fmap.
  set (o := if (_ <? 0)%Z then _ else _). clearbody o.
  destruct (renamePeer myID kMePeerID (mkVV lb cb)) as [lb' cb'] eqn:E.
  assert (lb' = renamed myID kMePeerID <$> lb) as ->.
  { change lb' with (_vers (mkVV lb' cb')). rewrite <- E.
    by apply renamePeer_map. }
  by apply compareLoop_renamed.
Qed.

Lemma compact_expand_roundtrip_witness :
  _vers (expandMyPeerID (compactMyPeerID S4_a "X") "X") = _vers S4_a.
Proof.
  apply (compact_expand_roundtrip S4_a "X").
  apply (bool_decide_unpack _). vm_compute. exact I.
Defined.

Lemma compareTo_compactMyPeerID_witness :
  compareTo (compactMyPeerID S4_a "X") (compactMyPeerID S4_b "X")
  = compareTo S4_a S4_b.
Proof.
  apply compareTo_compactMyPeerID;
    [apply NoDup_S4_a|apply NoDup_S4_b| |];
    apply (bool_decide_unpack _); vm_compute; exact I.
Defined.

Lemma genOfAuthor_absent vv p :
  p ∉ authors (_vers vv) → genOfAuthor vv p = 0.
Proof.
  intros H. apply genOfAuthor_None. by apply findPeerIter_None.
Qed.

Lemma authors_delete i (l : list version) :
  authors (delete i l) = delete i (authors l).
Proof.
  revert i. induction l as [|v l IH]; intros [|i]; simpl; try done.
  f_equal. apply IH.
Qed.

Lemma NoDup_delete_None (l : list peerID) i p :
  NoDup l → l !! i = Some p → p ∉ delete i l.
Proof.
  revert i. induction l as [|x l IH]; intros i Hnd Hi; [done|].
  apply NoDup_cons in Hnd as [Hx Hnd]. destruct i as [|i]; simpl in *.
  - by injection Hi as <-.
  - apply not_elem_of_cons. split; [|by apply IH].
    intros ->. apply Hx. by eapply list_elem_of_lookup_2.
Qed.

Lemma NoDup_delete (l : list peerID) i : NoDup l → NoDup (delete i l).
Proof.
  intros H. eapply sublist_NoDup; [done|apply sublist_delete].
Qed.

Lemma elem_of_delete_other (l : list version) i v w :
  l !! i = Some v → w ∈ l → author w ≠ author v → w ∈ delete i l.
Proof.
  revert i. induction l as [|x l IH]; intros i Hi Hw Hne; [done|].
  destruct i as [|i]; simpl in *.
  - injection Hi as ->. apply elem_of_cons in Hw as [->|Hw]; done.
  - apply elem_of_cons in Hw as [->|Hw]; [apply list_elem_of_here|].
    apply list_elem_of_further. by eapply IH.
Qed.

Lemma validate_gen kMax g g' a :
  g ≠ 0 → g' ≠ 0 →
  validate kMax (mkVersion g a) = validate kMax (mkVersion g' a).
Proof.
  intros Hg Hg'. unfold validate, isMerge. simpl.
  by rewrite (proj2 (N.eqb_neq _ _) Hg), (proj2 (N.eqb_neq _ _) Hg').
Qed.

(** [incrementGen] keeps a vector well formed (one entry per peer, valid
    authors, no generation 0), gives it exactly the peers it had plus
    the incremented one, and leaves the generation of every other peer
    as it was. *)
Theorem incrementGen_wf kMax vv p :
  wf_vector kMax vv →
  validate kMax (mkVersion 1 p) = true →
  genOfAuthor vv p + 1 < gen_modulus →
  ∃ vv', incrementGen kMax vv p = Ok vv'
    ∧ wf_vector kMax vv'
    ∧ (∀ q, q ∈ authors (_vers vv') ↔ q = p ∨ q ∈ authors (_vers vv))
    ∧ (∀ q, q ≠ p → genOfAuthor vv' q = genOfAuthor vv q).
Proof.
  intros [Hnd Hall] Hval Hlt. unfold incrementGen.
  destruct (findPeerIter (_vers vv) p) as [i|] eqn:Hi.
  - destruct (findPeerIter_Some _ _ _ Hi) as (v & Hv & Ha).
    rewrite Hv.
    assert (v ∈ _vers vv) as Hin by by eapply list_elem_of_lookup_2.
    pose proof (proj1 (Forall_forall _ _) Hall v Hin) as [Hvv Hg].
    assert (genOfAuthor vv p = gen v) as Hgp.
    { rewrite <- Ha. by apply genOfAuthor_entry. }
    assert (isMerge v = false) as -> by by apply N.eqb_neq.
    assert (gen_succ (gen v) = gen v + 1) as Hs.
    { unfold gen_succ. apply N.mod_small. lia. }
    set (v' := mkVersion (gen_succ (gen v)) (author v)).
    assert (authors (_vers vv) !! i = Some p) as Hai.
    { unfold authors. by rewrite list_lookup_fmap, Hv, <- Ha. }
    eexists. split; [done|]. simpl. split_and!.
    + split.
      * simpl. apply NoDup_cons. rewrite authors_delete, Ha. split.
        -- by apply NoDup_delete_None.
        -- by apply NoDup_delete.
      * simpl. apply Forall_cons. split.
        -- split; [|simpl; lia]. unfold v'.
           rewrite (validate_gen kMax _ (gen v)) by (done || lia).
           by destruct v.
        -- eapply Forall_forall. intros w Hw.
           apply (proj1 (Forall_forall _ _) Hall).
           by eapply list_subseteq_delete.
    + intros q. simpl. rewrite authors_delete, elem_of_cons, Ha. split.
      * intros [->|Hq]; [by left|]. right.
        by eapply list_subseteq_delete.
      * intros [->|Hq]; [by left|].
        destruct (decide (q = p)) as [->|Hne]; [by left|]. right.
        apply list_elem_of_fmap in Hq as (w & -> & Hw).
        rewrite <- authors_delete. apply list_elem_of_fmap.
        exists w. split; [done|].
        eapply elem_of_delete_other; [done|done|congruence].
    + intros q Hq.
      assert (NoDup (authors (v' :: delete i (_vers vv)))) as Hnd'.
      { simpl. apply NoDup_cons. rewrite authors_delete, Ha. split.
        - by apply NoDup_delete_None.
        - by apply NoDup_delete. }
      destruct (decide (q ∈ authors (_vers vv))) as [Hin'|Hout].
      * apply list_elem_of_fmap in Hin' as (w & -> & Hw).
        rewrite (genOfAuthor_entry vv w) by done.
        apply (genOfAuthor_entry (mkVV _ true) w); [done|]. simpl.
        apply list_elem_of_further.
        eapply elem_of_delete_other; [done|done|congruence].
      * rewrite (genOfAuthor_absent vv q) by done.
        apply genOfAuthor_absent. simpl.
        rewrite authors_delete, not_elem_of_cons, Ha. split; [done|].
        intros Hd. apply Hout.
        by eapply list_subseteq_delete.
  - rewrite Hval. apply findPeerIter_None in Hi.
    eexists. split; [done|]. simpl. split_and!.
    + split; simpl.
      * by apply NoDup_cons.
      * apply Forall_cons. by split.
    + intros q. simpl. by rewrite elem_of_cons.
    + intros q Hq. unfold genOfAuthor. simpl.
      rewrite decide_False by done.
      destruct (findPeerIter (_vers vv) q); done.
Qed.

Lemma incrementGen_wf_witness :
  ∃ vv', incrementGen 64 S4_a "Y" = Ok vv'
    ∧ wf_vector 64 vv'
    ∧ (∀ q, q ∈ authors (_vers vv')
            ↔ q = "Y"%string ∨ q ∈ authors (_vers S4_a))
    ∧ (∀ q, q ≠ "Y"%string → genOfAuthor vv' q = genOfAuthor S4_a q).
Proof.
  apply (incrementGen_wf 64 S4_a "Y"); [apply wf_S4_a|done|done].
Defined.

(** [mergedWith] of two well-formed vectors returns a well-formed
    vector. *)
Theorem mergedWith_wf kMax a b :
  wf_vector kMax a → wf_vector kMax b →
  ∃ m, mergedWith kMax a b = Ok m ∧ wf_vector kMax m.
Proof.
  intros [Hna Ha] [Hnb Hb].
  destruct (mergedWith_perm kMax a b) as (m & Hm & Hperm); [done|done| | |].
  { eapply Forall_impl; [exact Ha|]. by intros v [? _]. }
  { eapply Forall_impl; [exact Hb|]. by intros v [? _]. }
  exists m. split; [done|]. split.
  - unfold authors. rewrite Hperm. by apply mergedList_NoDup.
  - rewrite Hperm. apply Forall_forall. intros v Hv.
    apply mergedList_elem in Hv as [[Hv _]|[Hv _]].
    + by apply (proj1 (Forall_forall _ _) Ha).
    + by apply (proj1 (Forall_forall _ _) Hb).
Qed.

Lemma mergedWith_wf_witness :
  ∃ m, mergedWith 64 S4_a S5_b = Ok m ∧ wf_vector 64 m.
Proof. apply mergedWith_wf; [apply wf_S4_a|apply wf_S5_b]. Defined.

Lemma appendAll_valid kMax vv l :
  Forall (λ v, validate kMax v = true) l →
  appendAll kMax vv l
  = Ok (mkVV (_vers vv ++ l)
             (if bool_decide (l = []) then _changed vv else true)).
Proof.
  revert vv. induction l as [|v l IH]; intros vv Hl.
  - simpl. rewrite app_nil_r. by destruct vv.
  - apply Forall_cons in Hl as [Hv Hl]. simpl. unfold append at 1.
    rewrite Hv. simpl. rewrite (IH _ Hl). simpl.
    rewrite <- app_assoc. by destruct (bool_decide (l = [])).
Qed.

Lemma appendAll_invalid kMax vv l :
  ¬ Forall (λ v, validate kMax v = true) l →
  appendAll kMax vv l = Throw BadVersionVector.
Proof.
  revert vv. induction l as [|v l IH]; intros vv Hl.
  - exfalso. by apply Hl.
  - simpl. unfold append at 1.
    destruct (validate kMax v) eqn:Hv; [|done]. simpl.
    apply IH. intros Hl'. apply Hl. by apply Forall_cons.
Qed.

(** Assigning another vector replaces what the vector held: it copies
    the versions of the other one when every one of them is valid, the
    copy counting as changed unless it is empty, and throws
    BadVersionVector when one is not. Assigning a vector to itself does
    not keep it: its versions are cleared before they are read, and it
    is left empty. *)
Theorem assign_spec kMax this v :
  (valid_vector kMax v →
     assign kMax this (Some v)
     = Ok (mkVV (_vers v) (negb (bool_decide (_vers v = [])))))
  ∧ (¬ valid_vector kMax v →
     assign kMax this (Some v) = Throw BadVersionVector)
  ∧ assign kMax this None = Ok (mkVV [] false).
Proof.
  unfold assign, valid_vector, reset. simpl. split_and!.
  - intros H. rewrite appendAll_valid by done. simpl.
    by destruct (bool_decide (_vers v = [])).
  - intros H. by apply appendAll_invalid.
  - done.
Qed.

End PeerFacts.

(** * Properties of the other operations on rev trees *)

Module TreeOps.
Import RT RTFacts.

(** ** The revision of a remote *)

Lemma isLatestRemoteRevision_true t (p : ptr) k :
  _remoteRevs t !! k = Some p → isLatestRemoteRevision t p = true.
Proof.
  intros Hk. unfold isLatestRemoteRevision.
  apply bool_decide_eq_true. by exists k, p.
Qed.

(** What [setLatestRevisionOnRemote] stores is what
    [latestRevisionOnRemote] returns for that remote, a null Rev erases
    the entry, the other remotes keep their revisions, and the stored
    Rev is a latest remote revision. Remote 0 fails the assertion. *)
Theorem remote_roundtrip t remote rev :
  (remote = kNoRemoteID →
     setLatestRevisionOnRemote t remote rev = Throw AssertionFailed
     ∧ latestRevisionOnRemote t remote = Throw AssertionFailed)
  ∧ (remote ≠ kNoRemoteID →
     ∃ t', setLatestRevisionOnRemote t remote rev = Ok t'
       ∧ latestRevisionOnRemote t' remote = Ok rev
       ∧ (∀ other, other ≠ remote → other ≠ kNoRemoteID →
            latestRevisionOnRemote t' other
            = latestRevisionOnRemote t other)
       ∧ (∀ p, rev = Some p → isLatestRemoteRevision t' p = true)
       ∧ _changed t' = true ∧ _revs t' = _revs t
       ∧ _revsStorage t' = _revsStorage t).
Proof.
  unfold setLatestRevisionOnRemote, latestRevisionOnRemote. split.
  - intros ->. done.
  - intros Hne. rewrite (proj2 (N.eqb_neq _ _) Hne).
    eexists. split; [done|]. simpl. split_and!; try done.
    + f_equal. destruct rev as [p|].
      * by rewrite lookup_insert_eq.
      * by rewrite lookup_delete_eq.
    + intros other Ho Ho0. rewrite (proj2 (N.eqb_neq _ _) Ho0). f_equal.
      destruct rev as [p|].
      * by rewrite lookup_insert_ne.
      * by rewrite lookup_delete_ne.
    + intros p ->. apply (isLatestRemoteRevision_true _ p remote).
      simpl. by rewrite lookup_insert_eq.
Qed.

(** ** Saving *)

Lemma ldiff_idem f k : N.ldiff (N.ldiff f k) k = N.ldiff f k.
Proof.
  apply N.bits_inj. intros n. rewrite !N.ldiff_spec.
  by destruct (N.testbit f n), (N.testbit k n).
Qed.

Lemma isNew_clearFlag r : isNew (clearFlag kNew r) = false.
Proof.
  unfold isNew, hasFlag. simpl. rewrite N.land_ldiff. done.
Qed.

Lemma markSaved_idem n r : markSaved n (markSaved n r) = markSaved n r.
Proof.
  destruct r as [i s p b f]. unfold markSaved, clearFlag, setSequence.
  simpl. destruct (s =? 0) eqn:E; simpl.
  - destruct (n =? 0); simpl; by rewrite ldiff_idem.
  - rewrite E. by rewrite ldiff_idem.
Qed.

Lemma saved_loop_ok revs n t :
  (∀ p, p ∈ revs → valid_ptr t p) →
  ∃ t', saved_loop revs n t = Ok t'
    ∧ _revs t' = _revs t ∧ _remoteRevs t' = _remoteRevs t
    ∧ length (_revsStorage t') = length (_revsStorage t)
    ∧ ∀ (x : ptr) r, _revsStorage t !! x = Some r →
        _revsStorage t' !! x
        = Some (if bool_decide (x ∈ revs) then markSaved n r else r).
Proof.
  revert t. induction revs as [|p revs IH]; intros t Hv.
  - exists t. by split_and!.
  - simpl. destruct (Hv p) as [rp Hp]; [apply list_elem_of_here|].
    rewrite (deref_Some _ _ _ Hp). simpl.
    set (t1 := update p (markSaved n) t).
    destruct (IH t1) as (t' & -> & Hr' & Hm' & Hl' & Hx').
    { intros q Hq. destruct (Hv q) as [rq Hrq];
        [by apply list_elem_of_further|].
      destruct (decide (q = p)) as [->|Hne].
      - eexists. by apply lookup_update_eq.
      - exists rq. unfold t1. by rewrite lookup_update_ne. }
    exists t'. split_and!; try done.
    + rewrite Hl'. unfold t1. simpl. by rewrite length_alter.
    + intros x r Hr. destruct (decide (x = p)) as [->|Hne].
      * rewrite (Hx' p (markSaved n r)) by by apply lookup_update_eq.
        rewrite (bool_decide_eq_true_2 (p ∈ p :: revs))
          by apply list_elem_of_here.
        f_equal. destruct (bool_decide (p ∈ revs)); [|done].
        apply markSaved_idem.
      * rewrite (Hx' x r) by (unfold t1; by rewrite lookup_update_ne).
        f_equal.
        apply (f_equal (λ b : bool, if b then markSaved n r else r)).
        apply bool_decide_ext. rewrite elem_of_cons.
        split; [by right|by intros [?|?]].
Qed.

Lemma hasNewRevisions_loop_false t revs :
  (∀ p, p ∈ revs → ∃ r, _revsStorage t !! p = Some r
                        ∧ isNew r = false ∧ sequence r ≠ 0) →
  hasNewRevisions_loop t revs = Ok false.
Proof.
  induction revs as [|p revs IH]; intros H; [done|].
  simpl. destruct (H p) as (r & Hr & Hn & Hs); [apply list_elem_of_here|].
  rewrite (deref_Some _ _ _ Hr). simpl.
  rewrite Hn, (proj2 (N.eqb_neq _ _) Hs). simpl. apply IH.
  intros q Hq. apply H. by apply list_elem_of_further.
Qed.

(** [saved] clears [kNew] on every Rev of the tree and gives the new
    sequence to those that had none; revIDs, parents and bodies stay.
    After [saved] with a sequence other than 0, [hasNewRevisions]
    answers no. *)
Theorem saved_spec t newSequence :
  (∀ p, p ∈ _revs t → valid_ptr t p) →
  ∃ t', saved t newSequence = Ok t'
    ∧ _revs t' = _revs t
    ∧ (∀ p r, p ∈ _revs t → _revsStorage t !! p = Some r →
         ∃ r', _revsStorage t' !! p = Some r'
           ∧ isNew r' = false
           ∧ sequence r' = (if sequence r =? 0 then newSequence
                            else sequence r)
           ∧ revID r' = revID r ∧ parent r' = parent r
           ∧ _body r' = _body r)
    ∧ (newSequence ≠ 0 → hasNewRevisions t' = Ok false).
Proof.
  intros Hv. unfold saved.
  destruct (saved_loop_ok (_revs t) newSequence t Hv)
    as (t' & -> & Hr' & _ & _ & Hx').
  assert (∀ p r, p ∈ _revs t → _revsStorage t !! p = Some r →
            _revsStorage t' !! p = Some (markSaved newSequence r)) as Hp.
  { intros p r Hin Hr. rewrite (Hx' p r Hr).
    by rewrite bool_decide_eq_true_2. }
  exists t'. split_and!; try done.
  - intros p r Hin Hr. eexists. split; [by apply Hp|].
    unfold markSaved. simpl.
    destruct (sequence r =? 0); simpl;
      split_and!; try done; apply isNew_clearFlag.
  - intros Hn. unfold hasNewRevisions. rewrite Hr'.
    apply hasNewRevisions_loop_false. intros p Hin.
    destruct (Hv p Hin) as [r Hr]. eexists. split; [by apply Hp|].
    unfold markSaved. simpl.
    destruct (sequence r =? 0) eqn:E; simpl.
    + split; [apply isNew_clearFlag|done].
    + split; [apply isNew_clearFlag|by apply N.eqb_neq].
Qed.

Lemma S1_tree_valid p : p ∈ _revs S1_tree → valid_ptr S1_tree p.
Proof.
  simpl. intros Hin.
  repeat (apply elem_of_cons in Hin as [->|Hin]; [by eexists|]).
  by apply elem_of_nil in Hin.
Qed.

Lemma saved_spec_witness :
  ∃ t', saved S1_tree 7 = Ok t'
    ∧ _revs t' = _revs S1_tree
    ∧ (∀ p r, p ∈ _revs S1_tree → _revsStorage S1_tree !! p = Some r →
         ∃ r', _revsStorage t' !! p = Some r'
           ∧ isNew r' = false
           ∧ sequence r' = (if sequence r =? 0 then 7 else sequence r)
           ∧ revID r' = revID r ∧ parent r' = parent r
           ∧ _body r' = _body r)
    ∧ (7 ≠ 0 → hasNewRevisions t' = Ok false).
Proof. apply (saved_spec S1_tree 7). apply S1_tree_valid. Defined.

(** ** Bodies of revs that are no longer leaves *)

Lemma dropBody_idem r : dropBody (dropBody r) = dropBody r.
Proof.
  unfold dropBody.
  destruct (bool_decide (0 < body_size r)%nat && negb (keepsItsBody r))
    eqn:E; [|by rewrite E].
  unfold body_size. simpl. done.
Qed.

Lemma removeNonLeafBodies_loop_ok revs t :
  (∀ p, p ∈ revs → valid_ptr t p) →
  ∃ t', removeNonLeafBodies_loop revs t = Ok t'
    ∧ _revs t' = _revs t ∧ _remoteRevs t' = _remoteRevs t
    ∧ ∀ (x : ptr) r, _revsStorage t !! x = Some r →
        _revsStorage t' !! x
        = Some (if bool_decide (x ∈ revs) then dropBody r else r).
Proof.
  revert t. induction revs as [|p revs IH]; intros t Hv.
  - exists t. by split_and!.
  - simpl. destruct (Hv p) as [rp Hp]; [apply list_elem_of_here|].
    rewrite (deref_Some _ _ _ Hp). simpl.
    set (t1 := if bool_decide (0 < body_size rp)%nat
                  && negb (keepsItsBody rp)
               then setChanged true (update p Rev_removeBody t) else t).
    assert (_revs t1 = _revs t ∧ _remoteRevs t1 = _remoteRevs t) as [E1 E2]
      by (unfold t1; by destruct (_ && _)).
    assert (∀ (x : ptr) r, _revsStorage t !! x = Some r →
              _revsStorage t1 !! x
              = Some (if decide (x = p) then dropBody r else r)) as H1.
    { intros x r Hr. unfold t1, dropBody.
      destruct (decide (x = p)) as [->|Hne].
      - pose proof (eq_trans (eq_sym Hr) Hp) as [= ->].
        destruct (_ && _); [|done]. by apply lookup_update_eq.
      - destruct (_ && _); [|done]. simpl.
        by rewrite list_lookup_alter_ne. }
    assert (removeNonLeafBodies_loop revs t1
            = (if bool_decide (0 < body_size rp)%nat
                  && negb (keepsItsBody rp)
               then removeNonLeafBodies_loop revs
                      (setChanged true (update p Rev_removeBody t))
               else removeNonLeafBodies_loop revs t)) as <-
      by (unfold t1; by destruct (_ && _)).
    destruct (IH t1) as (t' & -> & Hr' & Hm' & Hx').
    { intros q Hq. destruct (Hv q) as [rq Hrq];
        [by apply list_elem_of_further|].
      eexists. by apply H1. }
    exists t'. split_and!; try congruence.
    intros x r Hr. rewrite (Hx' _ _ (H1 x r Hr)). f_equal.
    destruct (decide (x = p)) as [->|Hne].
    + rewrite (bool_decide_eq_true_2 (p ∈ p :: revs))
        by apply list_elem_of_here.
      destruct (bool_decide (p ∈ revs)); [|done]. apply dropBody_idem.
    + apply (f_equal (λ b : bool, if b then dropBody r else r)).
      apply bool_decide_ext. rewrite elem_of_cons.
        split; [by right|by intros [?|?]].
Qed.

(** [removeNonLeafBodies] leaves alone every Rev that is a leaf, is new
    or has [kKeepBody], and every Rev whose body is empty; every other
    Rev of the tree ends without a body, with its revID and parent as
    before. The list of revs and the remotes stay as they are. *)
Theorem removeNonLeafBodies_spec t :
  (∀ p, p ∈ _revs t → valid_ptr t p) →
  ∃ t', removeNonLeafBodies t = Ok t'
    ∧ _revs t' = _revs t ∧ _remoteRevs t' = _remoteRevs t
    ∧ ∀ p r, p ∈ _revs t → _revsStorage t !! p = Some r →
        ∃ r', _revsStorage t' !! p = Some r'
          ∧ (keepsItsBody r = true ∨ body_size r = 0%nat → r' = r)
          ∧ (keepsItsBody r = false →
               body_size r' = 0%nat
               ∧ revID r' = revID r ∧ parent r' = parent r).
Proof.
  intros Hv. unfold removeNonLeafBodies.
  destruct (removeNonLeafBodies_loop_ok (_revs t) t Hv)
    as (t' & -> & Hr' & Hm' & Hx').
  exists t'. split_and!; try done.
  intros p r Hin Hr. exists (dropBody r). split.
  - rewrite (Hx' p r Hr). by rewrite bool_decide_eq_true_2.
  - unfold dropBody. split.
    + intros [Hk | Hb].
      * rewrite Hk. simpl. by rewrite andb_false_r.
      * rewrite bool_decide_eq_false_2 by lia. done.
    + intros Hk. rewrite Hk. simpl. rewrite andb_true_r.
      case_bool_decide as Hb; [done|].
      split_and!; try done. lia.
Qed.

Lemma removeNonLeafBodies_spec_witness :
  ∃ t', removeNonLeafBodies fork_tree = Ok t'
    ∧ _revs t' = _revs fork_tree ∧ _remoteRevs t' = _remoteRevs fork_tree
    ∧ ∀ p r, p ∈ _revs fork_tree → _revsStorage fork_tree !! p = Some r →
        ∃ r', _revsStorage t' !! p = Some r'
          ∧ (keepsItsBody r = true ∨ body_size r = 0%nat → r' = r)
          ∧ (keepsItsBody r = false →
               body_size r' = 0%nat
               ∧ revID r' = revID r ∧ parent r' = parent r).
Proof.
  apply (removeNonLeafBodies_spec fork_tree).
  apply (pp_revs _ _ fork_tree_pre).
Defined.

(** ** Compaction *)

Lemma unmarked_Some t (p : ptr) r :
  _revsStorage t !! p = Some r → unmarked t p = negb (isMarkedForPurge r).
Proof. unfold unmarked. by intros ->. Qed.

Lemma compact_revs_filter t revs :
  (∀ p, p ∈ revs → valid_ptr t p) →
  compact_revs t revs = Ok (filter (λ p, unmarked t p = true) revs).
Proof.
  induction revs as [|p revs IH]; intros Hv; [done|].
  simpl. destruct (Hv p) as [r Hr]; [apply list_elem_of_here|].
  rewrite (deref_Some _ _ _ Hr). simpl. rewrite IH.
  2:{ intros q Hq. apply Hv. by apply list_elem_of_further. }
  simpl. rewrite filter_cons.
  destruct (decide (unmarked t p = true)) as [Hd|Hd];
    rewrite (unmarked_Some _ _ _ Hr) in Hd;
    destruct (isMarkedForPurge r); simpl in *; congruence.
Qed.

Lemma compact_remotes_spec t remotes (m : gmap N ptr) :
  (∀ k p, (k, p) ∈ remotes → valid_ptr t p) →
  ∃ m', compact_remotes t remotes m = Ok m'
    ∧ (∀ k p, (k, p) ∈ remotes → unmarked t p = false → m' !! k = None)
    ∧ (∀ k, (∀ p, (k, p) ∈ remotes → unmarked t p = true) →
            m' !! k = m !! k)
    ∧ (∀ k, m' !! k = None ∨ m' !! k = m !! k).
Proof.
  revert m. induction remotes as [|[k0 p0] remotes IH]; intros m Hv.
  - exists m. split_and!; try done.
    + intros k p Hin. by apply elem_of_nil in Hin.
    + intros k. by right.
  - simpl. destruct (Hv k0 p0) as [r Hr]; [apply list_elem_of_here|].
    rewrite (deref_Some _ _ _ Hr). simpl.
    pose proof (unmarked_Some _ _ _ Hr) as Hu.
    set (m1 := if isMarkedForPurge r then delete k0 m else m).
    destruct (IH m1) as (m' & -> & Ha & Hb & Hc).
    { intros k p Hin. apply (Hv k). by apply list_elem_of_further. }
    exists m'. split_and!; [done| | |].
    + intros k p Hin Hp.
      apply elem_of_cons in Hin as [[= -> ->]|Hin]; [|by eapply Ha].
      destruct (Hc k0) as [Hn|He]; [done|]. rewrite He. unfold m1.
      rewrite Hu in Hp. apply negb_false_iff in Hp. rewrite Hp.
      apply lookup_delete_eq.
    + intros k Hk. rewrite Hb.
      2:{ intros p Hin. apply Hk. by apply list_elem_of_further. }
      unfold m1. destruct (isMarkedForPurge r) eqn:Hm; [|done].
      destruct (decide (k = k0)) as [->|Hne].
      * specialize (Hk p0 (list_elem_of_here _ _)).
        rewrite Hu in Hk. done.
      * by rewrite lookup_delete_ne.
    + intros k. destruct (Hc k) as [Hn|He]; [by left|].
      rewrite He. unfold m1. destruct (isMarkedForPurge r); [|by right].
      destruct (decide (k = k0)) as [->|Hne].
      * left. apply lookup_delete_eq.
      * right. by rewrite lookup_delete_ne.
Qed.

Lemma compact_filter_ok t :
  (∀ p, p ∈ _revs t → valid_ptr t p) →
  (∀ k p, _remoteRevs t !! k = Some p → valid_ptr t p) →
  ∃ t', compact t = Ok t'
    ∧ _revs t' = filter (λ p, unmarked t p = true) (_revs t)
    ∧ (∀ k p, _remoteRevs t' !! k = Some p
              ↔ _remoteRevs t !! k = Some p ∧ unmarked t p = true)
    ∧ _revsStorage t' = _revsStorage t
    ∧ _changed t' = true ∧ _sorted t' = _sorted t.
Proof.
  intros Hv Hrem. unfold compact. rewrite compact_revs_filter by done.
  simpl.
  destruct (compact_remotes_spec t (map_to_list (_remoteRevs t))
              (_remoteRevs t)) as (m' & -> & Ha & Hb & Hc).
  { intros k p Hin. apply (Hrem k). by apply elem_of_map_to_list. }
  simpl. eexists. split; [done|]. simpl. split_and!; try done.
  intros k p. split.
  - intros Hk. destruct (Hc k) as [Hn|He]; [congruence|].
    rewrite He in Hk. split; [done|].
    destruct (unmarked t p) eqn:Hu; [done|].
    rewrite (Ha k p) in He; [congruence| |done].
    by apply elem_of_map_to_list.
  - intros [Hk Hu]. rewrite Hb; [done|].
    intros p' Hin. apply elem_of_map_to_list in Hin. congruence.
Qed.

(** [compact] keeps, in their order, the revs that are not marked for
    purging, keeps the remotes whose revision is not marked and erases
    the others, and leaves every Rev as it is. *)
Theorem compact_spec t :
  (∀ p, p ∈ _revs t → valid_ptr t p) →
  (∀ k p, _remoteRevs t !! k = Some p → valid_ptr t p) →
  ∃ t', compact t = Ok t'
    ∧ _revs t' = filter (λ p, unmarked t p = true) (_revs t)
    ∧ (∀ k p, _remoteRevs t' !! k = Some p
              ↔ _remoteRevs t !! k = Some p ∧ unmarked t p = true)
    ∧ _revsStorage t' = _revsStorage t
    ∧ _changed t' = true ∧ _sorted t' = _sorted t.
Proof. apply compact_filter_ok. Qed.

Lemma compact_spec_witness :
  ∃ t', compact fork_tree = Ok t'
    ∧ _revs t' = filter (λ p, unmarked fork_tree p = true)
                        (_revs fork_tree)
    ∧ (∀ k p, _remoteRevs t' !! k = Some p
              ↔ _remoteRevs fork_tree !! k = Some p
                ∧ unmarked fork_tree p = true)
    ∧ _revsStorage t' = _revsStorage fork_tree
    ∧ _changed t' = true ∧ _sorted t' = _sorted fork_tree.
Proof.
  apply (compact_spec fork_tree);
    [apply (pp_revs _ _ fork_tree_pre)
    |apply (pp_remotes _ _ fork_tree_pre)].
Defined.

(** ** Conflicts *)

Lemma activeCount_cons t p revs r :
  _revsStorage t !! p = Some r →
  activeCount t (p :: revs)
  = ((if isActive t p r then 1 else 0) + activeCount t revs)%nat.
Proof.
  intros Hr. unfold activeCount. rewrite filter_cons.
  destruct (decide _) as [Hd|Hd]; rewrite Hr in Hd; simpl in Hd.
  - by rewrite Hd.
  - by destruct (isActive t p r).
Qed.

Lemma activeCount_le t revs : (activeCount t revs ≤ length revs)%nat.
Proof. unfold activeCount. apply length_filter. Qed.

Lemma hasConflict_loop_count t revs n :
  (∀ p, p ∈ revs → valid_ptr t p) → (n ≤ 1)%nat →
  hasConflict_loop t revs n
  = Ok (bool_decide (2 ≤ n + activeCount t revs)%nat).
Proof.
  revert n. induction revs as [|p revs IH]; intros n Hv Hn.
  - simpl. rewrite bool_decide_eq_false_2; [done|].
    unfold activeCount. simpl. lia.
  - simpl. destruct (Hv p) as [r Hr]; [apply list_elem_of_here|].
    rewrite (deref_Some _ _ _ Hr). simpl.
    rewrite (activeCount_cons _ _ _ _ Hr).
    assert (∀ q, q ∈ revs → valid_ptr t q) as Hv'
      by (intros q Hq; apply Hv; by apply list_elem_of_further).
    destruct (isActive t p r).
    + case_bool_decide as H1.
      * rewrite bool_decide_eq_true_2; [done|lia].
      * rewrite IH by (done || lia). f_equal.
        apply bool_decide_ext. lia.
    + by rewrite IH.
Qed.

(** On a loaded tree that is not sorted, [hasConflict] answers whether
    at least two revs of the tree are active. *)
Theorem hasConflict_unsorted t :
  _sorted t = false → _unknown t = false →
  (∀ p, p ∈ _revs t → valid_ptr t p) →
  hasConflict t = Ok (bool_decide (2 ≤ activeCount t (_revs t))%nat).
Proof.
  intros Hs Hk Hv. unfold hasConflict. rewrite Hs, Hk.
  case_bool_decide as Hlen.
  - f_equal. symmetry. apply bool_decide_eq_false_2.
    pose proof (activeCount_le t (_revs t)). lia.
  - by rewrite hasConflict_loop_count by (done || lia).
Qed.

Lemma hasConflict_unsorted_witness :
  hasConflict S1_tree
  = Ok (bool_decide (2 ≤ activeCount S1_tree (_revs S1_tree))%nat).
Proof.
  apply hasConflict_unsorted; first [done|apply S1_tree_valid].
Defined.

(** ** Ancestors *)

Lemma chain_functional t x n m : chain t x n → chain t x m → n = m.
Proof.
  intros Hn. revert m. induction Hn as [|p r n Hr _ IH]; intros m Hm.
  - by inversion Hm.
  - inversion Hm as [|? r' m' Hr' Hm']; subst.
    pose proof (eq_trans (eq_sym Hr') Hr) as [= ->]. f_equal. by apply IH.
Qed.

Lemma history_chain fuel t x n :
  chain t x n → (n ≤ fuel)%nat →
  ∃ h, history fuel t x = Ok h ∧ length h = n ∧ head h = x
    ∧ ∀ i q, h !! i = Some q → chain t (Some q) (n - i).
Proof.
  revert x n. induction fuel as [|fuel IH]; intros x n Hc Hn.
  - inversion Hc; subst; [|lia]. exists []. by split_and!.
  - inversion Hc as [|p r m Hr Hc']; subst.
    + exists []. by split_and!.
    + simpl. rewrite (deref_Some _ _ _ Hr). simpl.
      destruct (IH (parent r) m Hc') as (h & -> & Hl & Hh & Hi); [lia|].
      simpl. exists (p :: h). split_and!; [done|by rewrite <- Hl|done|].
      intros [|i] q Hq; simpl in Hq.
      * injection Hq as <-. by rewrite Nat.sub_0_r.
      * by apply Hi.
Qed.

Lemma isAncestorOf_history fuel t anc p n h :
  chain t (Some p) n → (n ≤ fuel)%nat →
  history fuel t (Some p) = Ok h →
  isAncestorOf fuel t anc p = Ok (bool_decide (anc ∈ h)).
Proof.
  revert p n h. induction fuel as [|fuel IH]; intros p n h Hc Hn Hh.
  - inversion Hc; subst. lia.
  - inversion Hc as [|? r m Hr Hc']; subst. simpl in *.
    rewrite (deref_Some _ _ _ Hr) in *. simpl in *.
    destruct (history fuel t (parent r)) as [h'|] eqn:Hh'; [|done].
    simpl in Hh. injection Hh as <-.
    destruct (decide (p = anc)) as [->|Hne].
    + rewrite bool_decide_eq_true_2; [done|apply list_elem_of_here].
    + destruct (parent r) as [q|] eqn:Hq.
      * rewrite (IH q m h') by (done || lia). f_equal.
        apply bool_decide_ext. rewrite elem_of_cons.
        split; [by right|by intros [?|?]].
      * inversion Hc'; subst.
        destruct fuel; simpl in Hh'; injection Hh' as <-;
          (rewrite bool_decide_eq_false_2; [done|]);
          rewrite elem_of_cons; intros [?|H0]; try done;
          by apply elem_of_nil in H0.
Qed.

Lemma history_ok fuel t rev n :
  chain t (Some rev) n → (n ≤ fuel)%nat →
  ∃ h, history fuel t (Some rev) = Ok h
    ∧ head h = Some rev ∧ length h = n ∧ NoDup h
    ∧ ∀ anc, isAncestorOf fuel t anc rev = Ok (bool_decide (anc ∈ h)).
Proof.
  intros Hc Hn.
  destruct (history_chain fuel t (Some rev) n Hc Hn)
    as (h & Hh & Hl & Hhd & Hi).
  exists h. split_and!; try done.
  - apply NoDup_alt. intros i j x Hx Hy.
    pose proof (lookup_lt_Some _ _ _ Hx) as Hli.
    pose proof (lookup_lt_Some _ _ _ Hy) as Hlj.
    pose proof (chain_functional _ _ _ _ (Hi i x Hx) (Hi j x Hy)). lia.
  - intros anc. by eapply isAncestorOf_history.
Qed.

(** The history of a Rev whose ancestry ends starts with the Rev, has
    one entry for each step of the ancestry, lists no Rev twice, and
    holds exactly the revs that [isAncestorOf] accepts as ancestors of
    the Rev (the Rev itself among them). *)
Theorem history_spec fuel t rev n :
  chain t (Some rev) n → (n ≤ fuel)%nat →
  ∃ h, history fuel t (Some rev) = Ok h
    ∧ head h = Some rev ∧ length h = n ∧ NoDup h
    ∧ ∀ anc, isAncestorOf fuel t anc rev = Ok (bool_decide (anc ∈ h)).
Proof. apply history_ok. Qed.

Lemma fork_tree_chain : chain fork_tree (Some 2%nat) 3.
Proof. repeat econstructor. Qed.

Lemma history_spec_witness :
  ∃ h, history 8 fork_tree (Some 2%nat) = Ok h
    ∧ head h = Some 2%nat ∧ length h = 3%nat ∧ NoDup h
    ∧ ∀ anc, isAncestorOf 8 fork_tree anc 2%nat
             = Ok (bool_decide (anc ∈ h)).
Proof. apply (history_spec 8 fork_tree 2%nat 3 fork_tree_chain). lia. Defined.

End TreeOps.

(** * Insertion keeps the tree in order *)

Module InsertFacts.
Import RT RTFacts TreeOps.

(** ** Flag bits *)

Lemma land_pow2_testbit f i : negb (N.land f (2 ^ i) =? 0) = N.testbit f i.
Proof.
  destruct (N.testbit f i) eqn:Hb.
  - apply negb_true_iff, N.eqb_neq. intros Hz.
    apply (f_equal (λ x, N.testbit x i)) in Hz.
    rewrite N.land_spec, Hb, N.pow2_bits_true, N.bits_0 in Hz. done.
  - apply negb_false_iff, N.eqb_eq, N.bits_inj. intros j.
    rewrite N.land_spec, N.bits_0.
    destruct (decide (j = i)) as [->|Hne].
    + by rewrite Hb.
    + rewrite N.pow2_bits_false by done. apply andb_false_r.
Qed.

Lemma isLeaf_bit r : isLeaf r = N.testbit (flags r) 1.
Proof. apply (land_pow2_testbit (flags r) 1). Qed.
Lemma isNew_bit r : isNew r = N.testbit (flags r) 2.
Proof. apply (land_pow2_testbit (flags r) 2). Qed.
Lemma keepBody_bit r : keepBodyFlag r = N.testbit (flags r) 4.
Proof. apply (land_pow2_testbit (flags r) 4). Qed.
Lemma isConflict_bit r : isConflict r = N.testbit (flags r) 5.
Proof. apply (land_pow2_testbit (flags r) 5). Qed.
Lemma isMarked_bit r : isMarkedForPurge r = N.testbit (flags r) 7.
Proof. apply (land_pow2_testbit (flags r) 7). Qed.

Lemma kept_bit r r' i :
  kept r r' → i ≠ 3 → i ≠ 4 →
  N.testbit (flags r') i = N.testbit (flags r) i.
Proof. intros (_ & _ & _ & Hf & _). apply Hf. Qed.

(** ** The relation [kept] *)

Lemma kept_refl r : kept r r.
Proof. unfold kept. split_and!; try done. by left. Qed.

Lemma kept_trans r1 r2 r3 : kept r1 r2 → kept r2 r3 → kept r1 r3.
Proof.
  intros (? & ? & ? & Hf & Hb) (? & ? & ? & Hf' & Hb').
  unfold kept. split_and!; try congruence.
  - intros i ? ?. rewrite Hf', Hf; done.
  - destruct Hb' as [Hb'|Hb']; [|by right].
    rewrite Hb'. done.
Qed.

Lemma kept_clearKeepBody r : kept r (clearFlag kKeepBody r).
Proof.
  unfold kept. simpl. split_and!; try done; [|by left].
  intros i _ Hi. rewrite N.ldiff_spec.
  change kKeepBody with (2 ^ 4). rewrite N.pow2_bits_false by done.
  by rewrite andb_true_r.
Qed.

Lemma kept_addKeepBody r : kept r (addFlag kKeepBody r).
Proof.
  unfold kept. simpl. split_and!; try done; [|by left].
  intros i _ Hi. rewrite N.lor_spec.
  change kKeepBody with (2 ^ 4). rewrite N.pow2_bits_false by done.
  by rewrite orb_false_r.
Qed.

Lemma kept_removeBody r : kept r (Rev_removeBody r).
Proof. unfold kept. simpl. split_and!; try done. by right. Qed.

Lemma kept_tree_refl t : kept_tree t t.
Proof.
  unfold kept_tree. split_and!; try done.
  intros p r Hr. exists r. split; [done|apply kept_refl].
Qed.

Lemma kept_tree_trans t1 t2 t3 :
  kept_tree t1 t2 → kept_tree t2 t3 → kept_tree t1 t3.
Proof.
  intros (Hl & Hs & ? & ? & ? & ? & ?) (Hl' & Hs' & ? & ? & ? & ? & ?).
  unfold kept_tree. split_and!; try congruence.
  intros p r Hr. destruct (Hs p r Hr) as (r2 & Hr2 & Hk).
  destruct (Hs' p r2 Hr2) as (r3 & Hr3 & Hk').
  exists r3. split; [done|]. by eapply kept_trans.
Qed.

Lemma kept_tree_update t (p : ptr) f :
  (∀ r, kept r (f r)) → kept_tree t (update p f t).
Proof.
  intros Hf. unfold kept_tree. split_and!; try done.
  - simpl. by rewrite length_alter.
  - intros x r Hr. destruct (decide (x = p)) as [->|Hne].
    + exists (f r). split; [by apply lookup_update_eq|apply Hf].
    + exists r. split; [by rewrite lookup_update_ne|apply kept_refl].
Qed.

Lemma kept_tree_setChanged t b : kept_tree t (setChanged b t).
Proof.
  unfold kept_tree. split_and!; try done.
  intros p r Hr. exists r. split; [done|apply kept_refl].
Qed.

Lemma keepBody_loop_kept fuel conflict t0 t anc n :
  chain t0 anc n → (n ≤ fuel)%nat →
  (∀ p r0, _revsStorage t0 !! p = Some r0 →
     ∃ r, _revsStorage t !! p = Some r ∧ parent r = parent r0) →
  ∃ t', keepBody_loop fuel conflict anc t = Ok t'
    ∧ kept_tree t t'
    ∧ ∀ x : ptr, ¬ valid_ptr t0 x →
        _revsStorage t' !! x = _revsStorage t !! x.
Proof.
  revert t anc n. induction fuel as [|fuel IH]; intros t anc n Hc Hn Hl.
  - inversion Hc; subst; [|lia]. exists t.
    split_and!; [done|apply kept_tree_refl|done].
  - inversion Hc as [|a r0 m Hr0 Hc']; subst.
    + exists t. split_and!; [done|apply kept_tree_refl|done].
    + simpl. destruct (Hl a r0 Hr0) as (r & Hr & Hp).
      rewrite (deref_Some _ _ _ Hr). simpl.
      destruct (conflict && negb (isConflict r)).
      * exists t. split_and!; [done|apply kept_tree_refl|done].
      * set (t1 := update a (clearFlag kKeepBody) t).
        destruct (IH t1 (parent r) m) as (t' & -> & Hk & Hf);
          [by rewrite Hp|lia| |].
        { intros p rp0 Hrp0. destruct (Hl p rp0 Hrp0) as (rp & Hrp & Hpp).
          destruct (decide (p = a)) as [->|Hne].
          - eexists. split; [by apply lookup_update_eq|].
            pose proof (eq_trans (eq_sym Hrp) Hr) as [= ->]. done.
          - exists rp. split; [|done]. unfold t1.
            by rewrite lookup_update_ne. }
        exists t'. split_and!; [done| |].
        -- eapply kept_tree_trans; [|done].
           apply kept_tree_update, kept_clearKeepBody.
        -- intros x Hx. rewrite (Hf x Hx). unfold t1.
           apply lookup_update_ne. intros ->. apply Hx. by exists r0.
Qed.

Lemma links_update t0 t (a : ptr) f :
  (∀ r, parent (f r) = parent r) →
  (∀ p r0, _revsStorage t0 !! p = Some r0 →
     ∃ r, _revsStorage t !! p = Some r ∧ parent r = parent r0) →
  ∀ p r0, _revsStorage t0 !! p = Some r0 →
    ∃ r, _revsStorage (update a f t) !! p = Some r ∧ parent r = parent r0.
Proof.
  intros Hf Hl p r0 Hr0. destruct (Hl p r0 Hr0) as (r & Hr & Hp).
  destruct (decide (p = a)) as [->|Hne].
  - exists (f r). split; [by apply lookup_update_eq|by rewrite Hf].
  - exists r. split; [by rewrite lookup_update_ne|done].
Qed.

Lemma keepBody_kept fuel t0 t (p : ptr) r n :
  _revsStorage t !! p = Some r →
  chain t0 (parent r) n → (n ≤ fuel)%nat →
  (∀ p r0, _revsStorage t0 !! p = Some r0 →
     ∃ r, _revsStorage t !! p = Some r ∧ parent r = parent r0) →
  ∃ t', keepBody fuel t p = Ok t'
    ∧ kept_tree t t'
    ∧ ∀ x : ptr, ¬ valid_ptr t0 x →
        _revsStorage t' !! x
        = _revsStorage (update p (addFlag kKeepBody) t) !! x.
Proof.
  intros Hr Hc Hn Hl. unfold keepBody. rewrite (deref_Some _ _ _ Hr). simpl.
  set (t1 := update p (addFlag kKeepBody) t).
  assert (_revsStorage t1 !! p = Some (addFlag kKeepBody r)) as Hr1
    by by apply lookup_update_eq.
  rewrite (deref_Some _ _ _ Hr1). simpl.
  destruct (keepBody_loop_kept fuel (isConflict (addFlag kKeepBody r))
              t0 t1 (parent r) n Hc Hn) as (t' & -> & Hk & Hf).
  { by apply links_update. }
  simpl. eexists. split; [done|]. split.
  - eapply kept_tree_trans; [apply kept_tree_update, kept_addKeepBody|].
    eapply kept_tree_trans; [done|apply kept_tree_setChanged].
  - intros x Hx. simpl. by apply Hf.
Qed.

Lemma removeBodiesOnBranch_kept fuel t0 t (p : ptr) n :
  chain t0 (Some p) n → (n ≤ fuel)%nat →
  (∀ p r0, _revsStorage t0 !! p = Some r0 →
     ∃ r, _revsStorage t !! p = Some r ∧ parent r = parent r0) →
  ∃ t', removeBodiesOnBranch fuel t p = Ok t'
    ∧ kept_tree t t'
    ∧ ∀ x : ptr, ¬ valid_ptr t0 x →
        _revsStorage t' !! x = _revsStorage t !! x.
Proof.
  revert t p n. induction fuel as [|fuel IH]; intros t p n Hc Hn Hl.
  - inversion Hc; subst. lia.
  - inversion Hc as [|? r0 m Hr0 Hc']; subst. simpl.
    destruct (Hl p r0 Hr0) as (r & Hr & Hp).
    unfold removeBody. rewrite (deref_Some _ _ _ Hr). simpl.
    set (t1 := if bool_decide (is_Some (_body r))
               then setChanged true (update p Rev_removeBody t) else t).
    assert ((if bool_decide (is_Some (_body r))
             then Ok (setChanged true (update p Rev_removeBody t))
             else Ok t) = Ok t1) as ->
      by (unfold t1; by destruct (bool_decide _)).
    simpl.
    assert (kept_tree t t1) as Hk1.
    { unfold t1. destruct (bool_decide _); [|apply kept_tree_refl].
      eapply kept_tree_trans;
        [apply kept_tree_update, kept_removeBody
        |apply kept_tree_setChanged]. }
    assert (∀ q rq0, _revsStorage t0 !! q = Some rq0 →
              ∃ rq, _revsStorage t1 !! q = Some rq
                    ∧ parent rq = parent rq0) as Hl1.
    { unfold t1. destruct (bool_decide _); [|done].
      by apply (links_update t0 t p Rev_removeBody). }
    assert (∀ x : ptr, ¬ valid_ptr t0 x →
              _revsStorage t1 !! x = _revsStorage t !! x) as Hf1.
    { intros x Hx. unfold t1. destruct (bool_decide _); [|done].
      simpl. apply list_lookup_alter_ne. intros ->. apply Hx.
      by exists r0. }
    destruct (Hl1 p r0 Hr0) as (r1 & Hr1 & Hp1).
    rewrite (deref_Some _ _ _ Hr1). simpl. rewrite Hp1.
    destruct (parent r0) as [q|] eqn:Hq.
    + destruct (IH t1 q m Hc') as (t' & -> & Hk & Hf); [lia|done|].
      exists t'. split_and!; [done|by eapply kept_tree_trans|].
      intros x Hx. by rewrite (Hf x Hx), (Hf1 x Hx).
    + exists t1. by split_and!.
Qed.

(** ** What [_insert] does *)

Lemma land_mask f k :
  N.land insertFlagMask k = k → N.land (N.land f insertFlagMask) k = N.land f k.
Proof. intros H. by rewrite <- N.land_assoc, H. Qed.

Lemma _insert_flags_ok fuel t revID0 body parent0 revFlags markConflict x :
  _insert fuel t revID0 body parent0 revFlags markConflict = Ok x →
  _unknown t = false
  ∧ (N.land revFlags kClosed ≠ 0 → N.land revFlags kDeleted ≠ 0).
Proof.
  unfold _insert. rewrite !land_mask by done.
  destruct (N.land revFlags kClosed =? 0) eqn:Hc;
    destruct (N.land revFlags kDeleted =? 0) eqn:Hd; simpl;
    try done; destruct (_unknown t); try done; intros _;
    (split; [done|]); intros Hne.
  - by apply N.eqb_eq in Hc.
  - by apply N.eqb_neq.
  - by apply N.eqb_neq.
Qed.

Lemma newFlags_bits revFlags i :
  N.testbit (N.lor (N.lor kLeaf kNew) (N.land revFlags insertFlagMask)) i
  = N.testbit (N.lor kLeaf kNew) i
    || (N.testbit revFlags i && N.testbit insertFlagMask i).
Proof. by rewrite N.lor_spec, N.land_spec. Qed.

Lemma _insert_post fuel t revID0 body parent0 revFlags markConflict :
  _unknown t = false →
  (∀ pp, parent0 = Some pp → ∃ n, chain t (Some pp) n ∧ (n ≤ fuel)%nat) →
  (N.land revFlags kClosed ≠ 0 → N.land revFlags kDeleted ≠ 0) →
  ∃ t' rnew,
    _insert fuel t revID0 body parent0 revFlags markConflict
    = Ok (t', length (_revsStorage t))
    ∧ _revs t' = _revs t ++ [length (_revsStorage t)]
    ∧ _remoteRevs t' = _remoteRevs t ∧ _unknown t' = false
    ∧ _pruneDepth t' = _pruneDepth t ∧ _changed t' = true
    ∧ length (_revsStorage t') = S (length (_revsStorage t))
    ∧ _revsStorage t' !! length (_revsStorage t) = Some rnew
    ∧ revID rnew = revID0 ∧ parent rnew = parent0 ∧ _body rnew = body
    ∧ sequence rnew = 0
    ∧ isLeaf rnew = true ∧ isNew rnew = true
    ∧ isMarkedForPurge rnew = false
    ∧ (∀ p r, _revsStorage t !! p = Some r →
         ∃ r', _revsStorage t' !! p = Some r'
           ∧ kept (if decide (parent0 = Some p) then clearFlag kLeaf r
                   else r) r').
Proof.
  intros Hk Hpar Hcl. unfold _insert.
  assert ((negb (N.land (N.land revFlags insertFlagMask) kClosed =? 0)
           && (N.land (N.land revFlags insertFlagMask) kDeleted =? 0))
          = false) as ->.
  { rewrite !land_mask by done. apply andb_false_iff.
    destruct (N.land revFlags kClosed =? 0) eqn:Hc; [by left|].
    right. apply N.eqb_neq in Hc. by apply N.eqb_neq, Hcl. }
  rewrite Hk. cbv zeta.
  set (f0 := N.lor (N.lor kLeaf kNew) (N.land revFlags insertFlagMask)).
  set (rev := mkRev revID0 0 parent0 body f0).
  set (new := length (_revsStorage t)).
  set (t1 := setStorage (_revsStorage t ++ [rev]) t).
  destruct (same_links_app t rev) as [Hold Hnew]. fold t1 new in Hold, Hnew.
  assert (¬ valid_ptr t new) as Hfresh.
  { intros [r Hr]. apply lookup_lt_Some in Hr. unfold new in Hr. lia. }
  (* the flags of the new Rev, whatever is added to them *)
  assert (∀ r, revID r = revID0 → parent r = parent0 → _body r = body →
            sequence r = 0 →
            (flags r = f0 ∨ flags r = N.lor f0 kIsConflict
             ∨ flags r = N.lor f0 kKeepBody
             ∨ flags r = N.lor (N.lor f0 kIsConflict) kKeepBody) →
            revID r = revID0 ∧ parent r = parent0 ∧ _body r = body
            ∧ sequence r = 0
            ∧ isLeaf r = true ∧ isNew r = true
            ∧ isMarkedForPurge r = false) as Hflags.
  { intros r ? ? ? ? Hf. split_and!; try done.
    - rewrite isLeaf_bit.
      destruct Hf as [-> | [-> | [-> | ->]]]; unfold f0;
        rewrite !N.lor_spec, N.land_spec; done.
    - rewrite isNew_bit.
      destruct Hf as [-> | [-> | [-> | ->]]]; unfold f0;
        rewrite !N.lor_spec, N.land_spec; done.
    - rewrite isMarked_bit.
      destruct Hf as [-> | [-> | [-> | ->]]]; unfold f0;
        rewrite !N.lor_spec, N.land_spec;
        change (N.testbit insertFlagMask 7) with false;
        by rewrite andb_false_r. }
  set (post := λ (t' : RevTree) (rnew : Rev),
         _revs t' = _revs t ++ [new]
         ∧ _remoteRevs t' = _remoteRevs t ∧ _unknown t' = false
         ∧ _pruneDepth t' = _pruneDepth t ∧ _changed t' = true
         ∧ length (_revsStorage t') = S new
         ∧ _revsStorage t' !! new = Some rnew
         ∧ revID rnew = revID0 ∧ parent rnew = parent0 ∧ _body rnew = body
         ∧ sequence rnew = 0
         ∧ isLeaf rnew = true ∧ isNew rnew = true
         ∧ isMarkedForPurge rnew = false
         ∧ (∀ p r, _revsStorage t !! p = Some r →
              ∃ r', _revsStorage t' !! p = Some r'
                ∧ kept (if decide (parent0 = Some p)
                        then clearFlag kLeaf r else r) r')).
  (* the end of the function, after the branch on the parent *)
  assert (∀ tb t2 rnew,
            (∀ p r, _revsStorage t !! p = Some r →
               _revsStorage tb !! p
               = Some (if decide (parent0 = Some p) then clearFlag kLeaf r
                       else r)) →
            length (_revsStorage tb) = S new → _revs tb = _revs t →
            _remoteRevs tb = _remoteRevs t → _unknown tb = false →
            _pruneDepth tb = _pruneDepth t →
            kept_tree tb t2 → _revsStorage t2 !! new = Some rnew →
            revID rnew = revID0 ∧ parent rnew = parent0 ∧ _body rnew = body
            ∧ sequence rnew = 0
            ∧ isLeaf rnew = true ∧ isNew rnew = true
            ∧ isMarkedForPurge rnew = false →
            let t3 := setChanged true t2 in
            let t4 := if negb (bool_decide (_revs t3 = []))
                      then setSorted false t3 else t3 in
            post (setRevs (_revs t4 ++ [new]) t4) rnew) as Hfinish.
  { intros tb t2 rnew Hb Hlb Hrb Hmb Hub Hdb
      (Hl2 & Hs2 & Hr2 & Hm2 & Hu2 & Hd2 & _) Hn2 Hprops t3 t4.
    assert (_revsStorage t4 = _revsStorage t2) as Hst
      by (unfold t4; by destruct (negb _)).
    assert (_revs t4 = _revs t2) as Hrv
      by (unfold t4; by destruct (negb _)).
    assert (_remoteRevs t4 = _remoteRevs t2) as Hrm
      by (unfold t4; by destruct (negb _)).
    assert (_unknown t4 = _unknown t2) as Hun
      by (unfold t4; by destruct (negb _)).
    assert (_pruneDepth t4 = _pruneDepth t2) as Hpd
      by (unfold t4; by destruct (negb _)).
    assert (_changed t4 = true) as Hch
      by (unfold t4; by destruct (negb _)).
    unfold post. simpl. rewrite Hst, Hrv, Hrm, Hun, Hpd, Hch.
    destruct Hprops as (? & ? & ? & ? & ? & ? & ?).
    split_and!; try congruence.
    intros p r Hr. apply Hs2. by apply Hb. }
  destruct parent0 as [pp|].
  - destruct (Hpar pp eq_refl) as (n & Hc & Hn).
    inversion Hc as [|? prev m Hprev Hc']; subst.
    rewrite (deref_Some t1 pp prev) by (by apply Hold). simpl.
    assert (pp ≠ new) as Hne by (intros ->; apply Hfresh; by exists prev).
    set (ta := if markConflict && _ then _ else t1).
    set (reva := if markConflict && (negb (isLeaf prev) || isConflict prev)
                 then addFlag kIsConflict rev else rev).
    assert (_revsStorage ta !! new = Some reva
            ∧ (∀ (p : ptr) r, _revsStorage t !! p = Some r →
                 _revsStorage ta !! p = Some r)
            ∧ length (_revsStorage ta) = S new
            ∧ _revs ta = _revs t ∧ _remoteRevs ta = _remoteRevs t
            ∧ _unknown ta = false ∧ _pruneDepth ta = _pruneDepth t)
      as (Hna & Holda & Hla & Hra & Hma & Hua & Hda).
    { unfold ta, reva. destruct (markConflict && _).
      - split_and!; try done.
        + by apply lookup_update_eq.
        + intros p r Hr. rewrite lookup_update_ne; [by apply Hold|].
          intros ->. apply Hfresh. by exists r.
        + simpl. rewrite length_alter, length_app. simpl. lia.
      - split_and!; try done. simpl. rewrite length_app. simpl. lia. }
    set (tb := update pp (clearFlag kLeaf) ta).
    assert (∀ (p : ptr) r, _revsStorage t !! p = Some r →
              _revsStorage tb !! p
              = Some (if decide (Some pp = Some p) then clearFlag kLeaf r
                      else r)) as Hb.
    { intros p r Hr. destruct (decide (p = pp)) as [->|Hp].
      - rewrite decide_True by done. apply lookup_update_eq.
        by apply Holda.
      - rewrite decide_False by congruence. unfold tb.
        rewrite lookup_update_ne by done. by apply Holda. }
    assert (_revsStorage tb !! new = Some reva) as Hnb.
    { unfold tb. by rewrite lookup_update_ne. }
    assert (length (_revsStorage tb) = S new) as Hlb.
    { unfold tb. simpl. by rewrite length_alter. }
    assert (∀ p r0, _revsStorage t !! p = Some r0 →
              ∃ r, _revsStorage tb !! p = Some r ∧ parent r = parent r0)
      as Hlinks.
    { intros p r0 Hr0. eexists. split; [by apply Hb|].
      by destruct (decide _). }
    assert (revID reva = revID0 ∧ parent reva = Some pp
            ∧ _body reva = body ∧ sequence reva = 0
            ∧ (flags reva = f0 ∨ flags reva = N.lor f0 kIsConflict))
      as (Hia & Hpa & Hba & Hsa & Hfa).
    { unfold reva. destruct (markConflict && _); simpl;
        split_and!; try done; [by right|by left]. }
    destruct (negb (N.land _ kKeepBody =? 0)).
    + destruct (keepBody_kept fuel t tb new reva (S m) Hnb)
        as (t2 & -> & Hk2 & Hf2); [by rewrite Hpa|done|done|].
      simpl. eexists _, _. split; [reflexivity|].
      apply (Hfinish tb t2 (addFlag kKeepBody reva)); try done.
      * etrans; [exact (Hf2 new Hfresh)|]. by apply lookup_update_eq.
      * apply Hflags; try done. simpl.
        destruct Hfa as [-> | ->]; tauto.
    + destruct (negb (N.land _ kClosed =? 0)).
      * destruct (removeBodiesOnBranch_kept fuel t tb pp (S m))
          as (t2 & -> & Hk2 & Hf2); [done|done|done|].
        simpl. eexists _, _. split; [reflexivity|].
        apply (Hfinish tb t2 reva); try done.
        -- etrans; [exact (Hf2 new Hfresh)|done].
        -- apply Hflags; try done. destruct Hfa as [-> | ->]; tauto.
      * simpl. eexists _, _. split; [reflexivity|].
        apply (Hfinish tb tb reva); try done.
        -- apply kept_tree_refl.
        -- apply Hflags; try done. destruct Hfa as [-> | ->]; tauto.
  - simpl. eexists _, _. split; [reflexivity|].
    set (ta := if markConflict && _ then _ else t1).
    set (reva := if markConflict && negb (bool_decide (_revs t1 = []))
                 then addFlag kIsConflict rev else rev).
    apply (Hfinish ta ta reva).
    + intros p r Hr. unfold ta. destruct (markConflict && _).
      * rewrite lookup_update_ne; [by apply Hold|].
        intros ->. apply Hfresh. by exists r.
      * by apply Hold.
    + unfold ta. destruct (markConflict && _); simpl;
        rewrite ?length_alter, length_app; simpl; lia.
    + unfold ta. by destruct (markConflict && _).
    + unfold ta. by destruct (markConflict && _).
    + unfold ta. by destruct (markConflict && _).
    + unfold ta. by destruct (markConflict && _).
    + apply kept_tree_refl.
    + unfold ta, reva. destruct (markConflict && _); [|done].
      by apply lookup_update_eq.
    + apply Hflags; unfold reva; destruct (markConflict && _); simpl;
        try done; [by right; left|by left].
Qed.

(** ** Looking up a revID *)

Lemma get_loop_total t revs id :
  (∀ p, p ∈ revs → valid_ptr t p) → ∃ o, get_loop t revs id = Ok o.
Proof.
  intros Hv. destruct (get_loop_found t revs id Hv) as (o & Ho & _).
  by exists o.
Qed.

Lemma get_loop_None t revs id :
  (∀ p, p ∈ revs → valid_ptr t p) →
  get_loop t revs id = Ok None
  ↔ ∀ p r, p ∈ revs → _revsStorage t !! p = Some r → revID r ≠ id.
Proof.
  induction revs as [|p revs IH]; intros Hv.
  - split; [|done]. intros _ p r Hin. by apply elem_of_nil in Hin.
  - simpl. destruct (Hv p) as [r Hr]; [apply list_elem_of_here|].
    rewrite (deref_Some _ _ _ Hr). simpl.
    assert (∀ q, q ∈ revs → valid_ptr t q) as Hv'
      by (intros q Hq; apply Hv; by apply list_elem_of_further).
    destruct (decide (revID r = id)) as [E|E].
    + split; [done|]. intros H. exfalso.
      by apply (H p r (list_elem_of_here _ _) Hr).
    + rewrite (IH Hv'). split.
      * intros H q rq Hin Hq.
        apply elem_of_cons in Hin as [->|Hin]; [|by eapply H].
        pose proof (eq_trans (eq_sym Hq) Hr) as [= ->]. done.
      * intros H q rq Hin. apply H. by apply list_elem_of_further.
Qed.

Lemma get_loop_ext t t' revs id :
  (∀ p, p ∈ revs → valid_ptr t p) →
  (∀ p r, _revsStorage t !! p = Some r →
     ∃ r', _revsStorage t' !! p = Some r' ∧ revID r' = revID r) →
  get_loop t' revs id = get_loop t revs id.
Proof.
  intros Hv He. induction revs as [|p revs IH]; [done|].
  simpl. destruct (Hv p) as [r Hr]; [apply list_elem_of_here|].
  destruct (He p r Hr) as (r' & Hr' & Hid).
  rewrite (deref_Some _ _ _ Hr), (deref_Some _ _ _ Hr'). simpl.
  rewrite Hid. destruct (decide (revID r = id)); [done|].
  apply IH. intros q Hq. apply Hv. by apply list_elem_of_further.
Qed.

Lemma get_loop_app t l1 l2 id :
  get_loop t (l1 ++ l2) id
  = (found ← get_loop t l1 id;
     match found with
     | Some p => Ok (Some p)
     | None => get_loop t l2 id
     end).
Proof.
  induction l1 as [|p l1 IH]; simpl.
  - by destruct (get_loop t l2 id).
  - destruct (deref t p) as [r|e]; simpl; [|done].
    by destruct (decide (revID r = id)).
Qed.

Lemma hasNewRevisions_loop_last t revs (new : ptr) rnew :
  (∀ p, p ∈ revs → valid_ptr t p) →
  _revsStorage t !! new = Some rnew → isNew rnew = true →
  hasNewRevisions_loop t (revs ++ [new]) = Ok true.
Proof.
  intros Hv Hn Hf. induction revs as [|p revs IH]; simpl.
  - rewrite (deref_Some _ _ _ Hn). simpl. by rewrite Hf.
  - destruct (Hv p) as [r Hr]; [apply list_elem_of_here|].
    rewrite (deref_Some _ _ _ Hr). simpl.
    destruct (isNew r || (sequence r =? 0)); [done|].
    apply IH. intros q Hq. apply Hv. by apply list_elem_of_further.
Qed.

(** ** [insert] *)

Lemma insert_Some fuel t revID0 body revFlags parent0 allowConflict
    markConflict t' newRev status :
  insert fuel t revID0 body revFlags parent0 allowConflict markConflict
  = Ok (t', Some newRev, status) →
  get t revID0 = Ok None
  ∧ _insert fuel t revID0 body parent0 revFlags markConflict
    = Ok (t', newRev)
  ∧ generation revID0 ≠ 0
  ∧ status = (if negb (N.land revFlags kDeleted =? 0) then 200%Z
              else 201%Z).
Proof.
  unfold insert.
  destruct (generation revID0 =? 0) eqn:Hg; [done|].
  apply N.eqb_neq in Hg.
  destruct (get t revID0) as [[p|]|e]; simpl; try done.
  intros H.
  assert (∀ (gate : result (option N)),
            (gate0 ← gate;
             match gate0 with
             | None => Ok (t, None, 409%Z)
             | Some parentGen =>
                 if negb (generation revID0
                          =? (parentGen + 1) mod uint32_modulus)
                 then Ok (t, None, 400%Z)
                 else
                   '(t', newRev) ← _insert fuel t revID0 body parent0
                                           revFlags markConflict;
                   Ok (t', Some newRev,
                       if negb (N.land revFlags kDeleted =? 0)
                       then 200%Z else 201%Z)
             end) = Ok (t', Some newRev, status) →
            _insert fuel t revID0 body parent0 revFlags markConflict
            = Ok (t', newRev)
            ∧ status = (if negb (N.land revFlags kDeleted =? 0)
                        then 200%Z else 201%Z)) as Hgate.
  { intros [[g|]|e] Hx; simpl in Hx; try done.
    destruct (negb _) in Hx; [done|].
    destruct (_insert fuel t revID0 body parent0 revFlags markConflict)
      as [[t2 p2]|e]; simpl in Hx; [|done].
    by injection Hx as -> -> <-. }
  destruct (Hgate _ H) as [Hi Hs]. by split_and!.
Qed.

(** A Rev that [insert] has added is the one [get] finds under its
    revID; it has the given parent and body and is a new leaf, its parent
    is no longer a leaf, every other revID is found, or not found, as
    before, and the tree has new revisions. *)
Theorem insert_get fuel t revID0 body revFlags parent0 allowConflict
    markConflict t' newRev status :
  (∀ p, p ∈ _revs t → valid_ptr t p) →
  (∀ pp, parent0 = Some pp → ∃ n, chain t (Some pp) n ∧ (n ≤ fuel)%nat) →
  insert fuel t revID0 body revFlags parent0 allowConflict markConflict
  = Ok (t', Some newRev, status) →
  get t' revID0 = Ok (Some newRev)
  ∧ (∃ r, _revsStorage t' !! newRev = Some r
          ∧ revID r = revID0 ∧ parent r = parent0 ∧ _body r = body
          ∧ isLeaf r = true ∧ isNew r = true)
  ∧ (∀ pp rp, parent0 = Some pp → _revsStorage t' !! pp = Some rp →
       isLeaf rp = false)
  ∧ (∀ id, id ≠ revID0 → get t' id = get t id)
  ∧ hasNewRevisions t' = Ok true.
Proof.
  intros Hv Hpar Hins.
  destruct (insert_Some _ _ _ _ _ _ _ _ _ _ _ Hins)
    as (Hget & Hi & Hgen & _).
  destruct (_insert_flags_ok _ _ _ _ _ _ _ _ Hi) as [Hk Hcl].
  destruct (_insert_post fuel t revID0 body parent0 revFlags markConflict
              Hk Hpar Hcl)
    as (t2 & rnew & Hi2 & Hr2 & Hm2 & Hu2 & Hd2 & Hc2 & Hl2 & Hn2 & Hid
        & Hp & Hb & Hs & Hleaf & Hnew & Hmk & Hold).
  rewrite Hi in Hi2. injection Hi2 as <- ->.
  assert (∀ p r, _revsStorage t !! p = Some r →
            ∃ r', _revsStorage t' !! p = Some r' ∧ revID r' = revID r)
    as Hids.
  { intros p r Hr. destruct (Hold p r Hr) as (r' & Hr' & Hk').
    exists r'. split; [done|]. destruct Hk' as (-> & _).
    by destruct (decide _). }
  assert (get_loop t (_revs t) revID0 = Ok None) as Hnone.
  { unfold get in Hget.
    destruct (get_loop t (_revs t) revID0) as [[p|]|e]; try done. }
  split_and!.
  - unfold get. rewrite Hr2, get_loop_app,
      (get_loop_ext t t' (_revs t)) by done.
    rewrite Hnone. simpl. rewrite (deref_Some _ _ _ Hn2). simpl.
    rewrite Hid. by rewrite decide_True.
  - exists rnew. by split_and!.
  - intros pp rp [= ->] Hrp.
    destruct (Hpar pp eq_refl) as (n & Hc & _).
    inversion Hc as [|? prev m Hprev _]; subst.
    destruct (Hold pp prev Hprev) as (r' & Hr' & Hk').
    pose proof (eq_trans (eq_sym Hr') Hrp) as [= ->].
    rewrite decide_True in Hk' by done.
    rewrite isLeaf_bit, (kept_bit _ _ 1 Hk') by done. simpl.
    rewrite N.ldiff_spec. by rewrite andb_false_r.
  - intros id Hne. unfold get.
    rewrite Hr2, get_loop_app,
      (get_loop_ext t t' (_revs t)) by done.
    destruct (get_loop_total t (_revs t) id Hv) as (o & ->). simpl.
    destruct o as [p|]; [done|].
    rewrite (deref_Some _ _ _ Hn2). simpl.
    rewrite Hid, decide_False by done. simpl. by rewrite Hu2, Hk.
  - unfold hasNewRevisions. rewrite Hr2.
    apply (hasNewRevisions_loop_last t' _ _ rnew); try done.
    intros p Hin. destruct (Hv p Hin) as [r Hr].
    destruct (Hold p r Hr) as (r' & Hr' & _). by exists r'.
Qed.

Lemma S1_root_chain pp :
  Some 0%nat = Some pp → ∃ n, chain S1_root (Some pp) n ∧ (n ≤ 8)%nat.
Proof.
  intros [= <-]. exists 1%nat. split; [|lia]. repeat econstructor.
Qed.

Lemma S1_root_valid p : p ∈ _revs S1_root → valid_ptr S1_root p.
Proof.
  simpl. intros Hin.
  repeat (apply elem_of_cons in Hin as [->|Hin]; [by eexists|]).
  by apply elem_of_nil in Hin.
Qed.

Lemma insert_get_witness :
  get S1_tree (mkRevid 2 "b") = Ok (Some 1%nat)
  ∧ (∃ r, _revsStorage S1_tree !! 1%nat = Some r
          ∧ revID r = mkRevid 2 "b" ∧ parent r = Some 0%nat
          ∧ _body r = Some "{x:1}"%string
          ∧ isLeaf r = true ∧ isNew r = true)
  ∧ (∀ pp rp, Some 0%nat = Some pp → _revsStorage S1_tree !! pp = Some rp →
       isLeaf rp = false)
  ∧ (∀ id, id ≠ mkRevid 2 "b" → get S1_tree id = get S1_root id)
  ∧ hasNewRevisions S1_tree = Ok true.
Proof.
  apply (insert_get 8 S1_root (mkRevid 2 "b") (Some "{x:1}"%string)
           kNoFlags (Some 0%nat) false false S1_tree 1%nat 201%Z).
  - apply S1_root_valid.
  - apply S1_root_chain.
  - reflexivity.
Defined.

(** ** The invariant *)

Lemma chain_parents t t' x n :
  (∀ p r, _revsStorage t !! p = Some r →
     ∃ r', _revsStorage t' !! p = Some r' ∧ parent r' = parent r) →
  chain t x n → chain t' x n.
Proof.
  intros Hl Hc. induction Hc as [|p r n Hr _ IH]; [constructor|].
  destruct (Hl p r Hr) as (r' & Hr' & Hp).
  econstructor; [done|]. by rewrite Hp.
Qed.

Lemma kept_clearLeaf r r' (b : bool) :
  kept (if b then clearFlag kLeaf r else r) r' →
  revID r' = revID r ∧ parent r' = parent r
  ∧ isMarkedForPurge r' = isMarkedForPurge r
  ∧ isLeaf r' = (if b then false else isLeaf r).
Proof.
  intros Hk.
  pose proof Hk as (Hid & Hp & _).
  rewrite !isMarked_bit, !isLeaf_bit.
  rewrite (kept_bit _ _ 7 Hk), (kept_bit _ _ 1 Hk) by done.
  destruct b; simpl in *; split_and!; try done.
  - rewrite N.ldiff_spec. by rewrite andb_true_r.
  - rewrite N.ldiff_spec. by rewrite andb_false_r.
Qed.

(** A well-formed tree is still well formed after [insert] has added a
    Rev under a parent that is in the tree: the new Rev is listed last,
    every revID is still held by one Rev only, no parent is a leaf, and
    the remotes are as they were. *)
Theorem insert_keeps_tree_ok fuel t revID0 body revFlags parent0
    allowConflict markConflict t' newRev status :
  tree_ok fuel t →
  (∀ pp, parent0 = Some pp → pp ∈ _revs t) →
  insert fuel t revID0 body revFlags parent0 allowConflict markConflict
  = Ok (t', Some newRev, status) →
  tree_ok (S fuel) t'
  ∧ _revs t' = _revs t ++ [newRev] ∧ _remoteRevs t' = _remoteRevs t.
Proof.
  intros Hok Hin Hins.
  destruct (insert_Some _ _ _ _ _ _ _ _ _ _ _ Hins)
    as (Hget & Hi & Hgen & _).
  destruct (_insert_flags_ok _ _ _ _ _ _ _ _ Hi) as [Hk Hcl].
  assert (∀ pp, parent0 = Some pp →
            ∃ n, chain t (Some pp) n ∧ (n ≤ fuel)%nat) as Hpar.
  { intros pp Hpp. apply (ok_chain _ _ Hok). by apply Hin. }
  destruct (_insert_post fuel t revID0 body parent0 revFlags markConflict
              Hk Hpar Hcl)
    as (t2 & rnew & Hi2 & Hr2 & Hm2 & Hu2 & Hd2 & Hc2 & Hl2 & Hn2 & Hid
        & Hp & Hb & Hs & Hleaf & Hnew & Hmk & Hold).
  rewrite Hi in Hi2. injection Hi2 as <- ->.
  set (new := length (_revsStorage t)) in *.
  split_and!; [|done|done].
  assert (¬ valid_ptr t new) as Hfresh.
  { intros [r Hr]. apply lookup_lt_Some in Hr. unfold new in Hr. lia. }
  assert (new ∉ _revs t) as Hnotin.
  { intros H. by apply Hfresh, (ok_revs _ _ Hok). }
  assert (∀ p r, _revsStorage t !! p = Some r →
            ∃ r', _revsStorage t' !! p = Some r'
              ∧ revID r' = revID r ∧ parent r' = parent r
              ∧ isMarkedForPurge r' = isMarkedForPurge r
              ∧ isLeaf r' = (if bool_decide (parent0 = Some p) then false
                             else isLeaf r)) as Hold'.
  { intros p r Hr. destruct (Hold p r Hr) as (r' & Hr' & Hk').
    exists r'. split; [done|].
    apply (kept_clearLeaf r r' (bool_decide (parent0 = Some p))).
    by destruct (decide (parent0 = Some p));
      [rewrite bool_decide_eq_true_2|rewrite bool_decide_eq_false_2]. }
  assert (∀ p r', p ∈ _revs t → _revsStorage t' !! p = Some r' →
            ∃ r, _revsStorage t !! p = Some r
              ∧ revID r' = revID r ∧ parent r' = parent r
              ∧ isMarkedForPurge r' = isMarkedForPurge r
              ∧ isLeaf r' = (if bool_decide (parent0 = Some p) then false
                             else isLeaf r)) as Hback.
  { intros p r' Hp' Hr'. destruct (ok_revs _ _ Hok p Hp') as [r Hr].
    destruct (Hold' p r Hr) as (r2 & Hr2' & Hrest).
    pose proof (eq_trans (eq_sym Hr2') Hr') as [= ->]. by exists r. }
  assert (∀ x n, chain t x n → chain t' x n) as Hchain.
  { intros x n. apply chain_parents. intros p r Hr.
    destruct (Hold' p r Hr) as (r' & Hr' & _ & Hp' & _). by exists r'. }
  assert (get_loop t (_revs t) revID0 = Ok None) as Hnone.
  { unfold get in Hget.
    destruct (get_loop t (_revs t) revID0) as [[p|]|e]; try done. }
  pose proof (proj1 (get_loop_None t (_revs t) revID0 (ok_revs _ _ Hok))
                Hnone) as Hfree.
  split.
  - done.
  - rewrite Hr2. apply NoDup_app. split_and!.
    + apply (ok_nodup _ _ Hok).
    + intros x Hx Hx'. apply list_elem_of_singleton in Hx' as ->. done.
    + apply NoDup_singleton.
  - intros p. rewrite Hr2, elem_of_app, list_elem_of_singleton.
    intros [Hp'| ->].
    + destruct (ok_revs _ _ Hok p Hp') as [r Hr].
      destruct (Hold' p r Hr) as (r' & Hr' & _). by exists r'.
    + by exists rnew.
  - intros k p Hkp. rewrite Hr2, elem_of_app. left.
    apply (ok_remotes _ _ Hok k). by rewrite <- Hm2.
  - intros p r q. rewrite Hr2, !elem_of_app, !list_elem_of_singleton.
    intros [Hp'| ->] Hr Hq; left.
    + destruct (Hback p r Hp' Hr) as (r0 & Hr0 & _ & Hpp & _).
      apply (ok_parents _ _ Hok p r0 q); [done|done|congruence].
    + pose proof (eq_trans (eq_sym Hr) Hn2) as [= ->].
      apply Hin. congruence.
  - intros p. rewrite Hr2, elem_of_app, list_elem_of_singleton.
    intros [Hp'| ->].
    + destruct (ok_chain _ _ Hok p Hp') as (n & Hc & Hn).
      exists n. split; [by apply Hchain|lia].
    + destruct parent0 as [pp|].
      * destruct (Hpar pp eq_refl) as (n & Hc & Hn).
        exists (S n). split; [|lia].
        econstructor; [done|]. rewrite Hp. by apply Hchain.
      * exists 1%nat. split; [|lia].
        econstructor; [done|]. rewrite Hp. constructor.
  - intros p r. rewrite Hr2, elem_of_app, list_elem_of_singleton.
    intros [Hp'| ->] Hr.
    + destruct (Hback p r Hp' Hr) as (r0 & Hr0 & _ & _ & Hmk0 & _).
      rewrite Hmk0. by apply (ok_unmarked _ _ Hok p).
    + by pose proof (eq_trans (eq_sym Hr) Hn2) as [= ->].
  - intros p r q rq. rewrite Hr2, elem_of_app, list_elem_of_singleton.
    intros [Hp'| ->] Hr Hq Hrq.
    + destruct (Hback p r Hp' Hr) as (r0 & Hr0 & _ & Hpp & _).
      assert (q ∈ _revs t) as Hqin
        by (apply (ok_parents _ _ Hok p r0 q); [done|done|congruence]).
      destruct (Hback q rq Hqin Hrq) as (rq0 & Hrq0 & _ & _ & _ & Hlf).
      rewrite Hlf. case_bool_decide; [done|].
      apply (ok_leaves _ _ Hok p r0 q rq0); [done|done|congruence|done].
    + pose proof (eq_trans (eq_sym Hr) Hn2) as [= ->].
      assert (q ∈ _revs t) as Hqin by (apply Hin; congruence).
      destruct (Hback q rq Hqin Hrq) as (rq0 & Hrq0 & _ & _ & _ & Hlf).
      rewrite Hlf. rewrite bool_decide_eq_true_2; [done|congruence].
  - intros p q rp rq. rewrite Hr2, !elem_of_app, !list_elem_of_singleton.
    intros [Hp'| ->] [Hq'| ->] Hrp Hrq Heq.
    + destruct (Hback p rp Hp' Hrp) as (rp0 & Hrp0 & Hidp & _).
      destruct (Hback q rq Hq' Hrq) as (rq0 & Hrq0 & Hidq & _).
      apply (ok_ids _ _ Hok p q rp0 rq0); try done. congruence.
    + destruct (Hback p rp Hp' Hrp) as (rp0 & Hrp0 & Hidp & _).
      pose proof (eq_trans (eq_sym Hrq) Hn2) as [= ->].
      exfalso. apply (Hfree p rp0 Hp' Hrp0). congruence.
    + destruct (Hback q rq Hq' Hrq) as (rq0 & Hrq0 & Hidq & _).
      pose proof (eq_trans (eq_sym Hrp) Hn2) as [= ->].
      exfalso. apply (Hfree q rq0 Hq' Hrq0). congruence.
    + done.
Qed.

(** A case for each Rev of a tree that is written out. *)
Ltac by_revs Hin tac :=
  simpl in Hin;
  repeat (apply elem_of_cons in Hin as [-> | Hin]; [tac|]);
  by apply elem_of_nil in Hin.

Ltac lookups :=
  repeat (simpl in *; simplify_eq); try done;
  try (apply (bool_decide_unpack _); vm_compute; exact I).

Ltac tree_ok_fields :=
  split;
  [ reflexivity
  | apply (bool_decide_unpack _); vm_compute; exact I
  | intros p Hin; by_revs Hin ltac:(by eexists)
  | intros k p Hk; simpl in Hk; by rewrite lookup_empty in Hk
  | intros p r q Hin Hr Hq; by_revs Hin ltac:(lookups)
  | intros p Hin;
    by_revs Hin ltac:(eexists; split; [repeat econstructor|simpl; lia])
  | intros p r Hin Hr; by_revs Hin ltac:(lookups)
  | intros p r q rq Hin Hr Hq Hrq; by_revs Hin ltac:(lookups)
  | intros p q rp rq Hin Hin' Hrp Hrq Heq;
    by_revs Hin ltac:(by_revs Hin' ltac:(lookups)) ].

Lemma S1_root_ok : tree_ok 8 S1_root.
Proof. tree_ok_fields. Qed.

Lemma S1_tree_ok : tree_ok 8 S1_tree.
Proof. tree_ok_fields. Qed.

Lemma fork_tree_ok : tree_ok 8 fork_tree.
Proof. tree_ok_fields. Qed.

Lemma insert_keeps_tree_ok_witness :
  tree_ok 9 S1_tree
  ∧ _revs S1_tree = _revs S1_root ++ [1%nat]
  ∧ _remoteRevs S1_tree = _remoteRevs S1_root.
Proof.
  apply (insert_keeps_tree_ok 8 S1_root (mkRevid 2 "b")
           (Some "{x:1}"%string) kNoFlags (Some 0%nat) false false
           S1_tree 1%nat 201%Z).
  - apply S1_root_ok.
  - intros pp [= <-]. apply list_elem_of_here.
  - reflexivity.
Defined.

End InsertFacts.

(** * Insertion of a revision with its history *)

Module HistoryFacts.
Import RT RTFacts TreeOps InsertFacts.

Lemma get_total t id :
  _unknown t = false → (∀ p, p ∈ _revs t → valid_ptr t p) →
  ∃ o, get t id = Ok o.
Proof.
  intros Hk Hv. unfold get.
  destruct (get_loop_total t (_revs t) id Hv) as (o & ->). simpl.
  rewrite Hk. destruct o; by eexists.
Qed.

Lemma get_Some t id p :
  get t id = Ok (Some p) →
  p ∈ _revs t ∧ ∃ r, _revsStorage t !! p = Some r ∧ revID r = id.
Proof.
  unfold get. destruct (get_loop t (_revs t) id) as [[q|]|e] eqn:E;
    simpl; try done.
  - intros [= ->]. by apply get_loop_Some.
  - by destruct (_unknown t).
Qed.

Lemma findCommonAncestor_loop_spec t history0 i lastGen :
  _unknown t = false → (∀ p, p ∈ _revs t → valid_ptr t p) →
  ∃ res, findCommonAncestor_loop t history0 i lastGen = Ok res
    ∧ ∀ parent0 j, res = Some (parent0, j) →
        (i ≤ j ≤ i + length history0)%nat
        ∧ (∀ k x, (k < j - i)%nat → history0 !! k = Some x →
             get t x = Ok None)
        ∧ match parent0 with
          | Some p => ∃ x, history0 !! (j - i)%nat = Some x
                           ∧ get t x = Ok (Some p)
          | None => j = (i + length history0)%nat
          end.
Proof.
  intros Hk Hv. revert i lastGen.
  induction history0 as [|h rest IH]; intros i lastGen.
  - eexists. split; [done|]. intros parent0 j [= <- <-]. simpl.
    split_and!; [lia|lia|intros; lia|lia].
  - simpl. destruct (_ && _ && _).
    + eexists. split; [done|]. done.
    + destruct (get_total t h Hk Hv) as (o & Ho). rewrite Ho. simpl.
      destruct o as [p|].
      * eexists. split; [done|]. intros parent0 j [= <- <-].
        split_and!; [lia|lia|intros; lia|].
        exists h. by rewrite Nat.sub_diag.
      * destruct (IH (S i) (generation h)) as (res & -> & Hres).
        exists res. split; [done|]. intros parent0 j Hj.
        destruct (Hres parent0 j Hj) as (Hij & Hbefore & Hat).
        split_and!; [lia|lia| |].
        -- intros k x Hkj Hx. destruct k as [|k]; simpl in Hx.
           ++ by injection Hx as <-.
           ++ apply (Hbefore k x); [lia|done].
        -- destruct parent0 as [p|].
           ++ destruct Hat as (x & Hx & Hg). exists x. split; [|done].
              replace (j - i)%nat with (S (j - S i)) by lia. done.
           ++ lia.
Qed.

Lemma findCommonAncestor_ok t history0 allowConflict parent0 idx :
  _unknown t = false → (∀ p, p ∈ _revs t → valid_ptr t p) →
  findCommonAncestor t history0 allowConflict = Ok (parent0, Z.of_nat idx) →
  (idx ≤ length history0)%nat
  ∧ (∀ k x, (k < idx)%nat → history0 !! k = Some x → get t x = Ok None)
  ∧ match parent0 with
    | Some p => ∃ x r, history0 !! idx = Some x ∧ get t x = Ok (Some p)
                       ∧ _revsStorage t !! p = Some r
                       ∧ (allowConflict = false → isLeaf r = true)
    | None => idx = length history0
              ∧ (allowConflict = false → _revs t = [])
    end.
Proof.
  intros Hk Hv. unfold findCommonAncestor.
  case_bool_decide as Hne; [done|].
  destruct (findCommonAncestor_loop_spec t history0 0 0 Hk Hv)
    as (res & -> & Hres). simpl.
  destruct res as [[parent1 j]|]; [|intros [=]; lia].
  destruct (Hres parent1 j eq_refl) as (Hj & Hbefore & Hat).
  rewrite Nat.sub_0_r in *.
  destruct allowConflict; simpl.
  - intros [= -> Hi]. apply Nat2Z.inj in Hi as ->.
    split_and!; [lia|done|].
    destruct parent0 as [p|]; [|by split].
    destruct Hat as (x & Hx & Hg).
    destruct (get_Some _ _ _ Hg) as (_ & r & Hr & _).
    exists x, r. by split_and!.
  - destruct parent1 as [p|].
    + destruct Hat as (x & Hx & Hg).
      destruct (get_Some _ _ _ Hg) as (_ & r & Hr & _).
      rewrite (deref_Some _ _ _ Hr). simpl.
      destruct (isLeaf r) eqn:Hleaf; simpl; [|intros [=]; lia].
      intros [= <- Hi]. apply Nat2Z.inj in Hi as ->.
      split_and!; [lia|done|]. exists x, r. by split_and!.
    + simpl. case_bool_decide as He; simpl; [|intros [=]; lia].
      intros [= <- Hi]. apply Nat2Z.inj in Hi as ->.
      split_and!; [lia|done|lia|done].
Qed.

(** What [findCommonAncestor] reports: an index that is not negative
    counts the revIDs at the start of the history that the tree does not
    have; the Rev it returns holds the next revID of the history, and it
    returns no Rev when the tree has none of them. When conflicts are not
    allowed, the Rev is a leaf, or there is no Rev and the tree is empty. *)
Theorem findCommonAncestor_spec t history0 allowConflict parent0 idx :
  _unknown t = false → (∀ p, p ∈ _revs t → valid_ptr t p) →
  findCommonAncestor t history0 allowConflict = Ok (parent0, Z.of_nat idx) →
  (idx ≤ length history0)%nat
  ∧ (∀ k x, (k < idx)%nat → history0 !! k = Some x → get t x = Ok None)
  ∧ match parent0 with
    | Some p => ∃ x r, history0 !! idx = Some x ∧ get t x = Ok (Some p)
                       ∧ _revsStorage t !! p = Some r
                       ∧ (allowConflict = false → isLeaf r = true)
    | None => idx = length history0
              ∧ (allowConflict = false → _revs t = [])
    end.
Proof. apply findCommonAncestor_ok. Qed.

Lemma kept_clearLeaf_body {P : Prop} (d : {P} + {¬ P}) r r' :
  kept (if d then clearFlag kLeaf r else r) r' →
  revID r' = revID r ∧ parent r' = parent r
  ∧ (_body r' = _body r ∨ _body r' = None).
Proof.
  intros (Hid & Hp & _ & _ & Hb). by destruct d.
Qed.

Lemma insertHistory_loop_spec fuel history0 markConflict i :
  ∀ t parent0 n0,
    _unknown t = false →
    chain t parent0 n0 → (n0 + i ≤ fuel)%nat →
    (∀ k, (1 ≤ k ≤ i)%nat → is_Some (history0 !! k)) →
    let len := length (_revsStorage t) in
    ∃ t',
      insertHistory_loop fuel history0 i parent0 markConflict t
      = Ok (t', match i with
                | O => parent0
                | S _ => Some (len + i - 1)%nat
                end)
      ∧ _revs t' = _revs t ++ seq len i
      ∧ length (_revsStorage t') = (len + i)%nat
      ∧ _unknown t' = false ∧ _remoteRevs t' = _remoteRevs t
      ∧ chain t' (match i with
                  | O => parent0
                  | S _ => Some (len + i - 1)%nat
                  end) (n0 + i)
      ∧ (∀ k, (k < i)%nat →
           ∃ r, _revsStorage t' !! (len + k)%nat = Some r
             ∧ history0 !! (i - k)%nat = Some (revID r)
             ∧ parent r = match k with
                          | O => parent0
                          | S _ => Some (len + k - 1)%nat
                          end
             ∧ _body r = None)
      ∧ (∀ p r, _revsStorage t !! p = Some r →
           ∃ r', _revsStorage t' !! p = Some r'
             ∧ revID r' = revID r ∧ parent r' = parent r
             ∧ (_body r' = _body r ∨ _body r' = None)).
Proof.
  induction i as [|i IH]; intros t parent0 n0 Hk Hc Hn Hh len.
  - exists t. simpl. rewrite app_nil_r, !Nat.add_0_r.
    split_and!; try done.
    + intros k Hlt. lia.
    + intros p r Hr. exists r. split_and!; try done. by left.
  - destruct (Hh (S i)) as [h Hhi]; [lia|].
    cbn [insertHistory_loop]. rewrite Hhi. simpl.
    destruct (_insert_post fuel t h None parent0 kNoFlags markConflict Hk)
      as (t1 & rnew & -> & Hr1 & Hm1 & Hu1 & Hd1 & Hc1 & Hl1 & Hn1 & Hid
          & Hp & Hb & Hs & Hleaf & Hnew & Hmk & Hold);
      [|by intros H; exfalso; apply H|].
    { intros pp ->. exists n0. split; [exact Hc|]. clear -Hn. lia. }
    simpl. fold len in Hr1, Hl1, Hn1.
    assert (∀ p r, _revsStorage t !! p = Some r →
              ∃ r', _revsStorage t1 !! p = Some r'
                ∧ revID r' = revID r ∧ parent r' = parent r
                ∧ (_body r' = _body r ∨ _body r' = None)) as Hold1.
    { intros p r Hr. destruct (Hold p r Hr) as (r' & Hr' & Hk').
      exists r'. split; [done|].
      exact (kept_clearLeaf_body _ r r' Hk'). }
    assert (chain t1 (Some len) (S n0)) as Hc1'.
    { econstructor; [done|]. rewrite Hp.
      eapply chain_parents; [|done]. intros p r Hr.
      destruct (Hold1 p r Hr) as (r' & Hr' & _ & Hp' & _). by exists r'. }
    destruct (IH t1 (Some len) (S n0) Hu1 Hc1') as
      (t' & Hloop & Hr' & Hl' & Hu' & Hm' & Hc' & Hnew' & Hold');
      [lia|intros k Hk'; apply Hh; lia|].
    rewrite Hl1 in *.
    match type of Hloop with
    | _ = Ok (_, ?x) =>
        assert (x = Some (len + S i - 1)%nat) as Hparent
          by (destruct i; f_equal; lia)
    end.
    rewrite Hparent in *. exists t'. split_and!; try done.
    + rewrite Hr', Hr1, <- app_assoc. done.
    + lia.
    + congruence.
    + by replace (n0 + S i)%nat with (S n0 + i)%nat by lia.
    + intros [|k] Hlt.
      * destruct (Hold' len rnew) as (r' & Hr'' & Hid' & Hp' & Hb');
          [done|].
        exists r'. rewrite Nat.add_0_r, Nat.sub_0_r.
        split_and!; try congruence.
        destruct Hb' as [Hb'|Hb']; [congruence|done].
      * destruct (Hnew' k) as (r & Hr & Hh' & Hp' & Hb'); [lia|].
        exists r. replace (len + S k)%nat with (S len + k)%nat by lia.
        split_and!; try done.
        rewrite Hp'. destruct k; f_equal; lia.
    + intros p r Hr. destruct (Hold1 p r Hr) as (r1 & Hr1' & Hi1 & Hp1 & Hb1).
      destruct (Hold' p r1 Hr1') as (r' & Hr'' & Hi' & Hp' & Hb').
      exists r'. split_and!; try congruence.
      destruct Hb' as [Hb'|Hb']; [|by right].
      rewrite Hb'. done.
Qed.

(** When [findCommonAncestor] finds the first [idx > 0] revIDs of the
    history missing and a body is given, [insertHistory] appends [idx]
    revs: the oldest missing revID under the common ancestor (or as a
    root), each later one under the one before, all without a body but
    the last, which carries the first revID of the history and the body
    and is a leaf. The revs that were in the tree keep their revIDs and
    parents. In every other case the tree is returned as it is. *)
Theorem insertHistory_spec fuel0 fuel t history0 body revFlags
    allowConflict markConflict parent0 idx :
  tree_ok fuel0 t → (fuel0 + idx ≤ fuel)%nat →
  (N.land revFlags kClosed ≠ 0 → N.land revFlags kDeleted ≠ 0) →
  findCommonAncestor t history0 allowConflict
  = Ok (parent0, Z.of_nat idx) →
  let len := length (_revsStorage t) in
  let call := insertHistory fuel t history0 body revFlags allowConflict
                            markConflict in
  (idx = 0%nat ∨ body = None → call = Ok (t, Z.of_nat idx))
  ∧ ((0 < idx)%nat → is_Some body →
     ∃ t', call = Ok (t', Z.of_nat idx)
       ∧ _revs t' = _revs t ++ seq len idx
       ∧ _remoteRevs t' = _remoteRevs t
       ∧ (∀ k, (k < idx)%nat →
            ∃ r, _revsStorage t' !! (len + k)%nat = Some r
              ∧ history0 !! (idx - 1 - k)%nat = Some (revID r)
              ∧ parent r = match k with
                           | O => parent0
                           | S _ => Some (len + k - 1)%nat
                           end
              ∧ (if bool_decide (k = idx - 1)%nat
                 then _body r = body ∧ isLeaf r = true
                 else _body r = None))
       ∧ (∀ p r, _revsStorage t !! p = Some r →
            ∃ r', _revsStorage t' !! p = Some r'
              ∧ revID r' = revID r ∧ parent r' = parent r)).
Proof.
  intros Hok Hfuel Hcl Hfind len call. unfold call, insertHistory.
  rewrite Hfind. simpl.
  pose proof (ok_known _ _ Hok) as Hk.
  destruct (findCommonAncestor_ok t history0 allowConflict parent0 idx
              Hk (ok_revs _ _ Hok) Hfind) as (Hlen & Hmissing & Hat).
  split.
  - intros [-> | ->]; [done|].
    simpl. by rewrite andb_false_r.
  - intros Hpos [b ->].
    rewrite (proj2 (Z.ltb_lt _ _)) by lia. simpl.
    rewrite Nat2Z.id.
    assert (∃ n0, chain t parent0 n0 ∧ (n0 ≤ fuel0)%nat) as (n0 & Hc0 & Hn0).
    { destruct parent0 as [p|]; [|exists 0%nat; split; [constructor|lia]].
      destruct Hat as (x & r & _ & Hg & _).
      destruct (get_Some _ _ _ Hg) as (Hin & _).
      by apply (ok_chain _ _ Hok). }
    destruct (insertHistory_loop_spec fuel history0 markConflict (idx - 1)
                t parent0 n0 Hk Hc0)
      as (t1 & -> & Hr1 & Hl1 & Hu1 & Hm1 & Hc1 & Hnew1 & Hold1); [lia| |].
    { intros k Hk'. apply lookup_lt_is_Some. lia. }
    simpl. fold len in Hr1, Hl1, Hnew1, Hc1.
    destruct (history0 !! 0%nat) as [h0|] eqn:Hh0.
    2:{ apply lookup_ge_None in Hh0. lia. }
    simpl.
    match goal with
    | |- context [_insert fuel t1 h0 (Some b) ?x revFlags markConflict] =>
        set (parent1 := x) in *
    end.
    destruct (_insert_post fuel t1 h0 (Some b) parent1 revFlags
                markConflict Hu1)
      as (t2 & rnew & -> & Hr2 & Hm2 & Hu2 & Hd2 & Hc2 & Hl2 & Hn2 & Hid
          & Hp & Hb & Hs & Hleaf & Hnew & Hmk & Hold2); [|done|].
    { intros pp Hpp. exists (n0 + (idx - 1))%nat. split; [|lia].
      by rewrite <- Hpp. }
    simpl. exists t2. rewrite Hl1 in *.
    assert (∀ p r, _revsStorage t1 !! p = Some r →
              ∃ r', _revsStorage t2 !! p = Some r'
                ∧ revID r' = revID r ∧ parent r' = parent r
                ∧ (_body r' = _body r ∨ _body r' = None)) as Hold2'.
    { intros p r Hr. destruct (Hold2 p r Hr) as (r' & Hr' & Hk').
      exists r'. split; [done|].
      exact (kept_clearLeaf_body _ r r' Hk'). }
    split_and!; try done.
    + rewrite Hr2, Hr1, <- app_assoc. f_equal.
      assert (seq len idx = seq len (idx - 1) ++ [(len + (idx - 1))%nat])
        as -> by (rewrite <- seq_S; f_equal; lia).
      done.
    + congruence.
    + intros k Hlt. destruct (decide (k = idx - 1)%nat) as [->|Hne].
      * exists rnew. rewrite bool_decide_eq_true_2 by done.
        replace (idx - 1 - (idx - 1))%nat with 0%nat by lia.
        split_and!; [done|congruence| |done|done].
        rewrite Hp. unfold parent1. by destruct (idx - 1)%nat.
      * destruct (Hnew1 k) as (r & Hr & Hh & Hpk & Hbk); [lia|].
        destruct (Hold2' _ r Hr) as (r' & Hr' & Hi' & Hp' & Hb').
        exists r'. rewrite bool_decide_eq_false_2 by done.
        split_and!; try congruence.
        destruct Hb' as [Hb'|Hb']; congruence.
    + intros p r Hr.
      destruct (Hold1 p r Hr) as (r1 & Hr1' & Hi1 & Hp1 & _).
      destruct (Hold2' p r1 Hr1') as (r' & Hr' & Hi' & Hp' & _).
      exists r'. split_and!; congruence.
Qed.

Lemma findCommonAncestor_spec_witness :
  (2 ≤ length S1_history)%nat
  ∧ (∀ k x, (k < 2)%nat → S1_history !! k = Some x →
       get S1_root x = Ok None)
  ∧ ∃ x r, S1_history !! 2%nat = Some x ∧ get S1_root x = Ok (Some 0%nat)
           ∧ _revsStorage S1_root !! 0%nat = Some r
           ∧ (false = false → isLeaf r = true).
Proof.
  apply (findCommonAncestor_spec S1_root S1_history false (Some 0%nat) 2).
  - reflexivity.
  - apply S1_root_valid.
  - reflexivity.
Defined.

Lemma insertHistory_spec_witness :
  let len := length (_revsStorage S1_root) in
  let call := insertHistory 10 S1_root S1_history (Some "{y:2}"%string)
                            kNoFlags false false in
  (2%nat = 0%nat ∨ Some "{y:2}"%string = None →
     call = Ok (S1_root, Z.of_nat 2))
  ∧ ((0 < 2)%nat → is_Some (Some "{y:2}"%string) →
     ∃ t', call = Ok (t', Z.of_nat 2)
       ∧ _revs t' = _revs S1_root ++ seq len 2
       ∧ _remoteRevs t' = _remoteRevs S1_root
       ∧ (∀ k, (k < 2)%nat →
            ∃ r, _revsStorage t' !! (len + k)%nat = Some r
              ∧ S1_history !! (2 - 1 - k)%nat = Some (revID r)
              ∧ parent r = match k with
                           | O => Some 0%nat
                           | S _ => Some (len + k - 1)%nat
                           end
              ∧ (if bool_decide (k = 2 - 1)%nat
                 then _body r = Some "{y:2}"%string ∧ isLeaf r = true
                 else _body r = None))
       ∧ (∀ p r, _revsStorage S1_root !! p = Some r →
            ∃ r', _revsStorage t' !! p = Some r'
              ∧ revID r' = revID r ∧ parent r' = parent r)).
Proof.
  apply (insertHistory_spec 8 10 S1_root S1_history (Some "{y:2}"%string)
           kNoFlags false false (Some 0%nat) 2).
  - apply S1_root_ok.
  - lia.
  - intros H. by exfalso.
  - reflexivity.
Defined.

End HistoryFacts.

(** * Sorting and the current revision *)

Module SortFacts.
Import RT RTFacts TreeOps InsertFacts.

Lemma settled_refl r : settled r r.
Proof. by split_and!. Qed.

Lemma settled_trans r1 r2 r3 : settled r1 r2 → settled r2 r3 → settled r1 r3.
Proof.
  intros (?&?&?&?&Ha&Ha') (?&?&?&?&Hb&Hb'). split_and!; try congruence.
  - intros i Hi. by apply Ha, Hb.
  - intros i ? ?. rewrite Hb', Ha'; done.
Qed.

Lemma settled_clearFlag k r :
  k = 4 ∨ k = 5 → settled r (clearFlag (2 ^ k) r).
Proof.
  intros Hk. split_and!; try done; simpl.
  - intros i. rewrite N.ldiff_spec. by intros [? _]%andb_true_iff.
  - intros i ? ?. rewrite N.ldiff_spec, N.pow2_bits_eqb.
    destruct (N.eqb_spec k i) as [<-|]; [by destruct Hk|].
    by rewrite andb_true_r.
Qed.

Lemma settled_tree_refl t : settled_tree t t.
Proof.
  split_and!; try done. intros p r Hr. exists r. split; [done|].
  apply settled_refl.
Qed.

Lemma settled_tree_trans t1 t2 t3 :
  settled_tree t1 t2 → settled_tree t2 t3 → settled_tree t1 t3.
Proof.
  intros (?&Ha&?&?&?&?&?) (?&Hb&?&?&?&?&?). split_and!; try congruence.
  intros p r Hr. destruct (Ha p r Hr) as (r2 & Hr2 & Hk2).
  destruct (Hb p r2 Hr2) as (r3 & Hr3 & Hk3).
  exists r3. split; [done|]. by eapply settled_trans.
Qed.

Lemma settled_tree_update t (p : ptr) f :
  (∀ r, settled r (f r)) → settled_tree t (setChanged true (update p f t)).
Proof.
  intros Hf. split_and!; try done.
  - simpl. by rewrite length_alter.
  - intros x r Hr. destruct (decide (x = p)) as [->|Hne].
    + exists (f r). split; [|done].
      exact (lookup_update_eq t p f r Hr).
    + exists r. split; [|apply settled_refl].
      etrans; [exact (lookup_update_ne t p x f Hne)|done].
Qed.

Lemma settled_same_links t t' : settled_tree t t' → same_links t t'.
Proof.
  intros (Hlen & Hst & _). split; [done|].
  intros p r Hr. destruct (Hst p r Hr) as (r' & Hr' & ? & ? & _).
  by exists r'.
Qed.

Lemma settled_conflict r r' :
  settled r r' → isConflict r = false → isConflict r' = false.
Proof.
  intros (_&_&_&_&Hc&_). rewrite !isConflict_bit. intros Hr.
  destruct (N.testbit (flags r') 5) eqn:Hb; [|done].
  apply Hc in Hb. congruence.
Qed.

Lemma isConflict_clearFlag r : isConflict (clearFlag kIsConflict r) = false.
Proof.
  rewrite isConflict_bit. simpl. rewrite N.ldiff_spec.
  change (N.testbit kIsConflict 5) with true. by rewrite andb_false_r.
Qed.

(** [markBranchAsNotConflict] returns; it only clears [kIsConflict] and
    [kKeepBody]; the Rev it starts at is no conflict afterwards. *)
Lemma markBranchAsNotConflict_ok fuel : ∀ t x n winning keepBodies,
  chain t x n → (n ≤ fuel)%nat →
  ∃ t', markBranchAsNotConflict fuel x winning keepBodies t = Ok t'
    ∧ settled_tree t t'
    ∧ (∀ p r', x = Some p → _revsStorage t' !! p = Some r' →
         isConflict r' = false).
Proof.
  induction fuel as [|fuel IH]; intros t x n winning kb Hc Hn.
  { inversion Hc; subst; [|lia]. exists t. simpl.
    split_and!; [done|apply settled_tree_refl|done]. }
  inversion Hc as [|p r n' Hr Hc' Hx]; subst.
  { exists t. simpl. split_and!; [done|apply settled_tree_refl|done]. }
  simpl. rewrite (deref_Some t p r Hr). simpl.
  (* the tree after the two flag updates of this step *)
  assert (∀ t2, settled_tree t t2 →
            (∃ r2, _revsStorage t2 !! p = Some r2 ∧ isConflict r2 = false) →
            ∀ kb', ∃ t',
              markBranchAsNotConflict fuel (parent r) winning kb' t2 = Ok t'
              ∧ settled_tree t t'
              ∧ (∀ p0 r', Some p = Some p0 → _revsStorage t' !! p0 = Some r' →
                   isConflict r' = false)) as Hrec.
  { intros t2 Hs (r2 & Hr2 & Hc2) kb'.
    destruct (IH t2 (parent r) n' winning kb') as (t' & Ht' & Hs' & _);
      [by eapply chain_same_links; [apply settled_same_links|]|lia|].
    exists t'. split_and!; [done|by eapply settled_tree_trans|].
    intros p0 r' [= <-] Hr'.
    destruct Hs' as (_ & Hst & _).
    destruct (Hst p r2 Hr2) as (r3 & Hr3 & Hk).
    pose proof (eq_trans (eq_sym Hr3) Hr') as [= ->].
    by eapply settled_conflict. }
  assert (∀ t1 r1, settled_tree t t1 → _revsStorage t1 !! p = Some r1 →
            isConflict r1 = false →
            ∃ t', (let '(t2, keepBodies) :=
                     if keepBodyFlag r then
                       if kb then (t1, false)
                       else (setChanged true (update p (clearFlag kKeepBody) t1),
                             kb)
                     else (t1, kb) in
                   markBranchAsNotConflict fuel (parent r) winning
                                           keepBodies t2) = Ok t'
              ∧ settled_tree t t'
              ∧ (∀ p0 r', Some p = Some p0 → _revsStorage t' !! p0 = Some r' →
                   isConflict r' = false)) as Hkeep.
  { intros t1 r1 Hs Hr1 Hc1.
    destruct (keepBodyFlag r); [destruct kb|].
    - apply Hrec; [done|by exists r1].
    - apply Hrec.
      + eapply settled_tree_trans; [done|].
        apply settled_tree_update. intros r0.
        apply (settled_clearFlag 4). by left.
      + exists (clearFlag kKeepBody r1). split.
        * exact (lookup_update_eq t1 p _ r1 Hr1).
        * eapply settled_conflict; [|done].
          apply (settled_clearFlag 4). by left.
    - apply Hrec; [done|by exists r1]. }
  destruct (isConflict r) eqn:Hconf.
  - assert (settled_tree t
              (setChanged true (update p (clearFlag kIsConflict) t))) as Hs.
    { apply settled_tree_update. intros r0.
      apply (settled_clearFlag 5). by right. }
    assert (_revsStorage (setChanged true (update p (clearFlag kIsConflict) t))
              !! p = Some (clearFlag kIsConflict r)) as Hr1.
    { exact (lookup_update_eq t p _ r Hr). }
    destruct winning; simpl.
    + eapply Hkeep; [done|done|apply isConflict_clearFlag].
    + eexists. split_and!; [done|done|].
      intros p0 r' [= <-] Hr'.
      pose proof (eq_trans (eq_sym Hr1) Hr') as [= <-].
      apply isConflict_clearFlag.
  - simpl. eapply Hkeep; [apply settled_tree_refl|done|done].
Qed.

(** [checkForResolvedConflict] returns; it only clears [kIsConflict] and
    [kKeepBody]; in a sorted tree the first Rev is no conflict
    afterwards. *)
Lemma checkForResolvedConflict_ok fuel t :
  (∀ p, head (_revs t) = Some p → ∃ n, chain t (Some p) n ∧ (n ≤ fuel)%nat) →
  ∃ t', checkForResolvedConflict fuel t = Ok t'
    ∧ settled_tree t t'
    ∧ (_sorted t = true → ∀ p r', head (_revs t) = Some p →
         _revsStorage t' !! p = Some r' → isConflict r' = false).
Proof.
  intros Hhead. unfold checkForResolvedConflict.
  destruct (_sorted t) eqn:Hsorted;
    [|exists t; split_and!; [done|apply settled_tree_refl|done]].
  destruct (_revs t) as [|p rest] eqn:Hrevs;
    [exists t; split_and!; [done|apply settled_tree_refl|done]|].
  destruct (Hhead p eq_refl) as (n & Hc & Hn).
  inversion Hc as [|? r n' Hr Hc' Hx]; subst.
  rewrite (deref_Some t p r Hr). simpl.
  destruct (isConflict r) eqn:Hconf.
  - destruct (markBranchAsNotConflict_ok fuel t (Some p) (S n') true true Hc Hn)
      as (t' & Ht' & Hs & Hp).
    exists t'. split_and!; [done|done|].
    intros _ p0 r' [= <-]. by apply Hp.
  - exists t. split_and!; [done|apply settled_tree_refl|].
    intros _ p0 r' [= <-] Hr'.
    pose proof (eq_trans (eq_sym Hr) Hr') as [= <-]. done.
Qed.

(** ** [std::sort] with [compareRevs] *)

Section Sorted.
Variable revid_ltb : revid → revid → bool.

Lemma compareRevs_priority r1 r2 :
  compareRevs revid_ltb r1 r2 = true → (priority r1 ≤ priority r2)%nat.
Proof.
  unfold compareRevs, priority.
  destruct (isLeaf r1), (isLeaf r2), (isConflict r1), (isConflict r2),
    (isDeleted r1), (isDeleted r2), (isClosed r1), (isClosed r2);
    simpl; first [lia | discriminate].
Qed.

Lemma priority_compareRevs r1 r2 :
  (priority r1 < priority r2)%nat → compareRevs revid_ltb r1 r2 = true.
Proof.
  unfold compareRevs, priority.
  destruct (isLeaf r1), (isLeaf r2), (isConflict r1), (isConflict r2),
    (isDeleted r1), (isDeleted r2), (isClosed r1), (isClosed r2);
    simpl; first [lia | reflexivity].
Qed.

Lemma sort_insert_perm x l : sort_insert revid_ltb x l ≡ₚ x :: l.
Proof.
  induction l as [|y l IH]; simpl; [done|].
  destruct (compareRevs revid_ltb y.2 x.2); [|done].
  rewrite IH. apply Permutation_swap.
Qed.

Lemma std_sort_perm l : std_sort revid_ltb l ≡ₚ l.
Proof.
  unfold std_sort. induction l as [|x l IH]; simpl; [done|].
  by rewrite sort_insert_perm, IH.
Qed.

Lemma sort_insert_first x l :
  first_ranked l → first_ranked (sort_insert revid_ltb x l).
Proof.
  destruct l as [|y l]; simpl.
  { intros _ z ->%list_elem_of_singleton. done. }
  intros Hy. destruct (compareRevs revid_ltb y.2 x.2) eqn:Hcmp; simpl.
  - intros z Hz. apply elem_of_cons in Hz as [-> | Hz]; [done|].
    apply (elem_of_Permutation_proper _ _ _ (sort_insert_perm x l)) in Hz.
    apply elem_of_cons in Hz as [-> | Hz].
    + by apply compareRevs_priority.
    + apply Hy. by right.
  - assert (priority x.2 ≤ priority y.2)%nat as Hxy.
    { destruct (decide (priority y.2 < priority x.2)%nat) as [Hlt|]; [|lia].
      apply priority_compareRevs in Hlt. congruence. }
    intros z Hz. apply elem_of_cons in Hz as [-> | Hz]; [done|].
    specialize (Hy z Hz). lia.
Qed.

Lemma std_sort_first l : first_ranked (std_sort revid_ltb l).
Proof.
  unfold std_sort. induction l as [|x l IH]; simpl; [done|].
  by apply sort_insert_first.
Qed.

Lemma mapM_deref t revs :
  (∀ p, p ∈ revs → valid_ptr t p) →
  ∃ l, mapM (λ p, r ← deref t p; Ok (p, r)) revs = Ok l
    ∧ l.*1 = revs
    ∧ ∀ p r, (p, r) ∈ l → _revsStorage t !! p = Some r.
Proof.
  induction revs as [|p revs IH]; intros Hv.
  { exists []. split_and!; [done|done|]. by intros ?? ?%elem_of_nil. }
  destruct (Hv p) as [r Hr]; [by left|].
  destruct IH as (l & Hl & Hfst & Hin); [intros q Hq; apply Hv; by right|].
  exists ((p, r) :: l). split_and!.
  - simpl. rewrite (deref_Some t p r Hr). simpl.
    by rewrite Hl.
  - rewrite fmap_cons. by rewrite Hfst.
  - intros q rq [[= -> ->] | Hq]%elem_of_cons; [done|by apply Hin].
Qed.

(** [currentRevision] of a tree that is not sorted yet: it sorts the
    tree and returns its first Rev. The revs are the same, in another
    order, and nothing of a Rev changes but [kIsConflict] and
    [kKeepBody], which may be cleared. The Rev returned has the
    smallest rank of all (a leaf if there is one, among the leaves one
    that is no conflict, then a live one, then one that is not closed),
    and is no conflict afterwards. An empty tree gives no Rev. *)
Theorem currentRevision_spec fuel t :
  _unknown t = false → _sorted t = false →
  (∀ p, p ∈ _revs t → ∃ n, chain t (Some p) n ∧ (n ≤ fuel)%nat) →
  ∃ t', currentRevision revid_ltb fuel t = Ok (t', head (_revs t'))
    ∧ _revs t' ≡ₚ _revs t
    ∧ _sorted t' = true
    ∧ _remoteRevs t' = _remoteRevs t
    ∧ (∀ p r, _revsStorage t !! p = Some r →
         ∃ r', _revsStorage t' !! p = Some r' ∧ settled r r')
    ∧ (∀ p r r', head (_revs t') = Some p →
         _revsStorage t !! p = Some r → _revsStorage t' !! p = Some r' →
         isConflict r' = false
         ∧ ∀ q rq, q ∈ _revs t → _revsStorage t !! q = Some rq →
             (priority r ≤ priority rq)%nat).
Proof.
  intros Hknown Hsorted Hchain.
  assert (∀ p, p ∈ _revs t → valid_ptr t p) as Hvalid.
  { intros p Hp. destruct (Hchain p Hp) as (n & Hc & _).
    inversion Hc; subst. by eexists. }
  unfold currentRevision, sort. rewrite Hknown, Hsorted.
  destruct (mapM_deref t (_revs t) Hvalid) as (l & Hl & Hfst & Hin).
  rewrite Hl. simpl.
  set (t1 := setSorted true (setRevs (std_sort revid_ltb l).*1 t)).
  assert (_revs t1 ≡ₚ _revs t) as Hperm.
  { simpl. rewrite <- Hfst. apply fmap_Permutation, std_sort_perm. }
  destruct (checkForResolvedConflict_ok fuel t1) as (t' & Ht' & Hs & Hhead).
  { intros p Hp.
    destruct (Hchain p) as (n & Hc & Hn).
    - apply (elem_of_Permutation_proper _ _ _ Hperm).
      by apply head_Some_elem_of.
    - exists n. split; [|done].
      eapply chain_same_links; [|done]. by apply same_links_storage. }
  rewrite Ht'. simpl. exists t'.
  destruct Hs as (Hlen & Hst & Hrevs & Hrem & _ & _ & Hsrt).
  split_and!; [done|by rewrite Hrevs|..].
  - by rewrite Hsrt.
  - by rewrite Hrem.
  - intros p r Hr. by apply (Hst p r).
  - intros p r r' Hp Hr Hr'. rewrite Hrevs in Hp. split.
    + by apply (Hhead eq_refl p r').
    + intros q rq Hq Hrq.
      pose proof (std_sort_first l) as Hfirst.
      simpl in Hp.
      destruct (std_sort revid_ltb l) as [|[p0 r0] sl] eqn:Hsl;
        [done|].
      simpl in Hp. injection Hp as ->.
      assert ((p, r0) ∈ l) as Hp0.
      { apply (elem_of_Permutation_proper _ _ _ (std_sort_perm l)).
        rewrite Hsl. by left. }
      apply Hin in Hp0.
      pose proof (eq_trans (eq_sym Hp0) Hr) as [= ->].
      assert ((q, rq) ∈ l) as Hq0.
      { rewrite <- Hfst in Hq.
        apply list_elem_of_fmap in Hq as ([q' rq'] & -> & Hq).
        pose proof (Hin _ _ Hq) as Hq'. simpl in Hrq.
        pose proof (eq_trans (eq_sym Hq') Hrq) as [= ->]. done. }
      apply (elem_of_Permutation_proper _ _ _ (std_sort_perm l)) in Hq0.
      rewrite Hsl in Hq0. exact (Hfirst _ Hq0).
Qed.

End Sorted.

Lemma currentRevision_spec_witness :
  let ltb := λ a b : revid, generation a <? generation b in
  ∃ t', currentRevision ltb 8 S1_tree = Ok (t', head (_revs t'))
    ∧ _revs t' ≡ₚ _revs S1_tree
    ∧ _sorted t' = true
    ∧ _remoteRevs t' = _remoteRevs S1_tree
    ∧ (∀ p r, _revsStorage S1_tree !! p = Some r →
         ∃ r', _revsStorage t' !! p = Some r' ∧ settled r r')
    ∧ (∀ p r r', head (_revs t') = Some p →
         _revsStorage S1_tree !! p = Some r →
         _revsStorage t' !! p = Some r' →
         isConflict r' = false
         ∧ ∀ q rq, q ∈ _revs S1_tree → _revsStorage S1_tree !! q = Some rq →
             (priority r ≤ priority rq)%nat).
Proof.
  apply (currentRevision_spec (λ a b : revid, generation a <? generation b)
           8 S1_tree).
  - reflexivity.
  - reflexivity.
  - apply (ok_chain _ _ S1_tree_ok).
Defined.

End SortFacts.

(** * Purging a branch *)

Module PurgeFacts.
Import RT RTFacts TreeOps InsertFacts HistoryFacts SortFacts.

Lemma count_ext (f f' : ptr → bool) l :
  (∀ p, p ∈ l → f' p = f p) →
  length (filter (λ p, f' p = false) l)
  = length (filter (λ p, f p = false) l).
Proof.
  induction l as [|x l IH]; intros H; [done|].
  rewrite !filter_cons.
  assert (f' x = f x) as Hx by (apply H; by left).
  assert (length (filter (λ p, f' p = false) l)
          = length (filter (λ p, f p = false) l)) as IH'.
  { apply IH. intros p Hp. apply H. by right. }
  destruct (decide (f' x = false)) as [Ha|Ha],
           (decide (f x = false)) as [Hb|Hb]; simpl; congruence.
Qed.

Lemma count_mark (f f' : ptr → bool) l rev :
  NoDup l → rev ∈ l → f rev = true → f' rev = false →
  (∀ p, p ≠ rev → f' p = f p) →
  length (filter (λ p, f' p = false) l)
  = S (length (filter (λ p, f p = false) l)).
Proof.
  intros Hnd Hin Hf Hf' Hne.
  induction Hnd as [|x l Hx Hnd IH]; [by apply elem_of_nil in Hin|].
  rewrite !filter_cons.
  apply elem_of_cons in Hin as [<- | Hin].
  - rewrite decide_True by done. rewrite decide_False by congruence.
    simpl. f_equal. apply count_ext. intros p Hp. apply Hne.
    intros ->. done.
  - assert (x ≠ rev) as Hxr by (intros ->; done).
    specialize (IH Hin). pose proof (Hne x Hxr) as Hx'.
    destruct (decide (f' x = false)) as [Ha|Ha],
             (decide (f x = false)) as [Hb|Hb]; simpl; congruence.
Qed.

Lemma count_zero (f : ptr → bool) l :
  (∀ p, p ∈ l → f p = true) → length (filter (λ p, f p = false) l) = 0%nat.
Proof.
  induction l as [|x l IH]; intros H; [done|]. rewrite filter_cons.
  rewrite decide_False by (rewrite H; [done|by left]).
  apply IH. intros p Hp. apply H. by right.
Qed.

Lemma count_split (f : ptr → bool) l :
  length l = (length (filter (λ p, f p = true) l)
              + length (filter (λ p, f p = false) l))%nat.
Proof.
  induction l as [|x l IH]; [done|]. rewrite !filter_cons.
  destruct (f x) eqn:Hx.
  - rewrite decide_True by done. rewrite decide_False by done.
    simpl. by rewrite IH.
  - rewrite decide_False by done. rewrite decide_True by done.
    simpl. rewrite IH. lia.
Qed.

Lemma unmarked_update_eq t (p : ptr) f r :
  _revsStorage t !! p = Some r →
  unmarked (update p f t) p = negb (isMarkedForPurge (f r)).
Proof.
  intros Hr. exact (unmarked_Some _ p _ (lookup_update_eq t p f r Hr)).
Qed.

Lemma unmarked_update_ne t (p x : ptr) f :
  x ≠ p → unmarked (update p f t) x = unmarked t x.
Proof.
  intros Hne. unfold unmarked.
  exact (f_equal (from_option _ false) (lookup_update_ne t p x f Hne)).
Qed.

Lemma marked_addLeaf r :
  isMarkedForPurge (addFlag kLeaf r) = isMarkedForPurge r.
Proof.
  rewrite !isMarked_bit. simpl. rewrite N.lor_spec.
  change (N.testbit kLeaf 7) with false. by rewrite orb_false_r.
Qed.

Lemma confirmLeaf_loop_spec t revs q :
  (∀ p, p ∈ revs → valid_ptr t p) →
  ∃ b, confirmLeaf_loop t revs q = Ok b
    ∧ (b = true → ∀ p r, p ∈ revs → _revsStorage t !! p = Some r →
         parent r ≠ Some q).
Proof.
  induction revs as [|x revs IH]; intros Hv.
  { exists true. split; [done|]. by intros _ ?? ?%elem_of_nil. }
  destruct (Hv x) as [rx Hrx]; [by left|].
  simpl. rewrite (deref_Some t x rx Hrx). simpl.
  destruct (decide (parent rx = Some q)) as [Hq|Hq].
  { exists false. by split. }
  destruct IH as (b & Hb & Hall); [intros p Hp; apply Hv; by right|].
  exists b. split; [done|]. intros -> p r Hp Hr.
  apply elem_of_cons in Hp as [-> | Hp].
  - pose proof (eq_trans (eq_sym Hrx) Hr) as [= <-]. done.
  - by apply (Hall eq_refl p r).
Qed.

Lemma same_shape_refl t : same_shape t t.
Proof. by split_and!. Qed.

Lemma same_shape_update t0 t (p : ptr) f :
  same_shape t0 t → same_shape t0 (update p f t).
Proof.
  intros (?&?&?&?&?&?). split_and!; try done. simpl.
  by rewrite length_alter.
Qed.

(** ** One round of the loop of [purge] *)

(** The Rev that is about to be purged is not marked. *)
Lemma purging_rev B F t0 t rev k m r :
  tree_ok F t0 → purging B t0 t rev k m →
  _revsStorage t !! rev = Some r →
  isMarkedForPurge r = false
  ∧ ∃ r0, _revsStorage t0 !! rev = Some r0
          ∧ parent r = parent r0 ∧ revID r = revID r0.
Proof.
  intros Hok Hpg Hr.
  destruct (ok_revs _ _ Hok rev (pg_rev _ _ _ _ _ _ Hpg)) as [r0 Hr0].
  destruct (pg_revs _ _ _ _ _ _ Hpg rev r0 Hr0) as (r' & Hr' & Hcase).
  pose proof (eq_trans (eq_sym Hr') Hr) as [= ->].
  pose proof (ok_unmarked _ _ Hok rev r0 (pg_rev _ _ _ _ _ _ Hpg) Hr0) as Hu.
  destruct Hcase as [-> | [[_ ->] | (Hm & _)]].
  - split; [done|]. by exists r0.
  - split; [by rewrite marked_addLeaf|]. by exists r0.
  - exfalso.
    assert (unmarked t rev = false) as Hum.
    { rewrite (unmarked_Some t rev r Hr). by rewrite Hm. }
    pose proof (pg_deeper _ _ _ _ _ _ Hpg rev m
                  (pg_rev _ _ _ _ _ _ Hpg) Hum (pg_chain _ _ _ _ _ _ Hpg)).
    lia.
Qed.

Lemma purging_mark B F t0 t rev k m r :
  tree_ok F t0 → purging B t0 t rev k m →
  _revsStorage t !! rev = Some r →
  let t1 := update rev (setParent None) (update rev (addFlag kPurge) t) in
  purged B t0 t1 (S k)
  ∧ unmarked t1 rev = false
  ∧ (∀ x, x ≠ rev → _revsStorage t1 !! x = _revsStorage t !! x).
Proof.
  intros Hok Hpg Hr t1.
  destruct (purging_rev B F t0 t rev k m r Hok Hpg Hr)
    as (Hur & r0 & Hr0 & Hpar & Hid).
  assert (_revsStorage t1 !! rev
          = Some (setParent None (addFlag kPurge r))) as Hr1.
  { apply lookup_update_eq. by apply lookup_update_eq. }
  assert (∀ x, x ≠ rev → _revsStorage t1 !! x = _revsStorage t !! x) as Hne.
  { intros x Hx. etrans; [exact (lookup_update_ne _ rev x _ Hx)|].
    exact (lookup_update_ne _ rev x _ Hx). }
  assert (unmarked t1 rev = false) as Hm1.
  { rewrite (unmarked_Some t1 rev _ Hr1).
    change (isMarkedForPurge (setParent None (addFlag kPurge r)))
      with (isMarkedForPurge (addFlag kPurge r)).
    by rewrite marked_addPurge. }
  assert (∀ x, x ≠ rev → unmarked t1 x = unmarked t x) as Hune.
  { intros x Hx. unfold unmarked.
    exact (f_equal (from_option _ false) (Hne x Hx)). }
  destruct (pg_shape _ _ _ _ _ _ Hpg) as (Hrevs & Hsh).
  split_and!; [|done|done].
  split.
  - by do 2 apply same_shape_update.
  - intros p p0 Hp0. destruct (decide (p = rev)) as [-> | Hp].
    + eexists. split; [exact Hr1|]. right.
      pose proof (eq_trans (eq_sym Hr0) Hp0) as [= <-].
      split_and!; [|done|done].
      change (isMarkedForPurge (setParent None (addFlag kPurge r)))
        with (isMarkedForPurge (addFlag kPurge r)).
      apply marked_addPurge.
    + destruct (pg_revs _ _ _ _ _ _ Hpg p p0 Hp0) as (r' & Hr' & Hcase).
      exists r'. split; [etrans; [exact (Hne p Hp)|done]|].
      destruct Hcase as [-> | [[-> _] | Hc]]; [by left|done|by right].
  - rewrite <- (pg_count _ _ _ _ _ _ Hpg). unfold markedCount.
    change (_revs t1) with (_revs t).
    apply (count_mark (unmarked t) (unmarked t1) (_revs t) rev).
    + rewrite Hrevs. apply (ok_nodup _ _ Hok).
    + rewrite Hrevs. apply (pg_rev _ _ _ _ _ _ Hpg).
    + rewrite (unmarked_Some t rev r Hr). by rewrite Hur.
    + done.
    + done.
  - intros d Hd Hmd. destruct (decide (d = rev)) as [-> | Hne'].
    + apply (pg_branch _ _ _ _ _ _ Hpg).
    + apply (pg_marked _ _ _ _ _ _ Hpg d Hd). by rewrite <- Hune.
  - intros p rp q Hp Hrp Hup Hq.
    destruct (decide (p = rev)) as [-> | Hne'].
    { pose proof (eq_trans (eq_sym Hr1) Hrp) as [= <-]. done. }
    assert (_revsStorage t !! p = Some rp) as Hrp'.
    { etrans; [symmetry; exact (Hne p Hne')|done]. }
    destruct (decide (q = rev)) as [-> | Hq'].
    { by destruct (pg_childless _ _ _ _ _ _ Hpg p rp Hp Hrp'). }
    rewrite (Hune q Hq').
    by apply (pg_closed _ _ _ _ _ _ Hpg p rp q).
Qed.

Lemma purging_next B F t0 t rev k m' r q :
  tree_ok F t0 →
  (∀ p r0 q, B p → _revsStorage t0 !! p = Some r0 → parent r0 = Some q →
     B q) →
  purging B t0 t rev k (S m') →
  _revsStorage t !! rev = Some r → parent r = Some q →
  let t1 := update rev (setParent None) (update rev (addFlag kPurge) t) in
  (∀ p rp, p ∈ _revs t1 → _revsStorage t1 !! p = Some rp →
     parent rp ≠ Some q) →
  ∃ rq, _revsStorage t1 !! q = Some rq
    ∧ purging B t0 (update q (addFlag kLeaf) t1) q (S k) m'
    ∧ (∀ d, unmarked (update q (addFlag kLeaf) t1) d = unmarked t1 d).
Proof.
  intros Hok HB Hpg Hr Hq t1 Hnochild.
  destruct (purging_rev B F t0 t rev k (S m') r Hok Hpg Hr)
    as (Hur & r0 & Hr0 & Hpar & Hid).
  destruct (purging_mark B F t0 t rev k (S m') r Hok Hpg Hr)
    as (Hpd & Hm1 & Hne).
  fold t1 in Hpd, Hm1, Hne.
  destruct (pg_shape _ _ _ _ _ _ Hpg) as (Hrevs & Hsh).
  pose proof (pg_rev _ _ _ _ _ _ Hpg) as Hrev.
  (* the parent in the tree before *)
  assert (chain t0 (Some q) m') as Hcq.
  { pose proof (pg_chain _ _ _ _ _ _ Hpg) as Hc.
    inversion Hc as [|? r0' ? Hr0' Hc' Hx]; subst.
    pose proof (eq_trans (eq_sym Hr0) Hr0') as [= <-].
    rewrite <- Hpar, Hq in Hc'. done. }
  assert (q ∈ _revs t0) as Hqin.
  { apply (ok_parents _ _ Hok rev r0 q Hrev Hr0). congruence. }
  assert (q ≠ rev) as Hqrev.
  { intros ->.
    pose proof (chain_functional _ _ _ _ Hcq (pg_chain _ _ _ _ _ _ Hpg)).
    lia. }
  assert (unmarked t q = true) as Huq.
  { destruct (unmarked t q) eqn:Hu; [done|].
    pose proof (pg_deeper _ _ _ _ _ _ Hpg q m' Hqin Hu Hcq). lia. }
  destruct (ok_revs _ _ Hok q Hqin) as [rq0 Hrq0].
  destruct (pg_revs _ _ _ _ _ _ Hpg q rq0 Hrq0) as (rq & Hrq & Hcase).
  assert (rq = rq0) as ->.
  { destruct Hcase as [-> | [[-> _] | (Hm & _)]]; [done|done|].
    rewrite (unmarked_Some t q rq Hrq), Hm in Huq. done. }
  assert (_revsStorage t1 !! q = Some rq0) as Hrq1.
  { etrans; [exact (Hne q Hqrev)|done]. }
  set (t2 := update q (addFlag kLeaf) t1).
  assert (_revsStorage t2 !! q = Some (addFlag kLeaf rq0)) as Hrq2.
  { by apply lookup_update_eq. }
  assert (∀ x, x ≠ q → _revsStorage t2 !! x = _revsStorage t1 !! x) as Hne2.
  { intros x Hx. exact (lookup_update_ne _ q x _ Hx). }
  assert (∀ d, unmarked t2 d = unmarked t1 d) as Hu2.
  { intros d. destruct (decide (d = q)) as [-> | Hd].
    - rewrite (unmarked_Some t2 q _ Hrq2), (unmarked_Some t1 q _ Hrq1).
      by rewrite marked_addLeaf.
    - by apply unmarked_update_ne. }
  assert (∀ d, d ≠ rev → unmarked t1 d = unmarked t d) as Hu1.
  { intros x Hx. unfold unmarked.
    exact (f_equal (from_option _ false) (Hne x Hx)). }
  exists rq0. split_and!; [done| |done].
  split.
  - apply same_shape_update, (pd_shape _ _ _ _ Hpd).
  - intros p p0 Hp0. destruct (decide (p = q)) as [-> | Hp].
    + eexists. split; [exact Hrq2|]. right. left.
      pose proof (eq_trans (eq_sym Hrq0) Hp0) as [= <-]. done.
    + destruct (pd_revs _ _ _ _ Hpd p p0 Hp0) as (r' & Hr' & Hc).
      exists r'. split; [etrans; [exact (Hne2 p Hp)|done]|].
      destruct Hc as [-> | Hc]; [by left|by right; right].
  - rewrite <- (pd_count _ _ _ _ Hpd). unfold markedCount.
    change (_revs t2) with (_revs t1). by apply count_ext.
  - done.
  - by apply (HB rev r0 q (pg_branch _ _ _ _ _ _ Hpg) Hr0); congruence.
  - done.
  - intros d n Hd Hmd Hcd. rewrite Hu2 in Hmd.
    destruct (decide (d = rev)) as [-> | Hne'].
    + pose proof (chain_functional _ _ _ _ Hcd (pg_chain _ _ _ _ _ _ Hpg)).
      lia.
    + rewrite (Hu1 d Hne') in Hmd.
      pose proof (pg_deeper _ _ _ _ _ _ Hpg d n Hd Hmd Hcd). lia.
  - intros d Hd Hmd. rewrite Hu2 in Hmd.
    by apply (pd_marked _ _ _ _ Hpd).
  - intros p rp Hp Hrp. destruct (decide (p = q)) as [-> | Hpq].
    + pose proof (eq_trans (eq_sym Hrq2) Hrp) as [= <-].
      change (parent (addFlag kLeaf rq0)) with (parent rq0).
      apply (Hnochild q rq0); [|done].
      change (_revs t1) with (_revs t). by rewrite Hrevs.
    + apply (Hnochild p rp).
      * change (_revs t1) with (_revs t). by rewrite Hrevs.
      * etrans; [symmetry; exact (Hne2 p Hpq)|done].
  - intros p rp q' Hp Hrp Hup Hq'. rewrite Hu2.
    destruct (decide (p = q)) as [-> | Hpq].
    + pose proof (eq_trans (eq_sym Hrq2) Hrp) as [= <-].
      apply (pd_closed _ _ _ _ Hpd q rq0 q' Hp Hrq1); [|done].
      by rewrite marked_addLeaf in Hup.
    + apply (pd_closed _ _ _ _ Hpd p rp q' Hp); [|done|done].
      etrans; [symmetry; exact (Hne2 p Hpq)|done].
Qed.

(** The loop of [purge] returns, with the number of revs it marked. *)
Lemma purge_loop_ok B F t0 fuel :
  tree_ok F t0 →
  (∀ p r0 q, B p → _revsStorage t0 !! p = Some r0 → parent r0 = Some q →
     B q) →
  ∀ t rev k m, purging B t0 t rev k m → (m ≤ fuel)%nat →
  ∃ t' n, purge_loop fuel t rev (Z.of_nat k) = Ok (t', Z.of_nat n)
    ∧ (k < n)%nat ∧ purged B t0 t' n
    ∧ (∀ d, unmarked t d = false ∨ d = rev → unmarked t' d = false).
Proof.
  intros Hok HB. induction fuel as [|fuel IH]; intros t rev k m Hpg Hm.
  { pose proof (pg_chain _ _ _ _ _ _ Hpg) as Hc. inversion Hc; subst. lia. }
  destruct (ok_revs _ _ Hok rev (pg_rev _ _ _ _ _ _ Hpg)) as [r0 Hr0].
  destruct (pg_revs _ _ _ _ _ _ Hpg rev r0 Hr0) as (r & Hr & _).
  destruct (purging_mark B F t0 t rev k m r Hok Hpg Hr)
    as (Hpd & Hm1 & Hne).
  simpl. rewrite (deref_Some t rev r Hr). simpl.
  replace (Z.of_nat k + 1)%Z with (Z.of_nat (S k)) by lia.
  set (t1 := update rev (setParent None) (update rev (addFlag kPurge) t))
    in *.
  assert (∀ d, unmarked t d = false ∨ d = rev → unmarked t1 d = false)
    as Hmono.
  { intros d [Hd | ->]; [|done].
    destruct (decide (d = rev)) as [-> | Hd']; [done|].
    unfold unmarked. etrans; [|exact Hd].
    exact (f_equal (from_option _ false) (Hne d Hd')). }
  destruct (parent r) as [q|] eqn:Hq;
    [|exists t1, (S k); split_and!; [done|lia|done|done]].
  destruct (confirmLeaf_loop_spec t1 (_revs t1) q) as (b & Hb & Hnochild).
  { intros p Hp. change (_revs t1) with (_revs t) in Hp.
    destruct (pg_shape _ _ _ _ _ _ Hpg) as (Hrevs & _).
    rewrite Hrevs in Hp.
    destruct (ok_revs _ _ Hok p Hp) as [p0 Hp0].
    destruct (pd_revs _ _ _ _ Hpd p p0 Hp0) as (r' & Hr' & _).
    by exists r'. }
  unfold confirmLeaf. rewrite Hb. simpl.
  destruct b; simpl;
    [|exists t1, (S k); split_and!; [done|lia|done|done]].
  destruct m as [|m'].
  { pose proof (pg_chain _ _ _ _ _ _ Hpg) as Hc. inversion Hc. }
  destruct (purging_next B F t0 t rev k m' r q Hok HB Hpg Hr Hq
              (Hnochild eq_refl)) as (rq & Hrq & Hpg2 & Hu2).
  fold t1 in Hrq, Hpg2, Hu2.
  rewrite (deref_Some t1 q rq Hrq). simpl.
  destruct (IH _ q (S k) m' Hpg2) as (t' & n & Hloop & Hkn & Hpd' & Hmono');
    [lia|].
  exists t', n. split_and!; [done|lia|done|].
  intros d Hd. apply Hmono'. left. rewrite Hu2. by apply Hmono.
Qed.

(** ** The whole of [purge] *)

Lemma history_head fuel t q h : history fuel t (Some q) = Ok h → q ∈ h.
Proof.
  destruct fuel as [|fuel]; simpl; [done|].
  destruct (deref t q) as [r|]; simpl; [|done].
  destruct (history fuel t (parent r)) as [h'|]; simpl; [|done].
  intros [= <-]. by left.
Qed.

Lemma history_closed fuel t : ∀ rev h,
  history fuel t rev = Ok h →
  ∀ p r q, p ∈ h → _revsStorage t !! p = Some r → parent r = Some q →
  q ∈ h.
Proof.
  induction fuel as [|fuel IH]; intros [x|] h; simpl; try done.
  - intros [= <-] p r q Hp. by apply elem_of_nil in Hp.
  - destruct (_revsStorage t !! x) as [rx|] eqn:Hrx;
      [rewrite (deref_Some t x rx Hrx)|unfold deref; rewrite Hrx];
      simpl; [|done].
    destruct (history fuel t (parent rx)) as [h'|] eqn:Hh'; simpl; [|done].
    intros [= <-] p r q Hp Hr Hq. right.
    apply elem_of_cons in Hp as [-> | Hp].
    + pose proof (eq_trans (eq_sym Hrx) Hr) as [= ->].
      rewrite Hq in Hh'. by eapply history_head.
    + by apply (IH _ _ Hh' p r q).
  - intros [= <-] p r q Hp. by apply elem_of_nil in Hp.
Qed.

Lemma compact_fields t t' :
  compact t = Ok t' →
  _unknown t' = _unknown t ∧ _pruneDepth t' = _pruneDepth t.
Proof.
  unfold compact. destruct (compact_revs t (_revs t)); simpl; [|done].
  destruct (compact_remotes _ _ _); simpl; [|done].
  by intros [= <-].
Qed.

(** The revs that are left after the loop have their parent chains. *)
Lemma chain_purged B F t0 t1 n x m :
  tree_ok F t0 → purged B t0 t1 n → chain t0 x m →
  (∀ p, x = Some p → p ∈ _revs t0 ∧ unmarked t1 p = true) →
  chain t1 x m.
Proof.
  intros Hok Hpd Hc. induction Hc as [|p r0 m Hr0 Hc IH]; intros Hx.
  { constructor. }
  destruct (Hx p eq_refl) as (Hp & Hup).
  destruct (pd_revs _ _ _ _ Hpd p r0 Hr0) as (r & Hr & Hcase).
  assert (r = r0) as ->.
  { destruct Hcase as [-> | (Hm & _)]; [done|].
    rewrite (unmarked_Some t1 p r Hr), Hm in Hup. done. }
  econstructor; [exact Hr|]. apply IH. intros q Hq. split.
  - by apply (ok_parents _ _ Hok p r0 q).
  - apply (pd_closed _ _ _ _ Hpd p r0 q Hp Hr); [|done].
    rewrite (unmarked_Some t1 p r0 Hr) in Hup.
    by apply negb_true_iff in Hup.
Qed.

(** [purge] of a leaf of a well-formed tree. It returns the number of
    revs it removed, which is at least one. The revs that are left are in
    the order they had; the leaf is not among them and its revID is no
    longer found; every Rev that was removed is the leaf or one of its
    ancestors; the revs that are left are as they were, [kIsConflict] and
    [kKeepBody] apart, which may be cleared; and the tree is well-formed
    again. *)
Theorem purge_spec fuel t leafID rev r :
  tree_ok fuel t → get t leafID = Ok (Some rev) →
  _revsStorage t !! rev = Some r → isLeaf r = true →
  ∃ t' n h, purge fuel t leafID = Ok (t', Z.of_nat n)
    ∧ history fuel t (Some rev) = Ok h
    ∧ (1 ≤ n)%nat
    ∧ length (_revs t) = (length (_revs t') + n)%nat
    ∧ (_revs t' `sublist_of` _revs t)
    ∧ (rev ∉ _revs t')
    ∧ get t' leafID = Ok None
    ∧ (∀ p, p ∈ _revs t → p ∉ _revs t' → p ∈ h)
    ∧ (∀ p r0, p ∈ _revs t' → _revsStorage t !! p = Some r0 →
         ∃ r', _revsStorage t' !! p = Some r' ∧ settled r0 r')
    ∧ tree_ok fuel t'.
Proof.
  intros Hok Hget Hr Hleaf.
  destruct (get_Some t leafID rev Hget) as (Hrev & r_ & Hr_ & Hid).
  pose proof (eq_trans (eq_sym Hr_) Hr) as [= ->].
  destruct (ok_chain _ _ Hok rev Hrev) as (m & Hc & Hm).
  destruct (history_ok fuel t rev m Hc Hm) as (h & Hh & Hhead & _).
  set (B := λ p : ptr, p ∈ h).
  assert (∀ p r0 q, B p → _revsStorage t !! p = Some r0 →
            parent r0 = Some q → B q) as HB.
  { intros p r0 q Hp Hr0 Hq. by apply (history_closed fuel t _ h Hh p r0 q). }
  assert (∀ p, p ∈ _revs t → unmarked t p = true) as Hall.
  { intros p Hp. destruct (ok_revs _ _ Hok p Hp) as [rp Hrp].
    rewrite (unmarked_Some t p rp Hrp).
    by rewrite (ok_unmarked _ _ Hok p rp Hp Hrp). }
  assert (purging B t t rev 0 m) as Hpg.
  { split.
    - apply same_shape_refl.
    - intros p r0 Hr0. exists r0. split; [done|by left].
    - by apply count_zero.
    - done.
    - unfold B. by apply head_Some_elem_of.
    - done.
    - intros d n Hd Hmd. rewrite (Hall d Hd) in Hmd. done.
    - intros d Hd Hmd. rewrite (Hall d Hd) in Hmd. done.
    - intros p rp Hp Hrp Hq.
      pose proof (ok_leaves _ _ Hok p rp rev r Hp Hrp Hq Hr). congruence.
    - intros p rp q Hp Hrp _ Hq. apply Hall.
      by apply (ok_parents _ _ Hok p rp q). }
  destruct (purge_loop_ok B fuel t fuel Hok HB t rev 0 m Hpg Hm)
    as (t1 & n & Hloop & Hn & Hpd & Hmono).
  change (Z.of_nat 0) with 0%Z in Hloop.
  destruct (pd_shape _ _ _ _ Hpd) as (Hrevs1 & Hrem1 & Hunk1 & _).
  assert (∀ p r0, _revsStorage t !! p = Some r0 → unmarked t1 p = true →
            _revsStorage t1 !! p = Some r0) as Hkeep1.
  { intros p r0 Hr0 Hu.
    destruct (pd_revs _ _ _ _ Hpd p r0 Hr0) as (r1 & Hr1 & Hcase).
    destruct Hcase as [-> | (Hm1 & _)]; [done|].
    rewrite (unmarked_Some t1 p r1 Hr1), Hm1 in Hu. done. }
  destruct (compact_filter_ok t1)
    as (t2 & Hcomp & Hrevs2 & Hrem2 & Hst2 & _ & Hsrt2).
  { intros p Hp. rewrite Hrevs1 in Hp.
    destruct (ok_revs _ _ Hok p Hp) as [r0 Hr0].
    destruct (pd_revs _ _ _ _ Hpd p r0 Hr0) as (r1 & Hr1 & _).
    by exists r1. }
  { intros k p Hk. rewrite Hrem1 in Hk.
    destruct (ok_revs _ _ Hok p (ok_remotes _ _ Hok k p Hk)) as [r0 Hr0].
    destruct (pd_revs _ _ _ _ Hpd p r0 Hr0) as (r1 & Hr1 & _).
    by exists r1. }
  destruct (compact_fields t1 t2 Hcomp) as (Hunk2 & _).
  rewrite Hrevs1 in Hrevs2.
  assert (∀ p, p ∈ _revs t2 ↔ p ∈ _revs t ∧ unmarked t1 p = true) as Hsurv.
  { intros p. rewrite Hrevs2, list_elem_of_filter. tauto. }
  assert (∀ p mp, p ∈ _revs t2 → chain t (Some p) mp →
            chain t2 (Some p) mp) as Hchain2.
  { intros p mp Hp Hcp. apply Hsurv in Hp as (Hp & Hup).
    eapply chain_same_links; [by apply same_links_storage|].
    eapply chain_purged; [done|done|done|].
    by intros ? [= <-]. }
  destruct (checkForResolvedConflict_ok fuel t2)
    as (t3 & Hchk & Hs & _).
  { intros p Hp%head_Some_elem_of.
    pose proof Hp as (Hp' & _)%Hsurv.
    destruct (ok_chain _ _ Hok p Hp') as (mp & Hcp & Hmp).
    exists mp. split; [by apply Hchain2|done]. }
  pose proof Hs as (Hlen3 & Hst3 & Hrevs3 & Hrem3 & Hunk3 & _).
  assert (∀ p r0, p ∈ _revs t3 → _revsStorage t !! p = Some r0 →
            ∃ r', _revsStorage t3 !! p = Some r' ∧ settled r0 r') as Hkeep3.
  { intros p r0 Hp Hr0. rewrite Hrevs3 in Hp.
    apply Hsurv in Hp as (Hp & Hup).
    apply (Hst3 p r0). rewrite Hst2. by apply Hkeep1. }
  assert (∀ p r3, p ∈ _revs t3 → _revsStorage t3 !! p = Some r3 →
            ∃ r0, _revsStorage t !! p = Some r0 ∧ settled r0 r3) as Hback.
  { intros p r3 Hp Hr3. pose proof Hp as Hp'. rewrite Hrevs3 in Hp'.
    apply Hsurv in Hp' as (Hp' & _).
    destruct (ok_revs _ _ Hok p Hp') as [r0 Hr0].
    destruct (Hkeep3 p r0 Hp Hr0) as (r' & Hr' & Hk).
    pose proof (eq_trans (eq_sym Hr') Hr3) as [= ->]. by exists r0. }
  assert (∀ p r3 q, p ∈ _revs t3 → _revsStorage t3 !! p = Some r3 →
            parent r3 = Some q → q ∈ _revs t3) as Hparents.
  { intros p r3 q Hp Hr3 Hq.
    destruct (Hback p r3 Hp Hr3) as (r0 & Hr0 & (_ & Hpar & _)).
    rewrite Hrevs3 in Hp |- *. apply Hsurv in Hp as (Hp & Hup).
    apply Hsurv. split.
    - apply (ok_parents _ _ Hok p r0 q Hp Hr0). congruence.
    - apply (pd_closed _ _ _ _ Hpd p r0 q Hp); [by apply Hkeep1| |congruence].
      by apply (ok_unmarked _ _ Hok p r0). }
  assert (rev ∉ _revs t3) as Hgone.
  { rewrite Hrevs3. intros (_ & Hu)%Hsurv.
    rewrite (Hmono rev) in Hu; [done|by right]. }
  assert (_unknown t3 = false) as Hknown3.
  { rewrite Hunk3, Hunk2, Hunk1. apply (ok_known _ _ Hok). }
  assert (∀ p, p ∈ _revs t3 → valid_ptr t3 p) as Hvalid3.
  { intros p Hp. pose proof Hp as Hp'. rewrite Hrevs3 in Hp'.
    apply Hsurv in Hp' as (Hp' & _).
    destruct (ok_revs _ _ Hok p Hp') as [r0 Hr0].
    destruct (Hkeep3 p r0 Hp Hr0) as (r' & Hr' & _). by exists r'. }
  exists t3, n, h. split_and!.
  - unfold purge. rewrite Hget. simpl. rewrite (deref_Some t rev r Hr).
    simpl. rewrite Hleaf. simpl. rewrite Hloop. simpl. rewrite Hcomp.
    simpl. by rewrite Hchk.
  - done.
  - lia.
  - rewrite Hrevs3, Hrevs2.
    rewrite (count_split (unmarked t1) (_revs t)). f_equal.
    rewrite <- (pd_count _ _ _ _ Hpd). unfold markedCount.
    by rewrite Hrevs1.
  - rewrite Hrevs3, Hrevs2. apply sublist_filter.
  - done.
  - unfold get.
    assert (get_loop t3 (_revs t3) leafID = Ok None) as ->.
    { apply get_loop_None; [done|]. intros p r3 Hp Hr3 Hid3.
      destruct (Hback p r3 Hp Hr3) as (r0 & Hr0 & (Hid0 & _)).
      assert (p = rev) as ->; [|done].
      pose proof Hp as Hp'. rewrite Hrevs3 in Hp'.
      apply Hsurv in Hp' as (Hp' & _).
      apply (ok_ids _ _ Hok p rev r0 r Hp' Hrev Hr0 Hr). congruence. }
    simpl. by rewrite Hknown3.
  - intros p Hp Hnp. apply (pd_marked _ _ _ _ Hpd p Hp).
    destruct (unmarked t1 p) eqn:Hu; [|done].
    destruct Hnp. rewrite Hrevs3. by apply Hsurv.
  - done.
  - split.
    + done.
    + rewrite Hrevs3, Hrevs2. apply NoDup_filter, (ok_nodup _ _ Hok).
    + done.
    + intros k p Hk. rewrite Hrem3 in Hk. apply Hrem2 in Hk as (Hk & Hu).
      rewrite Hrem1 in Hk. rewrite Hrevs3. apply Hsurv.
      split; [by apply (ok_remotes _ _ Hok k p)|done].
    + done.
    + intros p Hp. pose proof Hp as Hp'. rewrite Hrevs3 in Hp'.
      pose proof Hp' as (Hp0 & _)%Hsurv.
      destruct (ok_chain _ _ Hok p Hp0) as (mp & Hcp & Hmp).
      exists mp. split; [|done].
      eapply chain_same_links; [|by apply Hchain2].
      by apply settled_same_links.
    + intros p r3 Hp Hr3.
      destruct (Hback p r3 Hp Hr3) as (r0 & Hr0 & (_&_&_&_&_& Hbits)).
      rewrite isMarked_bit, Hbits by done. rewrite <- isMarked_bit.
      rewrite Hrevs3 in Hp. apply Hsurv in Hp as (Hp & _).
      by apply (ok_unmarked _ _ Hok p r0).
    + intros p r3 q rq3 Hp Hr3 Hq Hrq3.
      pose proof (Hparents p r3 q Hp Hr3 Hq) as Hqin.
      destruct (Hback p r3 Hp Hr3) as (r0 & Hr0 & (_ & Hpar & _)).
      destruct (Hback q rq3 Hqin Hrq3) as (rq0 & Hrq0 & (_&_&_&_&_& Hbits)).
      rewrite isLeaf_bit, Hbits by done. rewrite <- isLeaf_bit.
      rewrite Hrevs3 in Hp. apply Hsurv in Hp as (Hp & _).
      apply (ok_leaves _ _ Hok p r0 q rq0 Hp Hr0); [congruence|done].
    + intros p q rp rq Hp Hq Hrp Hrq Hid'.
      destruct (Hback p rp Hp Hrp) as (rp0 & Hrp0 & (Hidp & _)).
      destruct (Hback q rq Hq Hrq) as (rq0 & Hrq0 & (Hidq & _)).
      rewrite Hrevs3 in Hp, Hq.
      apply Hsurv in Hp as (Hp & _). apply Hsurv in Hq as (Hq & _).
      apply (ok_ids _ _ Hok p q rp0 rq0 Hp Hq Hrp0 Hrq0). congruence.
Qed.

Lemma purge_spec_witness :
  ∃ t' n h, purge 8 fork_tree (mkRevid 3 "b") = Ok (t', Z.of_nat n)
    ∧ history 8 fork_tree (Some 3%nat) = Ok h
    ∧ (1 ≤ n)%nat
    ∧ length (_revs fork_tree) = (length (_revs t') + n)%nat
    ∧ (_revs t' `sublist_of` _revs fork_tree)
    ∧ (3%nat ∉ _revs t')
    ∧ get t' (mkRevid 3 "b") = Ok None
    ∧ (∀ p, p ∈ _revs fork_tree → p ∉ _revs t' → p ∈ h)
    ∧ (∀ p r0, p ∈ _revs t' → _revsStorage fork_tree !! p = Some r0 →
         ∃ r', _revsStorage t' !! p = Some r' ∧ settled r0 r')
    ∧ tree_ok 8 t'.
Proof.
  apply (purge_spec 8 fork_tree (mkRevid 3 "b") 3%nat
           (mkRev (mkRevid 3 "b") 4 (Some 1%nat) (Some "{}"%string)
                  (N.lor kLeaf kIsConflict))).
  - apply fork_tree_ok.
  - reflexivity.
  - reflexivity.
  - reflexivity.
Defined.

End PurgeFacts.

(** * One kept body on a branch *)

Module KeepBodyFacts.
Import RT RTFacts TreeOps InsertFacts.

Lemma history_mono fuel : ∀ fuel' t x h,
  history fuel t x = Ok h → (fuel ≤ fuel')%nat → history fuel' t x = Ok h.
Proof.
  induction fuel as [|fuel IH]; intros fuel' t [p|] h; simpl; try done.
  - intros [= <-] _. by destruct fuel'.
  - destruct fuel' as [|fuel']; [lia|]. simpl.
    destruct (deref t p) as [r|]; simpl; [|done].
    destruct (history fuel t (parent r)) as [h'|] eqn:Hh'; simpl; [|done].
    intros [= <-] Hle. rewrite (IH fuel' t (parent r) h' Hh'); [done|lia].
  - intros [= <-] _. by destruct fuel'.
Qed.

Lemma keepBody_clearFlag r : keepBodyFlag (clearFlag kKeepBody r) = false.
Proof.
  rewrite keepBody_bit. simpl. rewrite N.ldiff_spec.
  change (N.testbit kKeepBody 4) with true. by rewrite andb_false_r.
Qed.

Lemma keepBody_addFlag r : keepBodyFlag (addFlag kKeepBody r) = true.
Proof.
  rewrite keepBody_bit. simpl. rewrite N.lor_spec.
  change (N.testbit kKeepBody 4) with true. by rewrite orb_true_r.
Qed.

Lemma isConflict_addKeepBody r :
  isConflict (addFlag kKeepBody r) = isConflict r.
Proof.
  rewrite !isConflict_bit. simpl. rewrite N.lor_spec.
  change (N.testbit kKeepBody 5) with false. by rewrite orb_false_r.
Qed.

(** Off a conflict branch the loop of [keepBody] clears [kKeepBody] on
    every ancestor it is given, and touches no other Rev. *)
Lemma keepBody_loop_clears t0 fuel : ∀ t x h,
  history fuel t0 x = Ok h → NoDup h →
  (∀ p, p ∈ h → _revsStorage t !! p = _revsStorage t0 !! p) →
  ∃ t', keepBody_loop fuel false x t = Ok t'
    ∧ (∀ p r0, p ∈ h → _revsStorage t0 !! p = Some r0 →
         _revsStorage t' !! p = Some (clearFlag kKeepBody r0))
    ∧ (∀ p, p ∉ h → _revsStorage t' !! p = _revsStorage t !! p).
Proof.
  induction fuel as [|fuel IH]; intros t [a|] h; simpl; try done.
  - intros [= <-] _ _. exists t. split_and!; [done| |done].
    by intros ?? ?%elem_of_nil.
  - destruct (_revsStorage t0 !! a) as [r0|] eqn:Hr0;
      [rewrite (deref_Some t0 a r0 Hr0)|unfold deref; rewrite Hr0];
      simpl; [|done].
    destruct (history fuel t0 (parent r0)) as [h'|] eqn:Hh'; simpl; [|done].
    intros [= <-] Hnd Hsame.
    apply NoDup_cons in Hnd as (Ha & Hnd).
    assert (_revsStorage t !! a = Some r0) as Hr.
    { etrans; [apply Hsame; by left|done]. }
    rewrite (deref_Some t a r0 Hr). simpl.
    set (t1 := update a (clearFlag kKeepBody) t).
    destruct (IH t1 (parent r0) h' Hh' Hnd) as (t' & Ht' & Hin & Hout).
    { intros p Hp. etrans; [|apply Hsame; by right].
      apply lookup_update_ne. intros ->. done. }
    exists t'. split_and!; [done| |].
    + intros p rp [-> | Hp]%elem_of_cons Hrp.
      * pose proof (eq_trans (eq_sym Hr0) Hrp) as [= <-].
        etrans; [by apply Hout|]. by apply lookup_update_eq.
      * by apply Hin.
    + intros p Hp. apply not_elem_of_cons in Hp as (Hpa & Hp).
      etrans; [by apply Hout|]. by apply lookup_update_ne.
  - intros [= <-] _ _. exists t. split_and!; [done| |done].
    by intros ?? ?%elem_of_nil.
Qed.

Lemma ldiff_lor_same f k : N.ldiff (N.lor f k) k = N.ldiff f k.
Proof.
  apply N.bits_inj. intros i. rewrite !N.ldiff_spec, N.lor_spec.
  by destruct (N.testbit f i), (N.testbit k i).
Qed.

Lemma ldiff_ldiff_same f k : N.ldiff (N.ldiff f k) k = N.ldiff f k.
Proof.
  apply N.bits_inj. intros i. rewrite !N.ldiff_spec.
  by destruct (N.testbit f i), (N.testbit k i).
Qed.

Lemma only_keepBody_refl r : only_keepBody r r.
Proof. by split_and!. Qed.

Lemma only_keepBody_add r : only_keepBody r (addFlag kKeepBody r).
Proof. split_and!; try done. simpl. apply ldiff_lor_same. Qed.

Lemma only_keepBody_clear r : only_keepBody r (clearFlag kKeepBody r).
Proof. split_and!; try done. simpl. apply ldiff_ldiff_same. Qed.

(** [keepBody] of a Rev that is no conflict: the Rev has [kKeepBody]
    afterwards and none of its ancestors has; a Rev that is not in the
    history of the Rev is as it was; of every Rev nothing changes but the
    flag [kKeepBody] (revID, parent, sequence, body and the other flags
    stay); the lists of the tree stay as they are, and the tree counts
    as changed. *)
Theorem keepBody_exclusive fuel t rev r n :
  chain t (Some rev) n → (n ≤ fuel)%nat →
  _revsStorage t !! rev = Some r → isConflict r = false →
  ∃ t' h, keepBody fuel t rev = Ok t'
    ∧ history fuel t (Some rev) = Ok h
    ∧ (∀ p r', p ∈ h → _revsStorage t' !! p = Some r' →
         keepBodyFlag r' = bool_decide (p = rev))
    ∧ (∀ p, p ∉ h → _revsStorage t' !! p = _revsStorage t !! p)
    ∧ (∀ p r0, _revsStorage t !! p = Some r0 →
         ∃ r', _revsStorage t' !! p = Some r' ∧ only_keepBody r0 r')
    ∧ _changed t' = true
    ∧ kept_tree t t'.
Proof.
  intros Hc Hn Hr Hconf.
  destruct (history_ok fuel t rev n Hc Hn) as (h & Hh & _ & _ & Hnd & _).
  inversion Hc as [|? r_ m Hr_ Hc' Hx]; subst.
  pose proof (eq_trans (eq_sym Hr_) Hr) as [= ->].
  destruct (keepBody_kept fuel t t rev r m Hr Hc') as (t' & Ht' & Hk & _);
    [lia|by intros p r0 Hr0; exists r0|].
  destruct (history_chain fuel t (parent r) m Hc')
    as (h' & Hh' & _ & _ & Hnth); [lia|].
  assert (h = rev :: h') as ->.
  { destruct fuel as [|fuel]; [lia|].
    simpl in Hh. rewrite (deref_Some t rev r Hr) in Hh. simpl in Hh.
    destruct (history fuel t (parent r)) as [h2|] eqn:Hh2; simpl in Hh;
      [|done].
    injection Hh as <-.
    apply (history_mono fuel (S fuel)) in Hh2; [|lia]. congruence. }
  apply NoDup_cons in Hnd as (Hrev & Hnd).
  set (t1 := update rev (addFlag kKeepBody) t).
  assert (_revsStorage t1 !! rev = Some (addFlag kKeepBody r)) as Hr1
    by (by apply lookup_update_eq).
  destruct (keepBody_loop_clears t fuel t1 (parent r) h' Hh' Hnd)
    as (t2 & Ht2 & Hin & Hout);
    [intros p Hp; apply lookup_update_ne; by intros ->|].
  assert (t' = setChanged true t2) as ->.
  { unfold keepBody in Ht'. rewrite (deref_Some t rev r Hr) in Ht'.
    cbn [mbind result_bind] in Ht'. fold t1 in Ht'.
    rewrite (deref_Some t1 rev _ Hr1) in Ht'.
    cbn [mbind result_bind] in Ht'.
    change (parent (addFlag kKeepBody r)) with (parent r) in Ht'.
    rewrite isConflict_addKeepBody, Hconf, Ht2 in Ht'.
    cbn [mbind result_bind] in Ht'. congruence. }
  assert (_revsStorage (setChanged true t2) !! rev
          = Some (addFlag kKeepBody r)) as Hrev2.
  { simpl. etrans; [by apply Hout|done]. }
  exists (setChanged true t2), (rev :: h').
  split_and!; [done|done| | | |done|done].
  - intros p r' [-> | Hp]%elem_of_cons Hr'.
    + rewrite bool_decide_eq_true_2 by done.
      pose proof (eq_trans (eq_sym Hrev2) Hr') as [= <-].
      apply keepBody_addFlag.
    + rewrite bool_decide_eq_false_2 by (by intros ->).
      pose proof Hp as (i & Hi)%list_elem_of_lookup.
      pose proof (Hnth i p Hi) as Hcp.
      inversion Hcp as [|? rp ? Hrp Hcp' Hx]; subst.
      simpl in Hr'. rewrite (Hin p rp Hp Hrp) in Hr'.
      injection Hr' as <-. apply keepBody_clearFlag.
  - intros p Hp. apply not_elem_of_cons in Hp as (Hprev & Hp).
    simpl. etrans; [by apply Hout|]. by apply lookup_update_ne.
  - intros p r0 Hr0. destruct (decide (p = rev)) as [-> | Hne].
    { pose proof (eq_trans (eq_sym Hr0) Hr) as [= ->].
      eexists. split; [exact Hrev2|]. apply only_keepBody_add. }
    destruct (decide (p ∈ h')) as [Hp | Hp].
    + exists (clearFlag kKeepBody r0). split; [by apply Hin|].
      apply only_keepBody_clear.
    + exists r0. split; [|apply only_keepBody_refl].
      simpl. etrans; [by apply Hout|].
      etrans; [by apply lookup_update_ne|done].
Qed.

Lemma keepBody_exclusive_witness :
  ∃ t' h, keepBody 8 fork_tree 2%nat = Ok t'
    ∧ history 8 fork_tree (Some 2%nat) = Ok h
    ∧ (∀ p r', p ∈ h → _revsStorage t' !! p = Some r' →
         keepBodyFlag r' = bool_decide (p = 2%nat))
    ∧ (∀ p, p ∉ h → _revsStorage t' !! p = _revsStorage fork_tree !! p)
    ∧ (∀ p r0, _revsStorage fork_tree !! p = Some r0 →
         ∃ r', _revsStorage t' !! p = Some r' ∧ only_keepBody r0 r')
    ∧ _changed t' = true
    ∧ kept_tree fork_tree t'.
Proof.
  apply (keepBody_exclusive 8 fork_tree 2%nat
           (mkRev (mkRevid 3 "a") 3 (Some 1%nat) (Some "{}"%string) kLeaf) 3).
  - repeat econstructor.
  - lia.
  - reflexivity.
  - reflexivity.
Defined.

(** ** Removing the bodies of a branch *)

Lemma stripped_removeBody r : stripped r (Rev_removeBody r).
Proof.
  split_and!; try done. destruct r. simpl. by intros ->.
Qed.

(** [RevTree::removeBody]: a Rev that has no body is not touched. *)
Lemma removeBody_at t (p : ptr) r :
  _revsStorage t !! p = Some r →
  ∃ t' r', removeBody t p = Ok t'
    ∧ _revsStorage t' !! p = Some r' ∧ stripped r r'
    ∧ ∀ q, q ≠ p → _revsStorage t' !! q = _revsStorage t !! q.
Proof.
  intros Hr. unfold removeBody. rewrite (deref_Some t p r Hr). simpl.
  case_bool_decide as Hb.
  - eexists _, _. split_and!; [done| | |].
    + exact (lookup_update_eq t p _ r Hr).
    + apply stripped_removeBody.
    + intros q Hq. exact (lookup_update_ne t p q _ Hq).
  - assert (_body r = None) as Hnone.
    { destruct (_body r); [|done]. destruct Hb. by eexists. }
    exists t, r. by split_and!.
Qed.

Lemma removeBodiesOnBranch_clears t0 fuel : ∀ t p h,
  history fuel t0 (Some p) = Ok h → NoDup h →
  (∀ q, q ∈ h → _revsStorage t !! q = _revsStorage t0 !! q) →
  ∃ t', removeBodiesOnBranch fuel t p = Ok t'
    ∧ (∀ q r0, q ∈ h → _revsStorage t0 !! q = Some r0 →
         ∃ r', _revsStorage t' !! q = Some r' ∧ stripped r0 r')
    ∧ (∀ q, q ∉ h → _revsStorage t' !! q = _revsStorage t !! q).
Proof.
  induction fuel as [|fuel IH]; intros t p h; simpl; [done|].
  destruct (_revsStorage t0 !! p) as [r0|] eqn:Hr0;
    [rewrite (deref_Some t0 p r0 Hr0)|unfold deref; rewrite Hr0];
    simpl; [|done].
  destruct (history fuel t0 (parent r0)) as [h'|] eqn:Hh'; simpl; [|done].
  intros [= <-] Hnd Hsame.
  apply NoDup_cons in Hnd as (Hp & Hnd).
  assert (_revsStorage t !! p = Some r0) as Hr.
  { etrans; [apply Hsame; by left|done]. }
  destruct (removeBody_at t p r0 Hr) as (t1 & r1 & Ht1 & Hr1 & Hs1 & Hne1).
  rewrite Ht1. simpl. rewrite (deref_Some t1 p _ Hr1). simpl.
  destruct Hs1 as (Hb1 & Hid1 & Hpar1 & Hsame1). rewrite Hpar1.
  destruct (parent r0) as [q|] eqn:Hq.
  - destruct (IH t1 q h' Hh' Hnd) as (t' & Ht' & Hin & Hout).
    { intros x Hx. etrans; [|apply Hsame; by right].
      apply Hne1. by intros ->. }
    exists t'. split_and!; [done| |].
    + intros x rx [-> | Hx]%elem_of_cons Hrx.
      * pose proof (eq_trans (eq_sym Hr0) Hrx) as [= <-].
        exists r1. split; [etrans; [by apply Hout|done]|].
        split_and!; try done. congruence.
      * by apply Hin.
    + intros x Hx. apply not_elem_of_cons in Hx as (Hxp & Hx).
      etrans; [by apply Hout|]. by apply Hne1.
  - assert (h' = []) as ->.
    { destruct fuel; simpl in Hh'; congruence. }
    exists t1. split_and!; [done| |].
    + intros x rx ->%list_elem_of_singleton Hrx.
      pose proof (eq_trans (eq_sym Hr0) Hrx) as [= <-].
      exists r1. split; [done|]. split_and!; try done. congruence.
    + intros x Hx. apply not_elem_of_cons in Hx as (Hxp & _).
      by apply Hne1.
Qed.

(** [removeBodiesOnBranch] leaves the Rev and each of its ancestors
    without a body, with the revID and the parent it had, and does not
    touch those of them that had no body; a Rev outside the history of
    the Rev, the list of revs and the remotes are as before. *)
Theorem removeBodiesOnBranch_spec fuel t p n :
  chain t (Some p) n → (n ≤ fuel)%nat →
  ∃ t' h, removeBodiesOnBranch fuel t p = Ok t'
    ∧ history fuel t (Some p) = Ok h
    ∧ (∀ q r0, q ∈ h → _revsStorage t !! q = Some r0 →
         ∃ r', _revsStorage t' !! q = Some r'
           ∧ _body r' = None ∧ revID r' = revID r0
           ∧ parent r' = parent r0 ∧ (_body r0 = None → r' = r0))
    ∧ (∀ q, q ∉ h → _revsStorage t' !! q = _revsStorage t !! q)
    ∧ _revs t' = _revs t ∧ _remoteRevs t' = _remoteRevs t.
Proof.
  intros Hc Hn.
  destruct (history_ok fuel t p n Hc Hn) as (h & Hh & _ & _ & Hnd & _).
  destruct (removeBodiesOnBranch_clears t fuel t p h Hh Hnd)
    as (t' & Ht' & Hin & Hout); [done|].
  destruct (removeBodiesOnBranch_kept fuel t t p n Hc Hn)
    as (t2 & Ht2 & Hk & _); [by intros q r0 Hr0; exists r0|].
  assert (t2 = t') as -> by congruence.
  destruct Hk as (_ & _ & Hrevs & Hrem & _).
  exists t', h. split_and!; try done.
Qed.

Lemma removeBodiesOnBranch_spec_witness :
  ∃ t' h, removeBodiesOnBranch 8 fork_tree 2%nat = Ok t'
    ∧ history 8 fork_tree (Some 2%nat) = Ok h
    ∧ (∀ q r0, q ∈ h → _revsStorage fork_tree !! q = Some r0 →
         ∃ r', _revsStorage t' !! q = Some r'
           ∧ _body r' = None ∧ revID r' = revID r0
           ∧ parent r' = parent r0 ∧ (_body r0 = None → r' = r0))
    ∧ (∀ q, q ∉ h → _revsStorage t' !! q = _revsStorage fork_tree !! q)
    ∧ _revs t' = _revs fork_tree
    ∧ _remoteRevs t' = _remoteRevs fork_tree.
Proof.
  apply (removeBodiesOnBranch_spec 8 fork_tree 2%nat 3).
  - repeat econstructor.
  - lia.
Defined.

End KeepBodyFacts.

(** * Positions in the list of revs *)

Module IndexFacts.
Import RT RTFacts TreeOps.

Lemma index_loop_lookup (revs : list ptr) : ∀ i p,
  NoDup revs → revs !! i = Some p → index_loop revs p = Some i.
Proof.
  induction revs as [|q revs IH]; intros i p Hnd Hi; [done|].
  apply NoDup_cons in Hnd as (Hq & Hnd). simpl.
  destruct i as [|i]; simpl in Hi.
  - injection Hi as ->. by rewrite decide_True.
  - rewrite decide_False.
    + by rewrite (IH i p Hnd Hi).
    + intros ->. apply Hq. by eapply list_elem_of_lookup_2.
Qed.

Lemma index_loop_absent (revs : list ptr) p :
  p ∉ revs → index_loop revs p = None.
Proof.
  induction revs as [|q revs IH]; intros Hp; [done|].
  apply not_elem_of_cons in Hp as (Hpq & Hp). simpl.
  rewrite decide_False by done. by rewrite IH.
Qed.

(** [Rev::index] is the inverse of [RevTree::get(unsigned)]: the Rev at
    position [i] of a tree that lists every Rev once has the index [i],
    and [Rev::next] gives the Rev at position [i + 1], or none when [i]
    is the last position. A Rev that the tree does not list has no index:
    the assertion of [Rev::index] fails. *)
Theorem index_getAt t i p :
  _unknown t = false → NoDup (_revs t) → _revs t !! i = Some p →
  getAt t i = Ok p ∧ index t p = Ok i
  ∧ next t p = Ok (_revs t !! S i)
  ∧ ∀ q, q ∉ _revs t → index t q = Throw AssertionFailed.
Proof.
  intros Hk Hnd Hi.
  assert (index t p = Ok i) as Hidx.
  { unfold index. by rewrite (index_loop_lookup _ i p Hnd Hi). }
  split_and!.
  - unfold getAt. by rewrite Hk, Hi.
  - done.
  - unfold next. rewrite Hidx. simpl. case_bool_decide as Hlt.
    + destruct (lookup_lt_is_Some_2 (_revs t) (S i) Hlt) as [q Hq].
      unfold getAt. by rewrite Hk, Hq.
    + rewrite lookup_ge_None_2; [done|lia].
  - intros q Hq. unfold index. by rewrite index_loop_absent.
Qed.

Lemma index_getAt_witness :
  getAt fork_tree 1 = Ok 3%nat ∧ index fork_tree 3%nat = Ok 1%nat
  ∧ next fork_tree 3%nat = Ok (_revs fork_tree !! 2%nat)
  ∧ ∀ q, q ∉ _revs fork_tree → index fork_tree q = Throw AssertionFailed.
Proof.
  apply (index_getAt fork_tree 1 3%nat).
  - reflexivity.
  - apply (bool_decide_unpack _). vm_compute. exact I.
  - reflexivity.
Defined.

End IndexFacts.

(** * The common ancestor of two revisions *)

Module AncestorFacts.
Import RT RTFacts TreeOps InsertFacts Upgrade.

Lemma commonAncestor_loop_spec walk t a (ha : list ptr) :
  (∀ p, isAncestorOf walk t p a = Ok (bool_decide (p ∈ ha))) →
  ∀ fuel x hb, history fuel t x = Ok hb →
  commonAncestor_loop fuel walk t a x
  = Ok (head (filter (λ p, p ∈ ha) hb)).
Proof.
  intros Hanc. induction fuel as [|fuel IH]; intros [p|] hb; simpl;
    try done; try by intros [= <-].
  rewrite Hanc. simpl.
  destruct (deref t p) as [r|]; simpl; [|done].
  destruct (history fuel t (parent r)) as [h'|] eqn:Hh'; simpl; [|done].
  intros [= <-]. rewrite filter_cons.
  case_bool_decide as Hp.
  - by rewrite decide_True.
  - rewrite decide_False by done. by apply IH.
Qed.

(** [commonAncestor(a, b)] is the first Rev of the history of [b], which
    starts with [b], that is also in the history of [a]; there is none
    when the two histories share no Rev. *)
Theorem commonAncestor_spec fuel t a b n m :
  chain t (Some a) n → (n ≤ fuel)%nat →
  chain t (Some b) m → (m ≤ fuel)%nat →
  ∃ ha hb, history fuel t (Some a) = Ok ha
    ∧ history fuel t (Some b) = Ok hb
    ∧ commonAncestor fuel t (Some a) (Some b)
      = Ok (head (filter (λ p, p ∈ ha) hb)).
Proof.
  intros Ha Hn Hb Hm.
  destruct (history_ok fuel t a n Ha Hn) as (ha & Hha & _ & _ & _ & Hanc).
  destruct (history_ok fuel t b m Hb Hm) as (hb & Hhb & _).
  exists ha, hb. split_and!; [done|done|].
  unfold commonAncestor. by apply commonAncestor_loop_spec.
Qed.

Lemma commonAncestor_spec_witness :
  ∃ ha hb, history 8 fork_tree (Some 2%nat) = Ok ha
    ∧ history 8 fork_tree (Some 3%nat) = Ok hb
    ∧ commonAncestor 8 fork_tree (Some 2%nat) (Some 3%nat)
      = Ok (head (filter (λ p, p ∈ ha) hb)).
Proof.
  apply (commonAncestor_spec 8 fork_tree 2%nat 3%nat 3 3).
  - repeat econstructor.
  - lia.
  - repeat econstructor.
  - lia.
Defined.

End AncestorFacts.
